(** * The emulated-asynchronous retrieval scheduler of lib/mqi.js

    A shallow embedding of the part of [lib/mqi.js] that implements
    [Get] / [GetDone]: the context registry ([contextMap]), the
    per-connection gate ([hConnsInUse]), the fairness picker
    ([pollAllHConns], [pollPerHconn], [pollHobjs]) and the retrieval
    attempt executor ([pollHObj] and the completion callback of
    [MQGET.async]).

    JavaScript runs every function to completion on one thread; what is
    deferred ([setTimeout], [setImmediate], the completion of an
    asynchronous FFI call) is kept in an explicit list of pending jobs, and
    one step of the model runs one pending job, or one call made by the
    application. *)

From Stdlib Require Import ZArith Lia Ascii String.
From Stdlib Require DecimalString.
From stdpp Require Import base tactics option numbers list strings pretty gmap functions.

Local Open Scope Z_scope.

(** ** Constants *)

(** Modelled from the spec: [mqidefs.js] (the [MQC] table) is not part of the
    sources; the constants the scheduler reads are given the values of the
    IBM MQ header [cmqc.h], which [mqidefs.js] transcribes.  The source's own
    comment on [pollHObj] names 2033 as the code the application receives
    when the wait interval expires. *)
Module MQC.
Definition MQCC_OK : Z := 0.
Definition MQCC_FAILED : Z := 2.
Definition MQRC_NONE : Z := 0.
Definition MQRC_HOBJ_ERROR : Z := 2019.
Definition MQRC_NO_MSG_AVAILABLE : Z := 2033.
Definition MQRC_TRUNCATED_MSG_FAILED : Z := 2080.
Definition MQWI_UNLIMITED : Z := -1.
Definition MQGMO_WAIT : Z := 1.
Definition MQGMO_ACCEPT_TRUNCATED_MSG : Z := 64.
End MQC.

(** [const maxBufSize = 100 * 1024 * 1024; const defaultBufSize = 10240;] *)
Definition maxBufSize : Z := 100 * 1024 * 1024.
Definition defaultBufSize : Z := 10240.

Definition getLoopPollTimeMsMin : Z := 0.
Definition getLoopPollTimeMsDefault : Z := 10 * 1000.
Definition getLoopDelayTimeMsDefault : Z := 250.
Definition maxConsecutiveGetsDefault : Z := 100.

(** ** Numbers

    A JavaScript number is an IEEE 754 double: [NaN], an infinity, or a
    finite value, which is a whole number [m] times a power [e] of two.
    The model does not bound [m] and [e], so every double is among the
    values of the type. *)
Inductive JsNum :=
| JsNaN
| JsInf (negative : bool)
| JsFin (m e : Z).

Definition JsNum_of_Z (z : Z) : JsNum := JsFin z 0.

(** [n < x] and [n <= x] for a whole number [n]: a comparison with [NaN]
    is false. *)
Definition lt_number (n : Z) (x : JsNum) : bool :=
  match x with
  | JsNaN => false
  | JsInf negative => negb negative
  | JsFin m e => if 0 <=? e then n <? m * 2 ^ e else n * 2 ^ (- e) <? m
  end.

Definition le_number (n : Z) (x : JsNum) : bool :=
  match x with
  | JsNaN => false
  | JsInf negative => negb negative
  | JsFin m e => if 0 <=? e then n <=? m * 2 ^ e else n * 2 ^ (- e) <=? m
  end.

(** [mqitypes.js] ([MQT]) is not part of the sources: [MQT.LONG] is the
    32-bit signed integer of [ref], whose cells ([ref.alloc(MQT.LONG,v)],
    an element of an [mqLongArray]) are written with [Buffer.writeInt32LE]
    or [writeInt32BE].  The write throws [RangeError] for a number above
    2147483647 or below -2147483648, an infinity included, and stores the
    whole part of any other number, and 0 for [NaN].  [None] is the
    exception. *)
Definition writeInt32 (x : JsNum) : option Z :=
  match x with
  | JsNaN => Some 0
  | JsInf _ => None
  | JsFin m e =>
      if 0 <=? e then
        let v := m * 2 ^ e in
        if (2147483647 <? v) || (v <? -2147483648) then None else Some v
      else
        let d := 2 ^ (- e) in
        if (2147483647 * d <? m) || (m <? -2147483648 * d) then None
        else Some (Z.quot m d)
  end.

(** [var tuningParameters = {...}]: the numeric fields the scheduler reads
    and the switch of the long-call monitor.  [setTuningParameters] takes
    any number for [maxConsecutiveGets], at any time; the two delays are
    whole milliseconds and, like the switch of the monitor, stay as the
    application set them before the run. *)
Record TuningParameters := mkTuning {
  maxConsecutiveGets : JsNum;
  getLoopPollTimeMs : Z;
  getLoopDelayTimeMs : Z;
  debugLongCalls : bool
}.

Definition tuningDefault : TuningParameters :=
  {| maxConsecutiveGets := JsNum_of_Z maxConsecutiveGetsDefault;
     getLoopPollTimeMs := getLoopPollTimeMsDefault;
     getLoopDelayTimeMs := getLoopDelayTimeMsDefault;
     debugLongCalls := false |}.

(** ** Handles, structures and contexts *)

(** [function MQQueueManager(hConn,name)] and
    [function MQObject(hObj,mqQueueManager,name)].  The scheduler only reads
    the handles; the verbs that overwrite them ([Disc], [Close]) are outside
    the model, so the objects are immutable values here. *)
Record MQQueueManager := mkQMgr { _hConn : Z; _qmName : string }.
Record MQObject := mkObject {
  _hObj : Z;
  _mqQueueManager : MQQueueManager;
  _name : string
}.

Definition hConnOf (o : MQObject) : Z := _hConn (_mqQueueManager o).

(** Modelled from the spec: [mqgmo.js] and [mqmd.js] are not part of the
    sources.  The get-message options carry the two fields the scheduler
    reads and writes ([Options], [WaitInterval]), the buffer that [initGet]
    copies ([MsgToken]) and [MatchOptions] as a representative of the fields
    the scheduler never touches. *)
Record MQGMO := mkGMO {
  Options : Z;
  WaitInterval : Z;
  MatchOptions : Z;
  MsgToken : list Z
}.

(** Modelled from the spec: the message descriptor, with the five buffers
    [initGet] copies. *)
Record MQMD := mkMD {
  Format : list Z;
  CorrelId : list Z;
  MsgId : list Z;
  GroupId : list Z;
  AccountingToken : list Z
}.

Definition MQGMO_new : MQGMO :=
  {| Options := 0; WaitInterval := 0; MatchOptions := 0; MsgToken := [] |}.
Definition MQMD_new : MQMD :=
  {| Format := []; CorrelId := []; MsgId := []; GroupId := [];
     AccountingToken := [] |}.

Definition gmo_set_Options (v : Z) (g : MQGMO) : MQGMO :=
  {| Options := v; WaitInterval := WaitInterval g;
     MatchOptions := MatchOptions g; MsgToken := MsgToken g |}.
Definition gmo_set_WaitInterval (v : Z) (g : MQGMO) : MQGMO :=
  {| Options := Options g; WaitInterval := v;
     MatchOptions := MatchOptions g; MsgToken := MsgToken g |}.

(** [function MQError(mqcc,mqrc,verb)]: the three fields set from the
    arguments. *)
Record MQError := mkError { mqcc : Z; mqrc : Z; verb : string }.

(** User callbacks are opaque JavaScript functions; the model names them. *)
Definition CbId := nat.

(** Contexts are JavaScript objects shared between the registry and the
    closures of [pollHObj]; the model keeps them in a store and passes
    references. *)
Definition CtxRef := nat.

Inductive CtxState := running | waiting.

Global Instance CtxState_eq_dec : EqDecision CtxState.
Proof. solve_decision. Defined.

(** [function UserContext(o,cb)].  [buf] is the length of the allocated
    [Buffer], [None] for [null]; [ctx_WaitInterval] is the field
    [WaitInterval] of the context (the record [MQGMO] owns the plain
    name). *)
Record UserContext := mkCtx {
  cb : CbId;
  object : MQObject;
  ctx_WaitInterval : Z;
  WaitStartTime : Z;
  jsgmo : MQGMO;
  jsmd : MQMD;
  buf : option Z;
  bufSize : Z;
  state : CtxState;
  retrieved : Z
}.

(** The constructor leaves [jsgmo] and [jsmd] [null]; [Get] assigns them
    before it returns, so no other code observes the placeholders, which
    are the empty structures here. *)
Definition UserContext_new (o : MQObject) (f : CbId) (now : Z) : UserContext :=
  {| cb := f; object := o; ctx_WaitInterval := 0; WaitStartTime := now;
     jsgmo := MQGMO_new; jsmd := MQMD_new; buf := None;
     bufSize := defaultBufSize; state := running; retrieved := 0 |}.

Definition ctx_set_WaitInterval (v : Z) (c : UserContext) : UserContext :=
  {| cb := cb c; object := object c; ctx_WaitInterval := v;
     WaitStartTime := WaitStartTime c; jsgmo := jsgmo c; jsmd := jsmd c;
     buf := buf c; bufSize := bufSize c; state := state c;
     retrieved := retrieved c |}.
Definition ctx_set_WaitStartTime (v : Z) (c : UserContext) : UserContext :=
  {| cb := cb c; object := object c; ctx_WaitInterval := ctx_WaitInterval c;
     WaitStartTime := v; jsgmo := jsgmo c; jsmd := jsmd c;
     buf := buf c; bufSize := bufSize c; state := state c;
     retrieved := retrieved c |}.
Definition ctx_set_jsgmo (v : MQGMO) (c : UserContext) : UserContext :=
  {| cb := cb c; object := object c; ctx_WaitInterval := ctx_WaitInterval c;
     WaitStartTime := WaitStartTime c; jsgmo := v; jsmd := jsmd c;
     buf := buf c; bufSize := bufSize c; state := state c;
     retrieved := retrieved c |}.
Definition ctx_set_jsmd (v : MQMD) (c : UserContext) : UserContext :=
  {| cb := cb c; object := object c; ctx_WaitInterval := ctx_WaitInterval c;
     WaitStartTime := WaitStartTime c; jsgmo := jsgmo c; jsmd := v;
     buf := buf c; bufSize := bufSize c; state := state c;
     retrieved := retrieved c |}.
Definition ctx_set_buf (v : option Z) (c : UserContext) : UserContext :=
  {| cb := cb c; object := object c; ctx_WaitInterval := ctx_WaitInterval c;
     WaitStartTime := WaitStartTime c; jsgmo := jsgmo c; jsmd := jsmd c;
     buf := v; bufSize := bufSize c; state := state c;
     retrieved := retrieved c |}.
Definition ctx_set_bufSize (v : Z) (c : UserContext) : UserContext :=
  {| cb := cb c; object := object c; ctx_WaitInterval := ctx_WaitInterval c;
     WaitStartTime := WaitStartTime c; jsgmo := jsgmo c; jsmd := jsmd c;
     buf := buf c; bufSize := v; state := state c;
     retrieved := retrieved c |}.
Definition ctx_set_state (v : CtxState) (c : UserContext) : UserContext :=
  {| cb := cb c; object := object c; ctx_WaitInterval := ctx_WaitInterval c;
     WaitStartTime := WaitStartTime c; jsgmo := jsgmo c; jsmd := jsmd c;
     buf := buf c; bufSize := bufSize c; state := v;
     retrieved := retrieved c |}.
Definition ctx_set_retrieved (v : Z) (c : UserContext) : UserContext :=
  {| cb := cb c; object := object c; ctx_WaitInterval := ctx_WaitInterval c;
     WaitStartTime := WaitStartTime c; jsgmo := jsgmo c; jsmd := jsmd c;
     buf := buf c; bufSize := bufSize c; state := state c;
     retrieved := v |}.

(** ** The adaptive buffer size *)

(** On [MQRC_TRUNCATED_MSG_FAILED]:
    [c.bufSize = c.bufSize * 2; if (c.bufSize > maxBufSize) c.bufSize = maxBufSize]. *)
Definition growBufSize (bufSize : Z) : Z :=
  let b := bufSize * 2 in
  if b >? maxBufSize then maxBufSize else b.

(** After a delivery:
    [if (c.bufSize > defaultBufSize && ((c.bufSize * 90) / 100 > jsDatalen))
       { c.bufSize = Math.floor((c.bufSize * 90) / 100);
         if (c.bufSize < defaultBufSize) c.bufSize = defaultBufSize; }].
    The division of the test is a division of JavaScript numbers (not
    rounded): for integers [(b * 90) / 100 > d] is [b * 90 > d * 100];
    [Math.floor] of the same quotient is the floor division of [Z]. *)
Definition shrinkBufSize (bufSize jsDatalen : Z) : Z :=
  if (bufSize >? defaultBufSize) && (bufSize * 90 >? jsDatalen * 100) then
    let b := (bufSize * 90) / 100 in
    if b <? defaultBufSize then defaultBufSize else b
  else bufSize.

(** ** The registry: a JavaScript [Map] from key strings to contexts

    A [Map] iterates in insertion order and [set] on a key already present
    keeps its position; [values()] feeds the shuffle of the picker, so the
    order is kept: the map is an association list. *)
Section JsMap.
Context {V : Type}.

Fixpoint Map_set (k : string) (v : V) (m : list (string * V)) : list (string * V) :=
  match m with
  | [] => [(k, v)]
  | (k', v') :: m' =>
      if String.eqb k k' then (k, v) :: m' else (k', v') :: Map_set k v m'
  end.

Fixpoint Map_get (k : string) (m : list (string * V)) : option V :=
  match m with
  | [] => None
  | (k', v') :: m' => if String.eqb k k' then Some v' else Map_get k m'
  end.

Fixpoint Map_delete (k : string) (m : list (string * V)) : list (string * V) :=
  match m with
  | [] => []
  | (k', v') :: m' =>
      if String.eqb k k' then Map_delete k m' else (k', v') :: Map_delete k m'
  end.

Definition Map_size (m : list (string * V)) : Z := Z.of_nat (length m).
Definition Map_values (m : list (string * V)) : list V := map snd m.
Definition Map_keys (m : list (string * V)) : list string := map fst m.
End JsMap.

(** [function getKey(jsObject)]: [hConn + "/" + hObj], or [null] for a
    missing object.  Handles are integers, printed in decimal. *)
Definition getKey (jsObject : option MQObject) : option string :=
  match jsObject with
  | Some o => Some (pretty (hConnOf o) +:+ "/" +:+ pretty (_hObj o))
  | None => None
  end.

(** ** Pending jobs, observations and the state of the module *)

(** The arguments of one [libmqm.MQGET.async] call. *)
Record MQGETCall := mkCall {
  call_hConn : Z;
  call_hObj : Z;
  call_Options : Z;
  call_WaitInterval : Z;
  call_bufflen : Z
}.

(** What the event loop holds for later: the functions passed to
    [setTimeout] and [setImmediate] and the completion callbacks of calls
    running in the FFI thread pool.  [JVerb] and [JVerbCall] stand for the
    other verb wrappers ([Put], [Put1], [Open], [Sub]), which take the same
    gate: [JVerb hc] is their [...Internal] closure waiting for the gate of
    [hc], [JVerbCall hc] their asynchronous call in flight. *)
Inductive Job :=
| JPollAllHConns
| JPollPerHconn (hConn : Z)
| JPollHObjInternal (c : CtxRef) (jsmd : MQMD) (jsgmo : MQGMO)
| JMQGET (c : CtxRef) (jsmd : MQMD) (jsgmo : MQGMO) (call : MQGETCall)
| JVerb (hc : Z)
| JVerbCall (hc : Z).

(** One invocation of a user callback: the arguments as the source passes
    them ([null] is [None]; the data is the length of the slice), and what
    the callback can observe of the module when it is entered. *)
Record Invocation := mkInv {
  inv_cb : CbId;
  inv_ctx : option CtxRef;
  inv_err : option MQError;
  inv_object : option MQObject;
  inv_jsgmo : option MQGMO;
  inv_jsmd : option MQMD;
  inv_data : option Z;
  inv_time : Z;
  inv_registered : list string;
  inv_scheduledGetLoop : bool;
  inv_getLoop : option Z
}.

(** The observable history, newest first: the picks the source writes to
    its debug log ("About to work on ...") and the callback invocations. *)
Inductive Obs :=
| ObsPick (c : CtxRef)
| ObsCall (i : Invocation).

(** The module-level variables of [mqi.js] that the scheduler uses,
    together with the clock [Date.now()], the pending jobs, the values
    [Math.random()] will return and the history.  [getLoop] holds a
    [Timeout] object, which the source only compares with [null]; it is
    represented by the time at which the timer is due. *)
Record State := mkState {
  clock : Z;
  tuningParameters : TuningParameters;
  store : CtxRef -> UserContext;
  nextRef : CtxRef;
  contextMap : list (string * CtxRef);
  hConnsInUse : gmap Z Z;
  hConnsInPoll : gset Z;
  messagesRetrievedInHConnPoll : Z;
  getLoop : option Z;
  scheduledGetLoop : bool;
  pending : list (Z * Job);
  entropy : list nat;
  trace : list Obs
}.

Definition set_clock (v : Z) (s : State) : State :=
  {| clock := v;
     tuningParameters := tuningParameters s;
     store := store s;
     nextRef := nextRef s;
     contextMap := contextMap s;
     hConnsInUse := hConnsInUse s;
     hConnsInPoll := hConnsInPoll s;
     messagesRetrievedInHConnPoll := messagesRetrievedInHConnPoll s;
     getLoop := getLoop s;
     scheduledGetLoop := scheduledGetLoop s;
     pending := pending s;
     entropy := entropy s;
     trace := trace s |}.
Definition set_tuningParameters (v : TuningParameters) (s : State) : State :=
  {| clock := clock s;
     tuningParameters := v;
     store := store s;
     nextRef := nextRef s;
     contextMap := contextMap s;
     hConnsInUse := hConnsInUse s;
     hConnsInPoll := hConnsInPoll s;
     messagesRetrievedInHConnPoll := messagesRetrievedInHConnPoll s;
     getLoop := getLoop s;
     scheduledGetLoop := scheduledGetLoop s;
     pending := pending s;
     entropy := entropy s;
     trace := trace s |}.
Definition set_store (v : CtxRef -> UserContext) (s : State) : State :=
  {| clock := clock s;
     tuningParameters := tuningParameters s;
     store := v;
     nextRef := nextRef s;
     contextMap := contextMap s;
     hConnsInUse := hConnsInUse s;
     hConnsInPoll := hConnsInPoll s;
     messagesRetrievedInHConnPoll := messagesRetrievedInHConnPoll s;
     getLoop := getLoop s;
     scheduledGetLoop := scheduledGetLoop s;
     pending := pending s;
     entropy := entropy s;
     trace := trace s |}.
Definition set_nextRef (v : CtxRef) (s : State) : State :=
  {| clock := clock s;
     tuningParameters := tuningParameters s;
     store := store s;
     nextRef := v;
     contextMap := contextMap s;
     hConnsInUse := hConnsInUse s;
     hConnsInPoll := hConnsInPoll s;
     messagesRetrievedInHConnPoll := messagesRetrievedInHConnPoll s;
     getLoop := getLoop s;
     scheduledGetLoop := scheduledGetLoop s;
     pending := pending s;
     entropy := entropy s;
     trace := trace s |}.
Definition set_contextMap (v : list (string * CtxRef)) (s : State) : State :=
  {| clock := clock s;
     tuningParameters := tuningParameters s;
     store := store s;
     nextRef := nextRef s;
     contextMap := v;
     hConnsInUse := hConnsInUse s;
     hConnsInPoll := hConnsInPoll s;
     messagesRetrievedInHConnPoll := messagesRetrievedInHConnPoll s;
     getLoop := getLoop s;
     scheduledGetLoop := scheduledGetLoop s;
     pending := pending s;
     entropy := entropy s;
     trace := trace s |}.
Definition set_hConnsInUse (v : gmap Z Z) (s : State) : State :=
  {| clock := clock s;
     tuningParameters := tuningParameters s;
     store := store s;
     nextRef := nextRef s;
     contextMap := contextMap s;
     hConnsInUse := v;
     hConnsInPoll := hConnsInPoll s;
     messagesRetrievedInHConnPoll := messagesRetrievedInHConnPoll s;
     getLoop := getLoop s;
     scheduledGetLoop := scheduledGetLoop s;
     pending := pending s;
     entropy := entropy s;
     trace := trace s |}.
Definition set_hConnsInPoll (v : gset Z) (s : State) : State :=
  {| clock := clock s;
     tuningParameters := tuningParameters s;
     store := store s;
     nextRef := nextRef s;
     contextMap := contextMap s;
     hConnsInUse := hConnsInUse s;
     hConnsInPoll := v;
     messagesRetrievedInHConnPoll := messagesRetrievedInHConnPoll s;
     getLoop := getLoop s;
     scheduledGetLoop := scheduledGetLoop s;
     pending := pending s;
     entropy := entropy s;
     trace := trace s |}.
Definition set_messagesRetrievedInHConnPoll (v : Z) (s : State) : State :=
  {| clock := clock s;
     tuningParameters := tuningParameters s;
     store := store s;
     nextRef := nextRef s;
     contextMap := contextMap s;
     hConnsInUse := hConnsInUse s;
     hConnsInPoll := hConnsInPoll s;
     messagesRetrievedInHConnPoll := v;
     getLoop := getLoop s;
     scheduledGetLoop := scheduledGetLoop s;
     pending := pending s;
     entropy := entropy s;
     trace := trace s |}.
Definition set_getLoop (v : option Z) (s : State) : State :=
  {| clock := clock s;
     tuningParameters := tuningParameters s;
     store := store s;
     nextRef := nextRef s;
     contextMap := contextMap s;
     hConnsInUse := hConnsInUse s;
     hConnsInPoll := hConnsInPoll s;
     messagesRetrievedInHConnPoll := messagesRetrievedInHConnPoll s;
     getLoop := v;
     scheduledGetLoop := scheduledGetLoop s;
     pending := pending s;
     entropy := entropy s;
     trace := trace s |}.
Definition set_scheduledGetLoop (v : bool) (s : State) : State :=
  {| clock := clock s;
     tuningParameters := tuningParameters s;
     store := store s;
     nextRef := nextRef s;
     contextMap := contextMap s;
     hConnsInUse := hConnsInUse s;
     hConnsInPoll := hConnsInPoll s;
     messagesRetrievedInHConnPoll := messagesRetrievedInHConnPoll s;
     getLoop := getLoop s;
     scheduledGetLoop := v;
     pending := pending s;
     entropy := entropy s;
     trace := trace s |}.
Definition set_pending (v : list (Z * Job)) (s : State) : State :=
  {| clock := clock s;
     tuningParameters := tuningParameters s;
     store := store s;
     nextRef := nextRef s;
     contextMap := contextMap s;
     hConnsInUse := hConnsInUse s;
     hConnsInPoll := hConnsInPoll s;
     messagesRetrievedInHConnPoll := messagesRetrievedInHConnPoll s;
     getLoop := getLoop s;
     scheduledGetLoop := scheduledGetLoop s;
     pending := v;
     entropy := entropy s;
     trace := trace s |}.
Definition set_entropy (v : list nat) (s : State) : State :=
  {| clock := clock s;
     tuningParameters := tuningParameters s;
     store := store s;
     nextRef := nextRef s;
     contextMap := contextMap s;
     hConnsInUse := hConnsInUse s;
     hConnsInPoll := hConnsInPoll s;
     messagesRetrievedInHConnPoll := messagesRetrievedInHConnPoll s;
     getLoop := getLoop s;
     scheduledGetLoop := scheduledGetLoop s;
     pending := pending s;
     entropy := v;
     trace := trace s |}.
Definition set_trace (v : list Obs) (s : State) : State :=
  {| clock := clock s;
     tuningParameters := tuningParameters s;
     store := store s;
     nextRef := nextRef s;
     contextMap := contextMap s;
     hConnsInUse := hConnsInUse s;
     hConnsInPoll := hConnsInPoll s;
     messagesRetrievedInHConnPoll := messagesRetrievedInHConnPoll s;
     getLoop := getLoop s;
     scheduledGetLoop := scheduledGetLoop s;
     pending := pending s;
     entropy := entropy s;
     trace := v |}.

Definition set_getLoopPollTimeMs (v : Z) (t : TuningParameters) : TuningParameters :=
  {| maxConsecutiveGets := maxConsecutiveGets t; getLoopPollTimeMs := v;
     getLoopDelayTimeMs := getLoopDelayTimeMs t;
     debugLongCalls := debugLongCalls t |}.
Definition set_maxConsecutiveGets (v : JsNum) (t : TuningParameters) : TuningParameters :=
  {| maxConsecutiveGets := v; getLoopPollTimeMs := getLoopPollTimeMs t;
     getLoopDelayTimeMs := getLoopDelayTimeMs t;
     debugLongCalls := debugLongCalls t |}.

(** The state of a freshly loaded module. *)
Definition init (t : TuningParameters) (now : Z) (rs : list nat) : State :=
  {| clock := now; tuningParameters := t;
     store := fun _ => UserContext_new (mkObject 0 (mkQMgr 0 "") "") 0%nat 0;
     nextRef := 0%nat; contextMap := []; hConnsInUse := ∅; hConnsInPoll := ∅;
     messagesRetrievedInHConnPoll := 0; getLoop := None;
     scheduledGetLoop := false; pending := []; entropy := rs; trace := [] |}.

(** Assignment to a field of the context object [c]. *)
Definition upd_ctx (c : CtxRef) (f : UserContext -> UserContext) (s : State) : State :=
  set_store (<[c := f (store s c)]> (store s)) s.

(** [setTimeout(job, delay)] and [setImmediate(job)]: the job joins the
    pending ones and may run once the clock has reached its due time. *)
Definition setTimeout (j : Job) (delay : Z) (s : State) : State :=
  set_pending (pending s ++ [(clock s + delay, j)]) s.
Definition setImmediate (j : Job) (s : State) : State :=
  set_pending (pending s ++ [(clock s, j)]) s.

(** [libmqm.<verb>.async(..., callback)]: the call runs in the thread pool
    and its completion callback is run by the event loop at some later
    time. *)
Definition callAsync (j : Job) (s : State) : State :=
  set_pending (pending s ++ [(clock s, j)]) s.

Definition observe (o : Obs) (s : State) : State := set_trace (o :: trace s) s.

(** ** Registry functions *)

(** [function setUserContext(jsObject,cb,callbackArea)]: a new context
    object, stored under the key of the object. *)
Definition setUserContext (jsObject : MQObject) (f : CbId) (s : State) : CtxRef * State :=
  let c := nextRef s in
  let s := set_nextRef (S c) (set_store (<[c := UserContext_new jsObject f (clock s)]> (store s)) s) in
  let key := getKey (Some jsObject) in
  match key with
  | Some k => (c, set_contextMap (Map_set k c (contextMap s)) s)
  | None => (c, s)
  end.

(** [function getUserContext(jsObject)]. *)
Definition getUserContext (jsObject : option MQObject) (s : State) : option CtxRef :=
  match jsObject with
  | Some _ =>
      match getKey jsObject with
      | Some k => Map_get k (contextMap s)
      | None => None
      end
  | None => None
  end.

(** [function deleteUserContext(jsObject)]. *)
Definition deleteUserContext (jsObject : option MQObject) (s : State) : State :=
  match getKey jsObject with
  | Some k => set_contextMap (Map_delete k (contextMap s)) s
  | None => s
  end.

(** [function deleteUserConnection(hConn)]: every key that starts with
    [hConn + "/"] or with ["-1/"] is deleted, unless [hConn] is 0 (falsy)
    or -1. *)
Definition deleteUserConnection (hConn : Z) (s : State) : State :=
  if negb (hConn =? 0) && negb (hConn =? -1) then
    let partialKey := pretty hConn +:+ "/" in
    set_contextMap
      (filter (fun kv => ¬ (String.prefix partialKey (fst kv) = true
                            ∨ String.prefix "-1/" (fst kv) = true))
              (contextMap s)) s
  else s.

(** ** The gate: [hConnsInUse] *)

Definition isLocked (hc : Z) (s : State) : bool :=
  bool_decide (is_Some (hConnsInUse s !! hc)).
Definition lock (hc : Z) (s : State) : State :=
  set_hConnsInUse (<[hc := clock s]> (hConnsInUse s)) s.
Definition unlock (hc : Z) (s : State) : State :=
  set_hConnsInUse (delete hc (hConnsInUse s)) s.

(** [function debugLongCallMonitorFunction()], run every second while
    [tuningParameters.debugLongCalls] is set: a gate held for a second or
    more is removed from the map. *)
Definition debugLongCallMonitorFunction (s : State) : State :=
  set_hConnsInUse
    (filter (fun kv => clock s - snd kv < 1000) (hConnsInUse s)) s.

(** ** The fairness picker *)

(** [function shuffle(array)] (Fisher-Yates).  [Math.floor(Math.random() *
    (i + 1))] is an index between 0 and [i]; the model takes the next value
    of the entropy modulo [i + 1]. *)
Definition swap {A} (array : list A) (i j : nat) : list A :=
  match array !! i, array !! j with
  | Some x, Some y => <[j := x]> (<[i := y]> array)
  | _, _ => array
  end.

Fixpoint shuffle_from {A} (i : nat) (rs : list nat) (array : list A) : list A * list nat :=
  match i with
  | O => (array, rs)
  | S i' =>
      let j := (hd 0%nat rs mod (i + 1))%nat in
      shuffle_from i' (tl rs) (swap array i j)
  end.

Definition shuffle {A} (rs : list nat) (array : list A) : list A * list nat :=
  shuffle_from (length array - 1) rs array.

(** [Array.from(new Set(l).values())]: the first occurrence of each
    element, in order. *)
Fixpoint js_uniq (l : list Z) : list Z :=
  match l with
  | [] => []
  | x :: l' => x :: filter (fun y => y ≠ x) (js_uniq l')
  end.

(** [function getRunningContexts(hObjsToPoll)]. *)
Definition getRunningContexts (hObjsToPoll : list CtxRef) (s : State) : list CtxRef :=
  filter (fun c => state (store s c) = running) hObjsToPoll.

(** [function getAllContextsForPoll(hConn)]. *)
Definition getAllContextsForPoll (hConn : Z) (s : State) : list CtxRef :=
  filter (fun c => hConnOf (object (store s c)) = hConn)
         (Map_values (contextMap s)).

(** [function getFreshHconnsForPoll()]. *)
Definition getFreshHconnsForPoll (s : State) : list Z :=
  let allHconns := map (fun c => hConnOf (object (store s c)))
                       (Map_values (contextMap s)) in
  let uniqHconns := js_uniq allHconns in
  filter (fun hc => hc ∉ hConnsInPoll s) uniqHconns.

(** ** The retrieval attempt executor *)

(** "Resize the buffer if necessary from a previous attempt":
    [if (c.buf == null || c.buf.length < c.bufSize) c.buf = Buffer.alloc(c.bufSize)]. *)
Definition resizeBuffer (c : CtxRef) (s : State) : State :=
  match buf (store s c) with
  | None => upd_ctx c (fun x => ctx_set_buf (Some (bufSize x)) x) s
  | Some len =>
      if len <? bufSize (store s c)
      then upd_ctx c (fun x => ctx_set_buf (Some (bufSize x)) x) s
      else s
  end.

(** The arguments [pollHObjInternal] passes to [libmqm.MQGET.async]: an
    immediate get ([mqGmo.WaitInterval = 0], [MQGMO_WAIT] and
    [MQGMO_ACCEPT_TRUNCATED_MSG] turned off) into the whole allocated
    buffer.

    Modelled from the spec: [_copyGMOtoC] ([mqgmo.js]) is not part of the
    sources; the C structure starts with the [Options] of the working
    copy. *)
Definition mqgetCall (c : CtxRef) (jsgmo : MQGMO) (s : State) : MQGETCall :=
  {| call_hConn := hConnOf (object (store s c));
     call_hObj := _hObj (object (store s c));
     call_Options :=
       Z.land (Options jsgmo)
              (Z.lnot (Z.lor MQC.MQGMO_WAIT MQC.MQGMO_ACCEPT_TRUNCATED_MSG));
     call_WaitInterval := 0;
     call_bufflen := match buf (store s c) with Some len => len | None => 0 end |}.

(** The inner function [pollHObjInternal] of [pollHObj(c,jsmd,jsgmo)], up
    to the call of [libmqm.MQGET.async]: defer while the gate of the
    connection is held; otherwise take the gate, regrow the buffer and
    issue the call. *)
Definition pollHObjInternal (c : CtxRef) (jsmd : MQMD) (jsgmo : MQGMO) (s : State) : State :=
  let hc := hConnOf (object (store s c)) in
  if isLocked hc s then setImmediate (JPollHObjInternal c jsmd jsgmo) s
  else
    let s := lock hc s in
    let s := resizeBuffer c s in
    callAsync (JMQGET c jsmd jsgmo (mqgetCall c jsgmo s)) s.

(** [function pollHObj(c,jsmd,jsgmo)]: "kickoff the poll". *)
Definition pollHObj (c : CtxRef) (jsmd : MQMD) (jsgmo : MQGMO) (s : State) : State :=
  pollHObjInternal c jsmd jsgmo s.

(** [function initGet(c)]: working copies of the request parameters
    ([Object.assign] and a copy of each buffer: equal values). *)
Definition initGet (c : CtxRef) (s : State) : State :=
  let jsgmo := jsgmo (store s c) in
  let jsmd := jsmd (store s c) in
  pollHObj c jsmd jsgmo s.

(** [function pollHobjs(hConn)]. *)
Definition pollHobjs (hConn : Z) (s : State) : State :=
  if hConn =? -1 then s
  else
    let hObjsToPoll := getAllContextsForPoll hConn s in
    let nonWaitingContexts := getRunningContexts hObjsToPoll s in
    let s := set_scheduledGetLoop false s in
    if messagesRetrievedInHConnPoll s >? 0 then
      setTimeout (JPollPerHconn hConn) (getLoopDelayTimeMs (tuningParameters s))
                 (set_scheduledGetLoop true s)
    else if (length nonWaitingContexts =? 0)%nat then
      setTimeout (JPollPerHconn hConn) (getLoopPollTimeMs (tuningParameters s))
                 (set_scheduledGetLoop true s)
    else
      let '(nonWaitingContexts, rs) := shuffle (entropy s) nonWaitingContexts in
      let s := set_entropy rs s in
      match nonWaitingContexts with
      | c :: _ =>
          let s := observe (ObsPick c) s in
          let s := upd_ctx c (ctx_set_retrieved 0) s in
          initGet c s
      | [] => s
      end.

(** [function pollPerHconn(hConn)]. *)
Definition pollPerHconn (hConn : Z) (s : State) : State :=
  let s := set_messagesRetrievedInHConnPoll 0 s in
  let hObjsToPoll := getAllContextsForPoll hConn s in
  if (length hObjsToPoll =? 0)%nat || (hConn =? -1) then
    set_hConnsInPoll (hConnsInPoll s ∖ {[hConn]}) s
  else
    let s := foldl (fun s c => upd_ctx c (fun x => ctx_set_retrieved 0 (ctx_set_state running x)) s)
                   s hObjsToPoll in
    pollHobjs hConn s.

(** [function resetGetLoop()]. *)
Definition resetGetLoop (s : State) : State :=
  set_getLoop None (set_scheduledGetLoop false s).

(** [function pollAllHConns()]. *)
Definition pollAllHConns (s : State) : State :=
  let s :=
    if Map_size (contextMap s) >? 0 then
      let hConnsToPoll := getFreshHconnsForPoll s in
      foldl (fun s hConn =>
               if negb (hConn =? -1) then
                 pollPerHconn hConn (set_hConnsInPoll ({[hConn]} ∪ hConnsInPoll s) s)
               else set_hConnsInPoll (hConnsInPoll s ∖ {[hConn]}) s)
            s hConnsToPoll
    else s in
  if Map_size (contextMap s) =? 0 then resetGetLoop s else s.

(** ** The exported calls *)

(** [exports.Get = function(jsObject,jsmd,jsgmo,cb)].  The parameter checks
    make a missing object or callback a [TypeError] before anything is
    changed, so both are present here. *)
Definition Get (jsObject : MQObject) (jsmd : MQMD) (jsgmo : MQGMO) (f : CbId) (s : State) : State :=
  let '(c, s) := setUserContext jsObject f s in
  let s := upd_ctx c (ctx_set_jsgmo jsgmo) s in
  let s := upd_ctx c (ctx_set_jsmd jsmd) s in
  let s := upd_ctx c (ctx_set_WaitInterval (WaitInterval jsgmo)) s in
  let s :=
    if getLoopPollTimeMs (tuningParameters s) <? getLoopPollTimeMsMin
    then set_tuningParameters
           (set_getLoopPollTimeMs getLoopPollTimeMsMin (tuningParameters s)) s
    else s in
  if negb (scheduledGetLoop s) || bool_decide (getLoop s = None) then
    let s := set_scheduledGetLoop true s in
    setTimeout JPollAllHConns 0 (set_getLoop (Some (clock s + 0)) s)
  else s.

(** The snapshot a callback invocation records. *)
Definition invocation (f : CbId) (c : option CtxRef) (err : option MQError)
    (o : option MQObject) (g : option MQGMO) (m : option MQMD) (d : option Z)
    (s : State) : Invocation :=
  {| inv_cb := f; inv_ctx := c; inv_err := err; inv_object := o;
     inv_jsgmo := g; inv_jsmd := m; inv_data := d; inv_time := clock s;
     inv_registered := Map_keys (contextMap s);
     inv_scheduledGetLoop := scheduledGetLoop s; inv_getLoop := getLoop s |}.

(** [exports.GetDone = function(jsObject, cb)]: [inl] is the [MQError]
    thrown when no context is registered for the object. *)
Definition GetDone (jsObject : option MQObject) (f : option CbId) (s : State) : MQError + State :=
  match getUserContext jsObject s with
  | None => inl (mkError MQC.MQCC_FAILED MQC.MQRC_HOBJ_ERROR "GetDone")
  | Some _ =>
      let s := deleteUserContext jsObject s in
      let s := if Map_size (contextMap s) =? 0 then resetGetLoop s else s in
      inr (match f with
           | Some f => observe (ObsCall (invocation f None None None None None None s)) s
           | None => s
           end)
  end.

(** [exports.setTuningParameters = function(v)] for an object [v] whose
    one property is [maxConsecutiveGets], with a number [x] as value: the
    property is one of [tuningParameters] and [x] has the type of the
    current value, so [tuningParameters.maxConsecutiveGets = x];
    [debugLongCalls] is as it was, so the timer of the monitor is left
    alone. *)
Definition setMaxConsecutiveGets (x : JsNum) (s : State) : State :=
  set_tuningParameters (set_maxConsecutiveGets x (tuningParameters s)) s.

(** The calls an application makes, from its main line or from inside a
    callback. *)
Inductive ApiCall :=
| ApiGet (jsObject : MQObject) (jsmd : MQMD) (jsgmo : MQGMO) (f : CbId)
| ApiGetDone (jsObject : option MQObject) (f : option CbId)
| ApiSetMaxConsecutiveGets (x : JsNum).

(** A caller of [GetDone] that meets the exception catches it: nothing has
    been changed. *)
Definition apiCall (a : ApiCall) (s : State) : State :=
  match a with
  | ApiGet o m g f => Get o m g f s
  | ApiGetDone o f =>
      match GetDone o f s with
      | inr s' => s'
      | inl _ => s
      end
  | ApiSetMaxConsecutiveGets x => setMaxConsecutiveGets x s
  end.

(** ** The completion callback of [MQGET.async] *)

(** What the environment decides when a call completes: the completion and
    reason codes and the data length the transport returns, the working
    copies as [_copyMDfromC] and [_copyGMOfromC] leave them ([mqmd.js] and
    [mqgmo.js] are not part of the sources), and what the user callback
    does if it is invoked: the state in which it leaves the working copies
    it was handed, and the calls it makes. *)
Record Completion := mkCompletion {
  r_cc : Z;
  r_rc : Z;
  r_datalen : Z;
  r_md : MQMD;
  r_gmo : MQGMO;
  h_jsmd : MQMD;
  h_jsgmo : MQGMO;
  h_calls : list ApiCall
}.

(** A user callback is entered: the invocation is recorded and the calls
    the callback makes are run. *)
Definition invoke (i : Invocation) (calls : list ApiCall) (s : State) : State :=
  foldl (fun s a => apiCall a s) (observe (ObsCall i) s) calls.

(** [c.buf ? c.buf.slice(0,jsDatalen) : null], as a length. *)
Definition slice_length (b : option Z) (jsDatalen : Z) : option Z :=
  match b with
  | Some len => Some (Z.min len (Z.max 0 jsDatalen))
  | None => None
  end.

(** [waitExpired], as the callback computes it from [Date.now()],
    [c.WaitStartTime] and [c.WaitInterval]. *)
Definition waitExpired (c : CtxRef) (s : State) : bool :=
  if ctx_WaitInterval (store s c) =? MQC.MQWI_UNLIMITED then false
  else if clock s - WaitStartTime (store s c) <? ctx_WaitInterval (store s c) then false
  else true.

(** [jsRc == MQRC_TRUNCATED_MSG_FAILED]: "If we need to resize the buffer,
    then do that and retry." *)
Definition onTruncated (c : CtxRef) (md : MQMD) (gmo : MQGMO) (s : State) : State :=
  let s := upd_ctx c (fun x => ctx_set_bufSize (growBufSize (bufSize x)) x) s in
  setTimeout (JPollHObjInternal c md gmo) 0 s.

(** [jsRc == MQRC_NO_MSG_AVAILABLE && !waitExpired]: "If we appear to be
    the only hObj in use in this app for MQGET, then delay here.  Otherwise
    let the higher level loops determine delays on the next poll attempt".
    Falling out of the [if] reaches [pollHobjs] at the end of the
    callback. *)
Definition onNoMessage (c : CtxRef) (md : MQMD) (gmo : MQGMO) (hc : Z) (s : State) : State :=
  if Map_size (contextMap s) <=? 1 then
    setTimeout (JPollHObjInternal c md gmo)
               (getLoopPollTimeMs (tuningParameters s)) s
  else pollHobjs hc s.

(** Any other failure, an expired wait included: "send back err for all
    cases", delete the context, and go on with [pollHobjs]. *)
Definition onFailure (c : CtxRef) (err : MQError) (calls : list ApiCall) (hc : Z) (s : State) : State :=
  let s := upd_ctx c (ctx_set_state waiting) s in
  let s := invoke (invocation (cb (store s c)) (Some c) (Some err)
                     (Some (object (store s c))) None None None s)
                  calls s in
  let s := deleteUserContext (Some (object (store s c))) s in
  pollHobjs hc s.

(** "Got a message. Call the user's callback function."  [md] and [gmo] are
    the working copies as [MQGET] returned them; after the callback they
    are [h_jsmd r] and [h_jsgmo r]. *)
Definition onMessage (c : CtxRef) (md : MQMD) (gmo : MQGMO) (r : Completion) (hc : Z) (s : State) : State :=
  let jsDatalen := r_datalen r in
  let s := upd_ctx c (ctx_set_state waiting) s in
  let s := upd_ctx c (fun x => ctx_set_retrieved (retrieved x + 1) x) s in
  let s := invoke (invocation (cb (store s c)) (Some c) None
                     (Some (object (store s c))) (Some gmo) (Some md)
                     (slice_length (buf (store s c)) jsDatalen) s)
                  (h_calls r) s in
  let gmo := h_jsgmo r in
  let md := h_jsmd r in
  let s := upd_ctx c (ctx_set_state running) s in
  let s := upd_ctx c (fun x => ctx_set_WaitInterval (WaitInterval (jsgmo x)) x) s in
  let s := upd_ctx c (ctx_set_WaitStartTime (clock s)) s in
  let s := upd_ctx c (fun x => ctx_set_jsgmo (gmo_set_Options (Options gmo) (jsgmo x)) x) s in
  let s := upd_ctx c (fun x => ctx_set_bufSize (shrinkBufSize (bufSize x) jsDatalen) x) s in
  let s := set_messagesRetrievedInHConnPoll (messagesRetrievedInHConnPoll s + 1) s in
  if lt_number (retrieved (store s c)) (maxConsecutiveGets (tuningParameters s)) then
    setTimeout (JPollHObjInternal c md gmo) 0 s
  else pollHobjs hc s.

(** The arrow function passed to [libmqm.MQGET.async] in [pollHObjInternal]:
    release the gate, then act on the outcome.  [c.cb] is a function ([Get]
    checks it), so the test [if (c.cb)] is always taken.  The working
    copies are what [_copyMDfromC] and [_copyGMOfromC] made of them. *)
Definition mqgetCallback (c : CtxRef) (r : Completion) (s : State) : State :=
  let hc := hConnOf (object (store s c)) in
  let s := unlock hc s in
  let md := r_md r in
  let gmo := r_gmo r in
  let jsRc := r_rc r in
  let jsCc := r_cc r in
  let err := mkError jsCc jsRc "GET" in
  if negb (jsCc =? MQC.MQCC_OK) then
    if jsRc =? MQC.MQRC_TRUNCATED_MSG_FAILED then onTruncated c md gmo s
    else if (jsRc =? MQC.MQRC_NO_MSG_AVAILABLE) && negb (waitExpired c s)
    then onNoMessage c md gmo hc s
    else onFailure c err (h_calls r) hc s
  else onMessage c md gmo r hc s.

(** ** The other verbs and the gate *)

(** The common head of [putInternal], [openInternal], [subInternal] ...:
    [if (isLocked(hConn)) return setImmediate(...Internal); else
    lock(hConn);], followed by the asynchronous call. *)
Definition verbInternal (hc : Z) (s : State) : State :=
  if isLocked hc s then setImmediate (JVerb hc) s
  else callAsync (JVerbCall hc) (lock hc s).

(** Their completion callbacks start with [unlock(hConn)]. *)
Definition verbCallback (hc : Z) (s : State) : State := unlock hc s.

(** ** Steps *)

(** What can happen next: the clock advances, the application calls the
    module from its main line, the event loop runs a pending job that is
    due, or the long-call monitor runs. *)
Inductive Event :=
| Tick (dt : Z)
| App (a : ApiCall)
| AppVerb (hc : Z)
| Run (i : nat) (r : Completion)
| Monitor.

Definition runJob (j : Job) (r : Completion) (s : State) : State :=
  match j with
  | JPollAllHConns => pollAllHConns s
  | JPollPerHconn hConn => pollPerHconn hConn s
  | JPollHObjInternal c jsmd jsgmo => pollHObjInternal c jsmd jsgmo s
  | JMQGET c _ _ _ => mqgetCallback c r s
  | JVerb hc => verbInternal hc s
  | JVerbCall hc => verbCallback hc s
  end.

Definition step (e : Event) (s : State) : option State :=
  match e with
  | Tick dt => if 0 <=? dt then Some (set_clock (clock s + dt) s) else None
  | App a => Some (apiCall a s)
  | AppVerb hc => Some (verbInternal hc s)
  | Run i r =>
      match pending s !! i with
      | Some (due, j) =>
          if due <=? clock s
          then Some (runJob j r (set_pending (delete i (pending s)) s))
          else None
      | None => None
      end
  | Monitor =>
      if debugLongCalls (tuningParameters s)
      then Some (debugLongCallMonitorFunction s) else None
  end.

(** A run: the events are taken in order; an event that cannot happen
    (a job that is not pending or not due, a negative tick) is skipped. *)
Fixpoint run (es : list Event) (s : State) : State :=
  match es with
  | [] => s
  | e :: es' => run es' (default s (step e s))
  end.

Inductive reachable (t : TuningParameters) : State -> Prop :=
| reachable_init now rs : reachable t (init t now rs)
| reachable_step s e s' : reachable t s -> step e s = Some s' -> reachable t s'.


(** * Notions used by the properties *)

(** The fields of a context that only [Get] and the completion callback
    assign. *)
Definition ctx_core (x : UserContext) :=
  (cb x, object x, ctx_WaitInterval x, WaitStartTime x, jsgmo x, jsmd x, bufSize x).

(** The module variables that the picker and the executor never assign. *)
Definition registry (s : State) :=
  (clock s, tuningParameters s, nextRef s, contextMap s, getLoop s).

(** The length of the buffer the next attempt on a context passes to the
    transport: the allocated buffer is replaced only when it is shorter
    than [bufSize]. *)
Definition next_bufflen (x : UserContext) : Z :=
  match buf x with
  | Some len => Z.max len (bufSize x)
  | None => bufSize x
  end.

(** A key contains exactly one ["/"], after the connection handle. *)
Fixpoint has_slash (s : string) : bool :=
  match s with
  | EmptyString => false
  | String a s' => if Ascii.eqb a "/"%char then true else has_slash s'
  end.

(** The connection of a context, and the context and the connection a
    pending job works for.  The polling loop of a connection is carried
    from job to job: by the timer of [pollPerHconn], by a deferred
    [pollHObjInternal], or by a get in flight. *)
Definition connOf (s : State) (c : CtxRef) : Z := hConnOf (object (store s c)).

Definition job_ctx (j : Job) : option CtxRef :=
  match j with
  | JPollHObjInternal c _ _ | JMQGET c _ _ _ => Some c
  | _ => None
  end.

Definition job_conn (s : State) (j : Job) : option Z :=
  match j with
  | JPollPerHconn h => Some h
  | JPollHObjInternal c _ _ | JMQGET c _ _ _ => Some (connOf s c)
  | _ => None
  end.

(** The number of pending jobs that carry the polling loop of [h]. *)
Definition count_conn (s : State) (h : Z) (l : list (Z * Job)) : nat :=
  length (filter (fun p => job_conn s (snd p) = Some h) l).

Definition loops (s : State) (h : Z) : nat := count_conn s h (pending s).

(** The [MQGET] calls of the scheduler in flight on connection [h]. *)
Definition mqget_on (h : Z) (j : Job) : bool :=
  match j with
  | JMQGET _ _ _ call => bool_decide (call_hConn call = h)
  | _ => false
  end.

Definition inflight (s : State) (h : Z) : nat :=
  length (filter (fun p => mqget_on h (snd p) = true) (pending s)).

(** Messages delivered to the callback of context [c] since [c] was last
    picked (the trace is newest first). *)
Definition is_delivery (c : CtxRef) (i : Invocation) : bool :=
  bool_decide (inv_ctx i = Some c) && bool_decide (inv_err i = None).

Fixpoint deliveries_since_pick (c : CtxRef) (tr : list Obs) : nat :=
  match tr with
  | [] => 0
  | ObsPick c' :: tr' =>
      if decide (c' = c) then 0%nat else deliveries_since_pick c tr'
  | ObsCall i :: tr' =>
      ((if is_delivery c i then 1 else 0) + deliveries_since_pick c tr')%nat
  end.

Definition obs_ctx (o : Obs) : option CtxRef :=
  match o with
  | ObsPick c => Some c
  | ObsCall i => inv_ctx i
  end.

(** The cap on consecutive deliveries in force in a state. *)
Definition mcg (s : State) : JsNum := maxConsecutiveGets (tuningParameters s).

(** [within M x]: the number [x] is at most the whole number [M].  [NaN]
    lets no count through and is within every bound. *)
Definition within (M : Z) (x : JsNum) : bool :=
  match x with
  | JsNaN => true
  | JsInf negative => negative
  | JsFin m e => if 0 <=? e then m * 2 ^ e <=? M else m <=? M * 2 ^ (- e)
  end.

(** A bound [M] that [maxConsecutiveGets] keeps during a run, or none:
    the values the parameter is given, by the application or by a
    callback, are within it. *)
Definition capped (M : option Z) (x : JsNum) : bool :=
  match M with
  | Some m => within m x
  | None => true
  end.

Definition call_capped (M : option Z) (a : ApiCall) : bool :=
  match a with
  | ApiSetMaxConsecutiveGets x => capped M x
  | _ => true
  end.

Definition event_capped (M : option Z) (e : Event) : bool :=
  match e with
  | App a => call_capped M a
  | Run _ r => forallb (call_capped M) (h_calls r)
  | _ => true
  end.

(** What the bound allows: a count of deliveries, and a count after which
    one more delivery is allowed. *)
Definition under (M : option Z) (n : Z) : Prop :=
  match M with
  | Some m => n ≤ Z.max 1 m
  | None => True
  end.

Definition room (M : option Z) (n : Z) : Prop :=
  match M with
  | Some m => n < m
  | None => True
  end.

(** [counted M s c]: the field [retrieved] of [c] is the number of messages
    delivered since [c] was last picked, and allows one more delivery. *)
Definition counted (M : option Z) (s : State) (c : CtxRef) : Prop :=
  Z.of_nat (deliveries_since_pick c (trace s)) = retrieved (store s c)
  ∧ (retrieved (store s c) = 0 ∨ room M (retrieved (store s c))).

(** The invariant of the scheduler.  [held] is the connection whose polling
    loop the running code carries itself, between the job it was started
    from and the job it will leave behind; [M] is the bound that
    [maxConsecutiveGets] keeps, if it keeps one. *)
Record Pre (M : option Z) (held : option Z) (s : State) : Prop := mkPre {
  pre_refs_pending : ∀ d j c,
    (d, j) ∈ pending s → job_ctx j = Some c → (c < nextRef s)%nat;
  pre_refs_map : ∀ k c, (k, c) ∈ contextMap s → (c < nextRef s)%nat;
  pre_refs_trace : ∀ o c, o ∈ trace s → obs_ctx o = Some c → (c < nextRef s)%nat;
  pre_keys_nodup : NoDup (Map_keys (contextMap s));
  pre_keys : ∀ k c,
    (k, c) ∈ contextMap s → getKey (Some (object (store s c))) = Some k;
  pre_calls : ∀ d c md gmo call,
    (d, JMQGET c md gmo call) ∈ pending s → call_hConn call = connOf s c;
  pre_loops : ∀ h,
    (loops s h ≤ 1)%nat ∧ (loops s h = 1%nat → h ∈ hConnsInPoll s);
  pre_held : ∀ h, held = Some h → loops s h = 0%nat ∧ h ∈ hConnsInPoll s;
  pre_broken : -1 ∉ hConnsInPoll s;
  pre_cap : capped M (mcg s) = true;
  pre_bound : ∀ c, under M (Z.of_nat (deliveries_since_pick c (trace s)));
  pre_counted : ∀ d j c,
    (d, j) ∈ pending s → job_ctx j = Some c → counted M s c
}.

Global Arguments pre_refs_pending {M} held s _.
Global Arguments pre_refs_map {M} held s _.
Global Arguments pre_refs_trace {M} held s _.
Global Arguments pre_keys_nodup {M} held s _.
Global Arguments pre_keys {M} held s _.
Global Arguments pre_calls {M} held s _.
Global Arguments pre_loops {M} held s _.
Global Arguments pre_held {M} held s _.
Global Arguments pre_broken {M} held s _.
Global Arguments pre_cap {M} held s _.
Global Arguments pre_bound {M} held s _.
Global Arguments pre_counted {M} held s _.

(** The invariant of every run, whatever [maxConsecutiveGets] is set to. *)
Definition Inv (s : State) : Prop := Pre None None s.

(** What the invariant reads of a state. *)
Definition core (s : State) :=
  (store s, nextRef s, contextMap s, hConnsInPoll s, pending s, trace s,
   maxConsecutiveGets (tuningParameters s)).

(** All of a state but the store of contexts. *)
Definition but_store (s : State) :=
  (clock s, tuningParameters s, nextRef s, contextMap s, hConnsInUse s,
   hConnsInPoll s, messagesRetrievedInHConnPoll s, getLoop s,
   scheduledGetLoop s, pending s, entropy s, trace s).

(** The success branch of the callback up to its last test: the message is
    handed to the user callback and the context is made ready for the next
    attempt. *)
Definition delivered (c : CtxRef) (r : Completion) (s : State) : State :=
  let md := r_md r in
  let gmo := r_gmo r in
  let jsDatalen := r_datalen r in
  let s := upd_ctx c (ctx_set_state waiting) s in
  let s := upd_ctx c (fun x => ctx_set_retrieved (retrieved x + 1) x) s in
  let s := invoke (invocation (cb (store s c)) (Some c) None
                     (Some (object (store s c))) (Some gmo) (Some md)
                     (slice_length (buf (store s c)) jsDatalen) s)
                  (h_calls r) s in
  let gmo := h_jsgmo r in
  let s := upd_ctx c (ctx_set_state running) s in
  let s := upd_ctx c (fun x => ctx_set_WaitInterval (WaitInterval (jsgmo x)) x) s in
  let s := upd_ctx c (ctx_set_WaitStartTime (clock s)) s in
  let s := upd_ctx c (fun x => ctx_set_jsgmo (gmo_set_Options (Options gmo) (jsgmo x)) x) s in
  let s := upd_ctx c (fun x => ctx_set_bufSize (shrinkBufSize (bufSize x) jsDatalen) x) s in
  set_messagesRetrievedInHConnPoll (messagesRetrievedInHConnPoll s + 1) s.

(** * Scenarios *)

(** Two queues on one connection and one on another; get-message options
    that ask for a wait of [w] milliseconds. *)
Definition QM1 : MQQueueManager := mkQMgr 1 "QM1".
Definition QM2 : MQQueueManager := mkQMgr 2 "QM2".
Definition queueA : MQObject := mkObject 1 QM1 "A".
Definition queueB : MQObject := mkObject 2 QM1 "B".
Definition queueC : MQObject := mkObject 1 QM2 "C".
Definition gmoWait (w : Z) : MQGMO := mkGMO MQC.MQGMO_WAIT w 0 [].
Definition gmoUnlimited : MQGMO := gmoWait MQC.MQWI_UNLIMITED.
Definition gmo2000 : MQGMO := gmoWait 2000.

(** Completions of an [MQGET]: no message; a message of [n] bytes that is
    longer than the buffer (completion code [MQCC_WARNING], 1); a message
    of [n] bytes whose callback leaves the working copy of the options as
    [g'].  The callbacks make no call. *)
Definition noMessage (g : MQGMO) : Completion :=
  mkCompletion MQC.MQCC_FAILED MQC.MQRC_NO_MSG_AVAILABLE 0 MQMD_new g MQMD_new g [].
Definition truncatedMessage (g : MQGMO) (n : Z) : Completion :=
  mkCompletion 1 MQC.MQRC_TRUNCATED_MSG_FAILED n MQMD_new g MQMD_new g [].
Definition message (g g' : MQGMO) (n : Z) : Completion :=
  mkCompletion MQC.MQCC_OK MQC.MQRC_NONE n MQMD_new g MQMD_new g' [].

(** The module as loaded, with the default tuning parameters, and with
    [setTuningParameters({maxConsecutiveGets:0})]. *)
Definition loaded : State := init tuningDefault 0 [].
Definition tuningNoCap : TuningParameters := mkTuning (JsNum_of_Z 0) 10000 250 false.

(** One and a half, the double [3 * 2^-1]. *)
Definition oneAndAHalf : JsNum := JsFin 3 (-1).

(** [Get] on queue A with an unlimited wait; [pollAllHConns] runs and the
    first [MQGET] is in flight. *)
Definition firstAttempt : list Event :=
  [App (ApiGet queueA MQMD_new gmoUnlimited 7%nat); Run 0 (noMessage gmoUnlimited)].

(** The first attempt is truncated and the retry, with the doubled buffer,
    is in flight. *)
Definition grownInFlight : list Event :=
  firstAttempt ++
  [Run 0 (truncatedMessage gmoUnlimited 15000); Run 0 (noMessage gmoUnlimited)].

(** The retry delivers a message of 100 bytes, and so do the six attempts
    that follow it; the eighth is in flight. *)
Definition shrunkInFlight : list Event :=
  grownInFlight ++
  concat (replicate 7 [Run 0 (message gmoUnlimited gmoUnlimited 100);
                       Run 0 (noMessage gmoUnlimited)]).

(** ... and is truncated by a message of 30000 bytes. *)
Definition truncatedAgain : list Event :=
  shrunkInFlight ++ [Run 0 (truncatedMessage gmoUnlimited 30000)].

(** ... and the retry is in flight. *)
Definition retryAfterTruncation : list Event :=
  truncatedAgain ++ [Run 0 (noMessage gmoUnlimited)].

(** ... and is truncated by the same message, and the second retry is in
    flight. *)
Definition secondRetry : list Event :=
  retryAfterTruncation ++
  [Run 0 (truncatedMessage gmoUnlimited 30000); Run 0 (noMessage gmoUnlimited)].

(** The [MQGET] calls in flight: the context and the length of the buffer
    passed. *)
Definition buffers_in_flight (s : State) : list (CtxRef * Z) :=
  omap (fun p => match snd p with
                 | JMQGET c _ _ call => Some (c, call_bufflen call)
                 | _ => None
                 end) (pending s).

(** ... and delivers a message of 100 bytes. *)
Definition grownThenDelivered : list Event :=
  grownInFlight ++ [Run 0 (message gmoUnlimited gmoUnlimited 100)].

(** ... and the zero-delay retry that follows the delivery issues the next
    [MQGET]. *)
Definition attemptAfterDelivery : list Event :=
  grownThenDelivered ++ [Run 0 (noMessage gmoUnlimited)].

(** The application sets [maxConsecutiveGets] to 1.5 and calls [Get] on
    queue A, which holds two messages of 100 bytes: the first attempt
    delivers one, the zero-delay retry issues the next [MQGET], and that one
    delivers the other. *)
Definition twoDeliveries : list Event :=
  App (ApiSetMaxConsecutiveGets oneAndAHalf) :: firstAttempt ++
  [Run 0 (message gmoUnlimited gmoUnlimited 100);
   Run 0 (noMessage gmoUnlimited);
   Run 0 (message gmoUnlimited gmoUnlimited 100)].

(** While the first [MQGET] for queue A is in flight the application calls
    [GetDone] for A and [Get] for queue B of the same connection;
    [pollAllHConns] runs. *)
Definition cancelledInFlight : list Event :=
  firstAttempt ++
  [App (ApiGetDone (Some queueA) None);
   App (ApiGet queueB MQMD_new gmo2000 8%nat);
   Run 1 (noMessage gmoUnlimited)].

(** One more round of the cancelled context: ten seconds pass, the deferred
    attempt runs and its [MQGET] finds no message. *)
Definition idleRound : list Event :=
  [Tick 10000; Run 0 (noMessage gmoUnlimited); Run 0 (noMessage gmoUnlimited)].

(** [Get] on queue A with a wait of 2000 ms and a callback that only
    records the error; the queue stays empty: the first attempt finds no
    message and the next one is in flight ten seconds later. *)
Definition expiredInFlight : list Event :=
  [App (ApiGet queueA MQMD_new gmo2000 7%nat); Run 0 (noMessage gmo2000);
   Run 0 (noMessage gmo2000); Tick 10000; Run 0 (noMessage gmo2000)].

(** ... and finds the wait expired. *)
Definition waitExpires : list Event :=
  expiredInFlight ++ [Run 0 (noMessage gmo2000)].

(** ... and the timer that [pollHobjs] left runs [pollPerHconn]. *)
Definition timerAfterExpiry : list Event :=
  waitExpires ++ [Tick 10000; Run 0 (noMessage gmo2000)].

(** Events in which the application makes no call. *)
Definition passive (e : Event) : bool :=
  match e with
  | Tick _ | Run _ _ | Monitor => true
  | App _ | AppVerb _ => false
  end.

(** The state of a module in which a cancelled context [c] with an
    unlimited wait holds the polling loop while [m] is all the registry
    holds. *)
Definition stuck (c : CtxRef) (m : list (string * CtxRef)) (tr : list Obs) (s : State) : Prop :=
  contextMap s = m ∧ trace s = tr
  ∧ debugLongCalls (tuningParameters s) = false
  ∧ ctx_WaitInterval (store s c) = MQC.MQWI_UNLIMITED
  ∧ ((∃ d md g, pending s = [(d, JPollHObjInternal c md g)])
     ∨ (∃ d md g call, pending s = [(d, JMQGET c md g call)])).

(** Events in which the application makes no call and every [MQGET] that
    completes finds no message. *)
Definition idle (e : Event) : bool :=
  match e with
  | Tick _ | Monitor => true
  | Run _ r => negb (r_cc r =? MQC.MQCC_OK) && (r_rc r =? MQC.MQRC_NO_MSG_AVAILABLE)
  | App _ | AppVerb _ => false
  end.


(** ** Notions used by the further properties *)

(** The random numbers that make [shuffle_from i] bring the element at
    index [k] to the front: at step [k] the index 0, at every other step
    [j] the index [j] itself. *)
Fixpoint front_entropy (i k : nat) : list nat :=
  match i with
  | O => []
  | S i' => (if decide (i = k) then 0%nat else i) :: front_entropy i' k
  end.

(** The sizes of a context: the capacity and the length of the allocated
    buffer are between [defaultBufSize] and [maxBufSize]. *)
Definition bufs_ok (x : UserContext) : Prop :=
  defaultBufSize ≤ bufSize x ≤ maxBufSize
  ∧ ∀ len, buf x = Some len → defaultBufSize ≤ len ≤ maxBufSize.

Definition AllBufs (s : State) : Prop := ∀ c, bufs_ok (store s c).

(** The connection on which a pending job is an MQI call in flight. *)
Definition call_conn (j : Job) : option Z :=
  match j with
  | JMQGET _ _ _ call => Some (call_hConn call)
  | JVerbCall hc => Some hc
  | _ => None
  end.

Definition calls_in_flight (h : Z) (s : State) : nat :=
  length (filter (fun p => call_conn (snd p) = Some h) (pending s)).

(** The gate while the long-call monitor is off: a call in flight on a
    connection holds the gate of the connection, and it is the only one. *)
Definition Gated (s : State) : Prop :=
  debugLongCalls (tuningParameters s) = false
  ∧ ∀ h, (calls_in_flight h s ≤ (if isLocked h s then 1 else 0))%nat.

(** [function isContextAvailable(c)]: "check if context is still
    available": some registered context has the object handle, the
    connection handle and the object name of [c]. *)
Definition isContextAvailable (c : CtxRef) (s : State) : bool :=
  existsb (fun x =>
             (_hObj (object (store s x)) =? _hObj (object (store s c)))
             && (hConnOf (object (store s x)) =? hConnOf (object (store s c)))
             && String.eqb (_name (object (store s x))) (_name (object (store s c))))
          (Map_values (contextMap s)).

(** A gate that nothing will release: it is held, no call is in flight on
    the connection and the long-call monitor is off. *)
Definition Blocked (hc : Z) (s : State) : Prop :=
  isLocked hc s = true
  ∧ calls_in_flight hc s = 0%nat
  ∧ debugLongCalls (tuningParameters s) = false.

(** An invocation that names a context was made with the callback and the
    object of that context. *)
Definition own (s : State) (i : Invocation) : Prop :=
  ∀ c, inv_ctx i = Some c →
    (c < nextRef s)%nat
    ∧ inv_cb i = cb (store s c)
    ∧ inv_object i = Some (object (store s c)).

Definition Owned (s : State) : Prop := ∀ i, ObsCall i ∈ trace s → own s i.

(** From [s] to [s']: the contexts of [s] keep their callback and their
    object, and the invocations made in between are their own. *)
Definition grows (s s' : State) : Prop :=
  (nextRef s ≤ nextRef s')%nat
  ∧ (∀ c, (c < nextRef s)%nat →
       cb (store s' c) = cb (store s c) ∧ object (store s' c) = object (store s c))
  ∧ (∀ i, ObsCall i ∈ trace s' → ObsCall i ∈ trace s ∨ own s' i).






(** * Parameter checks and tuning parameters *)

Module Tuning.

(** JavaScript numbers are only stored, tested for their type and tested for
    truth here: [num_truthy] is [ToBoolean] (false for 0, -0 and NaN). *)
Class JsNumber (num : Type) := {
  num_truthy : num -> bool;
  num_of_Z : Z -> num
}.

Global Instance Z_JsNumber : JsNumber Z :=
  {| num_truthy := fun z => negb (z =? 0); num_of_Z := fun z => z |}.

Section Values.
Context {num : Type} `{!JsNumber num}.

(** The values a caller can pass: primitives, and objects (functions are
    callable objects) with the constructors [instanceof] finds in their
    prototype chain and their enumerable properties in the order of
    [for (key in v)]. *)
#[warnings="-register-all"] Inductive JsVal :=
| VUndefined
| VNull
| VBool (b : bool)
| VNum (n : num)
| VStr (s : string)
| VObj (callable : bool) (classes : list string) (props : list (string * JsVal)).

Definition typeof (v : JsVal) : string :=
  match v with
  | VUndefined => "undefined"
  | VNull => "object"
  | VBool _ => "boolean"
  | VNum _ => "number"
  | VStr _ => "string"
  | VObj callable _ _ => if callable then "function" else "object"
  end.

(** [v == null]. *)
Definition nullish (v : JsVal) : bool :=
  match v with
  | VUndefined | VNull => true
  | _ => false
  end.

(** [ToBoolean(v)]. *)
Definition truthy (v : JsVal) : bool :=
  match v with
  | VUndefined | VNull => false
  | VBool b => b
  | VNum n => num_truthy n
  | VStr s => negb (String.eqb s "")
  | VObj _ _ _ => true
  end.

(** [v instanceof t], for a constructor [t]. *)
Definition instanceof (v : JsVal) (t : string) : bool :=
  match v with
  | VObj _ classes _ => bool_decide (t ∈ classes)
  | _ => false
  end.

(** [v[key]]. *)
Fixpoint get_prop (key : string) (props : list (string * JsVal)) : JsVal :=
  match props with
  | [] => VUndefined
  | (k, x) :: rest => if String.eqb key k then x else get_prop key rest
  end.

Definition props_of (v : JsVal) : list (string * JsVal) :=
  match v with
  | VObj _ _ props => props
  | _ => []
  end.

Record TypeError := mkTypeError { message : string }.

(** The type a parameter is checked against: one of the basic type names
    ['number'], ['string'], ['boolean'], or a constructor. *)
Inductive BasicType := TyNumber | TyString | TyBoolean.

Definition basic_name (t : BasicType) : string :=
  match t with
  | TyNumber => "number"
  | TyString => "string"
  | TyBoolean => "boolean"
  end.

Inductive ParamType :=
| TBasic (t : BasicType)
| TClass (t : string).

(** [function checkParamCBRequired(cb,required)]; [inl] is the exception
    thrown. *)
Definition checkParamCBRequired (cb : JsVal) (required : bool) : TypeError + unit :=
  if required && nullish cb then inl (mkTypeError "Callback function must be provided")
  else if truthy cb && negb (String.eqb (typeof cb) "function")
  then inl (mkTypeError "Callback must be a function")
  else inr tt.

(** [function checkParamCB(cb)]. *)
Definition checkParamCB (cb : JsVal) : TypeError + unit := checkParamCBRequired cb false.

(** [function checkParamRequired(b, t, m, required)]. *)
Definition checkParamRequired (b : JsVal) (t : ParamType) (m : string) (required : bool) : TypeError + unit :=
  if required && nullish b
  then inl (mkTypeError ("Parameter of type " +:+ m +:+ " must be provided"))
  else if negb required && nullish b then inr tt
  else
    match t with
    | TBasic t =>
        if negb (String.eqb (typeof b) (basic_name t))
        then inl (mkTypeError ("Parameter must be of type " +:+ m))
        else inr tt
    | TClass t =>
        if truthy b && negb (instanceof b t)
        then inl (mkTypeError ("Parameter must be of type " +:+ m))
        else inr tt
    end.

(** [function checkParam(b,t,m,o)]: [o] is [None] when the argument is
    left out. *)
Definition checkParam (b : JsVal) (t : ParamType) (m : string) (o : option bool) : TypeError + unit :=
  match o with
  | Some o => checkParamRequired b t m o
  | None => checkParamRequired b t m true
  end.

(** What [debugLog] prints for [setTuningParameters]: the tuning object. *)
Inductive LogLine :=
| LogTuning (parms : gmap string JsVal).

(** The module variables [setTuningParameters] and [debugLog] work on:
    [tuningParameters], [debugLongCallsTimer] ([null] or the timer
    [setInterval] returned), the interval timers that are running,
    [debugEnabled], whether the environment variable [MQIJS_DEBUG] is set,
    and the lines printed. *)
Record TuningState := mkTuningState {
  tuningParameters : gmap string JsVal;
  debugLongCallsTimer : option nat;
  intervals : gset nat;
  nextTimer : nat;
  debugEnabled : option bool;
  envDebug : bool;
  console : list LogLine
}.

Definition set_tuningParameters (v : gmap string JsVal) (s : TuningState) : TuningState :=
  {| tuningParameters := v;
     debugLongCallsTimer := debugLongCallsTimer s;
     intervals := intervals s;
     nextTimer := nextTimer s;
     debugEnabled := debugEnabled s;
     envDebug := envDebug s;
     console := console s |}.

Definition set_debugEnabled (v : option bool) (s : TuningState) : TuningState :=
  {| tuningParameters := tuningParameters s;
     debugLongCallsTimer := debugLongCallsTimer s;
     intervals := intervals s;
     nextTimer := nextTimer s;
     debugEnabled := v;
     envDebug := envDebug s;
     console := console s |}.

Definition set_console (v : list LogLine) (s : TuningState) : TuningState :=
  {| tuningParameters := tuningParameters s;
     debugLongCallsTimer := debugLongCallsTimer s;
     intervals := intervals s;
     nextTimer := nextTimer s;
     debugEnabled := debugEnabled s;
     envDebug := envDebug s;
     console := v |}.

(** [debugLongCallsTimer = setInterval(debugLongCallMonitorFunction, 1000)]. *)
Definition startMonitor (s : TuningState) : TuningState :=
  {| tuningParameters := tuningParameters s;
     debugLongCallsTimer := Some (nextTimer s);
     intervals := {[nextTimer s]} ∪ intervals s;
     nextTimer := S (nextTimer s);
     debugEnabled := debugEnabled s;
     envDebug := envDebug s;
     console := console s |}.

(** [clearInterval(debugLongCallsTimer); debugLongCallsTimer = null]. *)
Definition stopMonitor (t : nat) (s : TuningState) : TuningState :=
  {| tuningParameters := tuningParameters s;
     debugLongCallsTimer := None;
     intervals := intervals s ∖ {[t]};
     nextTimer := nextTimer s;
     debugEnabled := debugEnabled s;
     envDebug := envDebug s;
     console := console s |}.

(** The object literal assigned to [tuningParameters] when the module is
    loaded. *)
Definition tuningParametersDefault : gmap string JsVal :=
  <["maxConsecutiveGets" := VNum (num_of_Z maxConsecutiveGetsDefault)]>
  (<["getLoopPollTimeMs" := VNum (num_of_Z getLoopPollTimeMsDefault)]>
  (<["getLoopDelayTimeMs" := VNum (num_of_Z getLoopDelayTimeMsDefault)]>
  (<["syncMQICompat" := VBool false]>
  (<["debugLongCalls" := VBool false]>
  (<["debugLog" := VBool false]> ∅))))).

Definition loaded (env : bool) : TuningState :=
  {| tuningParameters := tuningParametersDefault;
     debugLongCallsTimer := None;
     intervals := ∅;
     nextTimer := 0;
     debugEnabled := None;
     envDebug := env;
     console := [] |}.

(** [tuningParameters[key]]. *)
Definition tuningParameter (key : string) (s : TuningState) : JsVal :=
  default VUndefined (tuningParameters s !! key).

(** [function debugLog(fmt,...args)]. *)
Definition debugLog (line : LogLine) (s : TuningState) : TuningState :=
  let s :=
    match debugEnabled s with
    | None =>
        if truthy (tuningParameter "debugLog" s) || envDebug s
        then set_debugEnabled (Some true) s
        else set_debugEnabled (Some false) s
    | Some _ => s
    end in
  match debugEnabled s with
  | Some true => set_console (console s ++ [line]) s
  | _ => s
  end.

(** "Reset some internal values if they have been modified by this call":
    the monitor timer follows [tuningParameters['debugLongCalls']]. *)
Definition syncMonitor (s : TuningState) : TuningState :=
  if truthy (tuningParameter "debugLongCalls" s) then
    match debugLongCallsTimer s with
    | None => startMonitor s
    | Some _ => s
    end
  else
    match debugLongCallsTimer s with
    | Some t => stopMonitor t s
    | None => s
    end.

(** One turn of [for (var key in v)] in [setTuningParameters]. *)
Definition setTuningParameter (v : list (string * JsVal)) (key : string) (x : JsVal) (s : TuningState) : TypeError + TuningState :=
  match tuningParameters s !! key with
  | Some cur =>
      let checked :=
        if String.eqb (typeof cur) "boolean"
        then checkParam x (TBasic TyBoolean) "boolean" (Some true)
        else checkParam x (TBasic TyNumber) "number" (Some true) in
      match checked with
      | inl e => inl e
      | inr _ =>
          let s := set_tuningParameters (<[key := x]> (tuningParameters s)) s in
          let s := syncMonitor s in
          inr (if negb (nullish (get_prop "debugLog" v)) then set_debugEnabled None s else s)
      end
  | None => inl (mkTypeError ("Unknown property : " +:+ key))
  end.

(** The loop: an exception leaves the assignments made so far in place. *)
Fixpoint setTuningParameters_loop (v todo : list (string * JsVal)) (s : TuningState) : TuningState * option TypeError :=
  match todo with
  | [] => (s, None)
  | (key, x) :: rest =>
      match setTuningParameter v key x s with
      | inl e => (s, Some e)
      | inr s' => setTuningParameters_loop v rest s'
      end
  end.

(** [exports.setTuningParameters = function(v)]: the state it leaves and
    the exception it throws, if any. *)
Definition setTuningParameters (v : JsVal) (s : TuningState) : TuningState * option TypeError :=
  match checkParam v (TClass "Object") "Object" (Some false) with
  | inl e => (s, Some e)
  | inr _ =>
      match setTuningParameters_loop (props_of v) (props_of v) s with
      | (s, Some e) => (s, Some e)
      | (s, None) => (debugLog (LogTuning (tuningParameters s)) s, None)
      end
  end.

(** [exports.getTuningParameters = function()]: the object itself. *)
Definition getTuningParameters (s : TuningState) : gmap string JsVal := tuningParameters s.

(** The properties of the tuning object, by the type of their values. *)
Definition flag_keys : list string := ["syncMQICompat"; "debugLongCalls"; "debugLog"].
Definition number_keys : list string :=
  ["maxConsecutiveGets"; "getLoopPollTimeMs"; "getLoopDelayTimeMs"].

Definition WellTyped (parms : gmap string JsVal) : Prop :=
  (∀ k, k ∈ flag_keys → ∃ b, parms !! k = Some (VBool b))
  ∧ (∀ k, k ∈ number_keys → ∃ n, parms !! k = Some (VNum n))
  ∧ (∀ k, is_Some (parms !! k) → k ∈ flag_keys ++ number_keys).

(** The monitor timer follows the flag [debugLongCalls], and no other
    interval timer of the module is running. *)
Definition MonitorInv (s : TuningState) : Prop :=
  match debugLongCallsTimer s with
  | Some t => intervals s = {[t]} ∧ tuningParameter "debugLongCalls" s = VBool true
  | None => intervals s = ∅ ∧ tuningParameter "debugLongCalls" s = VBool false
  end.

(** A property a call may set: the tuning object has it, and the value has
    the type of the current one. *)
Definition fits (parms : gmap string JsVal) (kx : string * JsVal) : Prop :=
  ∃ cur, parms !! kx.1 = Some cur ∧ typeof kx.2 = typeof cur.

(** Two tuning objects with the same properties, of the same types. *)
Definition same_types (parms parms' : gmap string JsVal) : Prop :=
  ∀ k, typeof <$> (parms' !! k) = typeof <$> (parms !! k).

(** The exception a property that does not fit is refused with. *)
Definition refusal (parms : gmap string JsVal) (kx : string * JsVal) : TypeError :=
  match parms !! kx.1 with
  | None => mkTypeError ("Unknown property : " +:+ kx.1)
  | Some cur =>
      let m := if String.eqb (typeof cur) "boolean" then "boolean" else "number" in
      if nullish kx.2
      then mkTypeError ("Parameter of type " +:+ m +:+ " must be provided")
      else mkTypeError ("Parameter must be of type " +:+ m)
  end.

End Values.
End Tuning.


(** * Inquire and set: [Inq], [Set] and [mqcaLen] *)

Module Attrs.

(** [mqidefs.js] (the [MQC] table) is not part of the sources: the
    selectors and lengths [mqcaLen] names, the two selector ranges and the
    two reason codes are the fields of a table, and nothing is assumed of
    their values.  [getMQIString] is [u.getMQIString] of [mqiutils.js],
    which is not part of the sources either. *)
Class MQCTable := {
  MQIA_FIRST : Z;
  MQIA_LAST : Z;
  MQIA_NAME_COUNT : Z;
  MQCA_FIRST : Z;
  MQCA_LAST : Z;
  MQRC_BAD_SELECTOR : Z;
  MQRC_SELECTOR_ERROR : Z;
  MQCA_TRIGGER_DATA : Z;
  MQCA_Q_MGR_NAME : Z;
  MQCA_REMOTE_Q_MGR_NAME : Z;
  MQCA_PARENT : Z;
  MQCA_DEAD_LETTER_Q_NAME : Z;
  MQCA_BASE_Q_NAME : Z;
  MQCA_BACKOUT_REQ_Q_NAME : Z;
  MQCA_COMMAND_INPUT_Q_NAME : Z;
  MQCA_INITIATION_Q_NAME : Z;
  MQCA_DEF_XMIT_Q_NAME : Z;
  MQCA_Q_NAME : Z;
  MQCA_REMOTE_Q_NAME : Z;
  MQCA_XMIT_Q_NAME : Z;
  MQCA_ALTERATION_DATE : Z;
  MQCA_CREATION_DATE : Z;
  MQCA_ALTERATION_TIME : Z;
  MQCA_CREATION_TIME : Z;
  MQCA_APPL_ID : Z;
  MQCA_CF_STRUC_NAME : Z;
  MQCA_CHANNEL_AUTO_DEF_EXIT : Z;
  MQCA_CLUSTER_WORKLOAD_EXIT : Z;
  MQCA_CHINIT_SERVICE_PARM : Z;
  MQCA_CLUSTER_NAME : Z;
  MQCA_REPOSITORY_NAME : Z;
  MQCA_CLUSTER_WORKLOAD_DATA : Z;
  MQCA_DNS_GROUP : Z;
  MQCA_ENV_DATA : Z;
  MQCA_IGQ_USER_ID : Z;
  MQCA_INSTALLATION_DESC : Z;
  MQCA_INSTALLATION_NAME : Z;
  MQCA_INSTALLATION_PATH : Z;
  MQCA_LU62_ARM_SUFFIX : Z;
  MQCA_LU_GROUP_NAME : Z;
  MQCA_LU_NAME : Z;
  MQCA_NAMELIST_DESC : Z;
  MQCA_NAMELIST_NAME : Z;
  MQCA_CLUSTER_NAMELIST : Z;
  MQCA_REPOSITORY_NAMELIST : Z;
  MQCA_NAMES : Z;
  MQCA_PROCESS_DESC : Z;
  MQCA_PROCESS_NAME : Z;
  MQCA_Q_DESC : Z;
  MQCA_Q_MGR_DESC : Z;
  MQCA_Q_MGR_IDENTIFIER : Z;
  MQCA_QSG_NAME : Z;
  MQCA_STORAGE_CLASS : Z;
  MQCA_TCP_NAME : Z;
  MQCA_USER_DATA : Z;
  MQ_TRIGGER_DATA_LENGTH : Z;
  MQ_Q_MGR_NAME_LENGTH : Z;
  MQ_Q_NAME_LENGTH : Z;
  MQ_DATE_LENGTH : Z;
  MQ_TIME_LENGTH : Z;
  MQ_APPL_IDENTITY_DATA_LENGTH : Z;
  MQ_CF_STRUC_NAME_LENGTH : Z;
  MQ_EXIT_NAME_LENGTH : Z;
  MQ_CHINIT_SERVICE_PARM_LENGTH : Z;
  MQ_CLUSTER_NAME_LENGTH : Z;
  MQ_EXIT_DATA_LENGTH : Z;
  MQ_DNS_GROUP_NAME_LENGTH : Z;
  MQ_PROCESS_ENV_DATA_LENGTH : Z;
  MQ_USER_ID_LENGTH : Z;
  MQ_INSTALLATION_DESC_LENGTH : Z;
  MQ_INSTALLATION_NAME_LENGTH : Z;
  MQ_INSTALLATION_PATH_LENGTH : Z;
  MQ_ARM_SUFFIX_LENGTH : Z;
  MQ_LU_NAME_LENGTH : Z;
  MQ_NAMELIST_DESC_LENGTH : Z;
  MQ_NAMELIST_NAME_LENGTH : Z;
  MQ_PROCESS_DESC_LENGTH : Z;
  MQ_PROCESS_NAME_LENGTH : Z;
  MQ_Q_DESC_LENGTH : Z;
  MQ_Q_MGR_DESC_LENGTH : Z;
  MQ_Q_MGR_IDENTIFIER_LENGTH : Z;
  MQ_QSG_NAME_LENGTH : Z;
  MQ_STORAGE_CLASS_LENGTH : Z;
  MQ_TCP_NAME_LENGTH : Z;
  MQ_PROCESS_USER_DATA_LENGTH : Z;
  getMQIString : string -> string
}.

(** A sample table for the scenarios, with values in the manner of the IBM
    MQ header [cmqc.h] and a [getMQIString] that returns the characters as
    they are.  No property depends on it. *)
Definition sampleTable : MQCTable :=
  {| MQIA_FIRST := 1;
     MQIA_LAST := 2000;
     MQIA_NAME_COUNT := 19;
     MQCA_FIRST := 2001;
     MQCA_LAST := 4000;
     MQRC_BAD_SELECTOR := 2068;
     MQRC_SELECTOR_ERROR := 2067;
     MQCA_TRIGGER_DATA := 2023;
     MQCA_Q_MGR_NAME := 2015;
     MQCA_REMOTE_Q_MGR_NAME := 2017;
     MQCA_PARENT := 2102;
     MQCA_DEAD_LETTER_Q_NAME := 2006;
     MQCA_BASE_Q_NAME := 2002;
     MQCA_BACKOUT_REQ_Q_NAME := 2019;
     MQCA_COMMAND_INPUT_Q_NAME := 2003;
     MQCA_INITIATION_Q_NAME := 2008;
     MQCA_DEF_XMIT_Q_NAME := 2025;
     MQCA_Q_NAME := 2016;
     MQCA_REMOTE_Q_NAME := 2018;
     MQCA_XMIT_Q_NAME := 2024;
     MQCA_ALTERATION_DATE := 2027;
     MQCA_CREATION_DATE := 2004;
     MQCA_ALTERATION_TIME := 2028;
     MQCA_CREATION_TIME := 2005;
     MQCA_APPL_ID := 2001;
     MQCA_CF_STRUC_NAME := 2039;
     MQCA_CHANNEL_AUTO_DEF_EXIT := 2026;
     MQCA_CLUSTER_WORKLOAD_EXIT := 2033;
     MQCA_CHINIT_SERVICE_PARM := 2076;
     MQCA_CLUSTER_NAME := 2029;
     MQCA_REPOSITORY_NAME := 2035;
     MQCA_CLUSTER_WORKLOAD_DATA := 2034;
     MQCA_DNS_GROUP := 2071;
     MQCA_ENV_DATA := 2007;
     MQCA_IGQ_USER_ID := 2041;
     MQCA_INSTALLATION_DESC := 2115;
     MQCA_INSTALLATION_NAME := 2116;
     MQCA_INSTALLATION_PATH := 2117;
     MQCA_LU62_ARM_SUFFIX := 2074;
     MQCA_LU_GROUP_NAME := 2072;
     MQCA_LU_NAME := 2073;
     MQCA_NAMELIST_DESC := 2009;
     MQCA_NAMELIST_NAME := 2010;
     MQCA_CLUSTER_NAMELIST := 2030;
     MQCA_REPOSITORY_NAMELIST := 2036;
     MQCA_NAMES := 2020;
     MQCA_PROCESS_DESC := 2011;
     MQCA_PROCESS_NAME := 2012;
     MQCA_Q_DESC := 2013;
     MQCA_Q_MGR_DESC := 2014;
     MQCA_Q_MGR_IDENTIFIER := 2032;
     MQCA_QSG_NAME := 2040;
     MQCA_STORAGE_CLASS := 2022;
     MQCA_TCP_NAME := 2075;
     MQCA_USER_DATA := 2021;
     MQ_TRIGGER_DATA_LENGTH := 64;
     MQ_Q_MGR_NAME_LENGTH := 48;
     MQ_Q_NAME_LENGTH := 48;
     MQ_DATE_LENGTH := 12;
     MQ_TIME_LENGTH := 8;
     MQ_APPL_IDENTITY_DATA_LENGTH := 32;
     MQ_CF_STRUC_NAME_LENGTH := 12;
     MQ_EXIT_NAME_LENGTH := 128;
     MQ_CHINIT_SERVICE_PARM_LENGTH := 32;
     MQ_CLUSTER_NAME_LENGTH := 48;
     MQ_EXIT_DATA_LENGTH := 32;
     MQ_DNS_GROUP_NAME_LENGTH := 18;
     MQ_PROCESS_ENV_DATA_LENGTH := 128;
     MQ_USER_ID_LENGTH := 12;
     MQ_INSTALLATION_DESC_LENGTH := 64;
     MQ_INSTALLATION_NAME_LENGTH := 16;
     MQ_INSTALLATION_PATH_LENGTH := 256;
     MQ_ARM_SUFFIX_LENGTH := 2;
     MQ_LU_NAME_LENGTH := 8;
     MQ_NAMELIST_DESC_LENGTH := 64;
     MQ_NAMELIST_NAME_LENGTH := 48;
     MQ_PROCESS_DESC_LENGTH := 64;
     MQ_PROCESS_NAME_LENGTH := 48;
     MQ_Q_DESC_LENGTH := 64;
     MQ_Q_MGR_DESC_LENGTH := 64;
     MQ_Q_MGR_IDENTIFIER_LENGTH := 48;
     MQ_QSG_NAME_LENGTH := 4;
     MQ_STORAGE_CLASS_LENGTH := 8;
     MQ_TCP_NAME_LENGTH := 8;
     MQ_PROCESS_USER_DATA_LENGTH := 128;
     getMQIString := fun b => b |}.

(** [var padding16 = "                "] (16 spaces);
    [padding64 = padding16 + padding16 + padding16 + padding16 + padding16];
    [padding256 = padding64 + padding64 + padding64 + padding64]. *)
Definition padding16 : string := "                ".
Definition padding64 : string :=
  padding16 +:+ padding16 +:+ padding16 +:+ padding16 +:+ padding16.
Definition padding256 : string := padding64 +:+ padding64 +:+ padding64 +:+ padding64.

(** The value of an attribute: [undefined] (the constructor's optional
    argument left out), a number, or a string. *)
Inductive AttrValue :=
| AUndefined
| AInt (z : Z)
| AStr (s : string).

(** [exports.MQAttr = function (selector,value)].  The selector is one of
    the constants of [MQC], 32-bit integers that a cell of [mqSelectors]
    holds as they are. *)
Record MQAttr := mkAttr { selector : Z; value : AttrValue }.

(** The number the language makes of a string ([Number(s)]) is not
    modelled: it is a parameter, and nothing is assumed of it. *)
Class JsStrings := { StringToNumber : string -> JsNum }.

(** A sample conversion for the scenarios: a string of decimal digits is
    the number it writes, and any other string is taken as [NaN].  No
    property depends on it. *)
Definition sampleStrings : JsStrings :=
  {| StringToNumber := fun s =>
       match DecimalString.NilEmpty.uint_of_string s with
       | Some u => JsNum_of_Z (Z.of_uint u)
       | None => JsNaN
       end |}.

Definition attr_set_value (v : AttrValue) (a : MQAttr) : MQAttr :=
  {| selector := selector a; value := v |}.

Section WithTable.
Context `{MQCTable} `{JsStrings}.

(** The body of a [case] of [mqcaLen]: a length, or the length of a
    namelist. *)
Inductive CaseBody :=
| Len (rc : Z)
| NamesLen.

(** The [switch] of [mqcaLen]: the labels of each group of [case]s and
    what the group assigns to [rc], in the order of the source. *)
Definition mqcaLen_cases : list (list Z * CaseBody) :=
  [ ([MQCA_TRIGGER_DATA], Len MQ_TRIGGER_DATA_LENGTH);
    ([MQCA_Q_MGR_NAME; MQCA_REMOTE_Q_MGR_NAME; MQCA_PARENT], Len MQ_Q_MGR_NAME_LENGTH);
    ([MQCA_DEAD_LETTER_Q_NAME; MQCA_BASE_Q_NAME; MQCA_BACKOUT_REQ_Q_NAME;
      MQCA_COMMAND_INPUT_Q_NAME; MQCA_INITIATION_Q_NAME; MQCA_DEF_XMIT_Q_NAME;
      MQCA_Q_NAME; MQCA_REMOTE_Q_NAME; MQCA_XMIT_Q_NAME], Len MQ_Q_NAME_LENGTH);
    ([MQCA_ALTERATION_DATE; MQCA_CREATION_DATE], Len MQ_DATE_LENGTH);
    ([MQCA_ALTERATION_TIME; MQCA_CREATION_TIME], Len MQ_TIME_LENGTH);
    ([MQCA_APPL_ID], Len MQ_APPL_IDENTITY_DATA_LENGTH);
    ([MQCA_CF_STRUC_NAME], Len MQ_CF_STRUC_NAME_LENGTH);
    ([MQCA_CHANNEL_AUTO_DEF_EXIT; MQCA_CLUSTER_WORKLOAD_EXIT], Len MQ_EXIT_NAME_LENGTH);
    ([MQCA_CHINIT_SERVICE_PARM], Len MQ_CHINIT_SERVICE_PARM_LENGTH);
    ([MQCA_CLUSTER_NAME; MQCA_REPOSITORY_NAME], Len MQ_CLUSTER_NAME_LENGTH);
    ([MQCA_CLUSTER_WORKLOAD_DATA], Len MQ_EXIT_DATA_LENGTH);
    ([MQCA_DNS_GROUP], Len MQ_DNS_GROUP_NAME_LENGTH);
    ([MQCA_ENV_DATA], Len MQ_PROCESS_ENV_DATA_LENGTH);
    ([MQCA_IGQ_USER_ID], Len MQ_USER_ID_LENGTH);
    ([MQCA_INSTALLATION_DESC], Len MQ_INSTALLATION_DESC_LENGTH);
    ([MQCA_INSTALLATION_NAME], Len MQ_INSTALLATION_NAME_LENGTH);
    ([MQCA_INSTALLATION_PATH], Len MQ_INSTALLATION_PATH_LENGTH);
    ([MQCA_LU62_ARM_SUFFIX], Len MQ_ARM_SUFFIX_LENGTH);
    ([MQCA_LU_GROUP_NAME; MQCA_LU_NAME], Len MQ_LU_NAME_LENGTH);
    ([MQCA_NAMELIST_DESC], Len MQ_NAMELIST_DESC_LENGTH);
    ([MQCA_NAMELIST_NAME; MQCA_CLUSTER_NAMELIST; MQCA_REPOSITORY_NAMELIST],
     Len MQ_NAMELIST_NAME_LENGTH);
    ([MQCA_NAMES], NamesLen);
    ([MQCA_PROCESS_DESC], Len MQ_PROCESS_DESC_LENGTH);
    ([MQCA_PROCESS_NAME], Len MQ_PROCESS_NAME_LENGTH);
    ([MQCA_Q_DESC], Len MQ_Q_DESC_LENGTH);
    ([MQCA_Q_MGR_DESC], Len MQ_Q_MGR_DESC_LENGTH);
    ([MQCA_Q_MGR_IDENTIFIER], Len MQ_Q_MGR_IDENTIFIER_LENGTH);
    ([MQCA_QSG_NAME], Len MQ_QSG_NAME_LENGTH);
    ([MQCA_STORAGE_CLASS], Len MQ_STORAGE_CLASS_LENGTH);
    ([MQCA_TCP_NAME], Len MQ_TCP_NAME_LENGTH);
    ([MQCA_USER_DATA], Len MQ_PROCESS_USER_DATA_LENGTH) ].

(** A [switch] runs the first group one of whose labels is the value. *)
Fixpoint switch_on (s : Z) (cases : list (list Z * CaseBody)) : option CaseBody :=
  match cases with
  | [] => None
  | (labels, body) :: rest =>
      if existsb (Z.eqb s) labels then Some body else switch_on s rest
  end.

(** [function mqcaLen(s,nameCount)]; [nameCount] is [None] when the
    argument is left out or [undefined]. *)
Definition mqcaLen (s : Z) (nameCount : option Z) : Z :=
  match switch_on s mqcaLen_cases with
  | Some (Len rc) => rc
  | Some NamesLen =>
      match nameCount with
      | Some n => if n >? 0 then MQ_Q_NAME_LENGTH * n else -1
      | None => -1
      end
  | None => -1
  end.

(** The arguments of [libmqm.MQINQ] and what the call leaves in the output
    parameters: the codes, the cells of [mqIntAttrs] and the bytes of the
    character buffer. *)
Record MQINQCall := mkMQINQCall {
  inq_hConn : Z;
  inq_hObj : Z;
  inq_selectors : list Z;
  inq_intAttrCount : nat;
  inq_charAttrLen : Z
}.

Record MQINQResult := mkMQINQResult {
  inq_cc : Z;
  inq_rc : Z;
  inq_intAttrs : list Z;
  inq_charAttrs : string
}.

(** How a verb with an optional callback ends: the callback is called with
    the error or with [null], or, without a callback, the error is thrown
    or the verb returns; or a [RangeError] of the runtime leaves the verb,
    with or without a callback. *)
Inductive Ending :=
| CallbackError (err : MQError)
| CallbackNull
| Throws (err : MQError)
| Returns
| ThrowsRangeError.

Definition ending (cb : bool) (jsCc : Z) (err : MQError) : Ending :=
  if cb then (if negb (jsCc =? MQC.MQCC_OK) then CallbackError err else CallbackNull)
  else (if negb (jsCc =? MQC.MQCC_OK) then Throws err else Returns).

(** The first loop of [Inq] and of [Set] sorts each selector. *)
Definition isMQIA (sel : Z) : bool := (MQIA_FIRST <=? sel) && (sel <=? MQIA_LAST).
Definition isMQCA (sel : Z) : bool := (MQCA_FIRST <=? sel) && (sel <=? MQCA_LAST).

(** The first loop of [Inq]: [charAttrLen] and [badSelector]. *)
Fixpoint inq_scan (jsSelectors : list MQAttr) (charAttrLen : Z) (badSelector : bool) : Z * bool :=
  match jsSelectors with
  | [] => (charAttrLen, badSelector)
  | a :: rest =>
      if isMQIA (selector a) then inq_scan rest charAttrLen badSelector
      else if isMQCA (selector a) then
        let charLen := mqcaLen (selector a) None in
        if charLen >? 0 then inq_scan rest (charAttrLen + charLen) badSelector
        else inq_scan rest charAttrLen true
      else inq_scan rest charAttrLen true
  end.

(** [ptr.slice(charIndex,charIndex+charLen)]. *)
Definition slice (ptr : string) (from len : Z) : string :=
  substring (Z.to_nat from) (Z.to_nat len) ptr.

(** The second loop of [Inq]: the values are taken from the cells of
    [mqIntAttrs] and from the character buffer, in order. *)
Fixpoint inq_unpack (jsSelectors : list MQAttr) (mqIntAttrs : list Z) (ptr : string) (intIndex : nat) (charIndex : Z) (nameCount : option Z) : list MQAttr :=
  match jsSelectors with
  | [] => []
  | a :: rest =>
      if isMQIA (selector a) then
        let v := mqIntAttrs !! intIndex in
        let a' := attr_set_value (match v with Some z => AInt z | None => AUndefined end) a in
        let nameCount := if selector a =? MQIA_NAME_COUNT then v else nameCount in
        a' :: inq_unpack rest mqIntAttrs ptr (S intIndex) charIndex nameCount
      else if isMQCA (selector a) then
        let charLen := mqcaLen (selector a) nameCount in
        if charLen >? 0 then
          attr_set_value (AStr (getMQIString (slice ptr charIndex charLen))) a
          :: inq_unpack rest mqIntAttrs ptr intIndex (charIndex + charLen) nameCount
        else a :: inq_unpack rest mqIntAttrs ptr intIndex charIndex nameCount
      else a :: inq_unpack rest mqIntAttrs ptr intIndex charIndex nameCount
  end.

(** What [Inq] does: the call it makes, if any, the selectors as it leaves
    them, and how it ends. *)
Record InqResult := mkInqResult {
  inq_call : option MQINQCall;
  inq_selectors_after : list MQAttr;
  inq_ending : Ending
}.

(** [exports.Inq = function(jsObject,jsSelectors,cb)], for an object, an
    array of [MQAttr] and an optional callback ([cb] tells whether one is
    given); [MQINQ] is the transport. *)
Definition Inq (jsObject : MQObject) (jsSelectors : list MQAttr) (cb : bool) (MQINQ : MQINQCall -> MQINQResult) : InqResult :=
  let '(charAttrLen, badSelector) := inq_scan jsSelectors 0 false in
  let call :=
    {| inq_hConn := hConnOf jsObject;
       inq_hObj := _hObj jsObject;
       inq_selectors := map selector jsSelectors;
       inq_intAttrCount := length jsSelectors;
       inq_charAttrLen := charAttrLen |} in
  if negb badSelector then
    let r := MQINQ call in
    let err := mkError (inq_cc r) (inq_rc r) "INQ" in
    let after :=
      if negb (inq_cc r =? MQC.MQCC_FAILED)
      then inq_unpack jsSelectors (inq_intAttrs r) (inq_charAttrs r) 0 0 (Some (-1))
      else jsSelectors in
    {| inq_call := Some call;
       inq_selectors_after := after;
       inq_ending := ending cb (inq_cc r) err |}
  else
    let err := mkError MQC.MQCC_FAILED MQRC_BAD_SELECTOR "INQ" in
    {| inq_call := None;
       inq_selectors_after := jsSelectors;
       inq_ending := ending cb MQC.MQCC_FAILED err |}.

(** [value + padding256]: the value as a string, followed by the padding. *)
Definition attr_string (v : AttrValue) : string :=
  match v with
  | AUndefined => "undefined"
  | AInt z => pretty z
  | AStr s => s
  end.

(** The number a value is converted to when it is written to a cell:
    [undefined] is [NaN]. *)
Definition attr_number (v : AttrValue) : JsNum :=
  match v with
  | AUndefined => JsNaN
  | AInt z => JsNum_of_Z z
  | AStr s => StringToNumber s
  end.

(** [mqIntAttrs[mqIntAttrsLen++] = jsSelectors[i].value]: what the cell
    holds, or [None] for the [RangeError] of the write. *)
Definition attr_cell (a : MQAttr) : option Z := writeInt32 (attr_number (value a)).

(** The loop of [Set]: the cells of the integer attributes in order, the
    character attributes padded or cut to their lengths and joined, and
    [badSelector]; [None] when a write to a cell throws, which ends the
    loop and the verb. *)
Fixpoint set_scan (jsSelectors : list MQAttr) (mqIntAttrs : list Z) (charAttr : string) (badSelector : bool) : option (list Z * string * bool) :=
  match jsSelectors with
  | [] => Some (mqIntAttrs, charAttr, badSelector)
  | a :: rest =>
      if isMQIA (selector a) then
        match attr_cell a with
        | Some z => set_scan rest (mqIntAttrs ++ [z]) charAttr badSelector
        | None => None
        end
      else if isMQCA (selector a) then
        let charLen := mqcaLen (selector a) None in
        if charLen >? 0 then
          set_scan rest mqIntAttrs
            (charAttr +:+ slice (attr_string (value a) +:+ padding256) 0 charLen)
            badSelector
        else set_scan rest mqIntAttrs charAttr true
      else set_scan rest mqIntAttrs charAttr true
  end.

Record MQSETCall := mkMQSETCall {
  set_hConn : Z;
  set_hObj : Z;
  set_selectors : list Z;
  set_intAttrs : list Z;
  set_charAttrLen : Z;
  set_charAttrs : string
}.

Record SetResult := mkSetResult {
  set_call : option MQSETCall;
  set_ending : Ending
}.

(** [exports.Set = function(jsObject,jsSelectors,cb)]; [MQSET] is the
    transport, which returns the completion and reason codes. *)
Definition Set_ (jsObject : MQObject) (jsSelectors : list MQAttr) (cb : bool) (MQSET : MQSETCall -> Z * Z) : SetResult :=
  match set_scan jsSelectors [] "" false with
  | None => {| set_call := None; set_ending := ThrowsRangeError |}
  | Some (mqIntAttrs, charAttr, badSelector) =>
      let charAttrLen :=
        if negb (String.eqb charAttr "") then Z.of_nat (String.length charAttr) else 0 in
      let call :=
        {| set_hConn := hConnOf jsObject;
           set_hObj := _hObj jsObject;
           set_selectors := map selector jsSelectors;
           set_intAttrs := mqIntAttrs;
           set_charAttrLen := charAttrLen;
           set_charAttrs := charAttr |} in
      if negb badSelector then
        let '(jsCc, jsRc) := MQSET call in
        {| set_call := Some call;
           set_ending := ending cb jsCc (mkError jsCc jsRc "SET") |}
      else
        {| set_call := None;
           set_ending := ending cb MQC.MQCC_FAILED
                           (mkError MQC.MQCC_FAILED MQRC_SELECTOR_ERROR "SET") |}
  end.

(** ** Notions used by the properties *)

(** A selector the first loop accepts: an integer attribute, or a
    character attribute whose length [mqcaLen] knows. *)
Definition accepted (a : MQAttr) : bool :=
  isMQIA (selector a) || (isMQCA (selector a) && (mqcaLen (selector a) None >? 0)).

(** An attribute whose value, if [Set] writes it to a cell, is stored. *)
Definition storable (a : MQAttr) : bool :=
  negb (isMQIA (selector a)) || bool_decide (is_Some (attr_cell a)).

(** The bytes an accepted selector takes in the character buffer. *)
Definition char_len (a : MQAttr) : Z :=
  if isMQIA (selector a) then 0 else mqcaLen (selector a) None.

(** Where the attribute at index [i] starts: the integer attributes and
    the bytes of character attributes before it. *)
Definition int_index (jsSelectors : list MQAttr) (i : nat) : nat :=
  length (filter (fun a => isMQIA (selector a) = true) (take i jsSelectors)).

Definition char_offset (jsSelectors : list MQAttr) (i : nat) : Z :=
  foldr Z.add 0 (map char_len (take i jsSelectors)).

(** All the labels of the [switch] of [mqcaLen]. *)
Definition mqcaLen_labels : list Z := concat (map fst mqcaLen_cases).

(** [n] spaces. *)
Fixpoint spaces (n : nat) : string :=
  match n with
  | O => ""
  | S n' => String " " (spaces n')
  end.

(** A character value as [Set] passes it for an attribute of [len] bytes. *)
Definition padded (v : AttrValue) (len : Z) : string :=
  slice (attr_string v +:+ padding256) 0 len.

End WithTable.

(** ** A scenario *)

(** An inquiry of the depth, the name and the description of a queue, and
    the answer of the queue manager. *)
Definition inquiry : list MQAttr :=
  [mkAttr 3 AUndefined; mkAttr 2016 AUndefined; mkAttr 2013 AUndefined].

Definition answer (call : MQINQCall) : MQINQResult :=
  {| inq_cc := 0;
     inq_rc := 0;
     inq_intAttrs := [5; 0; 0];
     inq_charAttrs := ("Q1" +:+ spaces 46) +:+ ("first queue" +:+ spaces 53) |}.

(** An inquiry of a namelist: the count of names, then the names. *)
Definition namesInquiry : list MQAttr :=
  [mkAttr 19 AUndefined; mkAttr 2020 AUndefined].

End Attrs.


(** * [put] and [put1]: the gate and the buffer check *)

Module Put.
Section WithNumbers.
Context {num : Type} `{!Tuning.JsNumber num}.

(** The check of the message buffer in [putInternal] and [put1Internal],
    made after the gate is taken:
    [if (buf) { if (typeof buf == "string") {...} else { checkParam(buf,Buffer,'Buffer'); } }]. *)
Definition putBufferCheck (buf : Tuning.JsVal) : Tuning.TypeError + unit :=
  if Tuning.truthy buf then
    if String.eqb (Tuning.typeof buf) "string" then inr tt
    else Tuning.checkParam buf (Tuning.TClass "Buffer") "Buffer" None
  else inr tt.

(** [putInternal] of [put] and [put1Internal] of [put1], on the gate and
    the pending jobs: defer while the gate is held; otherwise take the
    gate, check the buffer, and issue the call ([useAsync]) or make it and
    release the gate.  An exception of the check leaves the function. *)
Definition putInternal (hc : Z) (buf : Tuning.JsVal) (useAsync : bool) (s : State) : State * option Tuning.TypeError :=
  if isLocked hc s then (setImmediate (JVerb hc) s, None)
  else
    let s := lock hc s in
    match putBufferCheck buf with
    | inl e => (s, Some e)
    | inr _ =>
        if useAsync then (callAsync (JVerbCall hc) s, None)
        else (unlock hc s, None)
    end.

End WithNumbers.
End Put.

(** * Message properties: [SetMp] *)

Module Props.

(** The constants of [MQC] that [SetMp] names ([mqidefs.js] is not part
    of the sources). *)
Class MQTypes := {
  MQTYPE_STRING : Z;
  MQTYPE_INT32 : Z;
  MQTYPE_BOOLEAN : Z;
  MQTYPE_BYTE_STRING : Z;
  MQTYPE_NULL : Z;
  MQRC_PROPERTY_TYPE_ERROR : Z
}.

(** A sample table for the scenarios, with values in the manner of the IBM
    MQ header [cmqc.h].  No property depends on it. *)
Definition sampleTypes : MQTypes :=
  {| MQTYPE_STRING := 1024;
     MQTYPE_INT32 := 64;
     MQTYPE_BOOLEAN := 4;
     MQTYPE_BYTE_STRING := 8;
     MQTYPE_NULL := 2;
     MQRC_PROPERTY_TYPE_ERROR := 2473 |}.

(** A JavaScript string is a sequence of UTF-16 code units. *)
Definition JsString := list N.

(** The property value: a string, a number, a boolean, a [Buffer] (its
    length), [null] or [undefined], or any other object. *)
Inductive MpValue :=
| MpString (value : JsString)
| MpNumber (value : JsNum)
| MpBoolean (value : bool)
| MpBuffer (length : nat)
| MpNullish
| MpObject.

(** The length of [Buffer.from(value,'utf8')]: one byte for a code unit
    below 0x80, two below 0x800, four for a surrogate pair, and three for
    any other code unit (a lone surrogate is encoded as U+FFFD). *)
Fixpoint utf8_length (value : JsString) : nat :=
  match value with
  | [] => 0
  | u :: rest =>
      if (u <? 128)%N then S (utf8_length rest)
      else if (u <? 2048)%N then S (S (utf8_length rest))
      else if (55296 <=? u)%N && (u <? 56320)%N then
        match rest with
        | v :: rest' =>
            if (56320 <=? v)%N && (v <? 57344)%N
            then S (S (S (S (utf8_length rest'))))
            else S (S (S (utf8_length rest)))
        | [] => 3
        end
      else S (S (S (utf8_length rest)))
  end.

(** What is passed as [ptr]: [ref.NULL], a buffer of some length, or the
    cell [ref.alloc(MQT.LONG,value)]. *)
Inductive Ptr :=
| PNull
| PBuffer (length : nat)
| PLong (value : Z).

Record MQSETMPCall := mkMQSETMPCall {
  setmp_hConn : Z;
  setmp_name : JsString;
  setmp_type : Z;
  setmp_len : Z;
  setmp_ptr : Ptr
}.

(** What [SetMp] throws before the call: the [MQError] of the last branch
    of the tests, or the [RangeError] of [ref.alloc(MQT.LONG,value)]. *)
Inductive SetMpError :=
| PropertyTypeError (err : MQError)
| RangeError.

(** How [SetMp] ends: an exception before the call, or the call and then
    the callback or the exception of the verb. *)
Inductive SetMpResult :=
| SetMpThrows (err : SetMpError)
| SetMpCalls (call : MQSETMPCall) (ending : Attrs.Ending).

Section WithTypes.
Context `{MQTypes}.

(** The chain of tests on the value: type, length and pointer, or the
    exception of the cell write or of the last branch.  A boolean is
    written to the cell as 1 or 0. *)
Definition setmp_value (value : MpValue) : SetMpError + (Z * Z * Ptr) :=
  match value with
  | MpString v => inr (MQTYPE_STRING, Z.of_nat (length v), PBuffer (utf8_length v))
  | MpNumber v =>
      match writeInt32 v with
      | Some z => inr (MQTYPE_INT32, 4, PLong z)
      | None => inl RangeError
      end
  | MpBoolean v => inr (MQTYPE_BOOLEAN, 4, PLong (if v then 1 else 0))
  | MpBuffer n => inr (MQTYPE_BYTE_STRING, Z.of_nat n, PBuffer n)
  | MpNullish => inr (MQTYPE_NULL, 0, PNull)
  | MpObject =>
      inl (PropertyTypeError
             (mkError MQC.MQCC_FAILED MQRC_PROPERTY_TYPE_ERROR "MQSETMP"))
  end.

(** [exports.SetMp = function(jsQueueManager,jsHMsg,jssmpo,name,jspd,value,cb)];
    [MQSETMP] is the transport, which returns the completion and reason
    codes. *)
Definition SetMp (jsQueueManager : MQQueueManager) (name : JsString) (value : MpValue) (cb : bool) (MQSETMP : MQSETMPCall -> Z * Z) : SetMpResult :=
  match setmp_value value with
  | inl err => SetMpThrows err
  | inr (type, len, ptr) =>
      let call :=
        {| setmp_hConn := _hConn jsQueueManager;
           setmp_name := name;
           setmp_type := type;
           setmp_len := len;
           setmp_ptr := ptr |} in
      let '(jsCc, jsRc) := MQSETMP call in
      SetMpCalls call (Attrs.ending cb jsCc (mkError jsCc jsRc "MQSETMP"))
  end.

End WithTypes.
End Props.

(** * Message properties: [InqMp] *)

Module Inquire.

(** The constants of [MQC] that [InqMp] names ([mqidefs.js] is not part
    of the sources). *)
Class MQTypes := {
  MQTYPE_NULL : Z;
  MQTYPE_INT8 : Z;
  MQTYPE_INT16 : Z;
  MQTYPE_INT32 : Z;
  MQTYPE_STRING : Z;
  MQTYPE_BOOLEAN : Z;
  MQTYPE_BYTE_STRING : Z;
  MQENC_INTEGER_MASK : Z;
  MQENC_INTEGER_REVERSED : Z
}.

(** A sample table for the scenarios, with values in the manner of the IBM
    MQ header [cmqc.h].  No property depends on it. *)
Definition sampleTypes : MQTypes :=
  {| MQTYPE_NULL := 2;
     MQTYPE_INT8 := 16;
     MQTYPE_INT16 := 32;
     MQTYPE_INT32 := 64;
     MQTYPE_STRING := 1024;
     MQTYPE_BOOLEAN := 4;
     MQTYPE_BYTE_STRING := 8;
     MQENC_INTEGER_MASK := 15;
     MQENC_INTEGER_REVERSED := 2 |}.

(** A [Buffer] is a sequence of bytes, each from 0 to 255. *)
Definition Buffer := list Z.

(** An unsigned value of [bits] bits read as a signed one. *)
Definition signed (bits : Z) (u : Z) : Z :=
  if u <? 2 ^ (bits - 1) then u else u - 2 ^ bits.

(** [buf.readInt8(0)], [buf.readInt16LE(0)], [buf.readInt16BE(0)],
    [buf.readInt32LE(0)] and [buf.readInt32BE(0)]; [None] is the
    [RangeError] of a buffer that is too short. *)
Definition readInt8 (b : Buffer) : option Z :=
  match b with
  | b0 :: _ => Some (signed 8 b0)
  | _ => None
  end.

Definition readInt16LE (b : Buffer) : option Z :=
  match b with
  | b0 :: b1 :: _ => Some (signed 16 (b0 + b1 * 2 ^ 8))
  | _ => None
  end.

Definition readInt16BE (b : Buffer) : option Z :=
  match b with
  | b0 :: b1 :: _ => Some (signed 16 (b0 * 2 ^ 8 + b1))
  | _ => None
  end.

Definition readInt32LE (b : Buffer) : option Z :=
  match b with
  | b0 :: b1 :: b2 :: b3 :: _ =>
      Some (signed 32 (b0 + b1 * 2 ^ 8 + b2 * 2 ^ 16 + b3 * 2 ^ 24))
  | _ => None
  end.

Definition readInt32BE (b : Buffer) : option Z :=
  match b with
  | b0 :: b1 :: b2 :: b3 :: _ =>
      Some (signed 32 (b0 * 2 ^ 24 + b1 * 2 ^ 16 + b2 * 2 ^ 8 + b3))
  | _ => None
  end.

(** The value [InqMp] hands out: [null], a number, a boolean, the value
    buffer itself, or, for a string, [ref.reinterpret(valuePtr,jsPropsLen,'utf8')]:
    a buffer over [jsPropsLen] bytes of memory at the address of the value
    buffer. *)
Inductive MpValue :=
| MpNull
| MpNumber (value : Z)
| MpBoolean (value : bool)
| MpBytes (value : Buffer)
| MpMemory (length : Z).

(** What [MQINQMP] leaves in its output parameters: the codes, the type
    and the length of the property, [ReturnedEncoding], the returned name,
    and the bytes of the value buffer. *)
Record MQINQMPResult := mkMQINQMPResult {
  inqmp_cc : Z;
  inqmp_rc : Z;
  inqmp_type : Z;
  inqmp_propsLen : Z;
  inqmp_encoding : Z;
  inqmp_returnedName : string;
  inqmp_value : Buffer
}.

(** How [InqMp] ends: the callback with the error, the callback with
    [(null, returnedName, value, jsPropsLen, jsType)], the error thrown,
    the value returned, or the [RangeError] of a read. *)
Inductive Ending :=
| CallbackError (err : MQError)
| CallbackValue (returnedName : string) (value : MpValue) (propsLen type : Z)
| Throws (err : MQError)
| Returns (value : MpValue)
| ThrowsRangeError.

Section WithTypes.
Context `{MQTypes}.

(** The [switch (jsType)] of [InqMp]; [None] is the [RangeError] of a
    read. *)
Definition decode (jsType : Z) (le : bool) (jsPropsLen : Z) (valuePtr : Buffer) : option MpValue :=
  if jsType =? MQTYPE_NULL then Some MpNull
  else if jsType =? MQTYPE_INT8 then MpNumber <$> readInt8 valuePtr
  else if jsType =? MQTYPE_INT16 then
    MpNumber <$> (if le then readInt16LE valuePtr else readInt16BE valuePtr)
  else if jsType =? MQTYPE_INT32 then
    MpNumber <$> (if le then readInt32LE valuePtr else readInt32BE valuePtr)
  else if jsType =? MQTYPE_STRING then
    Some (MpMemory jsPropsLen)
  else if jsType =? MQTYPE_BOOLEAN then
    (fun v => MpBoolean (negb (v =? 0)))
      <$> (if le then readInt32LE valuePtr else readInt32BE valuePtr)
  else if jsType =? MQTYPE_BYTE_STRING then Some (MpBytes valuePtr)
  else Some (MpBytes valuePtr).

(** [exports.InqMp = function(jsQueueManager,jsHMsg,jsImpo,jsPd,jsName,valueBuffer,cb)],
    from the return of [MQINQMP]. *)
Definition InqMp_result (cb : bool) (r : MQINQMPResult) : Ending :=
  let err := mkError (inqmp_cc r) (inqmp_rc r) "MQINQMP" in
  if inqmp_cc r =? MQC.MQCC_OK then
    let le := Z.land (inqmp_encoding r) MQENC_INTEGER_MASK =? MQENC_INTEGER_REVERSED in
    match decode (inqmp_type r) le (inqmp_propsLen r) (inqmp_value r) with
    | None => ThrowsRangeError
    | Some value =>
        if cb
        then CallbackValue (inqmp_returnedName r) value (inqmp_propsLen r) (inqmp_type r)
        else Returns value
    end
  else if cb then CallbackError err else Throws err.

End WithTypes.

(** ** Notions used by the properties *)

(** The [n] low bytes of [z], the lowest first: what a little-endian
    machine stores for an integer of [n] bytes. *)
Fixpoint le_bytes (n : nat) (z : Z) : Buffer :=
  match n with
  | O => []
  | S n' => z mod 256 :: le_bytes n' (z / 256)
  end.

Definition is_byte (b : Z) : Prop := 0 ≤ b < 256.

End Inquire.

(** * Properties *)

(** ** The registry as a map *)

Section JsMapFacts.
Context {V : Type}.
Implicit Types (m : list (string * V)) (k : string) (v : V).

Lemma eqb_string_true k k' : String.eqb k k' = true ↔ k = k'.
Proof. apply String.eqb_eq. Qed.



Lemma Map_get_delete_eq k m : Map_get k (Map_delete k m) = None.
Proof.
  induction m as [|[k' v'] m IH]; simpl; [done|].
  destruct (String.eqb k k') eqn:E; simpl; [done|]. by rewrite E.
Qed.

Lemma Map_get_delete_ne k k' m :
  k ≠ k' → Map_get k' (Map_delete k m) = Map_get k' m.
Proof.
  intros Hne. induction m as [|[k0 v0] m IH]; simpl; [done|].
  destruct (String.eqb k k0) eqn:E; simpl.
  - apply String.eqb_eq in E. subst k0.
    destruct (String.eqb k' k) eqn:E'; [|done].
    apply String.eqb_eq in E'. congruence.
  - by rewrite IH.
Qed.

Lemma elem_of_Map_set k0 v0 m k v :
  (k, v) ∈ Map_set k0 v0 m → (k = k0 ∧ v = v0) ∨ (k, v) ∈ m.
Proof.
  induction m as [|[k' v'] m IH]; simpl.
  - intros Hin. apply list_elem_of_singleton in Hin. left. by inversion Hin.
  - destruct (String.eqb k0 k') eqn:E.
    + intros Hin. apply elem_of_cons in Hin as [Heq|Hin].
      * left. by inversion Heq.
      * right. by right.
    + intros Hin. apply elem_of_cons in Hin as [Heq|Hin].
      * right. rewrite Heq. by left.
      * destruct (IH Hin) as [?|?]; [by left|]. right. by right.
Qed.

Lemma elem_of_Map_delete k0 m k v :
  (k, v) ∈ Map_delete k0 m → (k, v) ∈ m ∧ k ≠ k0.
Proof.
  induction m as [|[k' v'] m IH]; simpl.
  - intros Hin. by apply elem_of_nil in Hin.
  - destruct (String.eqb k0 k') eqn:E.
    + intros Hin. destruct (IH Hin). split; [by right|done].
    + intros Hin. apply elem_of_cons in Hin as [Heq|Hin].
      * inversion Heq; subst. split; [by left|].
        intros ->. by rewrite String.eqb_refl in E.
      * destruct (IH Hin). split; [by right|done].
Qed.

Lemma Map_keys_set k v m :
  Map_keys (Map_set k v m) =
  if bool_decide (k ∈ Map_keys m) then Map_keys m else Map_keys m ++ [k].
Proof.
  induction m as [|[k' v'] m IH]; simpl; [done|].
  destruct (String.eqb k k') eqn:E.
  - apply String.eqb_eq in E. subst k'. simpl.
    rewrite bool_decide_eq_true_2; [done|]. by left.
  - simpl. rewrite IH. unfold Map_keys. simpl.
    assert (k ≠ k') as Hne by (intros ->; by rewrite String.eqb_refl in E).
    destruct (bool_decide (k ∈ map fst m)) eqn:B.
    + apply bool_decide_eq_true in B.
      rewrite bool_decide_eq_true_2; [done|]. by right.
    + apply bool_decide_eq_false in B.
      rewrite bool_decide_eq_false_2; [done|].
      intros Hin. apply elem_of_cons in Hin as [?|?]; done.
Qed.

Lemma Map_keys_delete k m :
  Map_keys (Map_delete k m) = filter (fun k' => k' ≠ k) (Map_keys m).
Proof.
  induction m as [|[k' v'] m IH]; simpl; [done|].
  unfold Map_keys in *. simpl.
  destruct (String.eqb k k') eqn:E.
  - apply String.eqb_eq in E. subst k'.
    rewrite filter_cons_False by naive_solver. done.
  - assert (k' ≠ k) as Hne by (intros ->; by rewrite String.eqb_refl in E).
    rewrite filter_cons_True by done. simpl. by rewrite IH.
Qed.

Lemma Map_keys_set_NoDup k v m : NoDup (Map_keys m) → NoDup (Map_keys (Map_set k v m)).
Proof.
  intros Hnd. rewrite Map_keys_set. case_bool_decide as Hin; [done|].
  apply list.NoDup_app. split_and!; [done| |apply NoDup_singleton].
  intros x Hx Hx'. apply list_elem_of_singleton in Hx'. by subst.
Qed.

Lemma Map_keys_delete_NoDup k m : NoDup (Map_keys m) → NoDup (Map_keys (Map_delete k m)).
Proof. intros Hnd. rewrite Map_keys_delete. by apply list.NoDup_filter. Qed.

Lemma Map_get_Some_elem_of k v m : Map_get k m = Some v → (k, v) ∈ m.
Proof.
  induction m as [|[k' v'] m IH]; simpl; [done|].
  destruct (String.eqb k k') eqn:E.
  - apply String.eqb_eq in E. subst k'. intros [= ->]. by left.
  - intros H. right. by apply IH.
Qed.


Lemma elem_of_Map_get k v m : NoDup (Map_keys m) → (k, v) ∈ m → Map_get k m = Some v.
Proof.
  induction m as [|[k' v'] m IH]; simpl.
  - intros _ Hin. by apply elem_of_nil in Hin.
  - unfold Map_keys in *. simpl. intros Hnd Hin.
    apply list.NoDup_cons in Hnd as [Hk' Hnd].
    apply elem_of_cons in Hin as [Heq|Hin].
    + inversion Heq; subst. by rewrite String.eqb_refl.
    + destruct (String.eqb k k') eqn:E; [|by apply IH].
      apply String.eqb_eq in E. subst k'. exfalso. apply Hk'.
      apply list_elem_of_fmap. by exists (k, v).
Qed.

End JsMapFacts.

(** ** Keys: [hConn + "/" + hObj] determines the two handles *)

Lemma pretty_N_char_no_slash x : Ascii.eqb (pretty_N_char x) "/"%char = false.
Proof. unfold pretty_N_char. by repeat case_match. Qed.

Lemma pretty_N_go_no_slash x s :
  has_slash s = false → has_slash (pretty_N_go x s) = false.
Proof.
  revert s. induction (N.lt_wf_0 x) as [x _ IH]. intros s Hs.
  destruct (decide (x = 0%N)) as [->|Hx]; [by rewrite pretty_N_go_0|].
  rewrite pretty_N_go_step by lia. apply IH.
  - apply N.div_lt; lia.
  - simpl. by rewrite pretty_N_char_no_slash.
Qed.

Lemma pretty_N_no_slash (x : N) : has_slash (pretty x) = false.
Proof.
  unfold pretty, pretty_N. case_decide; [done|]. by apply pretty_N_go_no_slash.
Qed.

Lemma pretty_Z_no_slash (x : Z) : has_slash (pretty x) = false.
Proof.
  destruct x as [|p|p]; simpl; [done|apply pretty_N_no_slash|].
  unfold pretty, pretty_Z. simpl. apply pretty_N_no_slash.
Qed.

Lemma append_cons x a b : String x a +:+ b = String x (a +:+ b).
Proof. reflexivity. Qed.
Lemma append_nil b : "" +:+ b = b.
Proof. reflexivity. Qed.

Lemma append_slash_inj a a' b b' :
  has_slash a = false → has_slash a' = false →
  a +:+ "/" +:+ b = a' +:+ "/" +:+ b' → a = a' ∧ b = b'.
Proof.
  revert a'.
  induction a as [|x a IH]; intros [|x' a']; rewrite ?append_cons, ?append_nil; simpl.
  - intros _ _ [= ->]. done.
  - intros _ H [= <- _]. by rewrite Ascii.eqb_refl in H.
  - intros H _ [= -> _]. by rewrite Ascii.eqb_refl in H.
  - intros H H' [= -> Heq].
    destruct (Ascii.eqb x' "/"%char); [done|].
    destruct (IH a' H H' Heq) as [-> ->]. done.
Qed.

Lemma getKey_inj o o' k :
  getKey (Some o) = Some k → getKey (Some o') = Some k →
  hConnOf o = hConnOf o' ∧ _hObj o = _hObj o'.
Proof.
  unfold getKey. intros [= <-] [= Heq].
  apply append_slash_inj in Heq as [H1 H2]; try apply pretty_Z_no_slash.
  split; by apply (inj pretty).
Qed.

Lemma getKey_Some o : ∃ k, getKey (Some o) = Some k.
Proof. by eexists. Qed.

Lemma getKey_handles o o' :
  hConnOf o = hConnOf o' → _hObj o = _hObj o' → getKey (Some o) = getKey (Some o').
Proof. unfold getKey. by intros -> ->. Qed.

(** ** What each function leaves unchanged *)

Lemma fn_insert_lookup {A} (f : CtxRef → A) (c : CtxRef) (v : A) (c' : CtxRef) :
  (<[c := v]> f) c' = if decide (c = c') then v else f c'.
Proof. unfold insert, fn_insert. by case_decide. Qed.

Lemma store_upd_ctx c f s c' :
  store (upd_ctx c f s) c' = if decide (c = c') then f (store s c) else store s c'.
Proof. unfold upd_ctx; simpl. apply fn_insert_lookup. Qed.

Lemma store_upd_ctx_eq c f s : store (upd_ctx c f s) c = f (store s c).
Proof. rewrite store_upd_ctx. by case_decide. Qed.

Lemma store_upd_ctx_ne c f s c' : c ≠ c' → store (upd_ctx c f s) c' = store s c'.
Proof. intros. rewrite store_upd_ctx. by case_decide. Qed.

(** An assignment to a context field changes the store only. *)
Lemma but_store_upd_ctx c f s : but_store (upd_ctx c f s) = but_store s.
Proof. done. Qed.

Lemma upd_ctx_fields c f s :
  clock (upd_ctx c f s) = clock s
  ∧ tuningParameters (upd_ctx c f s) = tuningParameters s
  ∧ nextRef (upd_ctx c f s) = nextRef s
  ∧ contextMap (upd_ctx c f s) = contextMap s
  ∧ hConnsInUse (upd_ctx c f s) = hConnsInUse s
  ∧ hConnsInPoll (upd_ctx c f s) = hConnsInPoll s
  ∧ messagesRetrievedInHConnPoll (upd_ctx c f s) = messagesRetrievedInHConnPoll s
  ∧ getLoop (upd_ctx c f s) = getLoop s
  ∧ scheduledGetLoop (upd_ctx c f s) = scheduledGetLoop s
  ∧ pending (upd_ctx c f s) = pending s
  ∧ entropy (upd_ctx c f s) = entropy s
  ∧ trace (upd_ctx c f s) = trace s.
Proof. done. Qed.

Lemma clock_upd_ctx c f s : clock (upd_ctx c f s) = clock s.
Proof. done. Qed.
Lemma tuningParameters_upd_ctx c f s : tuningParameters (upd_ctx c f s) = tuningParameters s.
Proof. done. Qed.
Lemma nextRef_upd_ctx c f s : nextRef (upd_ctx c f s) = nextRef s.
Proof. done. Qed.
Lemma contextMap_upd_ctx c f s : contextMap (upd_ctx c f s) = contextMap s.
Proof. done. Qed.
Lemma hConnsInUse_upd_ctx c f s : hConnsInUse (upd_ctx c f s) = hConnsInUse s.
Proof. done. Qed.
Lemma hConnsInPoll_upd_ctx c f s : hConnsInPoll (upd_ctx c f s) = hConnsInPoll s.
Proof. done. Qed.
Lemma messagesRetrieved_upd_ctx c f s :
  messagesRetrievedInHConnPoll (upd_ctx c f s) = messagesRetrievedInHConnPoll s.
Proof. done. Qed.
Lemma getLoop_upd_ctx c f s : getLoop (upd_ctx c f s) = getLoop s.
Proof. done. Qed.
Lemma scheduledGetLoop_upd_ctx c f s : scheduledGetLoop (upd_ctx c f s) = scheduledGetLoop s.
Proof. done. Qed.
Lemma pending_upd_ctx c f s : pending (upd_ctx c f s) = pending s.
Proof. done. Qed.
Lemma entropy_upd_ctx c f s : entropy (upd_ctx c f s) = entropy s.
Proof. done. Qed.
Lemma trace_upd_ctx c f s : trace (upd_ctx c f s) = trace s.
Proof. done. Qed.

Create Rewrite HintDb state.
Hint Rewrite store_upd_ctx_eq clock_upd_ctx tuningParameters_upd_ctx
  nextRef_upd_ctx contextMap_upd_ctx hConnsInUse_upd_ctx hConnsInPoll_upd_ctx
  messagesRetrieved_upd_ctx getLoop_upd_ctx scheduledGetLoop_upd_ctx
  pending_upd_ctx entropy_upd_ctx trace_upd_ctx : state.

Global Opaque upd_ctx.
Global Arguments pollHObjInternal : simpl never.
Global Arguments pollHobjs : simpl never.
Global Arguments pollPerHconn : simpl never.
Global Arguments pollAllHConns : simpl never.
Global Arguments Get : simpl never.
Global Arguments GetDone : simpl never.
Global Arguments apiCall : simpl never.
Global Arguments invoke : simpl never.
Global Arguments mqgetCallback : simpl never.

(** Projections of states built by the basic operations. *)
Ltac st := repeat (progress (simpl; autorewrite with state)).

Ltac unfold_basic :=
  unfold setTimeout, setImmediate, callAsync, observe, lock, unlock,
    resetGetLoop, deleteUserContext, verbInternal, verbCallback,
    debugLongCallMonitorFunction in *.

(** Reads of the store after assignments to context fields. *)
Ltac store_cases :=
  repeat (progress (st; rewrite ?store_upd_ctx, ?fn_insert_lookup;
                    repeat (case_decide; subst)));
  try done; try lia.

Lemma pollHObjInternal_core c md gmo s c' :
  ctx_core (store (pollHObjInternal c md gmo s) c') = ctx_core (store s c').
Proof.
  unfold pollHObjInternal, resizeBuffer. unfold_basic.
  repeat case_match; store_cases.
Qed.

Lemma pollHObjInternal_registry c md gmo s :
  registry (pollHObjInternal c md gmo s) = registry s.
Proof.
  unfold pollHObjInternal, resizeBuffer. unfold_basic. by repeat case_match.
Qed.

Lemma pollHobjs_core h s c' :
  ctx_core (store (pollHobjs h s) c') = ctx_core (store s c').
Proof.
  unfold pollHobjs, initGet, pollHObj.
  repeat case_match; try done; rewrite ?pollHObjInternal_core;
    unfold_basic; store_cases.
Qed.

Lemma pollHobjs_registry h s : registry (pollHobjs h s) = registry s.
Proof.
  unfold pollHobjs, initGet, pollHObj.
  repeat case_match; try done; rewrite ?pollHObjInternal_registry; done.
Qed.

Lemma Get_store_below o m g f s c :
  (c < nextRef s)%nat → store (Get o m g f s) c = store s c.
Proof.
  intros Hc. unfold Get, setUserContext. unfold_basic.
  repeat case_match; simplify_eq; store_cases.
Qed.

Lemma Get_nextRef o m g f s : nextRef (Get o m g f s) = S (nextRef s).
Proof.
  unfold Get, setUserContext. unfold_basic.
  repeat case_match; simplify_eq; done.
Qed.

Lemma Get_clock o m g f s : clock (Get o m g f s) = clock s.
Proof.
  unfold Get, setUserContext. unfold_basic.
  repeat case_match; simplify_eq; done.
Qed.

Lemma GetDone_store o f s s' : GetDone o f s = inr s' → store s' = store s.
Proof.
  unfold GetDone. unfold_basic.
  repeat case_match; intros; simplify_eq; done.
Qed.

Lemma GetDone_nextRef_clock o f s s' :
  GetDone o f s = inr s' → nextRef s' = nextRef s ∧ clock s' = clock s.
Proof.
  unfold GetDone. unfold_basic.
  repeat case_match; intros; simplify_eq; done.
Qed.

Lemma apiCall_store_below a s c :
  (c < nextRef s)%nat → store (apiCall a s) c = store s c.
Proof.
  intros Hc. destruct a as [o m g f|o f|x]; unfold apiCall.
  - by apply Get_store_below.
  - destruct (GetDone o f s) as [e|s'] eqn:E; [done|].
    by rewrite (GetDone_store _ _ _ _ E).
  - done.
Qed.

Lemma apiCall_nextRef a s : (nextRef s ≤ nextRef (apiCall a s))%nat.
Proof.
  destruct a as [o m g f|o f|x]; unfold apiCall.
  - rewrite Get_nextRef. lia.
  - destruct (GetDone o f s) as [e|s'] eqn:E; [done|].
    destruct (GetDone_nextRef_clock _ _ _ _ E) as [-> _]. done.
  - done.
Qed.

Lemma apiCall_clock a s : clock (apiCall a s) = clock s.
Proof.
  destruct a as [o m g f|o f|x]; unfold apiCall.
  - apply Get_clock.
  - destruct (GetDone o f s) as [e|s'] eqn:E; [done|].
    by destruct (GetDone_nextRef_clock _ _ _ _ E) as [_ ->].
  - done.
Qed.

Lemma invoke_store_below i calls s c :
  (c < nextRef s)%nat →
  store (invoke i calls s) c = store s c ∧ (c < nextRef (invoke i calls s))%nat
  ∧ clock (invoke i calls s) = clock s.
Proof.
  unfold invoke.
  assert (store (observe (ObsCall i) s) = store s
          ∧ nextRef (observe (ObsCall i) s) = nextRef s
          ∧ clock (observe (ObsCall i) s) = clock s) as (E1 & E2 & E3) by done.
  rewrite <- E1, <- E2, <- E3. generalize (observe (ObsCall i) s). clear.
  induction calls as [|a calls IH]; intros s Hc; simpl; [done|].
  destruct (IH (apiCall a s)) as (H1 & H2 & H3).
  { pose proof (apiCall_nextRef a s). lia. }
  rewrite H1, H3, apiCall_clock. split_and!; [by apply apiCall_store_below|done..].
Qed.

(** ** The completion callback, outcome by outcome *)

Lemma isLocked_unlock hc s : isLocked hc (unlock hc s) = false.
Proof.
  unfold isLocked, unlock. simpl. apply bool_decide_eq_false.
  rewrite lookup_delete_eq. by intros [? ?].
Qed.

(** The outcome decides the branch of the callback. *)
Lemma mqgetCallback_truncated c r s :
  r_cc r ≠ MQC.MQCC_OK → r_rc r = MQC.MQRC_TRUNCATED_MSG_FAILED →
  mqgetCallback c r s =
  onTruncated c (r_md r) (r_gmo r) (unlock (hConnOf (object (store s c))) s).
Proof.
  intros Hcc Hrc. unfold mqgetCallback.
  apply Z.eqb_neq in Hcc. rewrite Hcc, Hrc. done.
Qed.

Lemma mqgetCallback_no_message c r s :
  r_cc r ≠ MQC.MQCC_OK → r_rc r = MQC.MQRC_NO_MSG_AVAILABLE →
  waitExpired c s = false →
  mqgetCallback c r s =
  onNoMessage c (r_md r) (r_gmo r) (hConnOf (object (store s c)))
    (unlock (hConnOf (object (store s c))) s).
Proof.
  intros Hcc Hrc Hw. unfold mqgetCallback.
  apply Z.eqb_neq in Hcc. rewrite Hcc, Hrc. cbv zeta.
  change (waitExpired c (unlock (hConnOf (object (store s c))) s))
    with (waitExpired c s).
  rewrite Hw. done.
Qed.

Lemma mqgetCallback_failure c r s :
  r_cc r ≠ MQC.MQCC_OK → r_rc r ≠ MQC.MQRC_TRUNCATED_MSG_FAILED →
  (r_rc r ≠ MQC.MQRC_NO_MSG_AVAILABLE ∨ waitExpired c s = true) →
  mqgetCallback c r s =
  onFailure c (mkError (r_cc r) (r_rc r) "GET") (h_calls r)
    (hConnOf (object (store s c))) (unlock (hConnOf (object (store s c))) s).
Proof.
  intros Hcc Hrc Hw. unfold mqgetCallback.
  apply Z.eqb_neq in Hcc, Hrc. rewrite Hcc, Hrc. cbv zeta.
  change (waitExpired c (unlock (hConnOf (object (store s c))) s))
    with (waitExpired c s).
  destruct Hw as [Hw|Hw].
  - apply Z.eqb_neq in Hw. by rewrite Hw.
  - rewrite Hw. simpl. by rewrite andb_false_r.
Qed.

Lemma mqgetCallback_message c r s :
  r_cc r = MQC.MQCC_OK →
  mqgetCallback c r s =
  onMessage c (r_md r) (r_gmo r) r (hConnOf (object (store s c)))
    (unlock (hConnOf (object (store s c))) s).
Proof. intros Hcc. unfold mqgetCallback. by rewrite Hcc. Qed.

(** The four branches are all there is. *)
Lemma mqgetCallback_cases c r s :
  let hc := hConnOf (object (store s c)) in
  let s1 := unlock hc s in
  mqgetCallback c r s = onTruncated c (r_md r) (r_gmo r) s1
  ∨ mqgetCallback c r s = onNoMessage c (r_md r) (r_gmo r) hc s1
  ∨ mqgetCallback c r s = onFailure c (mkError (r_cc r) (r_rc r) "GET") (h_calls r) hc s1
  ∨ mqgetCallback c r s = onMessage c (r_md r) (r_gmo r) r hc s1.
Proof.
  intros hc s1. unfold mqgetCallback. fold hc. fold s1. cbv zeta.
  repeat case_match; auto.
Qed.

Lemma growBufSize_min b : growBufSize b = Z.min (b * 2) maxBufSize.
Proof. unfold growBufSize. simpl. case_match; lia. Qed.

Lemma shrinkBufSize_spec b d :
  (defaultBufSize < b ∧ d * 100 < b * 90 →
     shrinkBufSize b d = Z.max defaultBufSize (b * 90 / 100))
  ∧ (¬ (defaultBufSize < b ∧ d * 100 < b * 90) → shrinkBufSize b d = b).
Proof.
  unfold shrinkBufSize. split.
  - intros [H1 H2].
    rewrite (proj2 (Z.gtb_lt _ _)) by lia. rewrite (proj2 (Z.gtb_lt _ _)) by lia.
    simpl. case_match; lia.
  - intros H. destruct (b >? defaultBufSize) eqn:E1; [|done].
    destruct (b * 90 >? d * 100) eqn:E2; [|done].
    exfalso. apply H. lia.
Qed.

Lemma mqgetCallback_success_ctx c r s :
  r_cc r = MQC.MQCC_OK → (c < nextRef s)%nat →
  ctx_core (store (mqgetCallback c r s) c) =
  (cb (store s c), object (store s c), WaitInterval (jsgmo (store s c)), clock s,
   gmo_set_Options (Options (h_jsgmo r)) (jsgmo (store s c)), jsmd (store s c),
   shrinkBufSize (bufSize (store s c)) (r_datalen r)).
Proof.
  intros Hcc Hc. rewrite mqgetCallback_message by done. unfold onMessage.
  cbv beta iota zeta.
  match goal with |- context [invoke ?i ?calls ?s0] =>
    destruct (invoke_store_below i calls s0 c) as (E1 & E2 & E3); [done|];
    generalize dependent (invoke i calls s0)
  end.
  intros s1 E1 E2 E3.
  case_match; try clear H; rewrite ?pollHobjs_core; unfold ctx_core; st;
    rewrite E1, ?E3; st; done.
Qed.

(** The executor at the gate. *)
Lemma pollHObjInternal_locked c md gmo s :
  isLocked (hConnOf (object (store s c))) s = true →
  pollHObjInternal c md gmo s = setImmediate (JPollHObjInternal c md gmo) s.
Proof. intros H. unfold pollHObjInternal. by rewrite H. Qed.

Lemma resizeBuffer_buf c s :
  buf (store (resizeBuffer c s) c) = Some (next_bufflen (store s c)).
Proof.
  unfold resizeBuffer, next_bufflen.
  destruct (buf (store s c)) as [len|] eqn:Hb; [|by st].
  destruct (len <? bufSize (store s c)) eqn:Hlt; st.
  - f_equal. lia.
  - rewrite Hb. f_equal. lia.
Qed.

Lemma resizeBuffer_core c s c' :
  ctx_core (store (resizeBuffer c s) c') = ctx_core (store s c')
  ∧ retrieved (store (resizeBuffer c s) c') = retrieved (store s c')
  ∧ state (store (resizeBuffer c s) c') = state (store s c').
Proof. unfold resizeBuffer. repeat case_match; store_cases. Qed.

Lemma resizeBuffer_but_store c s :
  but_store (resizeBuffer c s) = but_store s.
Proof. unfold resizeBuffer. by repeat case_match. Qed.

Lemma pollHObjInternal_free c md gmo s :
  isLocked (hConnOf (object (store s c))) s = false →
  pollHObjInternal c md gmo s =
  let s1 := resizeBuffer c (lock (hConnOf (object (store s c))) s) in
  callAsync (JMQGET c md gmo (mqgetCall c gmo s1)) s1.
Proof. intros H. unfold pollHObjInternal. by rewrite H. Qed.

Lemma mqgetCall_spec c gmo s :
  let s1 := resizeBuffer c (lock (hConnOf (object (store s c))) s) in
  call_hConn (mqgetCall c gmo s1) = hConnOf (object (store s c))
  ∧ call_hObj (mqgetCall c gmo s1) = _hObj (object (store s c))
  ∧ call_WaitInterval (mqgetCall c gmo s1) = 0
  ∧ call_Options (mqgetCall c gmo s1) =
      Z.land (Options gmo) (Z.lnot (Z.lor MQC.MQGMO_WAIT MQC.MQGMO_ACCEPT_TRUNCATED_MSG))
  ∧ call_bufflen (mqgetCall c gmo s1) = next_bufflen (store s c).
Proof.
  intros s1. unfold mqgetCall. simpl.
  destruct (resizeBuffer_core c (lock (hConnOf (object (store s c))) s) c) as (E & _ & _).
  unfold ctx_core in E. injection E as _ E _ _ _ _ _. fold s1 in E.
  rewrite E. subst s1. rewrite resizeBuffer_buf. done.
Qed.

(** The truncation branch of the callback: when an attempt ends with
    [MQRC_TRUNCATED_MSG_FAILED], the field [c.bufSize] becomes the double of
    what it was, clamped at [maxBufSize] (100 MiB); the retry of the same
    context is scheduled with delay 0; nothing is passed to the callback
    and the registry is unchanged.  The retry issues its [MQGET] with a
    buffer as long as the longer of the buffer it has and the new
    [c.bufSize]. *)
Lemma truncation_doubles_bufSize (c : CtxRef) (r : Completion) (s : State) (len : Z) :
  r_cc r ≠ MQC.MQCC_OK →
  r_rc r = MQC.MQRC_TRUNCATED_MSG_FAILED →
  buf (store s c) = Some len →
  let s' := mqgetCallback c r s in
  let s'' := pollHObjInternal c (r_md r) (r_gmo r) s' in
  bufSize (store s' c) = Z.min (bufSize (store s c) * 2) maxBufSize
  ∧ pending s' = pending s ++ [(clock s + 0, JPollHObjInternal c (r_md r) (r_gmo r))]
  ∧ trace s' = trace s
  ∧ contextMap s' = contextMap s
  ∧ (∃ call, pending s'' = pending s' ++ [(clock s, JMQGET c (r_md r) (r_gmo r) call)]
             ∧ call_bufflen call = Z.max len (bufSize (store s' c)))
  ∧ (bufSize (store s c) = 10240 → bufSize (store s' c) = 20480).
Proof.
  intros Hcc Hrc Hbuf s' s''. subst s' s''.
  rewrite mqgetCallback_truncated by done. unfold onTruncated.
  set (hc := hConnOf (object (store s c))).
  set (s' := setTimeout _ _ _).
  assert (store s' c = ctx_set_bufSize (growBufSize (bufSize (store s c))) (store s c))
    as Hst by (subst s'; by st).
  assert (bufSize (store s' c) = Z.min (bufSize (store s c) * 2) maxBufSize)
    as Hsize by (rewrite Hst; apply growBufSize_min).
  split_and!; [done|done|done|done| |by intros Hb; rewrite Hsize, Hb].
  rewrite pollHObjInternal_free.
  2:{ rewrite Hst. simpl. apply isLocked_unlock. }
  cbv zeta.
  pose proof (resizeBuffer_but_store c (lock (hConnOf (object (store s' c))) s')) as Hbs.
  destruct (mqgetCall_spec c (r_gmo r) s') as (_ & _ & _ & _ & Hlen).
  cbv zeta in Hlen. revert Hbs Hlen.
  generalize (resizeBuffer c (lock (hConnOf (object (store s' c))) s')).
  intros s1 Hbs Hlen. unfold but_store in Hbs. simpl in Hbs.
  exists (mqgetCall c (r_gmo r) s1). split.
  - simpl. by injection Hbs as -> _ _ _ _ _ _ _ _ -> _ _.
  - rewrite Hlen, Hst. unfold next_bufflen. simpl. by rewrite Hbuf.
Qed.

(** X1: after a delivery, if the capacity [c.bufSize] exceeds
    [defaultBufSize] (10240) and the message length is under 90% of it, the
    field becomes the floor of 90% of it, and not less than
    [defaultBufSize]; otherwise the field is unchanged. *)
Theorem bufSize_after_delivery (c : CtxRef) (r : Completion) (s : State) :
  r_cc r = MQC.MQCC_OK → (c < nextRef s)%nat →
  let b := bufSize (store s c) in
  let d := r_datalen r in
  let s' := mqgetCallback c r s in
  (defaultBufSize < b ∧ d * 100 < b * 90 →
     bufSize (store s' c) = Z.max defaultBufSize (b * 90 / 100))
  ∧ (¬ (defaultBufSize < b ∧ d * 100 < b * 90) → bufSize (store s' c) = b).
Proof.
  intros Hcc Hc b d s'.
  pose proof (mqgetCallback_success_ctx c r s Hcc Hc) as E.
  unfold ctx_core in E. injection E as _ _ _ _ _ _ E.
  subst s'. rewrite E. apply shrinkBufSize_spec.
Qed.

(** C10: after a delivery, once the callback has returned, the [Options] of
    the working copy are written into the stored template [c.jsgmo]; no
    other field of the template changes, nor the stored descriptor;
    [c.WaitInterval] is reset from the template and [c.WaitStartTime] to
    the current time. *)
Theorem C10_delivery_writes_back_options (c : CtxRef) (r : Completion) (s : State) :
  r_cc r = MQC.MQCC_OK → (c < nextRef s)%nat →
  let s' := mqgetCallback c r s in
  Options (jsgmo (store s' c)) = Options (h_jsgmo r)
  ∧ WaitInterval (jsgmo (store s' c)) = WaitInterval (jsgmo (store s c))
  ∧ MatchOptions (jsgmo (store s' c)) = MatchOptions (jsgmo (store s c))
  ∧ MsgToken (jsgmo (store s' c)) = MsgToken (jsgmo (store s c))
  ∧ jsmd (store s' c) = jsmd (store s c)
  ∧ ctx_WaitInterval (store s' c) = WaitInterval (jsgmo (store s c))
  ∧ WaitStartTime (store s' c) = clock s.
Proof.
  intros Hcc Hc s'.
  pose proof (mqgetCallback_success_ctx c r s Hcc Hc) as E.
  unfold ctx_core in E. injection E as _ _ E1 E2 E3 E4 _.
  subst s'. rewrite E1, E2, E3, E4. done.
Qed.

Lemma getUserContext_delete o s : getUserContext o (deleteUserContext o s) = None.
Proof.
  unfold getUserContext, deleteUserContext.
  destruct o as [o|]; [|done]. destruct (getKey (Some o)) as [k|] eqn:E; [|done].
  simpl. apply Map_get_delete_eq.
Qed.



(** ** The polling loops of the connections *)

Lemma count_conn_app s h l1 l2 :
  count_conn s h (l1 ++ l2) = (count_conn s h l1 + count_conn s h l2)%nat.
Proof. unfold count_conn. by rewrite list.filter_app, length_app. Qed.

Lemma count_conn_nil s h : count_conn s h [] = 0%nat.
Proof. done. Qed.

Lemma count_conn_singleton s h d j :
  count_conn s h [(d, j)] = if decide (job_conn s j = Some h) then 1%nat else 0%nat.
Proof.
  unfold count_conn. case_decide.
  - by rewrite filter_cons_True.
  - by rewrite filter_cons_False.
Qed.

Lemma count_conn_ext s s' h l :
  (∀ d j c, (d, j) ∈ l → job_ctx j = Some c →
            object (store s' c) = object (store s c)) →
  count_conn s' h l = count_conn s h l.
Proof.
  unfold count_conn. induction l as [|[d j] l IH]; intros H; [done|].
  assert (job_conn s' j = job_conn s j) as E.
  { assert ((d, j) ∈ (d, j) :: l) as Hin by by left.
    destruct j; simpl; try done; unfold connOf;
      by rewrite (H _ _ _ Hin eq_refl). }
  assert (length (filter (λ p, job_conn s' p.2 = Some h) l)
          = length (filter (λ p, job_conn s p.2 = Some h) l)) as IH'.
  { apply IH. intros d' j' c' Hin. apply (H d' j' c'). by right. }
  rewrite !filter_cons. simpl. rewrite E. case_decide; simpl; by rewrite IH'.
Qed.

Lemma count_conn_zero s h l :
  count_conn s h l = 0%nat → ∀ d j, (d, j) ∈ l → job_conn s j ≠ Some h.
Proof.
  unfold count_conn. intros H d j Hin Hj.
  assert ((d, j) ∈ filter (λ p, job_conn s p.2 = Some h) l) as Hf.
  { by apply list_elem_of_filter. }
  destruct (filter _ l); [by apply elem_of_nil in Hf|done].
Qed.

Lemma count_conn_delete s h l i d j :
  l !! i = Some (d, j) →
  count_conn s h l
  = (count_conn s h (delete i l)
     + if decide (job_conn s j = Some h) then 1 else 0)%nat.
Proof.
  intros Hi. rewrite <- (take_drop_middle l i (d, j) Hi) at 1.
  rewrite delete_take_drop, !count_conn_app.
  change ((d, j) :: drop (S i) l) with ([(d, j)] ++ drop (S i) l).
  rewrite count_conn_app, count_conn_singleton. lia.
Qed.


(** ** The bound on [maxConsecutiveGets] *)

Lemma lt_number_of_Z n m : lt_number n (JsNum_of_Z m) = (n <? m).
Proof. unfold lt_number, JsNum_of_Z. simpl. by rewrite Z.mul_1_r. Qed.

Lemma le_number_of_Z n m : le_number n (JsNum_of_Z m) = (n <=? m).
Proof. unfold le_number, JsNum_of_Z. simpl. by rewrite Z.mul_1_r. Qed.

Lemma within_of_Z m : within m (JsNum_of_Z m) = true.
Proof. unfold within, JsNum_of_Z. simpl. rewrite Z.mul_1_r. apply Z.leb_refl. Qed.

(** A count that the test [count < x] lets through is below every bound
    of [x]. *)
Lemma within_lt M x n : within M x = true → lt_number n x = true → n < M.
Proof.
  destruct x as [|[]|m e]; simpl; try done.
  destruct (Z.leb_spec 0 e) as [He|He].
  - intros H1%Z.leb_le H2%Z.ltb_lt. lia.
  - intros H1%Z.leb_le H2%Z.ltb_lt.
    assert (0 < 2 ^ (- e)) as Hp by (apply Z.pow_pos_nonneg; lia).
    nia.
Qed.

Lemma capped_room M x n : capped M x = true → lt_number n x = true → room M n.
Proof. destruct M as [m|]; simpl; [apply within_lt|done]. Qed.

Lemma under_zero M : under M 0.
Proof. destruct M; simpl; lia. Qed.

Lemma under_next M n : n = 0 ∨ room M n → under M (n + 1).
Proof. destruct M; simpl; lia. Qed.

Lemma call_capped_None a : call_capped None a = true.
Proof. by destruct a. Qed.

Lemma calls_capped_None calls : forallb (call_capped None) calls = true.
Proof. induction calls as [|a calls IH]; simpl; [done|]. by rewrite call_capped_None. Qed.

Lemma event_capped_None e : event_capped None e = true.
Proof.
  destruct e as [dt|a|hc|i r|]; simpl; try done;
    [apply call_capped_None|apply calls_capped_None].
Qed.

Section Capped.
Context {M : option Z}.
Local Abbreviation Inv := (Pre M None).

(** ** Elementary state changes and the invariant *)

Lemma loops_frame s s' h :
  pending s' = pending s →
  (∀ c, object (store s' c) = object (store s c)) →
  loops s' h = loops s h.
Proof.
  intros Hp Ho. unfold loops. rewrite Hp. apply count_conn_ext. intros. apply Ho.
Qed.

Lemma connOf_frame s s' c :
  object (store s' c) = object (store s c) → connOf s' c = connOf s c.
Proof. unfold connOf. by intros ->. Qed.

(** A change of the store that keeps the object of every context, and the
    count of every context a pending job works for. *)
Lemma Pre_frame held s s' :
  nextRef s' = nextRef s →
  contextMap s' = contextMap s →
  hConnsInPoll s' = hConnsInPoll s →
  pending s' = pending s →
  trace s' = trace s →
  maxConsecutiveGets (tuningParameters s') = maxConsecutiveGets (tuningParameters s) →
  (∀ c, object (store s' c) = object (store s c)) →
  (∀ d j c, (d, j) ∈ pending s → job_ctx j = Some c →
            retrieved (store s' c) = retrieved (store s c)) →
  Pre M held s → Pre M held s'.
Proof.
  intros En Em Ei Ep Et EM Ho Hr [Hrp Hrm Hrt Hkn Hk Hc Hl Hh Hbr Hcap Hb Hcn].
  constructor; unfold mcg in *; rewrite ?En, ?Em, ?Ei, ?Ep, ?Et, ?EM; try done.
  - intros k c Hin. rewrite Ho. by apply Hk.
  - intros d c md gmo call Hin. rewrite (connOf_frame s s') by done. by eapply Hc.
  - intros h. rewrite (loops_frame s s') by done. apply Hl.
  - intros h Hhd. rewrite (loops_frame s s') by done. by apply Hh.
  - intros d j c Hin Hj. destruct (Hcn d j c Hin Hj) as [H1 H2].
    unfold counted. rewrite Et, (Hr d j c Hin Hj). done.
Qed.

Lemma Pre_core held s s' : core s' = core s → Pre M held s → Pre M held s'.
Proof.
  unfold core. intros [= E1 E2 E3 E4 E5 E6 E7].
  apply Pre_frame; try done; intros; by rewrite E1.
Qed.

(** An assignment to a context field other than [object] and [retrieved]. *)
Lemma Pre_upd_ctx held c f s :
  (∀ x, object (f x) = object x) → (∀ x, retrieved (f x) = retrieved x) →
  Pre M held s → Pre M held (upd_ctx c f s).
Proof.
  intros Ho Hr. apply Pre_frame; try done.
  - intros c'. rewrite store_upd_ctx. case_decide; subst; done.
  - intros d j c' _ _. rewrite store_upd_ctx. case_decide; subst; done.
Qed.

Lemma counted_frame s s' c :
  trace s' = trace s →
  retrieved (store s' c) = retrieved (store s c) →
  counted M s c → counted M s' c.
Proof. unfold counted. by intros -> ->. Qed.

(** A job that carries no polling loop joins the pending ones. *)
Lemma Pre_add_neutral held d j s :
  job_conn s j = None →
  Pre M held s → Pre M held (set_pending (pending s ++ [(d, j)]) s).
Proof.
  intros Hj [Hrp Hrm Hrt Hkn Hk Hc Hl Hh Hbr Hcap Hb Hcn].
  assert (job_ctx j = None) as Hjc by (destruct j; done).
  assert (∀ h, loops (set_pending (pending s ++ [(d, j)]) s) h = loops s h) as El.
  { intros h. unfold loops. simpl. rewrite count_conn_app, count_conn_singleton.
    rewrite decide_False by (change (job_conn s j ≠ Some h); by rewrite Hj).
    rewrite Nat.add_0_r. by apply count_conn_ext. }
  constructor; simpl; try done.
  - intros d' j' c [Hin|Hin]%elem_of_app; [by eapply Hrp|].
    apply list_elem_of_singleton in Hin. simplify_eq. congruence.
  - intros d' c md gmo call [Hin|Hin]%elem_of_app; [by eapply Hc|].
    apply list_elem_of_singleton in Hin. simplify_eq.
  - intros h. rewrite El. apply Hl.
  - intros h Hhd. rewrite El. by apply Hh.
  - intros d' j' c [Hin|Hin]%elem_of_app; [by eapply Hcn|].
    apply list_elem_of_singleton in Hin. simplify_eq. congruence.
Qed.

(** The running code leaves the polling loop of the connection it holds to
    a new pending job. *)
Lemma Pre_add_carrier h d j s :
  job_conn s j = Some h →
  (∀ c, job_ctx j = Some c → (c < nextRef s)%nat ∧ counted M s c) →
  (∀ c md gmo call, j = JMQGET c md gmo call → call_hConn call = connOf s c) →
  Pre M (Some h) s → Inv (set_pending (pending s ++ [(d, j)]) s).
Proof.
  intros Hj Hctx Hcall [Hrp Hrm Hrt Hkn Hk Hc Hl Hh Hbr Hcap Hb Hcn].
  destruct (Hh h eq_refl) as [Hz Hin].
  assert (∀ h', loops (set_pending (pending s ++ [(d, j)]) s) h'
                = (loops s h' + if decide (h' = h) then 1 else 0)%nat) as El.
  { intros h'. unfold loops. simpl. rewrite count_conn_app, count_conn_singleton.
    change (job_conn (set_pending (pending s ++ [(d, j)]) s) j) with (job_conn s j).
    rewrite Hj. f_equal. repeat case_decide; simplify_eq; done. }
  constructor; simpl; try done.
  - intros d' j' c [Hi|Hi]%elem_of_app; [by eapply Hrp|].
    apply list_elem_of_singleton in Hi. simplify_eq. by apply Hctx.
  - intros d' c md gmo call [Hi|Hi]%elem_of_app; [by eapply Hc|].
    apply list_elem_of_singleton in Hi. simplify_eq. by eapply Hcall.
  - intros h'. rewrite El. case_decide; subst.
    + rewrite Hz. split; [lia|done].
    + rewrite Nat.add_0_r. apply Hl.
  - intros d' j' c [Hi|Hi]%elem_of_app; [by eapply Hcn|].
    apply list_elem_of_singleton in Hi. simplify_eq. by apply Hctx.
Qed.

Lemma job_ctx_conn s j c : job_ctx j = Some c → job_conn s j = Some (connOf s c).
Proof. destruct j; simpl; intros; simplify_eq; done. Qed.

(** While the running code holds the loop of a connection, no pending job
    works for a context of that connection. *)
Lemma held_no_job h s c :
  Pre M (Some h) s → connOf s c = h →
  ∀ d j, (d, j) ∈ pending s → job_ctx j ≠ Some c.
Proof.
  intros HP Hc d j Hin Hj. destruct (pre_held _ _ HP h eq_refl) as [Hz _].
  apply (count_conn_zero s h (pending s) Hz d j Hin).
  rewrite (job_ctx_conn s j c Hj). by rewrite Hc.
Qed.

Lemma dsp_pick_ne c c' tr :
  c ≠ c' → deliveries_since_pick c' (ObsPick c :: tr) = deliveries_since_pick c' tr.
Proof. intros. simpl. by case_decide. Qed.

(** [pollHobjs] picks [c]. *)
Lemma Pre_pick held c s :
  (c < nextRef s)%nat →
  (∀ d j, (d, j) ∈ pending s → job_ctx j ≠ Some c) →
  Pre M held s →
  Pre M held (upd_ctx c (ctx_set_retrieved 0) (observe (ObsPick c) s))
  ∧ counted M (upd_ctx c (ctx_set_retrieved 0) (observe (ObsPick c) s)) c.
Proof.
  intros Hc Hno [Hrp Hrm Hrt Hkn Hk Hcl Hl Hh Hbr Hcap Hb Hcn].
  set (s' := upd_ctx c (ctx_set_retrieved 0) (observe (ObsPick c) s)).
  assert (∀ c', object (store s' c') = object (store s c')) as Ho.
  { intros c'. subst s'. rewrite store_upd_ctx. case_decide; subst; done. }
  assert (∀ h, loops s' h = loops s h) as El.
  { intros h. by apply loops_frame. }
  split.
  - constructor; subst s'; autorewrite with state; simpl; try done.
    + intros o c' [->|Hin]%elem_of_cons Ho'; [by simplify_eq/=|by eapply Hrt].
    + intros k c' Hin. rewrite Ho. by apply Hk.
    + intros d c' md gmo call Hin. rewrite (connOf_frame s) by done. by eapply Hcl.
    + intros h. rewrite El. apply Hl.
    + intros h Hhd. rewrite El. by apply Hh.
    + intros c'. case_decide; [apply under_zero|apply Hb].
    + intros d j c' Hin Hj.
      assert (c ≠ c') as Hne by (intros ->; by eapply Hno).
      destruct (Hcn d j c' Hin Hj) as [H1 H2]. unfold counted.
      autorewrite with state. simpl. rewrite decide_False by done.
      rewrite store_upd_ctx_ne by done. done.
  - unfold counted. subst s'. autorewrite with state. simpl.
    rewrite decide_True by done. split; [done|by left].
Qed.

(** A callback is entered with something else than a message of [c]. *)
Lemma Pre_observe_other held i s :
  (∀ c, is_delivery c i = false) →
  (∀ c, inv_ctx i = Some c → (c < nextRef s)%nat) →
  Pre M held s → Pre M held (observe (ObsCall i) s).
Proof.
  intros Hnd Hctx [Hrp Hrm Hrt Hkn Hk Hcl Hl Hh Hbr Hcap Hb Hcn].
  constructor; simpl; try done.
  - intros o c [->|Hin]%elem_of_cons Ho; [by apply Hctx|by eapply Hrt].
  - intros c. rewrite Hnd. apply Hb.
  - intros d j c Hin Hj. destruct (Hcn d j c Hin Hj) as [H1 H2].
    unfold counted. simpl. rewrite Hnd. done.
Qed.

(** The callback of [c] is entered with a message. *)
Lemma Pre_observe_delivery held i c s :
  inv_ctx i = Some c → inv_err i = None → (c < nextRef s)%nat →
  (∀ d j, (d, j) ∈ pending s → job_ctx j ≠ Some c) →
  under M (Z.of_nat (deliveries_since_pick c (trace s)) + 1) →
  Pre M held s →
  Pre M held (observe (ObsCall i) s)
  ∧ deliveries_since_pick c (trace (observe (ObsCall i) s))
    = S (deliveries_since_pick c (trace s)).
Proof.
  intros Hic Hie Hc Hno Hle [Hrp Hrm Hrt Hkn Hk Hcl Hl Hh Hbr Hcap Hb Hcn].
  assert (is_delivery c i = true) as Hd.
  { unfold is_delivery. by rewrite !bool_decide_eq_true_2. }
  assert (∀ c', c' ≠ c → is_delivery c' i = false) as Hnd.
  { intros c' Hne. unfold is_delivery.
    rewrite bool_decide_eq_false_2; [done|]. rewrite Hic. congruence. }
  split; [|by simpl; rewrite Hd].
  constructor; simpl; try done.
  - intros o c' [->|Hin]%elem_of_cons Ho; [by simplify_eq/=|by eapply Hrt].
  - intros c'. destruct (decide (c' = c)) as [->|Hne].
    + rewrite Hd.
      by replace (Z.of_nat (1 + deliveries_since_pick c (trace s)))
        with (Z.of_nat (deliveries_since_pick c (trace s)) + 1) by lia.
    + rewrite Hnd by done. apply Hb.
  - intros d j c' Hin Hj.
    assert (c' ≠ c) as Hne by (intros ->; by eapply Hno).
    destruct (Hcn d j c' Hin Hj) as [H1 H2].
    unfold counted. simpl. rewrite Hnd by done. done.
Qed.

(** A key is deleted from the registry. *)
Lemma Pre_map_delete held k s :
  Pre M held s → Pre M held (set_contextMap (Map_delete k (contextMap s)) s).
Proof.
  intros [Hrp Hrm Hrt Hkn Hk Hcl Hl Hh Hbr Hcap Hb Hcn].
  constructor; simpl; try done.
  - intros k' c Hin. apply elem_of_Map_delete in Hin as [Hin _]. by eapply Hrm.
  - by apply Map_keys_delete_NoDup.
  - intros k' c Hin. apply elem_of_Map_delete in Hin as [Hin _]. by apply Hk.
Qed.

Lemma Pre_deleteUserContext held o s : Pre M held s → Pre M held (deleteUserContext o s).
Proof.
  intros HP. unfold deleteUserContext. case_match; [|done]. by apply Pre_map_delete.
Qed.

(** [hConnsInPoll.add(hConn)] for a connection that is not polled: the
    running code now holds its loop. *)
Lemma Pre_poll_add h s :
  h ≠ -1 → h ∉ hConnsInPoll s →
  Inv s → Pre M (Some h) (set_hConnsInPoll ({[h]} ∪ hConnsInPoll s) s).
Proof.
  intros Hh1 Hnot [Hrp Hrm Hrt Hkn Hk Hcl Hl Hh Hbr Hcap Hb Hcn].
  constructor; simpl; try done.
  - intros h'. destruct (Hl h') as [H1 H2]. split; [done|].
    intros H3. apply elem_of_union_r. by apply H2.
  - intros h' [= <-]. split; [|by apply elem_of_union_l, elem_of_singleton].
    destruct (Hl h) as [H1 H2].
    destruct (loops s h) as [|[|n]] eqn:E; [done| |lia].
    exfalso. apply Hnot. by apply H2.
  - intros [Hin%elem_of_singleton|Hin]%elem_of_union; [congruence|done].
Qed.

(** [hConnsInPoll.delete(hConn)] by the code that holds the loop of the
    connection: the loop ends. *)
Lemma Pre_poll_delete_held h s :
  Pre M (Some h) s → Inv (set_hConnsInPoll (hConnsInPoll s ∖ {[h]}) s).
Proof.
  intros [Hrp Hrm Hrt Hkn Hk Hcl Hl Hh Hbr Hcap Hb Hcn].
  destruct (Hh h eq_refl) as [Hz _].
  constructor; simpl; try done.
  - intros h'. destruct (Hl h') as [H1 H2]. split; [done|].
    intros H3. apply elem_of_difference. split; [by apply H2|].
    intros ->%elem_of_singleton. change (loops s h = 1%nat) in H3. lia.
  - intros [Hin _]%elem_of_difference. done.
Qed.

(** [hConnsInPoll.delete(-1)]. *)
Lemma Pre_poll_delete_broken s :
  Inv s → Inv (set_hConnsInPoll (hConnsInPoll s ∖ {[-1]}) s).
Proof.
  intros [Hrp Hrm Hrt Hkn Hk Hcl Hl Hh Hbr Hcap Hb Hcn].
  constructor; simpl; try done.
  - intros h'. destruct (Hl h') as [H1 H2]. split; [done|].
    intros H3. apply elem_of_difference. split; [by apply H2|].
    intros ->%elem_of_singleton. apply Hbr. by apply H2.
  - intros [Hin _]%elem_of_difference. done.
Qed.

(** ** The exported calls and the invariant *)

Lemma setUserContext_eq o f s :
  setUserContext o f s =
  (nextRef s,
   set_contextMap
     (Map_set (pretty (hConnOf o) +:+ "/" +:+ pretty (_hObj o)) (nextRef s) (contextMap s))
     (set_nextRef (S (nextRef s))
        (set_store (<[nextRef s := UserContext_new o f (clock s)]> (store s)) s))).
Proof. done. Qed.

Lemma Pre_setUserContext held o f s :
  Pre M held s → Pre M held (snd (setUserContext o f s)).
Proof.
  intros [Hrp Hrm Hrt Hkn Hk Hcl Hl Hh Hbr Hcap Hb Hcn].
  rewrite setUserContext_eq. simpl.
  set (k := pretty (hConnOf o) +:+ "/" +:+ pretty (_hObj o)).
  set (s' := set_contextMap _ _).
  assert (∀ c, (c < nextRef s)%nat → store s' c = store s c) as Hst.
  { intros c Hc. subst s'. simpl. rewrite fn_insert_lookup. case_decide; [lia|done]. }
  assert (∀ h, loops s' h = loops s h) as El.
  { intros h. unfold loops. change (pending s') with (pending s).
    apply count_conn_ext. intros d j c Hin Hj. rewrite Hst; [done|]. by eapply Hrp. }
  constructor; try done.
  - intros d j c Hin Hj. simpl. specialize (Hrp d j c Hin Hj). lia.
  - intros k' c Hin. simpl in *. apply elem_of_Map_set in Hin as [[_ ->]|Hin]; [lia|].
    specialize (Hrm k' c Hin). lia.
  - intros ob c Hin Ho. simpl in *. specialize (Hrt ob c Hin Ho). lia.
  - simpl. by apply Map_keys_set_NoDup.
  - intros k' c Hin. simpl in Hin. apply elem_of_Map_set in Hin as [[-> ->]|Hin].
    + subst s'. simpl. rewrite fn_insert_lookup. by rewrite decide_True.
    + rewrite Hst by by eapply Hrm. by apply Hk.
  - intros d c md gmo call Hin. simpl in Hin. unfold connOf.
    rewrite Hst; [by eapply Hcl|]. by eapply (Hrp d (JMQGET c md gmo call)).
  - intros h. rewrite El. apply Hl.
  - intros h Hhd. rewrite El. by apply Hh.
  - intros d j c Hin Hj. simpl in Hin. destruct (Hcn d j c Hin Hj) as [H1 H2].
    unfold counted. rewrite Hst by by eapply Hrp. done.
Qed.

Lemma Pre_Get held o m g f s : Pre M held s → Pre M held (Get o m g f s).
Proof.
  intros HP. unfold Get.
  pose proof (Pre_setUserContext held o f s HP) as HP1.
  destruct (setUserContext o f s) as [c s1]. simpl in HP1.
  assert (Pre M held (upd_ctx c (ctx_set_WaitInterval (WaitInterval g))
            (upd_ctx c (ctx_set_jsmd m) (upd_ctx c (ctx_set_jsgmo g) s1)))) as HP2.
  { by repeat apply Pre_upd_ctx. }
  revert HP2. generalize (upd_ctx c (ctx_set_WaitInterval (WaitInterval g))
            (upd_ctx c (ctx_set_jsmd m) (upd_ctx c (ctx_set_jsgmo g) s1))).
  intros s2 HP2. cbv zeta.
  assert (∀ s3, core s3 = core s2 →
     Pre M held (if negb (scheduledGetLoop s3) || bool_decide (getLoop s3 = None)
               then setTimeout JPollAllHConns 0
                      (set_getLoop (Some (clock (set_scheduledGetLoop true s3) + 0))
                         (set_scheduledGetLoop true s3))
               else s3)) as Hfin.
  { intros s3 E. case_match.
    - unfold setTimeout. apply Pre_add_neutral; [done|]. by apply (Pre_core held s2).
    - by apply (Pre_core held s2). }
  destruct (getLoopPollTimeMs (tuningParameters s2) <? getLoopPollTimeMsMin);
    by apply Hfin.
Qed.

Lemma Pre_GetDone held o f s s' :
  GetDone o f s = inr s' → Pre M held s → Pre M held s'.
Proof.
  unfold GetDone. destruct (getUserContext o s); [|done]. intros [= <-] HP.
  pose proof (Pre_deleteUserContext held o s HP) as HP1.
  revert HP1. generalize (deleteUserContext o s). intros s1 HP1.
  assert (Pre M held (if Map_size (contextMap s1) =? 0 then resetGetLoop s1 else s1)) as HP2.
  { case_match; [|done]. by apply (Pre_core held s1). }
  revert HP2. generalize (if Map_size (contextMap s1) =? 0 then resetGetLoop s1 else s1).
  intros s2 HP2. destruct f as [g|]; [|done].
  apply Pre_observe_other; done.
Qed.

(** [maxConsecutiveGets] is set to a number within the bound. *)
Lemma Pre_setMaxConsecutiveGets held x s :
  capped M x = true → Pre M held s → Pre M held (setMaxConsecutiveGets x s).
Proof.
  intros Hx [Hrp Hrm Hrt Hkn Hk Hcl Hl Hh Hbr Hcap Hb Hcn]. by constructor.
Qed.

Lemma Pre_apiCall held a s :
  call_capped M a = true → Pre M held s → Pre M held (apiCall a s).
Proof.
  intros Ha HP. destruct a as [o m g f|o f|x]; unfold apiCall.
  - by apply Pre_Get.
  - destruct (GetDone o f s) as [e|s'] eqn:E; [done|]. by eapply Pre_GetDone.
  - by apply Pre_setMaxConsecutiveGets.
Qed.

(** What the calls of the application leave alone. *)
Lemma Get_untouched o m g f s c :
  (c < nextRef s)%nat →
  store (Get o m g f s) c = store s c
  ∧ trace (Get o m g f s) = trace s
  ∧ hConnsInPoll (Get o m g f s) = hConnsInPoll s.
Proof.
  intros Hc. split; [by apply Get_store_below|].
  unfold Get. rewrite setUserContext_eq. unfold_basic.
  repeat case_match; st; done.
Qed.

Lemma GetDone_untouched o f s s' c :
  GetDone o f s = inr s' →
  store s' = store s
  ∧ deliveries_since_pick c (trace s') = deliveries_since_pick c (trace s)
  ∧ hConnsInPoll s' = hConnsInPoll s.
Proof.
  unfold GetDone. unfold_basic.
  repeat case_match; intros; simplify_eq; done.
Qed.

Lemma apiCall_untouched a s c :
  (c < nextRef s)%nat →
  store (apiCall a s) c = store s c
  ∧ deliveries_since_pick c (trace (apiCall a s)) = deliveries_since_pick c (trace s)
  ∧ hConnsInPoll (apiCall a s) = hConnsInPoll s
  ∧ (c < nextRef (apiCall a s))%nat.
Proof.
  intros Hc. pose proof (apiCall_nextRef a s) as Hn.
  destruct a as [o m g f|o f|x]; unfold apiCall in *.
  - destruct (Get_untouched o m g f s c Hc) as (-> & -> & ->).
    split_and!; try done. lia.
  - destruct (GetDone o f s) as [e|s'] eqn:E; [done|].
    destruct (GetDone_untouched o f s s' c E) as (-> & -> & ->).
    split_and!; try done. lia.
  - done.
Qed.

Lemma calls_untouched calls s c :
  (c < nextRef s)%nat →
  let s' := foldl (fun s a => apiCall a s) s calls in
  store s' c = store s c
  ∧ deliveries_since_pick c (trace s') = deliveries_since_pick c (trace s)
  ∧ hConnsInPoll s' = hConnsInPoll s
  ∧ (c < nextRef s')%nat.
Proof.
  revert s. induction calls as [|a calls IH]; intros s Hc; simpl; [done|].
  destruct (apiCall_untouched a s c Hc) as (E1 & E2 & E4 & E5).
  destruct (IH (apiCall a s) E5) as (F1 & F2 & F4 & F5).
  simpl in *. rewrite F1, F2, F4, E1, E2, E4. done.
Qed.

Lemma Pre_calls held calls s :
  forallb (call_capped M) calls = true →
  Pre M held s → Pre M held (foldl (fun s a => apiCall a s) s calls).
Proof.
  revert s. induction calls as [|a calls IH]; intros s Hcs HP; simpl; [done|].
  simpl in Hcs. apply andb_true_iff in Hcs as [Ha Hcs].
  apply IH; [done|]. by apply Pre_apiCall.
Qed.

(** ** The picker and the executor keep the invariant *)

Lemma swap_Permutation {A} (l : list A) i j : swap l i j ≡ₚ l.
Proof.
  unfold swap. destruct (l !! i) as [x|] eqn:Hi; [|done].
  destruct (l !! j) as [y|] eqn:Hj; [|done].
  by apply Permutation_insert_swap.
Qed.

Lemma shuffle_from_Permutation {A} i rs (l : list A) :
  fst (shuffle_from i rs l) ≡ₚ l.
Proof.
  revert rs l. induction i as [|i IH]; intros rs l; simpl; [done|].
  rewrite IH. apply swap_Permutation.
Qed.

Lemma shuffle_Permutation {A} rs (l : list A) : fst (shuffle rs l) ≡ₚ l.
Proof. apply shuffle_from_Permutation. Qed.

(** The contexts [pollHobjs] chooses from are registered contexts of the
    connection. *)
Lemma elem_of_getAllContextsForPoll h s c :
  c ∈ getAllContextsForPoll h s ↔
  connOf s c = h ∧ ∃ k, (k, c) ∈ contextMap s.
Proof.
  unfold getAllContextsForPoll, Map_values, connOf.
  rewrite list_elem_of_filter.
  change (map snd (contextMap s)) with (snd <$> contextMap s).
  rewrite list_elem_of_fmap. split.
  - intros [H1 ([k c'] & -> & Hin)]. split; [done|]. by exists k.
  - intros [H1 [k Hin]]. split; [done|]. by exists (k, c).
Qed.

Lemma Inv_pollHObjInternal c md gmo s :
  Pre M (Some (connOf s c)) s → (c < nextRef s)%nat → counted M s c →
  Inv (pollHObjInternal c md gmo s).
Proof.
  intros HP Hc Hcnt.
  destruct (isLocked (hConnOf (object (store s c))) s) eqn:Hlk.
  - rewrite pollHObjInternal_locked by done. unfold setImmediate.
    apply (Pre_add_carrier (connOf s c)); try done. by intros ? [= <-].
  - rewrite pollHObjInternal_free by done. cbv zeta.
    set (hc := hConnOf (object (store s c))).
    pose proof (resizeBuffer_core c (lock hc s)) as Hcore.
    pose proof (resizeBuffer_but_store c (lock hc s)) as Hbs.
    destruct (mqgetCall_spec c gmo s) as (Hcall & _). fold hc in Hcall.
    cbv zeta in Hcall. revert Hcore Hbs Hcall.
    generalize (resizeBuffer c (lock hc s)). intros s1 Hcore Hbs Hcall.
    unfold but_store in Hbs. simpl in Hbs.
    injection Hbs as E1 E2 E3 E4 E5 E6 E7 E8 E9 E10 E11 E12.
    assert (∀ c', object (store s1 c') = object (store s c')) as Ho.
    { intros c'. destruct (Hcore c') as (E & _). unfold ctx_core in E. by simplify_eq. }
    assert (∀ c', retrieved (store s1 c') = retrieved (store s c')) as Hr.
    { intros c'. by destruct (Hcore c') as (_ & E & _). }
    assert (Pre M (Some (connOf s c)) s1) as HP1.
    { apply (Pre_frame _ s); try done. by rewrite E2. }
    unfold callAsync. rewrite E1.
    apply (Pre_add_carrier (connOf s c)); try done.
    + simpl. unfold connOf. by rewrite Ho.
    + intros c' [= <-]. split; [by rewrite E3|].
      by apply (counted_frame s).
    + intros c' md' gmo' call' [= <- _ _ <-]. rewrite Hcall. unfold connOf. by rewrite Ho.
Qed.

Lemma Inv_pollHobjs h s : Pre M (Some h) s → Inv (pollHobjs h s).
Proof.
  intros HP. destruct (pre_held _ _ HP h eq_refl) as [Hz Hin].
  assert (h ≠ -1) as Hne by (intros ->; by apply (pre_broken _ _ HP)).
  unfold pollHobjs. rewrite (proj2 (Z.eqb_neq _ _) Hne). cbv zeta.
  assert (∀ s3 d, core s3 = core s →
            Inv (setTimeout (JPollPerHconn h) d s3)) as Htimer.
  { intros s3 d E. unfold setTimeout. apply (Pre_add_carrier h); try done.
    by apply (Pre_core _ s). }
  case_match; [by apply Htimer|]. case_match; [by apply Htimer|].
  destruct (shuffle _ _) as [nw rs] eqn:Hsh.
  pose proof (shuffle_Permutation
    (entropy (set_scheduledGetLoop false s))
    (getRunningContexts (getAllContextsForPoll h s) s)) as Hperm.
  rewrite Hsh in Hperm. simpl in Hperm.
  destruct nw as [|c nw].
  - apply Permutation_nil_l in Hperm.
    match goal with H : (length _ =? 0)%nat = false |- _ =>
      rewrite <- Hperm in H; done end.
  - assert (c ∈ getAllContextsForPoll h s) as Hc.
    { assert (c ∈ getRunningContexts (getAllContextsForPoll h s) s) as Hc.
      { rewrite <- Hperm. by left. }
      unfold getRunningContexts in Hc. by apply list_elem_of_filter in Hc as [_ Hc]. }
    apply elem_of_getAllContextsForPoll in Hc as [Hconn [k Hk]].
    assert ((c < nextRef s)%nat) as Hlt by by eapply (pre_refs_map _ _ HP).
    set (s1 := set_entropy rs (set_scheduledGetLoop false s)).
    assert (Pre M (Some h) s1) as HP1 by by apply (Pre_core _ s).
    destruct (Pre_pick (Some h) c s1) as [HP2 Hcnt]; try done.
    { by apply (held_no_job h s c). }
    unfold initGet, pollHObj. apply Inv_pollHObjInternal; try done.
    replace (connOf _ c) with h; [done|].
    unfold connOf. rewrite store_upd_ctx_eq. simpl. done.
Qed.

Lemma pollHobjs_hConnsInPoll h s : hConnsInPoll (pollHobjs h s) = hConnsInPoll s.
Proof.
  unfold pollHobjs, initGet, pollHObj, pollHObjInternal, resizeBuffer. unfold_basic.
  repeat case_match; st; done.
Qed.

(** An assignment to fields of a context that no pending job works for. *)
Lemma Pre_upd_idle held c f s :
  (∀ x, object (f x) = object x) →
  (∀ d j, (d, j) ∈ pending s → job_ctx j ≠ Some c) →
  Pre M held s → Pre M held (upd_ctx c f s).
Proof.
  intros Ho Hno. apply Pre_frame; try done.
  - intros c'. rewrite store_upd_ctx. case_decide; subst; done.
  - intros d j c' Hin Hj. rewrite store_upd_ctx_ne; [done|].
    intros ->. by eapply Hno.
Qed.

Lemma Pre_reset_all h l s :
  Pre M (Some h) s → (∀ c, c ∈ l → connOf s c = h) →
  let s' := foldl (fun s c => upd_ctx c (fun x => ctx_set_retrieved 0 (ctx_set_state running x)) s) s l in
  Pre M (Some h) s' ∧ but_store s' = but_store s.
Proof.
  revert s. induction l as [|c l IH]; intros s HP Hl; simpl; [done|].
  set (s1 := upd_ctx c _ s).
  assert (Pre M (Some h) s1) as HP1.
  { apply Pre_upd_idle; try done. apply (held_no_job h); [done|]. apply Hl. by left. }
  destruct (IH s1 HP1) as [HP2 E].
  { intros c' Hc'. unfold connOf. subst s1. rewrite store_upd_ctx.
    case_decide; subst; simpl; apply Hl; [by left|by right]. }
  split; [done|]. by rewrite E.
Qed.

Lemma Inv_pollPerHconn h s : Pre M (Some h) s → Inv (pollPerHconn h s).
Proof.
  intros HP. unfold pollPerHconn. cbv zeta.
  set (s1 := set_messagesRetrievedInHConnPoll 0 s).
  assert (Pre M (Some h) s1) as HP1 by by apply (Pre_core _ s).
  case_match.
  - by apply Pre_poll_delete_held.
  - apply Inv_pollHobjs. apply Pre_reset_all; [done|].
    intros c Hc. by apply elem_of_getAllContextsForPoll in Hc as [? _].
Qed.

Lemma pollPerHconn_hConnsInPoll h s :
  hConnsInPoll (pollPerHconn h s) ⊆ hConnsInPoll s.
Proof.
  unfold pollPerHconn. cbv zeta. case_match.
  - simpl. by intros x [Hx _]%elem_of_difference.
  - rewrite pollHobjs_hConnsInPoll.
    generalize (getAllContextsForPoll h (set_messagesRetrievedInHConnPoll 0 s)).
    intros l.
    assert (∀ s0, hConnsInPoll
              (foldl (fun s c => upd_ctx c (fun x => ctx_set_retrieved 0 (ctx_set_state running x)) s) s0 l)
            = hConnsInPoll s0) as E.
    { induction l as [|c l IH]; intros s0; simpl; [done|]. by rewrite IH. }
    by rewrite E.
Qed.

Lemma js_uniq_elem_of l x : x ∈ js_uniq l → x ∈ l.
Proof.
  induction l as [|y l IH]; simpl; [done|].
  intros [->|Hin]%elem_of_cons; [by left|].
  apply list_elem_of_filter in Hin as [_ Hin]. right. by apply IH.
Qed.

Lemma js_uniq_NoDup l : NoDup (js_uniq l).
Proof.
  induction l as [|y l IH]; simpl; [constructor|].
  constructor.
  - intros Hin. by apply list_elem_of_filter in Hin as [Hne _].
  - by apply list.NoDup_filter.
Qed.

Lemma getFreshHconnsForPoll_spec s :
  NoDup (getFreshHconnsForPoll s)
  ∧ ∀ h, h ∈ getFreshHconnsForPoll s → h ∉ hConnsInPoll s.
Proof.
  unfold getFreshHconnsForPoll. split.
  - apply list.NoDup_filter, js_uniq_NoDup.
  - intros h Hin. by apply list_elem_of_filter in Hin as [Hn _].
Qed.

Lemma Inv_pollAllHConns_loop l s :
  NoDup l → (∀ h, h ∈ l → h ∉ hConnsInPoll s) → Inv s →
  Inv (foldl (fun s hConn =>
               if negb (hConn =? -1) then
                 pollPerHconn hConn (set_hConnsInPoll ({[hConn]} ∪ hConnsInPoll s) s)
               else set_hConnsInPoll (hConnsInPoll s ∖ {[hConn]}) s)
            s l).
Proof.
  revert s. induction l as [|h l IH]; intros s Hnd Hfresh HI; simpl; [done|].
  apply list.NoDup_cons in Hnd as [Hh Hnd].
  apply IH; [done| |].
  - intros h' Hin'. assert (h' ≠ h) as Hne by (intros ->; done).
    assert (h' ∉ hConnsInPoll s) as Hn by (apply Hfresh; by right).
    destruct (h =? -1) eqn:E; simpl.
    + intros [? _]%elem_of_difference. done.
    + intros Hin2. apply pollPerHconn_hConnsInPoll in Hin2. simpl in Hin2.
      apply elem_of_union in Hin2 as [Hin2%elem_of_singleton|Hin2]; done.
  - destruct (h =? -1) eqn:E; simpl.
    + apply Z.eqb_eq in E. subst h. by apply Pre_poll_delete_broken.
    + apply Z.eqb_neq in E. apply Inv_pollPerHconn. apply Pre_poll_add; try done.
      apply Hfresh. by left.
Qed.

Lemma Inv_pollAllHConns s : Inv s → Inv (pollAllHConns s).
Proof.
  intros HI. unfold pollAllHConns.
  assert (Inv (if Map_size (contextMap s) >? 0
               then foldl (fun s hConn =>
                  if negb (hConn =? -1) then
                    pollPerHconn hConn (set_hConnsInPoll ({[hConn]} ∪ hConnsInPoll s) s)
                  else set_hConnsInPoll (hConnsInPoll s ∖ {[hConn]}) s)
                 s (getFreshHconnsForPoll s)
               else s)) as H1.
  { case_match; [|done].
    destruct (getFreshHconnsForPoll_spec s) as [Hnd Hf].
    by apply Inv_pollAllHConns_loop. }
  cbv zeta. revert H1. generalize (if Map_size (contextMap s) >? 0
               then foldl (fun s hConn =>
                  if negb (hConn =? -1) then
                    pollPerHconn hConn (set_hConnsInPoll ({[hConn]} ∪ hConnsInPoll s) s)
                  else set_hConnsInPoll (hConnsInPoll s ∖ {[hConn]}) s)
                 s (getFreshHconnsForPoll s)
               else s).
  intros s1 H1. case_match; [|done]. by apply (Pre_core _ s1).
Qed.

(** ** The completion callback keeps the invariant *)

Lemma Inv_onTruncated c md gmo s :
  Pre M (Some (connOf s c)) s → (c < nextRef s)%nat → counted M s c →
  Inv (onTruncated c md gmo s).
Proof.
  intros HP Hc Hcnt. unfold onTruncated, setTimeout. cbv zeta.
  set (s1 := upd_ctx c _ s).
  assert (Pre M (Some (connOf s c)) s1) as HP1 by by apply Pre_upd_ctx.
  assert (connOf s1 c = connOf s c) as Ec.
  { unfold connOf. subst s1. by rewrite store_upd_ctx_eq. }
  apply (Pre_add_carrier (connOf s c)); try done.
  - simpl. by rewrite Ec.
  - intros c' [= <-]. split; [done|].
    apply (counted_frame s); try done. subst s1. by rewrite store_upd_ctx_eq.
Qed.

Lemma Inv_onNoMessage c md gmo s :
  Pre M (Some (connOf s c)) s → (c < nextRef s)%nat → counted M s c →
  Inv (onNoMessage c md gmo (connOf s c) s).
Proof.
  intros HP Hc Hcnt. unfold onNoMessage. case_match.
  - unfold setTimeout. apply (Pre_add_carrier (connOf s c)); try done.
    by intros c' [= <-].
  - by apply Inv_pollHobjs.
Qed.

Lemma Pre_invoke held i calls s :
  forallb (call_capped M) calls = true →
  (∀ c, inv_ctx i = Some c → (c < nextRef s)%nat) →
  (∀ c, inv_ctx i = Some c → inv_err i = None →
        (∀ d j, (d, j) ∈ pending s → job_ctx j ≠ Some c)
        ∧ under M (Z.of_nat (deliveries_since_pick c (trace s)) + 1)) →
  Pre M held s → Pre M held (invoke i calls s).
Proof.
  intros Hcs Hctx Hdel HP. unfold invoke. apply Pre_calls; [done|].
  destruct (inv_ctx i) as [c|] eqn:Hc.
  - destruct (inv_err i) as [e|] eqn:He.
    + apply Pre_observe_other; try done.
      * intros c'. unfold is_delivery. rewrite He.
        rewrite (bool_decide_eq_false_2 (Some e = None)) by done. apply andb_false_r.
      * intros c' Hc'. apply Hctx. congruence.
    + destruct (Hdel c eq_refl eq_refl) as [H1 H2].
      apply (Pre_observe_delivery held i c s); try done. by apply Hctx.
  - apply Pre_observe_other; try done.
    + intros c'. unfold is_delivery. rewrite Hc. by rewrite bool_decide_eq_false_2.
    + intros c'. rewrite Hc. done.
Qed.

Lemma invoke_untouched i calls s c :
  (c < nextRef s)%nat →
  let s' := invoke i calls s in
  store s' c = store s c
  ∧ deliveries_since_pick c (trace s')
    = deliveries_since_pick c (ObsCall i :: trace s)
  ∧ (c < nextRef s')%nat.
Proof.
  intros Hc. unfold invoke.
  destruct (calls_untouched calls (observe (ObsCall i) s) c Hc) as (E1 & E2 & _ & E5).
  cbv zeta in *. rewrite E1, E2. done.
Qed.

Lemma Inv_onFailure c err calls s :
  forallb (call_capped M) calls = true →
  Pre M (Some (connOf s c)) s → (c < nextRef s)%nat →
  Inv (onFailure c err calls (connOf s c) s).
Proof.
  intros Hcs HP Hc. unfold onFailure. cbv zeta.
  set (s1 := upd_ctx c (ctx_set_state waiting) s).
  assert (Pre M (Some (connOf s c)) s1) as HP1 by by apply Pre_upd_ctx.
  set (i := invocation _ _ _ _ _ _ _ _).
  assert (Pre M (Some (connOf s c)) (invoke i calls s1)) as HP2.
  { apply Pre_invoke; [done| | |done].
    - intros c' [= <-]. by subst s1.
    - intros c' _ Herr. subst i. simpl in Herr. done. }
  revert HP2. generalize (invoke i calls s1). intros s2 HP2.
  apply Inv_pollHobjs. by apply Pre_deleteUserContext.
Qed.

Lemma Inv_onMessage c md gmo r s :
  forallb (call_capped M) (h_calls r) = true →
  Pre M (Some (connOf s c)) s → (c < nextRef s)%nat → counted M s c →
  Inv (onMessage c md gmo r (connOf s c) s).
Proof.
  intros Hcs HP Hc [Htally Hroom]. unfold onMessage. cbv zeta.
  pose proof (held_no_job (connOf s c) s c HP eq_refl) as Hno.
  set (s1 := upd_ctx c (fun x => ctx_set_retrieved (retrieved x + 1) x)
               (upd_ctx c (ctx_set_state waiting) s)).
  assert (Pre M (Some (connOf s c)) s1) as HP1.
  { subst s1. apply Pre_upd_idle; try done. by apply Pre_upd_ctx. }
  assert (retrieved (store s1 c) = retrieved (store s c) + 1) as Hr1.
  { subst s1. by rewrite !store_upd_ctx_eq. }
  assert (object (store s1 c) = object (store s c)) as Ho1.
  { subst s1. by rewrite !store_upd_ctx_eq. }
  set (i := invocation _ _ _ _ _ _ _ _).
  assert (Pre M (Some (connOf s c)) (invoke i (h_calls r) s1)) as HP2.
  { apply Pre_invoke; [done| | |done].
    - intros c' [= <-]. by subst s1.
    - intros c' [= <-] _. split; [done|].
      change (trace s1) with (trace s). rewrite Htally. by apply under_next. }
  destruct (invoke_untouched i (h_calls r) s1 c) as (E1 & E2 & E4); [done|].
  cbv zeta in *.
  assert (deliveries_since_pick c (trace (invoke i (h_calls r) s1))
          = S (deliveries_since_pick c (trace s))) as E2'.
  { rewrite E2. simpl. unfold is_delivery. subst i. simpl.
    by rewrite !bool_decide_eq_true_2. }
  clear E2. revert HP2 E1 E2' E4. generalize (invoke i (h_calls r) s1).
  intros s2 HP2 E1 E2 E4.
  set (s3 := upd_ctx c (fun x => ctx_set_bufSize _ x) _).
  assert (Pre M (Some (connOf s c)) s3) as HP3.
  { subst s3. do 5 (apply Pre_upd_ctx; [done|done|]). done. }
  assert (store s3 c = ctx_set_bufSize (shrinkBufSize (bufSize (store s2 c)) (r_datalen r))
            (ctx_set_jsgmo (gmo_set_Options (Options (h_jsgmo r)) (jsgmo (store s2 c)))
            (ctx_set_WaitStartTime (clock s2)
            (ctx_set_WaitInterval (WaitInterval (jsgmo (store s2 c)))
            (ctx_set_state running (store s2 c)))))) as E3c.
  { subst s3. rewrite !store_upd_ctx_eq. st. done. }
  assert (retrieved (store s3 c) = retrieved (store s c) + 1) as Hr3.
  { rewrite E3c. simpl. by rewrite E1. }
  assert (connOf s3 c = connOf s c) as Ec3.
  { unfold connOf. rewrite E3c. simpl. by rewrite E1, Ho1. }
  assert (trace s3 = trace s2) as Et3 by (subst s3; by st).
  assert (tuningParameters s3 = tuningParameters s2) as Etp3 by (subst s3; by st).
  assert (nextRef s3 = nextRef s2) as En3 by (subst s3; by st).
  clearbody s3.
  set (s4 := set_messagesRetrievedInHConnPoll _ s3).
  assert (Pre M (Some (connOf s c)) s4) as HP4 by by apply (Pre_core _ s3).
  change (store s4 c) with (store s3 c).
  change (tuningParameters s4) with (tuningParameters s3).
  case_match eqn:Hlt.
  - unfold setTimeout.
    apply (Pre_add_carrier (connOf s c)); try done.
    { simpl. f_equal. exact Ec3. }
    intros c' [= <-]. split; [simpl; lia|].
    split.
      * change (trace s4) with (trace s3). change (store s4 c) with (store s3 c).
        rewrite Et3, E2, Hr3. lia.
      * right. change (store s4 c) with (store s3 c).
        apply (capped_room M (maxConsecutiveGets (tuningParameters s3))); [|done].
        exact (pre_cap _ _ HP3).
  - by apply Inv_pollHobjs.
Qed.

Lemma connOf_unlock h s c : connOf (unlock h s) c = connOf s c.
Proof. done. Qed.

Lemma Inv_mqgetCallback c r s :
  forallb (call_capped M) (h_calls r) = true →
  Pre M (Some (connOf s c)) s → (c < nextRef s)%nat → counted M s c →
  Inv (mqgetCallback c r s).
Proof.
  intros Hcs HP Hc Hcnt. unfold mqgetCallback. cbv zeta.
  fold (connOf s c).
  set (s1 := unlock (connOf s c) s).
  assert (Pre M (Some (connOf s1 c)) s1) as HP1 by by apply (Pre_core _ s).
  assert (counted M s1 c) as Hcnt1 by done.
  assert ((c < nextRef s1)%nat) as Hc1 by done.
  change (connOf s c) with (connOf s1 c). clearbody s1.
  repeat case_match.
  - by apply Inv_onTruncated.
  - by apply Inv_onNoMessage.
  - by apply Inv_onFailure.
  - by apply Inv_onMessage.
Qed.

(** ** Steps keep the invariant *)

(** Taking a job off the pending ones hands its polling loop, if it carries
    one, to the code that runs. *)
Lemma Pre_remove i d j s :
  pending s !! i = Some (d, j) → Inv s →
  Pre M (job_conn s j) (set_pending (delete i (pending s)) s)
  ∧ (∀ c, job_ctx j = Some c → (c < nextRef s)%nat ∧ counted M s c).
Proof.
  intros Hi [Hrp Hrm Hrt Hkn Hk Hc Hl Hh Hbr Hcap Hb Hcn].
  assert ((d, j) ∈ pending s) as Hin by by eapply list_elem_of_lookup_2.
  assert (∀ x, x ∈ delete i (pending s) → x ∈ pending s) as Hsub.
  { intros x Hx. apply list_elem_of_lookup in Hx as [k Hk'].
    destruct (decide (k < i)%nat).
    - rewrite list_lookup_delete_lt in Hk' by done. by eapply list_elem_of_lookup_2.
    - rewrite list_lookup_delete_ge in Hk' by lia. by eapply list_elem_of_lookup_2. }
  assert (∀ h, loops s h
               = (loops (set_pending (delete i (pending s)) s) h
                  + if decide (job_conn s j = Some h) then 1 else 0)%nat) as El.
  { intros h. unfold loops. simpl. rewrite (count_conn_delete s h _ i d j Hi).
    f_equal. }
  split.
  - constructor; simpl; try done.
    + intros d' j' c Hx. apply Hsub in Hx. by eapply Hrp.
    + intros d' c md gmo call Hx. apply Hsub in Hx. by eapply Hc.
    + intros h. specialize (El h). destruct (Hl h) as [H1 H2].
      split; [lia|]. intros E. apply H2. case_decide; lia.
    + intros h Hj. specialize (El h). destruct (Hl h) as [H1 H2].
      rewrite decide_True in El by done. split; [lia|]. apply H2. lia.
    + intros d' j' c Hx. apply Hsub in Hx. by eapply Hcn.
  - intros c Hj. split; [by eapply Hrp|by eapply Hcn].
Qed.

Lemma Inv_verbInternal hc s : Inv s → Inv (verbInternal hc s).
Proof.
  intros HI. unfold verbInternal. case_match.
  - by apply (Pre_add_neutral None).
  - unfold callAsync. apply (Pre_add_neutral None _ _ (lock hc s)); [done|].
    by apply (Pre_core _ s).
Qed.

Lemma Inv_runJob i d j r s :
  forallb (call_capped M) (h_calls r) = true →
  pending s !! i = Some (d, j) → Inv s →
  Inv (runJob j r (set_pending (delete i (pending s)) s)).
Proof.
  intros Hcs Hi HI. destruct (Pre_remove i d j s Hi HI) as [HP Hctx].
  set (s1 := set_pending (delete i (pending s)) s) in *.
  destruct j as [|h|c md gmo|c md gmo call|hc|hc]; simpl in *.
  - by apply Inv_pollAllHConns.
  - by apply Inv_pollPerHconn.
  - destruct (Hctx c eq_refl) as [Hc Hcnt].
    apply Inv_pollHObjInternal; done.
  - destruct (Hctx c eq_refl) as [Hc Hcnt].
    apply Inv_mqgetCallback; done.
  - by apply Inv_verbInternal.
  - by apply (Pre_core _ s1).
Qed.

Lemma Pre_init t now rs :
  capped M (maxConsecutiveGets t) = true → Inv (init t now rs).
Proof.
  intros Ht. constructor; simpl;
    try (intros; match goal with H : _ ∈ [] |- _ => by apply elem_of_nil in H end).
  - constructor.
  - intros h. unfold loops. simpl. rewrite count_conn_nil. split; [lia|done].
  - done.
  - set_solver.
  - done.
  - intros c. apply under_zero.
Qed.

Lemma Pre_step e s s' :
  event_capped M e = true → step e s = Some s' → Inv s → Inv s'.
Proof.
  intros He Hs HI. destruct e as [dt|a|hc|i r|]; simpl in Hs, He.
  - case_match; simplify_eq. by apply (Pre_core _ s).
  - simplify_eq. by apply Pre_apiCall.
  - simplify_eq. by apply Inv_verbInternal.
  - destruct (pending s !! i) as [[d j]|] eqn:Hi; [|done].
    case_match; simplify_eq. by eapply Inv_runJob.
  - case_match; simplify_eq. by apply (Pre_core _ s).
Qed.

(** A run in which [maxConsecutiveGets] stays within the bound. *)
Lemma Pre_run es s :
  forallb (event_capped M) es = true → Inv s → Inv (run es s).
Proof.
  revert s. induction es as [|e es IH]; intros s Hes HI; simpl; [done|].
  simpl in Hes. apply andb_true_iff in Hes as [He Hes].
  apply IH; [done|]. destruct (step e s) as [s'|] eqn:Hs; simpl; [|done].
  by eapply Pre_step.
Qed.

End Capped.

(** ** Every run keeps the invariant *)

Lemma Inv_init t now rs : Inv (init t now rs).
Proof. by apply Pre_init. Qed.

Lemma Inv_step e s s' : step e s = Some s' → Inv s → Inv s'.
Proof. apply Pre_step, event_capped_None. Qed.

Lemma Inv_reachable t s : reachable t s → Inv s.
Proof.
  induction 1 as [now rs|s e s' _ IH Hs]; [apply Inv_init|by eapply Inv_step].
Qed.

Lemma reachable_run t es s : reachable t s → reachable t (run es s).
Proof.
  revert s. induction es as [|e es IH]; intros s Hr; simpl; [done|].
  apply IH. destruct (step e s) as [s'|] eqn:Hs; simpl; [|done].
  by eapply reachable_step.
Qed.
(** * The test after a delivery *)

Lemma onMessage_delivered c r hc s :
  onMessage c (r_md r) (r_gmo r) r hc s =
  let s1 := delivered c r s in
  if lt_number (retrieved (store s1 c)) (mcg s1)
  then setTimeout (JPollHObjInternal c (h_jsmd r) (h_jsgmo r)) 0 s1
  else pollHobjs hc s1.
Proof. reflexivity. Qed.

(** * The properties of the scheduler *)

(** A get in flight carries the polling loop of its connection. *)
Lemma inflight_le_loops s h : Inv s → (inflight s h ≤ loops s h)%nat.
Proof.
  intros HI. pose proof (pre_calls _ _ HI) as Hc.
  unfold inflight, loops, count_conn. revert Hc. generalize (pending s).
  intros l. induction l as [|[d j] l IH]; intros Hc; [done|].
  assert ((length (filter (λ p, mqget_on h p.2 = true) l)
           ≤ length (filter (λ p, job_conn s p.2 = Some h) l))%nat) as IH'.
  { apply IH. intros d' c md gmo call Hin. apply (Hc d' c md gmo call). by right. }
  rewrite !filter_cons. simpl.
  destruct (decide (mqget_on h j = true)) as [Hm|Hm].
  - rewrite decide_True; [simpl; lia|].
    destruct j as [|?|?|c md gmo call|?|?]; simpl in Hm; try done.
    apply bool_decide_eq_true in Hm. simpl.
    rewrite <- (Hc d c md gmo call) by by left. by rewrite Hm.
  - case_decide; simpl; lia.
Qed.

Lemma inflight_setImmediate_poll s c md gmo h :
  inflight (setImmediate (JPollHObjInternal c md gmo) s) h = inflight s h.
Proof.
  unfold inflight, setImmediate, setTimeout. simpl.
  rewrite list.filter_app, length_app. simpl. lia.
Qed.

(** C1: in every state the module can reach, at most one [MQGET] issued by
    the polling scheduler is in flight on a connection handle.  An attempt
    that finds the gate of its connection held ([isLocked]) puts itself
    back with [setImmediate] and issues no call; an attempt that finds it
    free takes the gate and only then issues [MQGET] on that connection;
    the completion callback releases the gate before it acts on the
    outcome. *)
Theorem C1_one_get_in_flight_per_connection (t : TuningParameters) (s : State) :
  reachable t s →
  (∀ h, (inflight s h ≤ 1)%nat)
  ∧ (∀ c md gmo, isLocked (connOf s c) s = true →
       pollHObjInternal c md gmo s = setImmediate (JPollHObjInternal c md gmo) s
       ∧ ∀ h, inflight (pollHObjInternal c md gmo s) h = inflight s h)
  ∧ (∀ c md gmo, isLocked (connOf s c) s = false →
       let s' := pollHObjInternal c md gmo s in
       isLocked (connOf s c) s' = true
       ∧ ∃ call, pending s' = pending s ++ [(clock s, JMQGET c md gmo call)]
                 ∧ call_hConn call = connOf s c)
  ∧ (∀ c r,
       let s1 := unlock (connOf s c) s in
       isLocked (connOf s c) s1 = false
       ∧ (mqgetCallback c r s = onTruncated c (r_md r) (r_gmo r) s1
          ∨ mqgetCallback c r s = onNoMessage c (r_md r) (r_gmo r) (connOf s c) s1
          ∨ mqgetCallback c r s
            = onFailure c (mkError (r_cc r) (r_rc r) "GET") (h_calls r) (connOf s c) s1
          ∨ mqgetCallback c r s = onMessage c (r_md r) (r_gmo r) r (connOf s c) s1)).
Proof.
  intros Hr. pose proof (Inv_reachable t s Hr) as HI.
  split; [|split; [|split]].
  - intros h. pose proof (inflight_le_loops s h HI).
    destruct (pre_loops _ _ HI h). lia.
  - intros c md gmo Hl. rewrite (pollHObjInternal_locked c md gmo s Hl).
    split; [done|]. intros h. apply inflight_setImmediate_poll.
  - intros c md gmo Hl. cbv zeta.
    rewrite (pollHObjInternal_free c md gmo s Hl). cbv zeta.
    destruct (mqgetCall_spec c gmo s) as (E1 & _). cbv zeta in E1.
    split.
    + unfold callAsync, setTimeout. st.
      unfold isLocked, lock, resizeBuffer. repeat case_match; st;
        apply bool_decide_eq_true; rewrite lookup_insert_eq; by eexists.
    + eexists. split; [|exact E1].
      unfold callAsync, setTimeout. st.
      assert (∀ u, pending (resizeBuffer c u) = pending u
                   ∧ clock (resizeBuffer c u) = clock u) as Hrb.
      { intros u. unfold resizeBuffer. repeat case_match; by st. }
      destruct (Hrb (lock (hConnOf (object (store s c))) s)) as [-> ->].
      done.
  - intros c r. cbv zeta. split; [apply isLocked_unlock|].
    apply mqgetCallback_cases.
Qed.

Lemma pollHObjInternal_counters c md gmo s c' :
  retrieved (store (pollHObjInternal c md gmo s) c') = retrieved (store s c')
  ∧ trace (pollHObjInternal c md gmo s) = trace s.
Proof.
  unfold pollHObjInternal. case_match; [done|].
  unfold callAsync, setTimeout. st.
  destruct (resizeBuffer_core c (lock (hConnOf (object (store s c))) s) c') as (_ & -> & _).
  split; [done|]. unfold resizeBuffer. repeat case_match; by st.
Qed.

(** The picker either leaves the trace alone or picks one context, whose
    count it resets. *)
Lemma pollHobjs_pick h s :
  let s' := pollHobjs h s in
  trace s' = trace s
  ∨ ∃ c, trace s' = ObsPick c :: trace s
         ∧ c ∈ getAllContextsForPoll h s
         ∧ retrieved (store s' c) = 0.
Proof.
  cbv zeta. unfold pollHobjs. case_match; [by left|]. cbv zeta.
  case_match; [by left|]. case_match; [by left|].
  destruct (shuffle _ _) as [l rs] eqn:Hsh.
  destruct l as [|c l]; [by left|]. right. exists c.
  unfold initGet, pollHObj. cbv zeta.
  match goal with |- context [pollHObjInternal c ?md ?gmo ?u] =>
    destruct (pollHObjInternal_counters c md gmo u c) as [-> ->] end.
  split; [done|]. split; [|by rewrite store_upd_ctx_eq].
  match type of Hsh with shuffle ?rs0 ?l0 = _ =>
    pose proof (shuffle_Permutation rs0 l0) as Hp end.
  rewrite Hsh in Hp. simpl in Hp.
  assert (c ∈ c :: l) as Hin by by left.
  rewrite Hp in Hin.
  unfold getRunningContexts in Hin. by apply list_elem_of_filter in Hin as [_ Hin].
Qed.

Lemma delivered_retrieved c r s :
  (c < nextRef s)%nat →
  retrieved (store (delivered c r s) c) = retrieved (store s c) + 1.
Proof.
  intros Hc. unfold delivered. cbv zeta.
  match goal with |- context [invoke ?i ?calls ?s0] =>
    destruct (invoke_store_below i calls s0 c) as (E1 & _ & _); [done|];
    set (i0 := i) in *; set (u := s0) in * end.
  st. rewrite E1. subst u. by rewrite !store_upd_ctx_eq.
Qed.

(** C5: in a run in which [maxConsecutiveGets] starts within a whole
    number [M] and is only ever set, by the application or by a callback, to
    numbers within [M], the number of messages delivered for a context
    since the picker last chose it is at most [M], and at most one when [M]
    is below one (the attempt of the pick itself may deliver).  The picker
    sets [c.retrieved] to zero for the context it picks; a delivery adds one
    to it, and the callback then either schedules the zero-delay retry of
    the same context, when the count is below the [maxConsecutiveGets] in
    force after the user callback has returned, or goes back to [pollHobjs]
    of the connection. *)
Theorem C5_consecutive_gets_capped (t : TuningParameters) (M now : Z) (rs : list nat) (es : list Event) :
  within M (maxConsecutiveGets t) = true →
  forallb (event_capped (Some M)) es = true →
  let s := run es (init t now rs) in
  (∀ c, Z.of_nat (deliveries_since_pick c (trace s)) ≤ Z.max 1 M)
  ∧ (∀ h, let s' := pollHobjs h s in
       trace s' = trace s
       ∨ ∃ c, trace s' = ObsPick c :: trace s
              ∧ c ∈ getAllContextsForPoll h s
              ∧ retrieved (store s' c) = 0
              ∧ deliveries_since_pick c (trace s') = 0%nat)
  ∧ (∀ c r, r_cc r = MQC.MQCC_OK → (c < nextRef s)%nat →
       let s1 := delivered c r (unlock (connOf s c) s) in
       retrieved (store s1 c) = retrieved (store s c) + 1
       ∧ mqgetCallback c r s =
         if lt_number (retrieved (store s c) + 1) (mcg s1)
         then setTimeout (JPollHObjInternal c (h_jsmd r) (h_jsgmo r)) 0 s1
         else pollHobjs (connOf s c) s1).
Proof.
  intros Ht Hes. cbv zeta.
  assert (Pre (Some M) None (run es (init t now rs))) as HI.
  { apply Pre_run; [done|]. by apply Pre_init. }
  generalize dependent (run es (init t now rs)). intros s HI.
  split; [exact (pre_bound _ _ HI)|]. split.
  - intros h. cbv zeta. destruct (pollHobjs_pick h s) as [E|(c & E1 & E2 & E3)]; [by left|].
    right. exists c. split_and!; try done. rewrite E1. simpl. by rewrite decide_True.
  - intros c r Hcc Hc. cbv zeta.
    pose proof (delivered_retrieved c r (unlock (connOf s c) s) Hc) as E.
    split; [exact E|].
    rewrite (mqgetCallback_message c r s Hcc), onMessage_delivered. cbv zeta.
    fold (connOf s c). by rewrite E.
Qed.

(** What [Get] registers. *)
Lemma Get_registers o md gmo f s :
  let s' := Get o md gmo f s in
  let k := pretty (hConnOf o) +:+ "/" +:+ pretty (_hObj o) in
  contextMap s' = Map_set k (nextRef s) (contextMap s)
  ∧ store s' (nextRef s)
    = ctx_set_WaitInterval (WaitInterval gmo)
        (ctx_set_jsmd md (ctx_set_jsgmo gmo (UserContext_new o f (clock s)))).
Proof.
  cbv zeta. unfold Get. rewrite setUserContext_eq. cbv zeta beta iota.
  unfold setTimeout. repeat case_match; st; rewrite ?store_upd_ctx_eq; st;
    rewrite ?fn_lookup_insert; done.
Qed.

(** * The properties on the scenarios *)

Lemma reachable_loaded es : reachable tuningDefault (run es loaded).
Proof. apply reachable_run, reachable_init. Qed.

Lemma C1_one_get_in_flight_per_connection_witness :
  reachable tuningDefault (run firstAttempt loaded)
  ∧ inflight (run firstAttempt loaded) 1 = 1%nat
  ∧ ∀ h, (inflight (run firstAttempt loaded) h ≤ 1)%nat.
Proof.
  split; [apply reachable_loaded|]. split; [vm_compute; reflexivity|].
  exact (proj1 (C1_one_get_in_flight_per_connection tuningDefault
                  (run firstAttempt loaded) (reachable_loaded firstAttempt))).
Defined.

Lemma C10_delivery_writes_back_options_witness :
  r_cc (message gmoUnlimited (mkGMO 32 (-1) 0 []) 100) = MQC.MQCC_OK
  ∧ (0 < nextRef (run firstAttempt loaded))%nat
  ∧ Options (jsgmo (store (mqgetCallback 0%nat
                             (message gmoUnlimited (mkGMO 32 (-1) 0 []) 100)
                             (run firstAttempt loaded)) 0%nat)) = 32.
Proof.
  assert (r_cc (message gmoUnlimited (mkGMO 32 (-1) 0 []) 100) = MQC.MQCC_OK) as H1
    by reflexivity.
  assert ((0 < nextRef (run firstAttempt loaded))%nat) as H2 by (vm_compute; lia).
  split; [exact H1|]. split; [exact H2|].
  exact (proj1 (C10_delivery_writes_back_options 0%nat
                  (message gmoUnlimited (mkGMO 32 (-1) 0 []) 100)
                  (run firstAttempt loaded) H1 H2)).
Defined.

(** With [maxConsecutiveGets] set to 1.5 two messages are delivered in a
    row, the whole number the parameter is within. *)
Lemma C5_consecutive_gets_capped_witness :
  within 2 (maxConsecutiveGets tuningNoCap) = true
  ∧ forallb (event_capped (Some 2)) twoDeliveries = true
  ∧ mcg (run twoDeliveries (init tuningNoCap 0 [])) = oneAndAHalf
  ∧ deliveries_since_pick 0%nat (trace (run twoDeliveries (init tuningNoCap 0 []))) = 2%nat
  ∧ ∀ c, Z.of_nat (deliveries_since_pick c (trace (run twoDeliveries (init tuningNoCap 0 []))))
         ≤ Z.max 1 2.
Proof.
  assert (within 2 (maxConsecutiveGets tuningNoCap) = true) as H1 by reflexivity.
  assert (forallb (event_capped (Some 2)) twoDeliveries = true) as H2 by reflexivity.
  split; [exact H1|]. split; [exact H2|].
  split; [vm_compute; reflexivity|]. split; [vm_compute; reflexivity|].
  exact (proj1 (C5_consecutive_gets_capped tuningNoCap 2 0 [] twoDeliveries H1 H2)).
Defined.

(** With [maxConsecutiveGets] set to 0, a picked context whose first attempt
    is truncated still gets its message from the zero-delay retry: one
    delivery, above the parameter. *)
Lemma C5_cap_below_one_counterexample :
  ¬ (∀ t s, reachable t s →
       ∀ c, le_number (Z.of_nat (deliveries_since_pick c (trace s))) (mcg s) = true).
Proof.
  intros H.
  specialize (H tuningNoCap (run grownThenDelivered (init tuningNoCap 0 []))
                (reachable_run _ _ _ (reachable_init _ _ _)) 0%nat).
  vm_compute in H. discriminate H.
Qed.

(** With nothing pending and the application silent, only the clock moves. *)
Lemma quiet_run s es :
  pending s = [] → debugLongCalls (tuningParameters s) = false →
  ∃ k, run (filter passive es) s = set_clock k s.
Proof.
  intros Hp Hd.
  assert (∀ es k, ∃ k', run (filter passive es) (set_clock k s) = set_clock k' s) as H.
  { clear es. induction es as [|e es IH]; intros k; [by exists k|].
    destruct e as [dt|a|hc|i r|]; rewrite filter_cons; simpl; try apply IH.
    - destruct (0 <=? dt); simpl; apply IH.
    - rewrite Hp. simpl. apply IH.
    - rewrite Hd. simpl. apply IH. }
  destruct (H es (clock s)) as [k' Hk']. exists k'. rewrite <- Hk'.
  f_equal. by destruct s.
Qed.

Lemma quiet_forever s :
  pending s = [] → debugLongCalls (tuningParameters s) = false →
  ∀ es, trace (run (filter passive es) s) = trace s
        ∧ contextMap (run (filter passive es) s) = contextMap s.
Proof. intros Hp Hd es. destruct (quiet_run s es Hp Hd) as [k ->]. done. Qed.

(** C2: the wait of 2000 ms on queue A expires and the callback of A gets
    its one [MQRC_NO_MSG_AVAILABLE] error, ten seconds after the wait began;
    the timer that [pollHobjs] left has run.  [scheduledGetLoop] is still
    set and [getLoop] still holds the first timer, so the [Get] for queue B
    that follows schedules nothing: whatever time passes, the callback of B
    is never invoked and B stays registered. *)
Theorem C2_get_after_expiry_is_never_polled :
  let s := run timerAfterExpiry loaded in
  let s' := apiCall (ApiGet queueB MQMD_new gmo2000 8%nat) s in
  trace s =
    [ObsCall (mkInv 7%nat (Some 0%nat)
                (Some (mkError MQC.MQCC_FAILED MQC.MQRC_NO_MSG_AVAILABLE "GET"))
                (Some queueA) None None None 10000 ["1/1"%string] false (Some 0));
     ObsPick 0%nat]
  ∧ contextMap s = [] ∧ pending s = []
  ∧ scheduledGetLoop s = true ∧ getLoop s = Some 0
  ∧ contextMap s' = [("1/2"%string, 1%nat)]
  ∧ ctx_WaitInterval (store s' 1%nat) = 2000
  ∧ pending s' = []
  ∧ ∀ es, trace (run (filter passive es) s') = trace s'
          ∧ contextMap (run (filter passive es) s') = contextMap s'.
Proof.
  cbv zeta. do 8 (split; [vm_compute; reflexivity|]).
  apply quiet_forever; vm_compute; reflexivity.
Qed.

(** C4: a message of 100 bytes is delivered into the buffer of 20480 bytes
    that a truncation had made: [c.bufSize] becomes 18432, but the buffer
    is kept, and the attempt that follows passes all 20480 bytes to
    [MQGET]. *)
Theorem C4_buffer_is_not_shrunk :
  let s := run grownThenDelivered loaded in
  let s' := run attemptAfterDelivery loaded in
  bufSize (store s 0%nat) = 18432
  ∧ buf (store s 0%nat) = Some 20480
  ∧ bufSize (store s' 0%nat) = 18432
  ∧ buf (store s' 0%nat) = Some 20480
  ∧ map (fun p => match snd p with
                  | JMQGET c _ _ call => Some (c, call_bufflen call)
                  | _ => None
                  end) (pending s') = [Some (0%nat, 20480)].
Proof. cbv zeta. split_and!; vm_compute; reflexivity. Qed.

(** C3: the first [MQGET] on queue A, into 10240 bytes, is truncated and
    the retry passes 20480 bytes.  Seven messages of 100 bytes are then
    delivered into that buffer; [c.bufSize] is back at 10240 and the buffer
    is kept.  The next [MQGET], into the 20480 bytes, ends with
    [MQRC_TRUNCATED_MSG_FAILED]: [c.bufSize] is doubled to 20480, the retry
    is scheduled at once and nothing is passed to the callback, but the
    retry passes the same 20480 bytes, not the double of what the truncated
    attempt had: [pollHObjInternal] replaces the buffer only when it is
    shorter than [c.bufSize].  Only the second truncation by the same
    message brings a longer buffer. *)
Theorem C3_retry_after_truncation_reuses_buffer :
  let s := run shrunkInFlight loaded in
  let s' := run truncatedAgain loaded in
  let s'' := run retryAfterTruncation loaded in
  buffers_in_flight (run firstAttempt loaded) = [(0%nat, 10240)]
  ∧ buffers_in_flight (run grownInFlight loaded) = [(0%nat, 20480)]
  ∧ bufSize (store s 0%nat) = 10240
  ∧ buffers_in_flight s = [(0%nat, 20480)]
  ∧ bufSize (store s' 0%nat) = 20480
  ∧ pending s' = [(clock s + 0, JPollHObjInternal 0%nat MQMD_new gmoUnlimited)]
  ∧ trace s' = trace s
  ∧ bufSize (store s'' 0%nat) = 20480
  ∧ buffers_in_flight s'' = [(0%nat, 20480)]
  ∧ buffers_in_flight (run secondRetry loaded) = [(0%nat, 40960)].
Proof. cbv zeta. split_and!; vm_compute; reflexivity. Qed.

(** A cancelled context that holds the polling loop keeps it. *)
Lemma stuck_step c m tr e s s' :
  Map_size m <= 1 → idle e = true → step e s = Some s' →
  stuck c m tr s → stuck c m tr s'.
Proof.
  intros Hm He Hs (Hcm & Htr & Hdl & Hw & Hp).
  destruct e as [dt|a|hc|i r|]; simpl in He, Hs; try done.
  - case_match; simplify_eq. done.
  - destruct (pending s !! i) as [[d j]|] eqn:Hi; [|done].
    case_match; simplify_eq.
    destruct Hp as [(d0 & md & g & Hp)|(d0 & md & g & call & Hp)];
      rewrite Hp in Hi; destruct i as [|i]; simpl in Hi; simplify_eq; rewrite Hp; simpl.
    + set (u := set_pending [] s).
      pose proof (pollHObjInternal_registry c md g u) as Er.
      unfold registry in Er. injection Er as _ Et _ Ecm _.
      destruct (pollHObjInternal_counters c md g u c) as [_ Etr].
      pose proof (pollHObjInternal_core c md g u c) as Ec.
      unfold ctx_core in Ec. injection Ec as _ _ Ewi _ _ _ _.
      unfold stuck. split; [exact Ecm|]. split; [by rewrite Etr|].
      split; [by rewrite Et|]. split; [by rewrite Ewi|].
      destruct (isLocked (hConnOf (object (store u c))) u) eqn:El.
      * left. rewrite (pollHObjInternal_locked c md g u El). by eexists _, _, _.
      * right. rewrite (pollHObjInternal_free c md g u El). cbv zeta.
        unfold callAsync, setTimeout. st.
        pose proof (resizeBuffer_but_store c (lock (hConnOf (object (store u c))) u)) as Eb.
        unfold but_store in Eb. injection Eb as _ _ _ _ _ _ _ _ _ Epe _ _.
        rewrite Epe. simpl. by eexists _, _, _, _.
    + apply andb_true_iff in He as [Hcc Hrc].
      apply negb_true_iff, Z.eqb_neq in Hcc. apply Z.eqb_eq in Hrc.
      set (u := set_pending [] s).
      assert (waitExpired c u = false) as Hwe.
      { unfold waitExpired. change (store u c) with (store s c). by rewrite Hw. }
      rewrite (mqgetCallback_no_message c r u Hcc Hrc Hwe). unfold onNoMessage.
      change (contextMap (unlock (hConnOf (object (store u c))) u)) with (contextMap s).
      rewrite (proj2 (Z.leb_le _ _) Hm). unfold setTimeout.
      split_and!; try done. left. by eexists _, _, _.
  - rewrite Hdl in Hs. done.
Qed.

Lemma stuck_run c m tr es s :
  Map_size m <= 1 → stuck c m tr s → stuck c m tr (run (filter idle es) s).
Proof.
  intros Hm. revert s. induction es as [|e es IH]; intros s Hst; [done|].
  rewrite filter_cons. destruct (decide (idle e)) as [He|He]; [|by apply IH].
  apply Is_true_true in He. simpl. apply IH. destruct (step e s) as [s'|] eqn:Hs; [|done].
  simpl. by eapply stuck_step.
Qed.

(** C6: [GetDone] removed the context of queue A while its [MQGET] was in
    flight, and queue B of the same connection has been registered since.
    The call completes with no message: the registry holds one context, so
    the callback defers the next attempt for A by [getLoopPollTimeMs]
    although A is not outstanding and B is; [pollHobjs] is not reached.
    However long the queue of A stays empty, B is never picked and the
    cancelled context keeps the polling loop of the connection. *)
Theorem C6_cancelled_context_self_delays :
  let s := run cancelledInFlight loaded in
  let s' := run [Run 0 (noMessage gmoUnlimited)] s in
  contextMap s = [("1/2"%string, 1%nat)]
  ∧ getUserContext (Some queueA) s = None
  ∧ getUserContext (Some queueB) s = Some 1%nat
  ∧ map (fun p => job_ctx (snd p)) (pending s) = [Some 0%nat]
  ∧ pending s' = [(clock s + getLoopPollTimeMs (tuningParameters s),
                   JPollHObjInternal 0%nat MQMD_new gmoUnlimited)]
  ∧ trace s' = [ObsPick 0%nat]
  ∧ pending (run (idleRound ++ idleRound ++ idleRound) s')
    = [(40000, JPollHObjInternal 0%nat MQMD_new gmoUnlimited)]
  ∧ ∀ es, let u := run (filter idle es) s in
      contextMap u = [("1/2"%string, 1%nat)]
      ∧ trace u = [ObsPick 0%nat]
      ∧ ((∃ d md g, pending u = [(d, JPollHObjInternal 0%nat md g)])
         ∨ (∃ d md g call, pending u = [(d, JMQGET 0%nat md g call)])).
Proof.
  cbv zeta. do 7 (split; [vm_compute; reflexivity|]). intros es.
  assert (stuck 0%nat [("1/2"%string, 1%nat)] [ObsPick 0%nat]
            (run cancelledInFlight loaded)) as Hst.
  { unfold stuck. split_and!; try (vm_compute; reflexivity).
    right. vm_compute. by eexists _, _, _, _. }
  assert (Map_size [("1/2"%string, 1%nat)] <= 1) as Hm by (unfold Map_size; simpl; lia).
  destruct (stuck_run 0%nat _ _ es _ Hm Hst) as (H1 & H2 & _ & _ & H5).
  done.
Qed.

(** C8: the wait on queue A expires and the callback removes the last
    context without resetting the loop: a [pollPerHconn] timer is left,
    [scheduledGetLoop] is set and [getLoop] is not [null].  The timer runs
    and finds nothing; a [Get] for a queue of another connection then
    leaves nothing pending, so the new context is never picked.  After
    [GetDone] on the same queue the loop is reset and [Get] schedules
    [pollAllHConns]. *)
Theorem C8_expiry_leaves_loop_armed :
  let s1 := run waitExpires loaded in
  let s2 := run timerAfterExpiry loaded in
  let s3 := apiCall (ApiGet queueC MQMD_new gmoUnlimited 9%nat) s2 in
  let d := apiCall (ApiGetDone (Some queueA) None) (run firstAttempt loaded) in
  contextMap s1 = []
  ∧ pending s1 = [(20000, JPollPerHconn 1)]
  ∧ scheduledGetLoop s1 = true ∧ getLoop s1 = Some 0
  ∧ pending s2 = [] ∧ scheduledGetLoop s2 = true ∧ getLoop s2 = Some 0
  ∧ contextMap s3 = [("2/1"%string, 1%nat)] ∧ pending s3 = []
  ∧ contextMap d = [] ∧ scheduledGetLoop d = false ∧ getLoop d = None
  ∧ resetGetLoop (resetGetLoop d) = resetGetLoop d
  ∧ map snd (pending (apiCall (ApiGet queueC MQMD_new gmoUnlimited 9%nat) d))
    = map snd (pending d) ++ [JPollAllHConns].
Proof. cbv zeta. split_and!; vm_compute; reflexivity. Qed.

(** * Further properties of the executor and of the exported calls *)

(** X2: the buffer an attempt passes to [MQGET] is never shorter than the
    buffer the context already has: [c.buf] is replaced only by a longer
    one, so its length is the larger of the old length and [c.bufSize]. *)
Theorem attempt_buffer_not_shorter (c : CtxRef) (md : MQMD) (gmo : MQGMO) (s : State) (len : Z) :
  buf (store s c) = Some len →
  isLocked (hConnOf (object (store s c))) s = false →
  let s' := pollHObjInternal c md gmo s in
  buf (store s' c) = Some (Z.max len (bufSize (store s c)))
  ∧ bufSize (store s' c) = bufSize (store s c)
  ∧ ∃ call, pending s' = pending s ++ [(clock s, JMQGET c md gmo call)]
            ∧ call_bufflen call = Z.max len (bufSize (store s c))
            ∧ len ≤ call_bufflen call.
Proof.
  intros Hb Hl. cbv zeta. rewrite (pollHObjInternal_free c md gmo s Hl). cbv zeta.
  destruct (mqgetCall_spec c gmo s) as (_ & _ & _ & _ & E). cbv zeta in E.
  pose proof (resizeBuffer_buf c (lock (hConnOf (object (store s c))) s)) as Eb.
  destruct (resizeBuffer_core c (lock (hConnOf (object (store s c))) s) c) as (Ec & _ & _).
  pose proof (resizeBuffer_but_store c (lock (hConnOf (object (store s c))) s)) as Ebs.
  revert E Eb Ec Ebs. generalize (resizeBuffer c (lock (hConnOf (object (store s c))) s)).
  intros s1 E Eb Ec Ebs. unfold callAsync, setTimeout. st.
  unfold next_bufflen in *. simpl in Eb. rewrite Hb in *.
  split; [exact Eb|]. split.
  - unfold ctx_core in Ec. by injection Ec as _ _ _ _ _ _ ->.
  - exists (mqgetCall c gmo s1). split; [|split; [exact E|rewrite E; lia]].
    unfold but_store in Ebs. simpl in Ebs. by injection Ebs as -> _ _ _ _ _ _ _ _ -> _ _.
Qed.

Lemma attempt_buffer_not_shorter_witness :
  buf (store (run grownThenDelivered loaded) 0%nat) = Some 20480
  ∧ isLocked (hConnOf (object (store (run grownThenDelivered loaded) 0%nat)))
      (run grownThenDelivered loaded) = false
  ∧ bufSize (store (run grownThenDelivered loaded) 0%nat) = 18432
  ∧ buf (store (pollHObjInternal 0%nat MQMD_new gmoUnlimited
                  (run grownThenDelivered loaded)) 0%nat)
    = Some (Z.max 20480 (bufSize (store (run grownThenDelivered loaded) 0%nat))).
Proof.
  assert (buf (store (run grownThenDelivered loaded) 0%nat) = Some 20480) as H1
    by (vm_compute; reflexivity).
  assert (isLocked (hConnOf (object (store (run grownThenDelivered loaded) 0%nat)))
            (run grownThenDelivered loaded) = false) as H2 by (vm_compute; reflexivity).
  split; [exact H1|]. split; [exact H2|]. split; [vm_compute; reflexivity|].
  exact (proj1 (attempt_buffer_not_shorter 0%nat MQMD_new gmoUnlimited
                  (run grownThenDelivered loaded) 20480 H1 H2)).
Defined.

Lemma bufSize_after_delivery_witness :
  r_cc (message gmoUnlimited gmoUnlimited 100) = MQC.MQCC_OK
  ∧ (0 < nextRef (run grownInFlight loaded))%nat
  ∧ bufSize (store (run grownInFlight loaded) 0%nat) = 20480
  ∧ bufSize (store (mqgetCallback 0%nat (message gmoUnlimited gmoUnlimited 100)
                      (run grownInFlight loaded)) 0%nat)
    = Z.max defaultBufSize (bufSize (store (run grownInFlight loaded) 0%nat) * 90 / 100).
Proof.
  assert (r_cc (message gmoUnlimited gmoUnlimited 100) = MQC.MQCC_OK) as H1 by reflexivity.
  assert ((0 < nextRef (run grownInFlight loaded))%nat) as H2 by (vm_compute; lia).
  split; [exact H1|]. split; [exact H2|]. split; [vm_compute; reflexivity|].
  apply (proj1 (bufSize_after_delivery 0%nat (message gmoUnlimited gmoUnlimited 100)
                  (run grownInFlight loaded) H1 H2)).
  vm_compute. split; reflexivity.
Defined.

(** In a registry without repeated key, at most one entry means that every
    entry is the given one. *)
Lemma Map_size_alone (m : list (string * CtxRef)) k c :
  NoDup (Map_keys m) → (k, c) ∈ m →
  (∀ k' c', (k', c') ∈ m → k' = k) →
  Map_size m <= 1.
Proof.
  unfold Map_size, Map_keys. intros Hnd Hin Hall.
  destruct m as [|[k1 c1] [|[k2 c2] m]]; simpl; try lia.
  exfalso. simpl in Hnd. apply list.NoDup_cons in Hnd as [Hn _]. apply Hn.
  rewrite (Hall k1 c1) by by left. rewrite (Hall k2 c2) by (right; by left). by left.
Qed.

(** X3: for a context that is still registered, an attempt that finds no
    message before the wait has expired defers the next attempt for the
    same context by [getLoopPollTimeMs] when no other context is
    registered, and goes back to [pollHobjs] of the connection when one
    is. *)
Theorem registered_context_self_delays_iff_alone
    (t : TuningParameters) (s : State) (k : string) (c : CtxRef) (r : Completion) :
  reachable t s → (k, c) ∈ contextMap s →
  r_cc r ≠ MQC.MQCC_OK → r_rc r = MQC.MQRC_NO_MSG_AVAILABLE →
  waitExpired c s = false →
  let s1 := unlock (connOf s c) s in
  let alone := ∀ k' c', (k', c') ∈ contextMap s → c' = c in
  (alone →
     mqgetCallback c r s
     = setTimeout (JPollHObjInternal c (r_md r) (r_gmo r))
         (getLoopPollTimeMs (tuningParameters s)) s1)
  ∧ (¬ alone → mqgetCallback c r s = pollHobjs (connOf s c) s1).
Proof.
  intros Hr Hin Hcc Hrc Hw. cbv zeta.
  pose proof (Inv_reachable t s Hr) as HI.
  pose proof (pre_keys_nodup _ _ HI) as Hnd. pose proof (pre_keys _ _ HI) as Hk.
  rewrite (mqgetCallback_no_message c r s Hcc Hrc Hw). fold (connOf s c).
  unfold onNoMessage.
  change (contextMap (unlock (connOf s c) s)) with (contextMap s).
  split.
  - intros Hal. rewrite (proj2 (Z.leb_le _ _)); [done|].
    apply (Map_size_alone _ k c Hnd Hin). intros k' c' Hin'.
    rewrite (Hal k' c' Hin') in Hin'.
    pose proof (Hk _ _ Hin). pose proof (Hk _ _ Hin'). congruence.
  - intros Hnal. destruct (Map_size (contextMap s) <=? 1) eqn:E; [|done].
    exfalso. apply Hnal. intros k' c' Hin'. apply Z.leb_le in E.
    unfold Map_size in E. destruct (contextMap s) as [|p [|q m]]; simpl in E.
    + by apply elem_of_nil in Hin.
    + apply list_elem_of_singleton in Hin, Hin'. congruence.
    + lia.
Qed.

Lemma registered_context_self_delays_iff_alone_witness :
  reachable tuningDefault (run firstAttempt loaded)
  ∧ ("1/1"%string, 0%nat) ∈ contextMap (run firstAttempt loaded)
  ∧ r_cc (noMessage gmoUnlimited) ≠ MQC.MQCC_OK
  ∧ r_rc (noMessage gmoUnlimited) = MQC.MQRC_NO_MSG_AVAILABLE
  ∧ waitExpired 0%nat (run firstAttempt loaded) = false
  ∧ ((∀ k' c', (k', c') ∈ contextMap (run firstAttempt loaded) → c' = 0%nat) →
     mqgetCallback 0%nat (noMessage gmoUnlimited) (run firstAttempt loaded)
     = setTimeout (JPollHObjInternal 0%nat MQMD_new gmoUnlimited)
         (getLoopPollTimeMs (tuningParameters (run firstAttempt loaded)))
         (unlock (connOf (run firstAttempt loaded) 0%nat) (run firstAttempt loaded))).
Proof.
  assert (("1/1"%string, 0%nat) ∈ contextMap (run firstAttempt loaded)) as H2
    by (vm_compute; left).
  assert (r_cc (noMessage gmoUnlimited) ≠ MQC.MQCC_OK) as H3 by (vm_compute; discriminate).
  assert (r_rc (noMessage gmoUnlimited) = MQC.MQRC_NO_MSG_AVAILABLE) as H4 by reflexivity.
  assert (waitExpired 0%nat (run firstAttempt loaded) = false) as H5
    by (vm_compute; reflexivity).
  split; [apply reachable_loaded|]. split; [exact H2|]. split; [exact H3|].
  split; [exact H4|]. split; [exact H5|].
  exact (proj1 (registered_context_self_delays_iff_alone tuningDefault
                  (run firstAttempt loaded) "1/1" 0%nat (noMessage gmoUnlimited)
                  (reachable_loaded firstAttempt) H2 H3 H4 H5)).
Defined.

(** X4: with an unlimited wait an attempt that finds no message never
    invokes the callback and never changes the registry. *)
Theorem unlimited_wait_never_expires (c : CtxRef) (r : Completion) (s : State) :
  ctx_WaitInterval (store s c) = MQC.MQWI_UNLIMITED →
  r_cc r ≠ MQC.MQCC_OK → r_rc r = MQC.MQRC_NO_MSG_AVAILABLE →
  let s' := mqgetCallback c r s in
  contextMap s' = contextMap s
  ∧ (trace s' = trace s ∨ ∃ c', trace s' = ObsPick c' :: trace s).
Proof.
  intros Hu Hcc Hrc. cbv zeta.
  assert (waitExpired c s = false) as Hw by (unfold waitExpired; by rewrite Hu).
  rewrite (mqgetCallback_no_message c r s Hcc Hrc Hw). unfold onNoMessage.
  case_match; [by split; [|left]|].
  split.
  - pose proof (pollHobjs_registry (hConnOf (object (store s c)))
                  (unlock (hConnOf (object (store s c))) s)) as E.
    unfold registry in E. by injection E as _ _ _ -> _.
  - destruct (pollHobjs_pick (hConnOf (object (store s c)))
                (unlock (hConnOf (object (store s c))) s)) as [E|(c' & E & _)];
      cbv zeta in E; rewrite E; [by left|right; by exists c'].
Qed.

Lemma unlimited_wait_never_expires_witness :
  ctx_WaitInterval (store (run firstAttempt loaded) 0%nat) = MQC.MQWI_UNLIMITED
  ∧ r_cc (noMessage gmoUnlimited) ≠ MQC.MQCC_OK
  ∧ r_rc (noMessage gmoUnlimited) = MQC.MQRC_NO_MSG_AVAILABLE
  ∧ contextMap (mqgetCallback 0%nat (noMessage gmoUnlimited) (run firstAttempt loaded))
    = contextMap (run firstAttempt loaded).
Proof.
  assert (ctx_WaitInterval (store (run firstAttempt loaded) 0%nat) = MQC.MQWI_UNLIMITED)
    as H1 by (vm_compute; reflexivity).
  assert (r_cc (noMessage gmoUnlimited) ≠ MQC.MQCC_OK) as H2 by (vm_compute; discriminate).
  assert (r_rc (noMessage gmoUnlimited) = MQC.MQRC_NO_MSG_AVAILABLE) as H3 by reflexivity.
  split; [exact H1|]. split; [exact H2|]. split; [exact H3|].
  exact (proj1 (unlimited_wait_never_expires 0%nat (noMessage gmoUnlimited)
                  (run firstAttempt loaded) H1 H2 H3)).
Defined.

(** X5: when [GetDone] removes the last context it resets the loop, so the
    next [Get] schedules [pollAllHConns] at once; [resetGetLoop] changes
    nothing when the loop is already reset. *)
Theorem GetDone_last_context_resets_loop
    (o : option MQObject) (f : option CbId) (s s' : State) :
  GetDone o f s = inr s' → contextMap s' = [] →
  scheduledGetLoop s' = false ∧ getLoop s' = None
  ∧ resetGetLoop s' = s'
  ∧ resetGetLoop (resetGetLoop s) = resetGetLoop s
  ∧ ∀ o' md gmo f',
      pending (Get o' md gmo f' s') = pending s' ++ [(clock s' + 0, JPollAllHConns)]
      ∧ scheduledGetLoop (Get o' md gmo f' s') = true
      ∧ getLoop (Get o' md gmo f' s') = Some (clock s' + 0).
Proof.
  intros Hgd Hnil.
  assert (scheduledGetLoop s' = false ∧ getLoop s' = None) as [H1 H2].
  { unfold GetDone in Hgd. destruct (getUserContext o s); [|done].
    injection Hgd as <-. cbv zeta in *.
    assert (∀ u, contextMap match f with
                  | Some g => observe (ObsCall (invocation g None None None None None None u)) u
                  | None => u end = contextMap u) as Ef by (intros u; by destruct f).
    rewrite Ef in Hnil.
    destruct (Map_size (contextMap (deleteUserContext o s)) =? 0) eqn:E.
    - by destruct f.
    - exfalso. assert (contextMap (deleteUserContext o s) = []) as E0 by exact Hnil.
      rewrite E0 in E. done. }
  split; [done|]. split; [done|]. split.
  { unfold resetGetLoop. destruct s'. simpl in *. by subst. }
  split; [done|].
  intros o' md gmo f'. unfold Get. rewrite setUserContext_eq. cbv zeta beta iota.
  unfold setTimeout.
  destruct (getLoopPollTimeMs _ <? _); st; rewrite H1; simpl; st; done.
Qed.

Lemma GetDone_last_context_resets_loop_witness :
  GetDone (Some queueA) None (run firstAttempt loaded)
  = inr (apiCall (ApiGetDone (Some queueA) None) (run firstAttempt loaded))
  ∧ contextMap (apiCall (ApiGetDone (Some queueA) None) (run firstAttempt loaded)) = []
  ∧ scheduledGetLoop (apiCall (ApiGetDone (Some queueA) None) (run firstAttempt loaded))
    = false.
Proof.
  assert (GetDone (Some queueA) None (run firstAttempt loaded)
          = inr (apiCall (ApiGetDone (Some queueA) None) (run firstAttempt loaded))) as H1
    by (vm_compute; reflexivity).
  assert (contextMap (apiCall (ApiGetDone (Some queueA) None) (run firstAttempt loaded))
          = []) as H2 by (vm_compute; reflexivity).
  split; [exact H1|]. split; [exact H2|].
  exact (proj1 (GetDone_last_context_resets_loop (Some queueA) None
                  (run firstAttempt loaded) _ H1 H2)).
Defined.

(** X6: an attempt that finds no message reports it to the callback only
    when the wait is limited and at least [c.WaitInterval] milliseconds have
    passed since [c.WaitStartTime]; the callback (which makes no call here)
    is then invoked once, with the [MQError] of the call, and the key of
    the context is no longer registered when the callback of [MQGET]
    returns. *)
Theorem expired_wait_reports_and_removes (c : CtxRef) (r : Completion) (s : State) :
  r_cc r ≠ MQC.MQCC_OK → r_rc r = MQC.MQRC_NO_MSG_AVAILABLE →
  waitExpired c s = true → h_calls r = [] →
  let s' := mqgetCallback c r s in
  let i := mkInv (cb (store s c)) (Some c)
             (Some (mkError (r_cc r) MQC.MQRC_NO_MSG_AVAILABLE "GET"))
             (Some (object (store s c))) None None None (clock s)
             (Map_keys (contextMap s)) (scheduledGetLoop s) (getLoop s) in
  ctx_WaitInterval (store s c) ≠ MQC.MQWI_UNLIMITED
  ∧ ctx_WaitInterval (store s c) ≤ clock s - WaitStartTime (store s c)
  ∧ getUserContext (Some (object (store s c))) s' = None
  ∧ (trace s' = ObsCall i :: trace s
     ∨ ∃ c', trace s' = ObsPick c' :: ObsCall i :: trace s).
Proof.
  intros Hcc Hrc Hw Hcalls. cbv zeta.
  assert (ctx_WaitInterval (store s c) ≠ MQC.MQWI_UNLIMITED
          ∧ ctx_WaitInterval (store s c) ≤ clock s - WaitStartTime (store s c)) as [H1 H2].
  { unfold waitExpired in Hw.
    destruct (ctx_WaitInterval (store s c) =? MQC.MQWI_UNLIMITED) eqn:E1; [done|].
    destruct (clock s - WaitStartTime (store s c) <? ctx_WaitInterval (store s c)) eqn:E2;
      [done|].
    apply Z.eqb_neq in E1. apply Z.ltb_ge in E2. done. }
  split; [done|]. split; [done|].
  rewrite mqgetCallback_failure; [|done| |by right].
  2:{ rewrite Hrc. done. }
  unfold onFailure. cbv zeta. rewrite Hcalls, Hrc. unfold invoke. simpl.
  set (hc := hConnOf (object (store s c))).
  set (u := deleteUserContext _ _).
  assert (getUserContext (Some (object (store s c))) u = None) as Hg.
  { subst u. st. apply Map_get_delete_eq. }
  assert (trace u = ObsCall (mkInv (cb (store s c)) (Some c)
             (Some (mkError (r_cc r) MQC.MQRC_NO_MSG_AVAILABLE "GET"))
             (Some (object (store s c))) None None None (clock s)
             (Map_keys (contextMap s)) (scheduledGetLoop s) (getLoop s)) :: trace s) as Ht.
  { subst u. unfold deleteUserContext, invocation, observe. by st. }
  split.
  - pose proof (pollHobjs_registry hc u) as E. unfold registry in E.
    injection E as _ _ _ E _. unfold getUserContext in *. by rewrite E.
  - destruct (pollHobjs_pick hc u) as [E|(c' & E & _)]; cbv zeta in E; rewrite E, Ht;
      [by left|right; by exists c'].
Qed.

Lemma expired_wait_reports_and_removes_witness :
  r_cc (noMessage gmo2000) ≠ MQC.MQCC_OK
  ∧ r_rc (noMessage gmo2000) = MQC.MQRC_NO_MSG_AVAILABLE
  ∧ waitExpired 0%nat (run expiredInFlight loaded) = true
  ∧ h_calls (noMessage gmo2000) = []
  ∧ ctx_WaitInterval (store (run expiredInFlight loaded) 0%nat) ≠ MQC.MQWI_UNLIMITED.
Proof.
  assert (r_cc (noMessage gmo2000) ≠ MQC.MQCC_OK) as H1 by (vm_compute; discriminate).
  assert (r_rc (noMessage gmo2000) = MQC.MQRC_NO_MSG_AVAILABLE) as H2 by reflexivity.
  assert (waitExpired 0%nat (run expiredInFlight loaded) = true) as H3
    by (vm_compute; reflexivity).
  assert (h_calls (noMessage gmo2000) = []) as H4 by reflexivity.
  split; [exact H1|]. split; [exact H2|]. split; [exact H3|]. split; [exact H4|].
  exact (proj1 (expired_wait_reports_and_removes 0%nat (noMessage gmo2000)
                  (run expiredInFlight loaded) H1 H2 H3 H4)).
Defined.

(** * The fairness picker *)

Lemma shuffle_from_length {A} i rs (l : list A) :
  length (fst (shuffle_from i rs l)) = length l.
Proof. by rewrite shuffle_from_Permutation. Qed.

Lemma shuffle_from_entropy {A} i rs (l : list A) :
  snd (shuffle_from i rs l) = drop i rs.
Proof.
  revert rs l. induction i as [|i IH]; intros rs l; simpl; [by rewrite drop_0|].
  rewrite IH. destruct rs; simpl; [by rewrite drop_nil|done].
Qed.

Lemma front_entropy_above i k k' :
  (i < k)%nat → (i < k' ∨ k' = 0)%nat → front_entropy i k = front_entropy i k'.
Proof.
  induction i as [|i IH]; intros Hk Hk'; simpl; [done|].
  rewrite IH by lia. f_equal. repeat case_decide; lia.
Qed.

Lemma shuffle_from_S {A} i v rs (l : list A) :
  shuffle_from (S i) (v :: rs) l = shuffle_from i rs (swap l (S i) (v mod (S i + 1))%nat).
Proof. reflexivity. Qed.

Lemma shuffle_from_front {A} i k (l : list A) x :
  l !! k = Some x → (k ≤ i)%nat → (i < length l)%nat →
  head (fst (shuffle_from i (front_entropy i k) l)) = Some x.
Proof.
  revert k l. induction i as [|i IH]; intros k l Hk Hki Hil.
  - assert (k = 0%nat) as -> by lia. simpl. by rewrite head_lookup.
  - change (front_entropy (S i) k)
      with ((if decide (S i = k) then 0%nat else S i) :: front_entropy i k).
    rewrite shuffle_from_S.
    destruct (decide (S i = k)) as [<-|Hne].
    + rewrite Nat.Div0.mod_0_l. unfold swap. rewrite Hk.
      destruct (l !! 0%nat) as [y|] eqn:H0.
      2:{ apply lookup_ge_None in H0. lia. }
      rewrite (front_entropy_above i (S i) 0) by lia.
      apply IH; [|lia|by rewrite !length_insert; lia].
      apply list_lookup_insert_eq. rewrite length_insert. lia.
    + rewrite Nat.mod_small by lia. unfold swap.
      destruct (l !! S i) as [y|] eqn:Hi.
      2:{ apply lookup_ge_None in Hi. lia. }
      apply IH; [|lia|by rewrite !length_insert; lia].
      rewrite !list_lookup_insert_ne by lia. done.
Qed.

(** X7: [shuffle] returns a permutation of the array, of the same length,
    and takes one random number for each position but the first; for every
    element of the array there are random numbers that bring it to the
    front, where [pollHobjs] picks. *)
Theorem shuffle_permutes_and_can_front {A} (rs : list nat) (l : list A) :
  fst (shuffle rs l) ≡ₚ l
  ∧ length (fst (shuffle rs l)) = length l
  ∧ snd (shuffle rs l) = drop (length l - 1) rs
  ∧ ∀ x, x ∈ l → ∃ rs', head (fst (shuffle rs' l)) = Some x.
Proof.
  split; [apply shuffle_Permutation|]. split; [apply shuffle_from_length|].
  split; [apply shuffle_from_entropy|].
  intros x Hx. apply list_elem_of_lookup in Hx as [k Hk].
  pose proof (lookup_lt_Some _ _ _ Hk) as Hlt.
  exists (front_entropy (length l - 1) k). unfold shuffle.
  apply shuffle_from_front; [done|lia|lia].
Qed.

Lemma js_uniq_elem_of_iff l x : x ∈ js_uniq l ↔ x ∈ l.
Proof.
  split; [apply js_uniq_elem_of|].
  induction l as [|y l IH]; simpl; [done|].
  intros [->|Hin]%elem_of_cons; [by left|].
  destruct (decide (x = y)) as [->|Hne]; [by left|].
  right. apply list_elem_of_filter. split; [done|by apply IH].
Qed.

Lemma elem_of_getFreshHconnsForPoll s h :
  h ∈ getFreshHconnsForPoll s ↔
  ((∃ k c, (k, c) ∈ contextMap s ∧ hConnOf (object (store s c)) = h)
   ∧ h ∉ hConnsInPoll s).
Proof.
  unfold getFreshHconnsForPoll. cbv zeta.
  rewrite list_elem_of_filter, js_uniq_elem_of_iff.
  change (map ?f ?l) with (f <$> l). unfold Map_values.
  change (map snd (contextMap s)) with (snd <$> contextMap s).
  rewrite list_elem_of_fmap. setoid_rewrite list_elem_of_fmap.
  split.
  - intros [Hn (c & -> & ([k c'] & -> & Hin))]. split; [|done]. by exists k, c'.
  - intros [(k & c & Hin & <-) Hn]. split; [done|]. exists c. split; [done|].
    by exists (k, c).
Qed.

(** X8: [getFreshHconnsForPoll] returns, without repetition, exactly the
    connection handles of the registered contexts that are not in
    [hConnsInPoll]. *)
Theorem getFreshHconnsForPoll_exact (s : State) :
  NoDup (getFreshHconnsForPoll s)
  ∧ ∀ h, h ∈ getFreshHconnsForPoll s ↔
         ((∃ k c, (k, c) ∈ contextMap s ∧ hConnOf (object (store s c)) = h)
          ∧ h ∉ hConnsInPoll s).
Proof.
  split; [apply getFreshHconnsForPoll_spec|apply elem_of_getFreshHconnsForPoll].
Qed.

(** What the picker leaves alone: the registry and the objects of the
    contexts. *)
Lemma reset_all_frame l s :
  let s' := foldl (fun s c => upd_ctx c (fun x => ctx_set_retrieved 0 (ctx_set_state running x)) s)
                  s l in
  contextMap s' = contextMap s ∧ hConnsInPoll s' = hConnsInPoll s
  ∧ ∀ c, ctx_core (store s' c) = ctx_core (store s c).
Proof.
  cbv zeta. revert s. induction l as [|c l IH]; intros s; simpl; [done|].
  destruct (IH (upd_ctx c (fun x => ctx_set_retrieved 0 (ctx_set_state running x)) s))
    as (E1 & E2 & E3).
  rewrite E1, E2. split; [by st|]. split; [by st|].
  intros c'. rewrite E3. store_cases.
Qed.

Lemma pollPerHconn_frame h s :
  contextMap (pollPerHconn h s) = contextMap s
  ∧ (∀ c, ctx_core (store (pollPerHconn h s) c) = ctx_core (store s c))
  ∧ hConnsInPoll s ∖ {[h]} ⊆ hConnsInPoll (pollPerHconn h s)
  ∧ (getAllContextsForPoll h s ≠ [] → h ≠ -1 →
     hConnsInPoll (pollPerHconn h s) = hConnsInPoll s).
Proof.
  unfold pollPerHconn. cbv zeta.
  change (getAllContextsForPoll h (set_messagesRetrievedInHConnPoll 0 s))
    with (getAllContextsForPoll h s).
  destruct ((length (getAllContextsForPoll h s) =? 0)%nat || (h =? -1)) eqn:E.
  - split; [done|]. split; [done|]. split; [done|]. intros Hne Hh.
    apply orb_true_iff in E as [E|E].
    + apply Nat.eqb_eq in E. by destruct (getAllContextsForPoll h s).
    + apply Z.eqb_eq in E. done.
  - destruct (reset_all_frame (getAllContextsForPoll h s)
                (set_messagesRetrievedInHConnPoll 0 s)) as (E1 & E2 & E3).
    cbv zeta in E1, E2, E3. revert E1 E2 E3.
    generalize (foldl (fun s c => upd_ctx c (fun x => ctx_set_retrieved 0 (ctx_set_state running x)) s)
                  (set_messagesRetrievedInHConnPoll 0 s) (getAllContextsForPoll h s)).
    intros u E1 E2 E3. pose proof (pollHobjs_registry h u) as Er.
    assert (contextMap (pollHobjs h u) = contextMap u) as Ecm
      by (unfold registry in Er; congruence).
    rewrite pollHobjs_hConnsInPoll, Ecm, E1, E2.
    split; [done|]. split; [|split; [by intros x [Hx _]%elem_of_difference|done]].
    intros c. by rewrite pollHobjs_core, E3.
Qed.

Lemma elem_of_all_contexts h s k c :
  (k, c) ∈ contextMap s → hConnOf (object (store s c)) = h →
  getAllContextsForPoll h s ≠ [].
Proof.
  intros Hin Hh Hnil.
  assert (c ∈ getAllContextsForPoll h s) as Hc.
  { apply elem_of_getAllContextsForPoll. split; [done|by exists k]. }
  rewrite Hnil in Hc. by apply elem_of_nil in Hc.
Qed.

Lemma object_of_core x y : ctx_core x = ctx_core y → object x = object y.
Proof. unfold ctx_core. by intros [= _ -> _ _ _ _ _]. Qed.

Lemma pollAllHConns_loop_frame l s :
  contextMap (foldl (fun s hConn =>
                 if negb (hConn =? -1) then
                   pollPerHconn hConn (set_hConnsInPoll ({[hConn]} ∪ hConnsInPoll s) s)
                 else set_hConnsInPoll (hConnsInPoll s ∖ {[hConn]}) s) s l)
  = contextMap s.
Proof.
  revert s. induction l as [|h l IH]; intros s; simpl; [done|].
  rewrite IH. destruct (h =? -1); simpl; [done|].
  by destruct (pollPerHconn_frame h (set_hConnsInPoll ({[h]} ∪ hConnsInPoll s) s)) as [-> _].
Qed.

Lemma pollAllHConns_loop_covers l s k c :
  let step := fun s hConn =>
    if negb (hConn =? -1) then
      pollPerHconn hConn (set_hConnsInPoll ({[hConn]} ∪ hConnsInPoll s) s)
    else set_hConnsInPoll (hConnsInPoll s ∖ {[hConn]}) s in
  let h := hConnOf (object (store s c)) in
  NoDup l → (k, c) ∈ contextMap s → h ≠ -1 →
  (∀ h', h' ∈ l → ∃ k' c', (k', c') ∈ contextMap s ∧ hConnOf (object (store s c')) = h') →
  h ∈ hConnsInPoll s ∨ h ∈ l →
  contextMap (foldl step s l) = contextMap s
  ∧ (∀ c', ctx_core (store (foldl step s l) c') = ctx_core (store s c'))
  ∧ h ∈ hConnsInPoll (foldl step s l).
Proof.
  cbv zeta. revert s. induction l as [|h' l IH]; intros s Hnd Hin Hh Hreg Hcov.
  - simpl. split; [done|]. split; [done|].
    destruct Hcov as [?|Hx]; [done|by apply elem_of_nil in Hx].
  - apply list.NoDup_cons in Hnd as [Hh' Hnd]. simpl.
    set (u := if negb (h' =? -1)
              then pollPerHconn h' (set_hConnsInPoll ({[h']} ∪ hConnsInPoll s) s)
              else set_hConnsInPoll (hConnsInPoll s ∖ {[h']}) s).
    assert (contextMap u = contextMap s
            ∧ (∀ c', ctx_core (store u c') = ctx_core (store s c'))
            ∧ (hConnOf (object (store s c)) ∈ hConnsInPoll s ∨ hConnOf (object (store s c)) = h' →
               hConnOf (object (store s c)) ∈ hConnsInPoll u)) as (Eu1 & Eu2 & Eu3).
    { subst u. destruct (h' =? -1) eqn:E; simpl.
      - apply Z.eqb_eq in E. subst h'. split; [done|]. split; [done|].
        intros [H1|H1]; [|done]. apply elem_of_difference. split; [done|].
        by intros Hx%elem_of_singleton.
      - apply Z.eqb_neq in E.
        set (v := set_hConnsInPoll ({[h']} ∪ hConnsInPoll s) s).
        destruct (pollPerHconn_frame h' v) as (F1 & F2 & F3 & F4).
        split; [done|]. split; [done|]. intros Hc.
        destruct (decide (hConnOf (object (store s c)) = h')) as [Heq|Hne].
        + rewrite F4; [| |done].
          * change (hConnsInPoll v) with ({[h']} ∪ hConnsInPoll s).
            apply elem_of_union. left. by apply elem_of_singleton.
          * destruct (Hreg h') as (k' & c' & Hin' & Hc'); [by left|].
            by apply (elem_of_all_contexts h' v k' c').
        + apply F3. change (hConnsInPoll v) with ({[h']} ∪ hConnsInPoll s).
          destruct Hc as [Hc|Hc]; [|done].
          apply elem_of_difference. split; [|by intros ?%elem_of_singleton].
          apply elem_of_union. by right. }
    assert (hConnOf (object (store u c)) = hConnOf (object (store s c))) as Ehc.
    { by rewrite (object_of_core _ _ (Eu2 c)). }
    destruct (IH u) as (I1 & I2 & I3); try done.
    + by rewrite Eu1.
    + by rewrite Ehc.
    + intros h2 Hh2. destruct (Hreg h2) as (k' & c' & Hin' & Hc'); [by right|].
      exists k', c'. rewrite Eu1. split; [done|].
      by rewrite (object_of_core _ _ (Eu2 c')).
    + rewrite Ehc. destruct Hcov as [Hc|Hc].
      * left. apply Eu3. by left.
      * apply elem_of_cons in Hc as [Hc|Hc]; [left; apply Eu3; by right|by right].
    + split; [by rewrite I1|]. split; [intros c'; by rewrite I2|].
      by rewrite <- Ehc.
Qed.

(** X9: [pollAllHConns] does not change the registry, and when it returns
    the connection of every registered context, unless it is -1, is in
    [hConnsInPoll]; on an empty registry it only resets the loop. *)
Theorem pollAllHConns_polls_every_connection (s : State) :
  contextMap (pollAllHConns s) = contextMap s
  ∧ (∀ k c, (k, c) ∈ contextMap s →
       hConnOf (object (store s c)) ≠ -1 →
       hConnOf (object (store (pollAllHConns s) c)) = hConnOf (object (store s c))
       ∧ hConnOf (object (store s c)) ∈ hConnsInPoll (pollAllHConns s))
  ∧ (contextMap s = [] → pollAllHConns s = resetGetLoop s).
Proof.
  assert (∀ u, contextMap (if Map_size (contextMap u) =? 0 then resetGetLoop u else u)
               = contextMap u
             ∧ store (if Map_size (contextMap u) =? 0 then resetGetLoop u else u) = store u
             ∧ hConnsInPoll (if Map_size (contextMap u) =? 0 then resetGetLoop u else u)
               = hConnsInPoll u) as Hfin.
  { intros u. by destruct (Map_size (contextMap u) =? 0). }
  assert (∀ k c, (k, c) ∈ contextMap s → hConnOf (object (store s c)) ≠ -1 →
            (Map_size (contextMap s) >? 0) = true
            ∧ ∀ u, u = foldl (fun s hConn =>
                 if negb (hConn =? -1) then
                   pollPerHconn hConn (set_hConnsInPoll ({[hConn]} ∪ hConnsInPoll s) s)
                 else set_hConnsInPoll (hConnsInPoll s ∖ {[hConn]}) s)
                s (getFreshHconnsForPoll s) →
              contextMap u = contextMap s
              ∧ (∀ c', ctx_core (store u c') = ctx_core (store s c'))
              ∧ hConnOf (object (store s c)) ∈ hConnsInPoll u) as Hloop.
  { intros k c Hin Hh. split.
    { unfold Map_size. destruct (contextMap s); [by apply elem_of_nil in Hin|done]. }
    intros u ->. destruct (getFreshHconnsForPoll_spec s) as [Hnd _].
    apply (pollAllHConns_loop_covers (getFreshHconnsForPoll s) s k c); try done.
    - intros h' Hh'. by apply elem_of_getFreshHconnsForPoll in Hh' as [? _].
    - destruct (decide (hConnOf (object (store s c)) ∈ hConnsInPoll s)); [by left|].
      right. apply elem_of_getFreshHconnsForPoll. split; [by exists k, c|done]. }
  unfold pollAllHConns. cbv zeta. split; [|split].
  - match goal with |- context [if ?b then foldl ?f s ?l else s] =>
      set (u := if b then foldl f s l else s);
      assert (contextMap u = contextMap s) as Eu end.
    { subst u. destruct (Map_size (contextMap s) >? 0); [|done].
      apply pollAllHConns_loop_frame. }
    destruct (Hfin u) as (F1 & _). by rewrite F1.
  - intros k c Hin Hh. destruct (Hloop k c Hin Hh) as [Esz Hu]. rewrite Esz.
    match goal with |- context [foldl ?f s ?l] => set (u := foldl f s l) end.
    destruct (Hu u eq_refl) as (U1 & U2 & U3).
    destruct (Hfin u) as (F1 & F2 & F3). rewrite F2, F3.
    split; [|done]. by rewrite (object_of_core _ _ (U2 c)).
  - intros Hnil. rewrite Hnil. simpl. rewrite Hnil. done.
Qed.

Lemma pollHObjInternal_pending c md gmo s :
  ∃ d j, pending (pollHObjInternal c md gmo s) = pending s ++ [(d, j)]
         ∧ job_ctx j = Some c.
Proof.
  destruct (isLocked (hConnOf (object (store s c))) s) eqn:El.
  - rewrite (pollHObjInternal_locked c md gmo s El). by eexists _, _.
  - rewrite (pollHObjInternal_free c md gmo s El). cbv zeta.
    unfold callAsync. st.
    pose proof (resizeBuffer_but_store c (lock (hConnOf (object (store s c))) s)) as Eb.
    assert (pending (resizeBuffer c (lock (hConnOf (object (store s c))) s)) = pending s)
      as -> by (unfold but_store in Eb; simpl in Eb; congruence).
    by eexists _, _.
Qed.

Lemma pollHObjInternal_states c md gmo s c' :
  state (store (pollHObjInternal c md gmo s) c') = state (store s c')
  ∧ messagesRetrievedInHConnPoll (pollHObjInternal c md gmo s)
    = messagesRetrievedInHConnPoll s.
Proof.
  unfold pollHObjInternal. case_match; [done|]. unfold callAsync. st.
  destruct (resizeBuffer_core c (lock (hConnOf (object (store s c))) s) c') as (_ & _ & ->).
  split; [done|].
  pose proof (resizeBuffer_but_store c (lock (hConnOf (object (store s c))) s)) as Eb.
  unfold but_store in Eb. simpl in Eb. congruence.
Qed.

Lemma pollHobjs_states h s c' :
  state (store (pollHobjs h s) c') = state (store s c')
  ∧ messagesRetrievedInHConnPoll (pollHobjs h s) = messagesRetrievedInHConnPoll s.
Proof.
  unfold pollHobjs, initGet, pollHObj.
  repeat case_match; try done.
  match goal with |- context [pollHObjInternal ?c ?md ?gmo ?u] =>
    destruct (pollHObjInternal_states c md gmo u c') as [-> ->] end.
  split; [|done]. st. store_cases.
Qed.

Lemma pollHobjs_outcomes (h : Z) (s : State) :
  (h = -1 → pollHobjs h s = s)
  ∧ (h ≠ -1 →
     let ready := getRunningContexts (getAllContextsForPoll h s) s in
     (0 < messagesRetrievedInHConnPoll s →
        pending (pollHobjs h s)
        = pending s ++ [(clock s + getLoopDelayTimeMs (tuningParameters s), JPollPerHconn h)]
        ∧ trace (pollHobjs h s) = trace s)
     ∧ (messagesRetrievedInHConnPoll s ≤ 0 → ready = [] →
        pending (pollHobjs h s)
        = pending s ++ [(clock s + getLoopPollTimeMs (tuningParameters s), JPollPerHconn h)]
        ∧ trace (pollHobjs h s) = trace s)
     ∧ (messagesRetrievedInHConnPoll s ≤ 0 → ready ≠ [] →
        ∃ c d j, c ∈ ready
          ∧ (∃ k, (k, c) ∈ contextMap s)
          ∧ hConnOf (object (store s c)) = h
          ∧ state (store s c) = running
          ∧ trace (pollHobjs h s) = ObsPick c :: trace s
          ∧ retrieved (store (pollHobjs h s) c) = 0
          ∧ pending (pollHobjs h s) = pending s ++ [(d, j)]
          ∧ job_ctx j = Some c)).
Proof.
  split.
  - intros ->. done.
  - intros Hh. cbv zeta. unfold pollHobjs.
    rewrite (proj2 (Z.eqb_neq h (-1)) Hh). cbv zeta.
    change (messagesRetrievedInHConnPoll (set_scheduledGetLoop false s))
      with (messagesRetrievedInHConnPoll s).
    change (getAllContextsForPoll h (set_scheduledGetLoop false s))
      with (getAllContextsForPoll h s).
    change (getRunningContexts (getAllContextsForPoll h s) (set_scheduledGetLoop false s))
      with (getRunningContexts (getAllContextsForPoll h s) s).
    split; [|split].
    + intros Hm. by rewrite (proj2 (Z.gtb_gt _ _)) by lia.
    + intros Hm Hr. rewrite Hr.
      destruct (messagesRetrievedInHConnPoll s >? 0) eqn:E; [|done].
      apply Z.gtb_gt in E. lia.
    + intros Hm Hr.
      destruct (messagesRetrievedInHConnPoll s >? 0) eqn:E.
      { apply Z.gtb_gt in E. lia. }
      destruct (getRunningContexts (getAllContextsForPoll h s) s) as [|c0 l0] eqn:Er;
        [done|]. rewrite <- Er. clear Hr.
      assert ((length (getRunningContexts (getAllContextsForPoll h s) s) =? 0)%nat = false)
        as -> by (by rewrite Er).
      destruct (shuffle _ _) as [l rs] eqn:Hsh.
      match type of Hsh with shuffle ?rs0 ?l0 = _ =>
        pose proof (shuffle_Permutation rs0 l0) as Hp end.
      rewrite Hsh in Hp. simpl in Hp.
      destruct l as [|c l].
      { rewrite Er in Hp. by apply Permutation_nil_l in Hp. }
      assert (c ∈ getRunningContexts (getAllContextsForPoll h s) s) as Hin.
      { rewrite <- Hp. by left. }
      pose proof Hin as Hin'. unfold getRunningContexts in Hin'.
      apply list_elem_of_filter in Hin' as [Hst Hall].
      apply elem_of_getAllContextsForPoll in Hall as [Hc Hk].
      unfold initGet, pollHObj. cbv zeta.
      match goal with |- context [pollHObjInternal c ?md ?gmo ?u] =>
        destruct (pollHObjInternal_counters c md gmo u c) as [E1 E2];
        destruct (pollHObjInternal_pending c md gmo u) as (d & j & E3 & E4) end.
      exists c, d, j. rewrite E1, E2, E3.
      split_and!; try done. by rewrite store_upd_ctx_eq.
Qed.

(** X10: unless the handle is -1, [pollHobjs] always leaves exactly one new
    pending job that carries on the polling of the connection: the
    [pollPerHconn] timer, after [getLoopDelayTimeMs] when messages were
    retrieved in this poll and after [getLoopPollTimeMs] when no context of
    the connection is running, or else an attempt for the context it
    picked, which is a registered context of the connection in state
    [running] whose count it has reset.  With the handle -1 it does
    nothing. *)
Theorem pollHobjs_carries_on (h : Z) (s : State) :
  (h = -1 → pollHobjs h s = s)
  ∧ (h ≠ -1 →
     let ready := getRunningContexts (getAllContextsForPoll h s) s in
     (0 < messagesRetrievedInHConnPoll s →
        pending (pollHobjs h s)
        = pending s ++ [(clock s + getLoopDelayTimeMs (tuningParameters s), JPollPerHconn h)]
        ∧ trace (pollHobjs h s) = trace s)
     ∧ (messagesRetrievedInHConnPoll s ≤ 0 → ready = [] →
        pending (pollHobjs h s)
        = pending s ++ [(clock s + getLoopPollTimeMs (tuningParameters s), JPollPerHconn h)]
        ∧ trace (pollHobjs h s) = trace s)
     ∧ (messagesRetrievedInHConnPoll s ≤ 0 → ready ≠ [] →
        ∃ c d j, c ∈ ready
          ∧ (∃ k, (k, c) ∈ contextMap s)
          ∧ hConnOf (object (store s c)) = h
          ∧ state (store s c) = running
          ∧ trace (pollHobjs h s) = ObsPick c :: trace s
          ∧ retrieved (store (pollHobjs h s) c) = 0
          ∧ pending (pollHobjs h s) = pending s ++ [(d, j)]
          ∧ job_ctx j = Some c)).
Proof. apply pollHobjs_outcomes. Qed.

Lemma reset_all_states l s :
  let s' := foldl (fun s c => upd_ctx c (fun x => ctx_set_retrieved 0 (ctx_set_state running x)) s)
                  s l in
  (∀ c, c ∈ l → state (store s' c) = running ∧ retrieved (store s' c) = 0)
  ∧ (∀ c, c ∉ l → store s' c = store s c)
  ∧ but_store s' = but_store s.
Proof.
  cbv zeta. revert s. induction l as [|c l IH]; intros s; simpl.
  - split; [|done]. intros c Hc. by apply elem_of_nil in Hc.
  - destruct (IH (upd_ctx c (fun x => ctx_set_retrieved 0 (ctx_set_state running x)) s))
      as (E1 & E2 & E3).
    split; [|split].
    + intros c' Hc'. destruct (decide (c' ∈ l)) as [Hl|Hl]; [by apply E1|].
      rewrite (E2 c' Hl). apply elem_of_cons in Hc' as [->|?]; [|done].
      by rewrite store_upd_ctx_eq.
    + intros c' Hc'. apply not_elem_of_cons in Hc' as [Hne Hl].
      rewrite (E2 c' Hl). by rewrite store_upd_ctx_ne.
    + by rewrite E3.
Qed.

Lemma filter_all {A} (P : A → Prop) `{!∀ x, Decision (P x)} (l : list A) :
  (∀ x, x ∈ l → P x) → filter P l = l.
Proof.
  induction l as [|x l IH]; intros Hall; [done|].
  rewrite filter_cons_True by (apply Hall; by left).
  f_equal. apply IH. intros y Hy. apply Hall. by right.
Qed.

Lemma getAllContextsForPoll_ext h s s' :
  contextMap s' = contextMap s →
  (∀ c, object (store s' c) = object (store s c)) →
  getAllContextsForPoll h s' = getAllContextsForPoll h s.
Proof.
  intros Em Eo. unfold getAllContextsForPoll. rewrite Em.
  apply list_filter_iff. intros c. by rewrite Eo.
Qed.

(** X11: [pollPerHconn] on a connection with no registered context, or
    with the handle -1, takes the connection out of [hConnsInPoll] and
    leaves neither a job nor a pick: the polling of the connection ends.
    Otherwise it starts a new round: the count of retrieved messages of the
    connection is zero, every context of the connection is [running], one
    of them is picked and an attempt for it is the one new pending job. *)
Theorem pollPerHconn_ends_or_starts_round (h : Z) (s : State) :
  (getAllContextsForPoll h s = [] ∨ h = -1 →
     hConnsInPoll (pollPerHconn h s) = hConnsInPoll s ∖ {[h]}
     ∧ pending (pollPerHconn h s) = pending s
     ∧ trace (pollPerHconn h s) = trace s
     ∧ store (pollPerHconn h s) = store s)
  ∧ (getAllContextsForPoll h s ≠ [] → h ≠ -1 →
     hConnsInPoll (pollPerHconn h s) = hConnsInPoll s
     ∧ messagesRetrievedInHConnPoll (pollPerHconn h s) = 0
     ∧ (∀ c, c ∈ getAllContextsForPoll h s → state (store (pollPerHconn h s) c) = running)
     ∧ ∃ c d j, c ∈ getAllContextsForPoll h s
         ∧ trace (pollPerHconn h s) = ObsPick c :: trace s
         ∧ retrieved (store (pollPerHconn h s) c) = 0
         ∧ pending (pollPerHconn h s) = pending s ++ [(d, j)]
         ∧ job_ctx j = Some c).
Proof.
  unfold pollPerHconn. cbv zeta.
  change (getAllContextsForPoll h (set_messagesRetrievedInHConnPoll 0 s))
    with (getAllContextsForPoll h s).
  split.
  - intros Hor.
    assert ((length (getAllContextsForPoll h s) =? 0)%nat || (h =? -1) = true) as ->; [|done].
    apply orb_true_iff. destruct Hor as [->| ->]; [by left|by right].
  - intros Hne Hh.
    assert ((length (getAllContextsForPoll h s) =? 0)%nat || (h =? -1) = false) as ->.
    { apply orb_false_iff. split; [|by apply Z.eqb_neq].
      apply Nat.eqb_neq. by destruct (getAllContextsForPoll h s). }
    destruct (reset_all_states (getAllContextsForPoll h s)
                (set_messagesRetrievedInHConnPoll 0 s)) as (E1 & E2 & E3).
    destruct (reset_all_frame (getAllContextsForPoll h s)
                (set_messagesRetrievedInHConnPoll 0 s)) as (F1 & F2 & F3).
    cbv zeta in *. revert E1 E2 E3 F1 F2 F3.
    generalize (foldl (fun s c => upd_ctx c (fun x => ctx_set_retrieved 0 (ctx_set_state running x)) s)
                  (set_messagesRetrievedInHConnPoll 0 s) (getAllContextsForPoll h s)).
    intros u E1 E2 E3 F1 F2 F3.
    assert (messagesRetrievedInHConnPoll u = 0 ∧ pending u = pending s ∧ trace u = trace s)
      as (Gm & Gp & Gt) by (unfold but_store in E3; simpl in E3; split_and!; congruence).
    assert (getAllContextsForPoll h u = getAllContextsForPoll h s) as Eall.
    { apply getAllContextsForPoll_ext; [done|]. intros c. by apply object_of_core. }
    assert (getRunningContexts (getAllContextsForPoll h u) u = getAllContextsForPoll h s)
      as Erun.
    { rewrite Eall. unfold getRunningContexts.
      apply filter_all. intros c Hc. by apply E1. }
    destruct (pollHobjs_outcomes h u) as [_ Hp]. specialize (Hp Hh).
    cbv zeta in Hp. destruct Hp as (_ & _ & Hp).
    destruct Hp as (c & d & j & P1 & P2 & P3 & P4 & P5 & P6 & P7 & P8);
      [lia|by rewrite Erun|].
    rewrite Erun in P1.
    split; [by rewrite pollHobjs_hConnsInPoll|]. split.
    { by destruct (pollHobjs_states h u 0%nat) as [_ ->]. }
    split.
    { intros c' Hc'. destruct (pollHobjs_states h u c') as [-> _]. by apply E1. }
    exists c, d, j. rewrite P5, P7, Gt, Gp. done.
Qed.

(** * Buffer sizes *)

Lemma AllBufs_upd c f s :
  (bufs_ok (store s c) → bufs_ok (f (store s c))) → AllBufs s → AllBufs (upd_ctx c f s).
Proof.
  intros Hf Hs c'. rewrite store_upd_ctx. case_decide; [subst; by apply Hf|apply Hs].
Qed.

Lemma AllBufs_store s s' : store s' = store s → AllBufs s → AllBufs s'.
Proof. intros E Hs c. rewrite E. apply Hs. Qed.

Lemma AllBufs_pollHObjInternal c md gmo s : AllBufs s → AllBufs (pollHObjInternal c md gmo s).
Proof.
  intros Hs. unfold pollHObjInternal. case_match; [by apply (AllBufs_store s)|].
  cbv zeta. unfold callAsync.
  apply (AllBufs_store (resizeBuffer c (lock (hConnOf (object (store s c))) s))); [done|].
  unfold resizeBuffer.
  assert (AllBufs (lock (hConnOf (object (store s c))) s)) as Hl by by apply (AllBufs_store s).
  repeat case_match; try done;
    (apply AllBufs_upd; [|done]; intros [Hb _]; split; [done|];
     simpl; intros len [= <-]; done).
Qed.

Lemma AllBufs_pollHobjs h s : AllBufs s → AllBufs (pollHobjs h s).
Proof.
  intros Hs. unfold pollHobjs, initGet, pollHObj.
  repeat case_match; try done; try (by apply (AllBufs_store s)).
  apply AllBufs_pollHObjInternal. apply AllBufs_upd; [done|].
  by apply (AllBufs_store s).
Qed.

Lemma AllBufs_reset_all l s :
  AllBufs s →
  AllBufs (foldl (fun s c => upd_ctx c (fun x => ctx_set_retrieved 0 (ctx_set_state running x)) s)
                 s l).
Proof.
  revert s. induction l as [|c l IH]; intros s Hs; simpl; [done|].
  apply IH. by apply AllBufs_upd.
Qed.

Lemma AllBufs_pollPerHconn h s : AllBufs s → AllBufs (pollPerHconn h s).
Proof.
  intros Hs. unfold pollPerHconn. cbv zeta. case_match.
  - by apply (AllBufs_store s).
  - apply AllBufs_pollHobjs, AllBufs_reset_all. by apply (AllBufs_store s).
Qed.

Lemma AllBufs_pollAllHConns s : AllBufs s → AllBufs (pollAllHConns s).
Proof.
  intros Hs. unfold pollAllHConns. cbv zeta.
  assert (∀ l u, AllBufs u → AllBufs (foldl (fun s hConn =>
               if negb (hConn =? -1) then
                 pollPerHconn hConn (set_hConnsInPoll ({[hConn]} ∪ hConnsInPoll s) s)
               else set_hConnsInPoll (hConnsInPoll s ∖ {[hConn]}) s) u l)) as Hl.
  { induction l as [|h l IH]; intros u Hu; simpl; [done|]. apply IH.
    case_match; [|by apply (AllBufs_store u)].
    apply AllBufs_pollPerHconn. by apply (AllBufs_store u). }
  match goal with |- AllBufs (if ?b then resetGetLoop ?u else _) =>
    assert (AllBufs u) as Hu; [|destruct b; [by apply (AllBufs_store u)|done]] end.
  case_match; [by apply Hl|done].
Qed.

Lemma AllBufs_apiCall a s : AllBufs s → AllBufs (apiCall a s).
Proof.
  intros Hs. destruct a as [o m g f|o f|x]; unfold apiCall.
  - unfold Get. rewrite setUserContext_eq. cbv zeta beta iota.
    match goal with |- AllBufs (if ?g then ?a else ?b) =>
      assert (AllBufs b) as Hb; [|destruct g; [by apply (AllBufs_store b)|done]] end.
    assert (∀ u, AllBufs u → AllBufs (if getLoopPollTimeMs (tuningParameters u) <? getLoopPollTimeMsMin
               then set_tuningParameters
                      (set_getLoopPollTimeMs getLoopPollTimeMsMin (tuningParameters u)) u
               else u)) as Hclamp.
    { intros u Hu. case_match; [by apply (AllBufs_store u)|done]. }
    apply Hclamp. do 3 (apply AllBufs_upd; [done|]).
    intros c. simpl. unfold insert, fn_insert. case_decide; [|apply Hs].
    split; simpl; [|done]. unfold defaultBufSize, maxBufSize. lia.
  - destruct (GetDone o f s) as [e|s'] eqn:E; [done|].
    apply (AllBufs_store s); [|done]. by eapply GetDone_store.
  - by apply (AllBufs_store s).
Qed.

Lemma AllBufs_invoke i calls s : AllBufs s → AllBufs (invoke i calls s).
Proof.
  intros Hs. unfold invoke.
  assert (AllBufs (observe (ObsCall i) s)) as Ho by by apply (AllBufs_store s).
  revert Ho. generalize (observe (ObsCall i) s). clear Hs.
  induction calls as [|a l IH]; intros u Hu; simpl; [done|].
  apply IH. by apply AllBufs_apiCall.
Qed.

Lemma growBufSize_bounds b :
  defaultBufSize ≤ b ≤ maxBufSize → defaultBufSize ≤ growBufSize b ≤ maxBufSize.
Proof. rewrite growBufSize_min. unfold defaultBufSize, maxBufSize. lia. Qed.

Lemma shrinkBufSize_bounds b d :
  defaultBufSize ≤ b ≤ maxBufSize → defaultBufSize ≤ shrinkBufSize b d ≤ maxBufSize.
Proof.
  intros Hb. destruct (shrinkBufSize_spec b d) as [H1 H2].
  destruct (decide (defaultBufSize < b ∧ d * 100 < b * 90)) as [Hd|Hd].
  - rewrite (H1 Hd). assert (b * 90 / 100 ≤ b).
    { apply Z.div_le_upper_bound; unfold defaultBufSize in *; lia. }
    lia.
  - by rewrite (H2 Hd).
Qed.

Lemma AllBufs_mqgetCallback c r s : AllBufs s → AllBufs (mqgetCallback c r s).
Proof.
  intros Hs.
  assert (AllBufs (unlock (hConnOf (object (store s c))) s)) as Hu
    by by apply (AllBufs_store s).
  destruct (mqgetCallback_cases c r s) as [E|[E|[E|E]]]; rewrite E; clear E;
    revert Hu; generalize (unlock (hConnOf (object (store s c))) s); intros u Hu.
  - unfold onTruncated, setTimeout. cbv zeta.
    match goal with |- AllBufs (set_pending _ ?v) => apply (AllBufs_store v); [done|] end.
    apply AllBufs_upd; [|done]. intros [Hb Hl]. split; [|done]. simpl.
    by apply growBufSize_bounds.
  - unfold onNoMessage. case_match; [by apply (AllBufs_store u)|].
    by apply AllBufs_pollHobjs.
  - unfold onFailure. cbv zeta. apply AllBufs_pollHobjs.
    match goal with |- AllBufs (deleteUserContext _ ?v) =>
      apply (AllBufs_store v); [unfold deleteUserContext; by case_match|] end.
    apply AllBufs_invoke. by apply AllBufs_upd.
  - rewrite onMessage_delivered. cbv zeta.
    assert (AllBufs (delivered c r u)) as Hd.
    { unfold delivered. cbv zeta.
      match goal with |- AllBufs (set_messagesRetrievedInHConnPoll _ ?v) =>
        apply (AllBufs_store v); [done|] end.
      apply AllBufs_upd.
      { intros [Hb Hl]. split; [|done]. simpl. by apply shrinkBufSize_bounds. }
      do 4 (apply AllBufs_upd; [done|]).
      apply AllBufs_invoke. by do 2 (apply AllBufs_upd; [done|]). }
    case_match; [by apply (AllBufs_store (delivered c r u))|by apply AllBufs_pollHobjs].
Qed.

Lemma AllBufs_step e s s' : step e s = Some s' → AllBufs s → AllBufs s'.
Proof.
  intros Hst Hs. destruct e as [dt|a|hc|i r|]; simpl in Hst.
  - case_match; simplify_eq. by apply (AllBufs_store s).
  - simplify_eq. by apply AllBufs_apiCall.
  - simplify_eq. unfold verbInternal. case_match; by apply (AllBufs_store s).
  - destruct (pending s !! i) as [[d j]|]; [|done]. case_match; simplify_eq.
    assert (AllBufs (set_pending (delete i (pending s)) s)) as Hu
      by by apply (AllBufs_store s).
    destruct j; simpl.
    + by apply AllBufs_pollAllHConns.
    + by apply AllBufs_pollPerHconn.
    + by apply AllBufs_pollHObjInternal.
    + by apply AllBufs_mqgetCallback.
    + unfold verbInternal. case_match;
        by apply (AllBufs_store (set_pending (delete i (pending s)) s)).
    + by apply (AllBufs_store (set_pending (delete i (pending s)) s)).
  - case_match; simplify_eq. by apply (AllBufs_store s).
Qed.

(** X12: in every state the module can reach, the capacity [c.bufSize] of
    every context is between [defaultBufSize] (10240) and [maxBufSize]
    (100 MiB), and so is the length of its buffer once it is allocated. *)
Theorem buffer_sizes_stay_in_bounds (t : TuningParameters) (s : State) (c : CtxRef) :
  reachable t s →
  10240 ≤ bufSize (store s c) ≤ 104857600
  ∧ ∀ len, buf (store s c) = Some len → 10240 ≤ len ≤ 104857600.
Proof.
  intros Hr. revert c.
  change (AllBufs s).
  induction Hr as [now rs|s e s' _ IH Hs]; [|by eapply AllBufs_step].
  intros c. split; simpl; [|done]. unfold defaultBufSize, maxBufSize. lia.
Qed.

Lemma buffer_sizes_stay_in_bounds_witness :
  reachable tuningDefault (run grownThenDelivered loaded)
  ∧ bufSize (store (run grownThenDelivered loaded) 0%nat) = 18432
  ∧ 10240 ≤ bufSize (store (run grownThenDelivered loaded) 0%nat) ≤ 104857600.
Proof.
  split; [apply reachable_loaded|]. split; [vm_compute; reflexivity|].
  exact (proj1 (buffer_sizes_stay_in_bounds tuningDefault (run grownThenDelivered loaded)
                  0%nat (reachable_loaded grownThenDelivered))).
Defined.

(** * The gate of a connection *)

(** ** A frame for properties of the gate

    A property of the gates, of the calls in flight and of the monitor
    switch that holds when a job that is no call is added, and when a call
    is issued on a connection whose gate is free, is kept by every function
    of the scheduler up to the completion of a call. *)
Section GateFrame.
Variable P : State → Prop.
Hypothesis P_same : ∀ u s,
  debugLongCalls (tuningParameters s) = debugLongCalls (tuningParameters u) →
  hConnsInUse s = hConnsInUse u → pending s = pending u → P u → P s.
Hypothesis P_later : ∀ d j s,
  call_conn j = None → P s → P (set_pending (pending s ++ [(d, j)]) s).
Hypothesis P_issue : ∀ h j s,
  isLocked h s = false → call_conn j = Some h → P s → P (callAsync j (lock h s)).

Ltac p_same := first [assumption | eapply P_same; cycle 3; [eassumption|done..]].
Ltac p_later :=
  unfold setTimeout, setImmediate; apply P_later; [done|]; p_same.

Lemma frame_upd_ctx c f s : P s → P (upd_ctx c f s).
Proof. by apply P_same. Qed.

Lemma frame_pollHObjInternal c md gmo s : P s → P (pollHObjInternal c md gmo s).
Proof.
  intros Hs. unfold pollHObjInternal. cbv zeta. destruct (isLocked _ s) eqn:Hl.
  - p_later.
  - set (h := hConnOf (object (store s c))) in *.
    apply (P_same (callAsync (JMQGET c md gmo (mqgetCall c gmo (resizeBuffer c (lock h s))))
                                 (lock h s))).
    + unfold resizeBuffer. by repeat case_match.
    + unfold resizeBuffer. by repeat case_match.
    + unfold resizeBuffer, callAsync. repeat case_match; by st.
    + apply P_issue; [done| |done]. simpl.
      unfold resizeBuffer, lock. repeat case_match; store_cases.
Qed.

Lemma frame_pollHobjs h s : P s → P (pollHobjs h s).
Proof.
  intros Hs. unfold pollHobjs, initGet, pollHObj.
  repeat case_match; try p_same; try p_later.
  apply frame_pollHObjInternal, frame_upd_ctx. by apply (P_same s).
Qed.

Lemma frame_reset_all l s :
  P s →
  P (foldl (fun s c => upd_ctx c (fun x => ctx_set_retrieved 0 (ctx_set_state running x)) s)
               s l).
Proof.
  revert s. induction l as [|c l IH]; intros s Hs; simpl; [done|].
  apply IH. by apply frame_upd_ctx.
Qed.

Lemma frame_pollPerHconn h s : P s → P (pollPerHconn h s).
Proof.
  intros Hs. unfold pollPerHconn. cbv zeta. case_match.
  - by apply (P_same s).
  - apply frame_pollHobjs, frame_reset_all. by apply (P_same s).
Qed.

Lemma frame_pollAllHConns s : P s → P (pollAllHConns s).
Proof.
  intros Hs. unfold pollAllHConns. cbv zeta.
  assert (∀ l u, P u → P (foldl (fun s hConn =>
               if negb (hConn =? -1) then
                 pollPerHconn hConn (set_hConnsInPoll ({[hConn]} ∪ hConnsInPoll s) s)
               else set_hConnsInPoll (hConnsInPoll s ∖ {[hConn]}) s) u l)) as Hl.
  { induction l as [|h l IH]; intros u Hu; simpl; [done|]. apply IH.
    case_match; [|by apply (P_same u)].
    apply frame_pollPerHconn. by apply (P_same u). }
  match goal with |- P (if ?b then resetGetLoop ?u else _) =>
    assert (P u) as Hu; [|destruct b; [by apply (P_same u)|done]] end.
  case_match; [by apply Hl|done].
Qed.

Lemma frame_apiCall a s : P s → P (apiCall a s).
Proof.
  intros Hs. destruct a as [o m g f|o f|x]; unfold apiCall.
  - unfold Get. rewrite setUserContext_eq. cbv zeta beta iota.
    match goal with |- P (if ?g then ?a else ?b) =>
      assert (P b) as Hb; [|destruct g; [|done]] end.
    + apply (P_same s); [case_match; by st|case_match; by st|case_match; by st|done].
    + unfold setTimeout. apply P_later; [done|]. revert Hb. by apply P_same.
  - destruct (GetDone o f s) as [e|s'] eqn:E; [done|].
    unfold GetDone in E. case_match; [|done]. simplify_eq.
    apply (P_same s); [..|done];
      unfold resetGetLoop, deleteUserContext; repeat case_match; st; done.
  - by apply (P_same s).
Qed.

Lemma frame_invoke i calls s : P s → P (invoke i calls s).
Proof.
  intros Hs. unfold invoke.
  assert (P (observe (ObsCall i) s)) as Ho by by apply (P_same s).
  revert Ho. generalize (observe (ObsCall i) s). clear Hs.
  induction calls as [|a l IH]; intros u Hu; simpl; [done|].
  apply IH. by apply frame_apiCall.
Qed.

(** The callback of [MQGET.async], from the state in which its own call
    has completed and the gate is released. *)
Lemma frame_mqgetCallback c r s :
  P (unlock (hConnOf (object (store s c))) s) → P (mqgetCallback c r s).
Proof.
  intros Hu.
  destruct (mqgetCallback_cases c r s) as [E|[E|[E|E]]]; rewrite E; clear E;
    revert Hu; generalize (unlock (hConnOf (object (store s c))) s); intros u Hu.
  - unfold onTruncated, setTimeout. cbv zeta.
    apply P_later; [done|]. by apply frame_upd_ctx.
  - unfold onNoMessage. case_match; [p_later|].
    by apply frame_pollHobjs.
  - unfold onFailure. cbv zeta. apply frame_pollHobjs.
    match goal with |- P (deleteUserContext _ ?v) =>
      apply (P_same v); [unfold deleteUserContext; by case_match..|] end.
    apply frame_invoke. by apply frame_upd_ctx.
  - rewrite onMessage_delivered. cbv zeta.
    assert (P (delivered c r u)) as Hd.
    { unfold delivered. cbv zeta.
      match goal with |- P (set_messagesRetrievedInHConnPoll _ ?v) =>
        apply (P_same v); [done..|] end.
      do 5 apply frame_upd_ctx.
      apply frame_invoke. by do 2 apply frame_upd_ctx. }
    case_match; [p_later|by apply frame_pollHobjs].
Qed.

Lemma frame_verbInternal hc s : P s → P (verbInternal hc s).
Proof.
  intros Hs. unfold verbInternal. destruct (isLocked hc s) eqn:Hl.
  - p_later.
  - by apply P_issue.
Qed.

(** A step that is not the completion of a call. *)
Lemma frame_runJob j r s :
  call_conn j = None → P s → P (runJob j r s).
Proof.
  intros Hj Hs. destruct j as [|h|c md gmo|c md gmo call|hc|hc]; simpl; try done.
  - by apply frame_pollAllHConns.
  - by apply frame_pollPerHconn.
  - by apply frame_pollHObjInternal.
  - by apply frame_verbInternal.
Qed.

End GateFrame.


(** ** One call in flight *)

Lemma Gated_same u s :
  debugLongCalls (tuningParameters s) = debugLongCalls (tuningParameters u) →
  hConnsInUse s = hConnsInUse u → pending s = pending u → Gated u → Gated s.
Proof.
  intros Et Eu Ep [Hd Hu]. split; [by rewrite Et|]. intros h.
  unfold calls_in_flight, isLocked. rewrite Eu, Ep. apply Hu.
Qed.

Lemma Gated_later d j s :
  call_conn j = None → Gated s → Gated (set_pending (pending s ++ [(d, j)]) s).
Proof.
  intros Hj [Hd Hs]. split; [done|]. intros h.
  unfold calls_in_flight, isLocked. simpl. rewrite list.filter_app, length_app.
  rewrite filter_cons_False by (simpl; congruence). simpl. rewrite Nat.add_0_r. apply Hs.
Qed.

Lemma Gated_issue h j s :
  isLocked h s = false → call_conn j = Some h → Gated s →
  Gated (callAsync j (lock h s)).
Proof.
  intros Hl Hj [Hd Hs]. split; [done|]. intros h'.
  unfold calls_in_flight, callAsync, lock, isLocked in *. simpl.
  rewrite list.filter_app, length_app.
  destruct (decide (h' = h)) as [->|Hne].
  - rewrite filter_cons_True by done. simpl.
    rewrite bool_decide_eq_true_2 by (rewrite lookup_insert_eq; by eexists).
    specialize (Hs h). rewrite Hl in Hs. lia.
  - rewrite filter_cons_False by (simpl; congruence). simpl.
    rewrite lookup_insert_ne by done. specialize (Hs h'). lia.
Qed.

Lemma Gated_done i d j h s :
  pending s !! i = Some (d, j) → call_conn j = Some h → Gated s →
  Gated (unlock h (set_pending (delete i (pending s)) s)).
Proof.
  intros Hi Hj [Hd Hs]. split; [done|]. intros h'.
  pose proof (Hs h') as Hh'. unfold calls_in_flight, unlock, isLocked in *. simpl.
  rewrite <- (take_drop_middle _ _ _ Hi) in Hh'.
  rewrite list.filter_app, length_app, filter_cons in Hh'. simpl in Hh'.
  rewrite delete_take_drop, list.filter_app, length_app.
  destruct (decide (h' = h)) as [->|Hne].
  - rewrite decide_True in Hh' by done. simpl in Hh'.
    rewrite bool_decide_eq_false_2 by (rewrite lookup_delete_eq; by intros [? ?]).
    destruct (bool_decide _); lia.
  - rewrite decide_False in Hh' by congruence.
    rewrite lookup_delete_ne by done. done.
Qed.

Lemma Gated_remove i d j s :
  pending s !! i = Some (d, j) → call_conn j = None → Gated s →
  Gated (set_pending (delete i (pending s)) s).
Proof.
  intros Hi Hj [Hd Hs]. split; [done|]. intros h.
  pose proof (Hs h) as Hh. unfold calls_in_flight, isLocked in *. simpl.
  rewrite <- (take_drop_middle _ _ _ Hi) in Hh.
  rewrite list.filter_app, length_app, filter_cons_False in Hh by (simpl; congruence).
  by rewrite delete_take_drop, list.filter_app, length_app.
Qed.

Ltac gated := first [exact Gated_same | exact Gated_later | exact Gated_issue | done].

Lemma Gated_step e s s' : step e s = Some s' → Inv s → Gated s → Gated s'.
Proof.
  intros Hst HI Hs. destruct e as [dt|a|hc|i r|]; simpl in Hst.
  - case_match; simplify_eq. by apply (Gated_same s).
  - simplify_eq. apply frame_apiCall; gated.
  - simplify_eq. apply frame_verbInternal; gated.
  - destruct (pending s !! i) as [[d j]|] eqn:Hi; [|done]. case_match; simplify_eq.
    destruct (call_conn j) as [h|] eqn:Hj.
    + destruct j as [|h'|c md gmo|c md gmo call|hc|hc]; simplify_eq/=.
      * apply frame_mqgetCallback; try gated.
        change (hConnOf (object (store (set_pending (delete i (pending s)) s) c)))
          with (connOf s c).
        rewrite <- (pre_calls _ _ HI d c md gmo call) by (by eapply list_elem_of_lookup_2).
        by eapply Gated_done.
      * by eapply Gated_done.
    + apply frame_runJob; try gated. by eapply Gated_remove.
  - destruct Hs as [Hd _]. by rewrite Hd in Hst.
Qed.

Lemma Gated_reachable t s : debugLongCalls t = false → reachable t s → Gated s.
Proof.
  intros Ht Hr. induction Hr as [now rs|s e s' Hr IH Hs].
  - split; [done|]. intros h'. unfold calls_in_flight. simpl. lia.
  - eapply Gated_step; [done|by eapply Inv_reachable|done].
Qed.

(** X13: while the long-call monitor is off ([debugLongCalls] false), at
    most one MQI call is in flight on a connection in any reachable state,
    whichever verbs the calls belong to (the scheduler's MQGET or a gated
    verb), and while one is in flight the gate of the connection is held. *)
Theorem gate_one_call_in_flight (t : TuningParameters) (s : State) (h : Z) :
  debugLongCalls t = false → reachable t s →
  (calls_in_flight h s ≤ 1)%nat
  ∧ (calls_in_flight h s = 1%nat → isLocked h s = true).
Proof.
  intros Ht Hr. destruct (Gated_reachable t s Ht Hr) as [_ Hg].
  specialize (Hg h). destruct (isLocked h s); split; try done; lia.
Qed.

Lemma gate_one_call_in_flight_witness :
  debugLongCalls tuningDefault = false
  ∧ reachable tuningDefault (run firstAttempt loaded)
  ∧ calls_in_flight 1 (run firstAttempt loaded) = 1%nat
  ∧ isLocked 1 (run firstAttempt loaded) = true.
Proof.
  assert (calls_in_flight 1 (run firstAttempt loaded) = 1%nat) as E
    by (vm_compute; reflexivity).
  split; [reflexivity|]. split; [apply reachable_loaded|]. split; [exact E|].
  exact (proj2 (gate_one_call_in_flight tuningDefault (run firstAttempt loaded) 1
                  eq_refl (reachable_loaded firstAttempt)) E).
Defined.

(** X14: the long-call monitor keeps exactly the gates taken less than
    1000 ms ago and leaves the pending jobs alone; a verb on a connection
    whose gate it has removed issues its call at once, beside the calls
    still in flight on the connection. *)
Theorem monitor_frees_long_held_gates (s : State) (h : Z) :
  (isLocked h (debugLongCallMonitorFunction s) = true ↔
     ∃ t0, hConnsInUse s !! h = Some t0 ∧ clock s - t0 < 1000)
  ∧ pending (debugLongCallMonitorFunction s) = pending s
  ∧ (∀ t0, hConnsInUse s !! h = Some t0 → 1000 ≤ clock s - t0 →
       pending (verbInternal h (debugLongCallMonitorFunction s))
       = pending s ++ [(clock s, JVerbCall h)]
       ∧ calls_in_flight h (verbInternal h (debugLongCallMonitorFunction s))
         = S (calls_in_flight h s)).
Proof.
  assert (isLocked h (debugLongCallMonitorFunction s) = true ↔
          ∃ t0, hConnsInUse s !! h = Some t0 ∧ clock s - t0 < 1000) as Hiff.
  { unfold isLocked, debugLongCallMonitorFunction. simpl.
    rewrite bool_decide_eq_true. split.
    - intros [t0 [H1 H2]%map_lookup_filter_Some]. by exists t0.
    - intros [t0 [H1 H2]]. exists t0. by apply map_lookup_filter_Some. }
  split; [exact Hiff|]. split; [done|]. intros t0 H0 Hold.
  assert (isLocked h (debugLongCallMonitorFunction s) = false) as Hfree.
  { apply not_true_is_false. rewrite Hiff. intros [t1 [H1 H2]]. simplify_eq. lia. }
  unfold verbInternal. rewrite Hfree. split; [done|].
  unfold calls_in_flight. simpl. rewrite list.filter_app, length_app.
  rewrite filter_cons_True by done. simpl. lia.
Qed.

(** ** A gate that is never released *)

Lemma Blocked_same hc u s :
  debugLongCalls (tuningParameters s) = debugLongCalls (tuningParameters u) →
  hConnsInUse s = hConnsInUse u → pending s = pending u → Blocked hc u → Blocked hc s.
Proof.
  intros Et Eu Ep (Hl & Hc & Hd). unfold Blocked, calls_in_flight, isLocked in *.
  by rewrite Et, Eu, Ep.
Qed.

Lemma Blocked_later hc d j s :
  call_conn j = None → Blocked hc s → Blocked hc (set_pending (pending s ++ [(d, j)]) s).
Proof.
  intros Hj (Hl & Hc & Hd). split_and!; [done| |done].
  unfold calls_in_flight in *. simpl. rewrite list.filter_app, length_app.
  rewrite filter_cons_False by (simpl; congruence). simpl. lia.
Qed.

Lemma Blocked_issue hc h j s :
  isLocked h s = false → call_conn j = Some h → Blocked hc s →
  Blocked hc (callAsync j (lock h s)).
Proof.
  intros Hf Hj (Hl & Hc & Hd).
  assert (h ≠ hc) as Hne by (intros ->; congruence).
  split_and!; [| |done].
  - unfold isLocked, callAsync, lock in *. simpl. by rewrite lookup_insert_ne.
  - unfold calls_in_flight, callAsync, lock in *. simpl.
    rewrite list.filter_app, length_app.
    rewrite filter_cons_False by (simpl; congruence). simpl. lia.
Qed.

Lemma Blocked_done hc i d j h s :
  pending s !! i = Some (d, j) → call_conn j = Some h → Blocked hc s →
  Blocked hc (unlock h (set_pending (delete i (pending s)) s)).
Proof.
  intros Hi Hj (Hl & Hc & Hd).
  unfold calls_in_flight in Hc. rewrite <- (take_drop_middle _ _ _ Hi) in Hc.
  rewrite list.filter_app, length_app, filter_cons in Hc. simpl in Hc.
  assert (h ≠ hc) as Hne.
  { intros ->. rewrite decide_True in Hc by done. simpl in Hc. lia. }
  rewrite decide_False in Hc by congruence.
  split_and!; [| |done].
  - unfold isLocked, unlock in *. simpl. by rewrite lookup_delete_ne.
  - unfold calls_in_flight, unlock. simpl.
    by rewrite delete_take_drop, list.filter_app, length_app.
Qed.

Lemma Blocked_remove hc i d j s :
  pending s !! i = Some (d, j) → call_conn j = None → Blocked hc s →
  Blocked hc (set_pending (delete i (pending s)) s).
Proof.
  intros Hi Hj (Hl & Hc & Hd). split_and!; [done| |done].
  unfold calls_in_flight in *. simpl.
  rewrite <- (take_drop_middle _ _ _ Hi) in Hc.
  rewrite list.filter_app, length_app, filter_cons_False in Hc by (simpl; congruence).
  by rewrite delete_take_drop, list.filter_app, length_app.
Qed.

Ltac blocked :=
  first [exact (Blocked_same _) | exact (Blocked_later _) | exact (Blocked_issue _) | done].

Lemma Blocked_step hc e s s' : step e s = Some s' → Inv s → Blocked hc s → Blocked hc s'.
Proof.
  intros Hst HI Hs. destruct e as [dt|a|h|i r|]; simpl in Hst.
  - case_match; simplify_eq. by apply (Blocked_same hc s).
  - simplify_eq. apply frame_apiCall; blocked.
  - simplify_eq. apply frame_verbInternal; blocked.
  - destruct (pending s !! i) as [[d j]|] eqn:Hi; [|done]. case_match; simplify_eq.
    destruct (call_conn j) as [h|] eqn:Hj.
    + destruct j as [|h'|c md gmo|c md gmo call|h'|h']; simplify_eq/=.
      * apply frame_mqgetCallback; try blocked.
        change (hConnOf (object (store (set_pending (delete i (pending s)) s) c)))
          with (connOf s c).
        rewrite <- (pre_calls _ _ HI d c md gmo call) by (by eapply list_elem_of_lookup_2).
        by eapply Blocked_done.
      * by eapply Blocked_done.
    + apply frame_runJob; try blocked. by eapply Blocked_remove.
  - destruct Hs as (_ & _ & Hd). by rewrite Hd in Hst.
Qed.

Lemma Blocked_run hc es s : Inv s → Blocked hc s → Blocked hc (run es s).
Proof.
  revert s. induction es as [|e es IH]; intros s HI Hs; simpl; [done|].
  destruct (step e s) as [s'|] eqn:Hst; simpl; [|by apply IH].
  apply IH; [by eapply Inv_step|by eapply Blocked_step].
Qed.

(** X26: [put] and [put1] check the message buffer after they have taken
    the gate.  With a buffer that is true, no string and no [Buffer], the
    call throws a [TypeError] with the gate of the connection held and no
    call in flight; while the long-call monitor is off nothing releases
    the gate: whatever happens next, the gate stays held, no MQI call is
    issued on the connection again, and every gated verb on it only puts
    itself off. *)
Theorem put_refused_buffer_blocks_connection {num : Type} `{!Tuning.JsNumber num} (t : TuningParameters) (s : State) (hc : Z) (buf : Tuning.JsVal) (useAsync : bool) :
  debugLongCalls t = false → reachable t s → isLocked hc s = false →
  Tuning.truthy buf = true → Tuning.typeof buf ≠ "string"%string →
  Tuning.instanceof buf "Buffer" = false →
  Put.putInternal hc buf useAsync s
  = (lock hc s, Some (Tuning.mkTypeError "Parameter must be of type Buffer"))
  ∧ ∀ es, let s' := run es (lock hc s) in
      isLocked hc s' = true
      ∧ calls_in_flight hc s' = 0%nat
      ∧ pending (verbInternal hc s') = pending s' ++ [(clock s', JVerb hc)].
Proof.
  intros Ht Hr Hfree Htrue Hstr Hbuf. split.
  - unfold Put.putInternal, Put.putBufferCheck. rewrite Hfree, Htrue.
    rewrite (proj2 (String.eqb_neq _ _) Hstr).
    unfold Tuning.checkParam, Tuning.checkParamRequired. rewrite Htrue, Hbuf.
    by destruct buf.
  - intros es. cbv zeta.
    destruct (Gated_reachable t s Ht Hr) as [Hd Hg].
    assert (Blocked hc (lock hc s)) as Hb.
    { split_and!; [|specialize (Hg hc); rewrite Hfree in Hg;
                    unfold calls_in_flight in *; simpl; lia|done].
      unfold isLocked, lock. simpl. apply bool_decide_eq_true_2.
      rewrite lookup_insert_eq. by eexists. }
    assert (Inv (lock hc s)) as HI by (apply (Pre_core _ s); [done|by eapply Inv_reachable]).
    destruct (Blocked_run hc es _ HI Hb) as (Hl & Hc & _).
    split_and!; [done..|]. unfold verbInternal. by rewrite Hl.
Qed.

Lemma put_refused_buffer_blocks_connection_witness :
  Put.putInternal 1 (Tuning.VNum (num := Z) 5) true loaded
  = (lock 1 loaded, Some (Tuning.mkTypeError "Parameter must be of type Buffer"))
  ∧ isLocked 1 (run [AppVerb 1; Tick 5000; Run 0 (noMessage gmoUnlimited)] (lock 1 loaded))
    = true.
Proof.
  destruct (@put_refused_buffer_blocks_connection Z Tuning.Z_JsNumber tuningDefault loaded 1
              (Tuning.VNum 5) true eq_refl (reachable_loaded []) eq_refl eq_refl
              ltac:(discriminate) eq_refl) as [H1 H2].
  split; [exact H1|].
  exact (proj1 (H2 [AppVerb 1; Tick 5000; Run 0 (noMessage gmoUnlimited)])).
Defined.

(** * The registry *)

Lemma prefix_empty b : String.prefix "" b = true.
Proof. by destruct b. Qed.

Lemma prefix_String x a y b :
  String.prefix (String x a) (String y b) = true ↔ x = y ∧ String.prefix a b = true.
Proof.
  change (String.prefix (String x a) (String y b))
    with (if Ascii.ascii_dec x y then String.prefix a b else false).
  destruct (Ascii.ascii_dec x y); [tauto|]. split; [done|tauto].
Qed.

(** [key.startsWith(hConn + "/")] holds exactly for the keys of the
    connection. *)
Lemma prefix_slash a a' b :
  has_slash a = false → has_slash a' = false →
  String.prefix (a +:+ "/") (a' +:+ "/" +:+ b) = true ↔ a = a'.
Proof.
  revert a'.
  induction a as [|x a IH]; intros [|x' a']; rewrite ?append_cons, ?append_nil;
    rewrite ?prefix_String; cbn [has_slash].
  - intros _ _. by rewrite prefix_empty.
  - intros _ H. split; [|done]. intros [<- _]. by rewrite Ascii.eqb_refl in H.
  - intros H _. split; [|done]. intros [-> _]. by rewrite Ascii.eqb_refl in H.
  - intros H H'. destruct (Ascii.eqb x "/"%char) eqn:Ex; [done|].
    destruct (Ascii.eqb x' "/"%char) eqn:Ex'; [done|].
    rewrite (IH a' H H'). split; [by intros [-> ->]|by intros [= -> ->]].
Qed.

Lemma prefix_key (h : Z) (o : MQObject) k :
  getKey (Some o) = Some k →
  String.prefix (pretty h +:+ "/") k = true ↔ hConnOf o = h.
Proof.
  unfold getKey. intros [= <-].
  rewrite prefix_slash by apply pretty_Z_no_slash.
  split; [intros E; symmetry; by apply (inj pretty)|by intros ->].
Qed.

Lemma Map_get_filter_keys {V} (P : string → Prop) `{!∀ k, Decision (P k)} k (m : list (string * V)) :
  Map_get k (filter (fun kv => P (fst kv)) m) = if decide (P k) then Map_get k m else None.
Proof.
  induction m as [|[k' v'] m IH]; simpl; [by case_decide|].
  rewrite filter_cons. simpl. destruct (String.eqb k k') eqn:E.
  - apply String.eqb_eq in E. subst k'. destruct (decide (P k)); simpl.
    + by rewrite String.eqb_refl.
    + rewrite IH. by destruct (decide (P k)).
  - destruct (decide (P k')); simpl; [rewrite E|]; apply IH.
Qed.

(** X15: [deleteUserConnection(hConn)] does nothing when [hConn] is 0 or
    -1.  Otherwise it removes exactly the contexts registered for the
    connection and those registered with the connection handle -1: a lookup
    of such an object finds nothing afterwards, every other lookup finds
    what it found before, and the entries kept keep their order. *)
Theorem deleteUserConnection_removes_connection (h : Z) (s : State) :
  (h = 0 ∨ h = -1 → deleteUserConnection h s = s)
  ∧ (h ≠ 0 → h ≠ -1 →
     (∀ o, getUserContext (Some o) (deleteUserConnection h s)
           = if decide (hConnOf o = h ∨ hConnOf o = -1) then None
             else getUserContext (Some o) s)
     ∧ contextMap (deleteUserConnection h s) `sublist_of` contextMap s
     ∧ store (deleteUserConnection h s) = store s
     ∧ pending (deleteUserConnection h s) = pending s).
Proof.
  unfold deleteUserConnection. split.
  - intros [->| ->]; done.
  - intros H0 H1.
    rewrite (proj2 (Z.eqb_neq h 0)), (proj2 (Z.eqb_neq h (-1))) by done. cbn [negb andb]. cbv zeta.
    split; [|split; [apply sublist_filter|done]].
    intros o. unfold getUserContext.
    destruct (getKey_Some o) as [k Hk]. rewrite Hk. cbn [contextMap set_contextMap].
    pose proof (Map_get_filter_keys
                  (fun k => ¬ (String.prefix (pretty h +:+ "/") k = true
                               ∨ String.prefix "-1/" k = true)) k (contextMap s)) as E.
    cbv beta in E. rewrite E. clear E.
    pose proof (prefix_key h o k Hk) as Ph.
    pose proof (prefix_key (-1) o k Hk) as Pm.
    change (pretty (-1) +:+ "/") with "-1/"%string in Pm.
    destruct (decide (hConnOf o = h ∨ hConnOf o = -1)).
    + rewrite decide_False; [done|]. tauto.
    + rewrite decide_True; [done|]. tauto.
Qed.

Lemma isContextAvailable_lookup c s :
  Inv s →
  isContextAvailable c s = true ↔
  ∃ c', getUserContext (Some (object (store s c))) s = Some c'
        ∧ _name (object (store s c')) = _name (object (store s c)).
Proof.
  intros HI. unfold isContextAvailable, getUserContext.
  destruct (getKey_Some (object (store s c))) as [k Hk]. rewrite Hk.
  rewrite existsb_exists. split.
  - intros [x [Hx Hb]]. apply andb_true_iff in Hb as [Hb Hn].
    apply andb_true_iff in Hb as [Ho Hc].
    apply Z.eqb_eq in Ho, Hc. apply String.eqb_eq in Hn.
    apply list_elem_of_In, list_elem_of_fmap in Hx as [[k' x'] [-> Hin]]. cbn [snd] in *.
    exists x'. split; [|done].
    apply elem_of_Map_get; [apply (pre_keys_nodup _ _ HI)|].
    pose proof (pre_keys _ _ HI k' x' Hin) as Hk'.
    rewrite (getKey_handles _ _ Hc Ho), Hk in Hk'. by simplify_eq.
  - intros [c' [Hget Hn]]. exists c'.
    apply Map_get_Some_elem_of in Hget.
    split; [apply list_elem_of_In, list_elem_of_fmap; by exists (k, c')|].
    destruct (getKey_inj _ _ k (pre_keys _ _ HI k c' Hget) Hk) as [Hc Ho].
    rewrite Hc, Ho, Hn, !Z.eqb_refl, String.eqb_refl. done.
Qed.

(** X16: in a reachable state [isContextAvailable(c)] holds exactly when the
    lookup of the object of [c] finds a context with the same object name:
    it holds for every registered context, and it is false as soon as
    [GetDone] has removed the context of the object. *)
Theorem isContextAvailable_detects_removal (t : TuningParameters) (s : State) (c : CtxRef) :
  reachable t s →
  (isContextAvailable c s = true ↔
     ∃ c', getUserContext (Some (object (store s c))) s = Some c'
           ∧ _name (object (store s c')) = _name (object (store s c)))
  ∧ ((∃ k, (k, c) ∈ contextMap s) → isContextAvailable c s = true)
  ∧ (∀ f s', GetDone (Some (object (store s c))) f s = inr s' →
       isContextAvailable c s' = false).
Proof.
  intros Hr. pose proof (Inv_reachable t s Hr) as HI.
  split; [by apply isContextAvailable_lookup|]. split.
  - intros [k Hin]. apply isContextAvailable_lookup; [done|]. exists c. split; [|done].
    unfold getUserContext. rewrite (pre_keys _ _ HI k c Hin).
    apply elem_of_Map_get; [apply (pre_keys_nodup _ _ HI)|done].
  - intros f s' Hd.
    assert (Inv s') as HI'.
    { apply (Inv_reachable t).
      apply (reachable_step t s (App (ApiGetDone (Some (object (store s c))) f))); [done|].
      simpl. unfold apiCall. by rewrite Hd. }
    apply not_true_is_false. rewrite (isContextAvailable_lookup c s' HI').
    rewrite (GetDone_store _ _ _ _ Hd). intros [c' [Hget _]].
    unfold GetDone in Hd. case_match; [|done]. simplify_eq.
    assert (getUserContext (Some (object (store s c)))
              (deleteUserContext (Some (object (store s c))) s) = None) as Hnone
      by apply getUserContext_delete.
    revert Hget Hnone. unfold getUserContext, resetGetLoop, observe.
    repeat case_match; simpl; congruence.
Qed.

Lemma isContextAvailable_detects_removal_witness :
  reachable tuningDefault (run firstAttempt loaded)
  ∧ isContextAvailable 0%nat (run firstAttempt loaded) = true
  ∧ isContextAvailable 0%nat
      (run (firstAttempt ++ [App (ApiGetDone (Some queueA) None)]) loaded) = false.
Proof.
  pose proof (isContextAvailable_detects_removal tuningDefault (run firstAttempt loaded)
                0%nat (reachable_loaded firstAttempt)) as [_ [H1 H2]].
  split; [apply reachable_loaded|]. split.
  - apply H1. exists "1/1"%string. vm_compute. left.
  - apply (H2 None). vm_compute. reflexivity.
Defined.

(** * Tuning parameters and parameter checks *)

Section TuningFacts.
Import Tuning.
Context {num : Type} `{!JsNumber num}.
Implicit Types (s : @TuningState num) (x cur : @JsVal num) (key k : string).
Implicit Types (parms : gmap string (@JsVal num)) (v : list (string * @JsVal num)).

Lemma typeof_boolean x : typeof x = "boolean" ↔ ∃ b, x = VBool b.
Proof.
  split; [|by intros [b ->]].
  destruct x as [| |b|n|str|[] cls props]; simpl; try done. by exists b.
Qed.

Lemma typeof_number x : typeof x = "number" ↔ ∃ n, x = VNum n.
Proof.
  split; [|by intros [n ->]].
  destruct x as [| |b|n|str|[] cls props]; simpl; try done. by exists n.
Qed.

Lemma WellTyped_cases parms k cur :
  WellTyped parms → parms !! k = Some cur →
  (k ∈ flag_keys ∧ ∃ b, cur = VBool b) ∨ (k ∈ number_keys ∧ ∃ n, cur = VNum n).
Proof.
  intros (Hf & Hn & Hd) Hk.
  pose proof (Hd k (mk_is_Some _ _ Hk)) as Hin. apply elem_of_app in Hin as [Hin|Hin].
  - left. split; [done|]. destruct (Hf k Hin) as [b Hb]. exists b. congruence.
  - right. split; [done|]. destruct (Hn k Hin) as [n Hb]. exists n. congruence.
Qed.

Lemma WellTyped_insert parms k x :
  WellTyped parms → fits parms (k, x) → WellTyped (<[k := x]> parms).
Proof.
  intros HW (cur & Hk & Ht). simpl in *.
  pose proof HW as (Hf & Hn & Hd).
  assert (∀ k', is_Some (<[k:=x]> parms !! k') → is_Some (parms !! k')) as Hdom.
  { intros k'. destruct (decide (k = k')) as [<-|Hne].
    - by rewrite Hk.
    - by rewrite lookup_insert_ne. }
  split_and!.
  - intros k' Hk'. destruct (decide (k = k')) as [<-|Hne].
    + rewrite lookup_insert_eq. destruct (Hf k Hk') as [b Hb].
      assert (cur = VBool b) as -> by congruence.
      apply typeof_boolean in Ht as [b' ->]. by exists b'.
    + rewrite lookup_insert_ne by done. by apply Hf.
  - intros k' Hk'. destruct (decide (k = k')) as [<-|Hne].
    + rewrite lookup_insert_eq. destruct (Hn k Hk') as [n Hb].
      assert (cur = VNum n) as -> by congruence.
      apply typeof_number in Ht as [n' ->]. by exists n'.
    + rewrite lookup_insert_ne by done. by apply Hn.
  - intros k' Hk'. by apply Hd, Hdom.
Qed.

Lemma fits_insert parms k x kx :
  fits parms (k, x) → fits (<[k := x]> parms) kx ↔ fits parms kx.
Proof.
  intros (cur & Hk & Ht). unfold fits. simpl in *.
  destruct (decide (k = kx.1)) as [E|Hne].
  - rewrite <- E, lookup_insert_eq, Hk. split.
    + intros (c & [= <-] & Hc). exists cur. split; [done|congruence].
    + intros (c & [= <-] & Hc). exists x. split; [done|congruence].
  - by rewrite lookup_insert_ne.
Qed.

(** One turn of the loop, for a property that fits. *)
Lemma setTuningParameter_fits v key x s :
  WellTyped (tuningParameters s) → MonitorInv s → fits (tuningParameters s) (key, x) →
  ∃ s', setTuningParameter v key x s = inr s'
        ∧ tuningParameters s' = <[key := x]> (tuningParameters s)
        ∧ MonitorInv s'
        ∧ envDebug s' = envDebug s
        ∧ console s' = console s
        ∧ debugEnabled s' = (if nullish (get_prop "debugLog" v) then debugEnabled s else None).
Proof.
  intros HW HM Hfit. pose proof (WellTyped_insert _ _ _ HW Hfit) as HW'.
  destruct Hfit as (cur & Hk & Ht). simpl in *.
  unfold setTuningParameter. rewrite Hk. cbv zeta.
  assert ((if String.eqb (typeof cur) "boolean"
           then checkParam x (TBasic TyBoolean) "boolean" (Some true)
           else checkParam x (TBasic TyNumber) "number" (Some true)) = inr tt) as ->.
  { destruct (WellTyped_cases _ _ _ HW Hk) as [[_ [b ->]]|[_ [n ->]]]; simpl in *.
    - apply typeof_boolean in Ht as [b' ->]. done.
    - apply typeof_number in Ht as [n' ->]. done. }
  eexists. split; [done|].
  set (s1 := set_tuningParameters (<[key:=x]> (tuningParameters s)) s).
  assert (∃ b, tuningParameter "debugLongCalls" s1 = VBool b) as [b Hb].
  { destruct HW' as (Hf & _). destruct (Hf "debugLongCalls") as [b Hb].
    - unfold flag_keys. set_solver.
    - exists b. unfold tuningParameter, s1. simpl. by rewrite Hb. }
  assert (tuningParameters (syncMonitor s1) = <[key:=x]> (tuningParameters s)
          ∧ MonitorInv (syncMonitor s1)
          ∧ envDebug (syncMonitor s1) = envDebug s
          ∧ console (syncMonitor s1) = console s
          ∧ debugEnabled (syncMonitor s1) = debugEnabled s) as (E1 & E2 & E3 & E4 & E5).
  { unfold syncMonitor, MonitorInv in *. rewrite Hb.
    change (debugLongCallsTimer s1) with (debugLongCallsTimer s).
    unfold tuningParameter in *.
    destruct b, (debugLongCallsTimer s) as [t|] eqn:Et; simpl; rewrite ?Et;
      destruct HM as [Hi _].
    - done.
    - split_and!; try done. rewrite Hi. apply union_empty_r_L.
    - split_and!; try done. rewrite Hi. apply difference_diag_L.
    - done. }
  destruct (nullish (get_prop "debugLog" v)); simpl; split_and!; done.
Qed.



Lemma fits_decide parms kx : fits parms kx ∨ ¬ fits parms kx.
Proof.
  unfold fits. destruct (parms !! kx.1) as [cur|] eqn:E.
  - destruct (decide (typeof kx.2 = typeof cur)) as [Ht|Ht].
    + left. by exists cur.
    + right. intros (c & [= <-] & Hc). done.
  - right. by intros (c & [=] & _).
Qed.

(** One turn of the loop, for a property that does not fit: the exception,
    and nothing is assigned. *)
Lemma setTuningParameter_refused v key x s :
  WellTyped (tuningParameters s) → ¬ fits (tuningParameters s) (key, x) →
  setTuningParameter v key x s = inl (refusal (tuningParameters s) (key, x)).
Proof.
  intros HW Hfit. unfold setTuningParameter, refusal, fits in *. simpl in *.
  destruct (tuningParameters s !! key) as [cur|] eqn:Hk; [|done].
  assert (typeof x ≠ typeof cur) as Ht by (intros Ht; apply Hfit; by exists cur).
  cbv zeta.
  destruct (WellTyped_cases _ _ _ HW Hk) as [[_ [b ->]]|[_ [n ->]]]; simpl in *.
  - unfold checkParamRequired. simpl. destruct (nullish x); [done|]. simpl.
    destruct (String.eqb (typeof x) "boolean") eqn:E; [|done].
    by apply String.eqb_eq in E.
  - unfold checkParamRequired. simpl. destruct (nullish x); [done|]. simpl.
    destruct (String.eqb (typeof x) "number") eqn:E; [|done].
    by apply String.eqb_eq in E.
Qed.

Lemma same_types_insert parms k x : fits parms (k, x) → same_types parms (<[k := x]> parms).
Proof.
  intros (cur & Hk & Ht) k'. simpl in *. destruct (decide (k = k')) as [<-|Hne].
  - rewrite lookup_insert_eq, Hk. simpl. by rewrite Ht.
  - by rewrite lookup_insert_ne.
Qed.

Lemma same_types_fits parms parms' kx : same_types parms parms' → fits parms' kx ↔ fits parms kx.
Proof.
  intros Hs. unfold fits. specialize (Hs kx.1).
  destruct (parms !! kx.1) as [c|], (parms' !! kx.1) as [c'|]; simpl in Hs; try done.
  injection Hs as Hs.
  split; intros (? & [= <-] & ?); eexists; split; try done; congruence.
Qed.

Lemma same_types_refusal parms parms' kx :
  same_types parms parms' → refusal parms' kx = refusal parms kx.
Proof.
  intros Hs. unfold refusal. specialize (Hs kx.1).
  destruct (parms !! kx.1) as [c|], (parms' !! kx.1) as [c'|]; simpl in Hs; try done.
  injection Hs as Hs. by rewrite Hs.
Qed.

(** The loop over properties that fit. *)
Lemma setTuningParameters_loop_fits v good rest s :
  WellTyped (tuningParameters s) → MonitorInv s →
  Forall (fits (tuningParameters s)) good →
  ∃ s1, setTuningParameters_loop v (good ++ rest) s = setTuningParameters_loop v rest s1
        ∧ WellTyped (tuningParameters s1) ∧ MonitorInv s1
        ∧ same_types (tuningParameters s) (tuningParameters s1)
        ∧ envDebug s1 = envDebug s ∧ console s1 = console s
        ∧ (NoDup good.*1 → ∀ k x, (k, x) ∈ good → tuningParameters s1 !! k = Some x)
        ∧ (∀ k, k ∉ good.*1 → tuningParameters s1 !! k = tuningParameters s !! k)
        ∧ debugEnabled s1
          = match good with
            | [] => debugEnabled s
            | _ => if nullish (get_prop "debugLog" v) then debugEnabled s else None
            end.
Proof.
  revert s. induction good as [|[k x] good IH]; intros s HW HM Hfit.
  - exists s. split_and!; try done. intros _ k x Hin. by apply elem_of_nil in Hin.
  - inversion_clear Hfit as [|? ? Hkx Hfit'].
    destruct (setTuningParameter_fits v k x s HW HM Hkx) as (s' & Hs' & Htp & HM' & He & Hc & Hd).
    pose proof (WellTyped_insert _ _ _ HW Hkx) as HW'. rewrite <- Htp in HW'.
    pose proof (same_types_insert _ _ _ Hkx) as Hst. rewrite <- Htp in Hst.
    destruct (IH s' HW' HM') as (s1 & E & HW1 & HM1 & Hst1 & He1 & Hc1 & Hin1 & Hout1 & Hd1).
    { revert Hfit'. apply Forall_impl. intros kx. by apply same_types_fits. }
    exists s1. simpl. rewrite Hs'. split_and!; try done.
    + intros k'. by rewrite Hst1, Hst.
    + congruence.
    + congruence.
    + intros Hnd k' x' Hin. apply list.NoDup_cons in Hnd as [Hk Hnd].
      apply elem_of_cons in Hin as [[= -> ->]|Hin].
      * rewrite Hout1 by done. rewrite Htp. apply lookup_insert_eq.
      * by apply Hin1.
    + intros k' Hk'. apply not_elem_of_cons in Hk' as [Hne Hk'].
      rewrite Hout1 by done. rewrite Htp. by apply lookup_insert_ne.
    + rewrite Hd1, Hd. destruct good; by destruct (nullish _).
Qed.

(** The loop keeps the types of the tuning parameters and the monitor in
    step with its flag, whatever the properties are. *)
Lemma setTuningParameters_loop_inv v todo s :
  WellTyped (tuningParameters s) → MonitorInv s →
  WellTyped (tuningParameters (setTuningParameters_loop v todo s).1)
  ∧ MonitorInv (setTuningParameters_loop v todo s).1.
Proof.
  revert s. induction todo as [|[k x] todo IH]; intros s HW HM; simpl; [done|].
  destruct (fits_decide (tuningParameters s) (k, x)) as [Hfit|Hfit].
  - destruct (setTuningParameter_fits v k x s HW HM Hfit) as (s' & -> & Htp & HM' & _).
    apply IH; [|done]. rewrite Htp. by apply WellTyped_insert.
  - by rewrite (setTuningParameter_refused v k x s HW Hfit).
Qed.

Lemma debugLog_fields line s :
  tuningParameters (debugLog line s) = tuningParameters s
  ∧ debugLongCallsTimer (debugLog line s) = debugLongCallsTimer s
  ∧ intervals (debugLog line s) = intervals s
  ∧ envDebug (debugLog line s) = envDebug s.
Proof. unfold debugLog. by repeat case_match. Qed.

Lemma setTuningParameters_inv (val : @JsVal num) s :
  WellTyped (tuningParameters s) → MonitorInv s →
  WellTyped (tuningParameters (setTuningParameters val s).1)
  ∧ MonitorInv (setTuningParameters val s).1.
Proof.
  intros HW HM. unfold setTuningParameters. case_match; [done|].
  pose proof (setTuningParameters_loop_inv (props_of val) (props_of val) s HW HM) as [H1 H2].
  destruct (setTuningParameters_loop _ _ s) as [s' [e|]]; [done|]. simpl in *.
  destruct (debugLog_fields (LogTuning (tuningParameters s')) s') as (E1 & E2 & E3 & _).
  split; [by rewrite E1|].
  unfold MonitorInv, tuningParameter in *. by rewrite E1, E2, E3.
Qed.

Lemma WellTyped_default : WellTyped (@tuningParametersDefault num _).
Proof.
  unfold WellTyped, tuningParametersDefault, flag_keys, number_keys. split_and!.
  - intros k Hk. repeat (apply elem_of_cons in Hk as [->|Hk]; [by eexists|]).
    by apply elem_of_nil in Hk.
  - intros k Hk. repeat (apply elem_of_cons in Hk as [->|Hk]; [by eexists|]).
    by apply elem_of_nil in Hk.
  - intros k [x Hk].
    repeat (apply lookup_insert_Some in Hk as [[<- _]|[_ Hk]];
            [repeat first [by left|right]|]).
    done.
Qed.

(** X17: starting from the loaded module, after any sequence of calls of
    [setTuningParameters], with whatever arguments and whether they throw or
    not, the tuning object has its six properties and no other, the three
    flags are booleans and the three limits are numbers, and the monitor
    timer is running exactly when [debugLongCalls] is [true], as the only
    interval timer of the module. *)
Theorem setTuningParameters_keeps_types_and_monitor (env : bool) (calls : list (@JsVal num)) :
  let s := foldl (fun s val => (setTuningParameters val s).1) (loaded env) calls in
  WellTyped (tuningParameters s) ∧ MonitorInv s.
Proof.
  cbv zeta.
  assert (WellTyped (tuningParameters (loaded env)) ∧ MonitorInv (loaded env)) as Hinit.
  { split; [apply WellTyped_default|]. done. }
  revert Hinit. generalize (loaded env).
  induction calls as [|val calls IH]; intros s [HW HM]; simpl; [done|].
  apply IH. by apply setTuningParameters_inv.
Qed.


(** X18: [setTuningParameters] is not atomic.  For an object whose first
    properties [good] fit the tuning object (known names, values of the
    type of the current ones) the call assigns them all and returns; when a
    property that does not fit follows them, the call throws the
    [TypeError] of that property after it has assigned the ones before it,
    and the properties after it are not looked at. *)
Theorem setTuningParameters_applies_until_refused (s : @TuningState num) (callable : bool) (classes : list string) (good : list (string * @JsVal num)) :
  WellTyped (tuningParameters s) → MonitorInv s →
  "Object" ∈ classes → NoDup good.*1 →
  Forall (fits (tuningParameters s)) good →
  let assigned s' :=
    (∀ k x, (k, x) ∈ good → tuningParameters s' !! k = Some x)
    ∧ (∀ k, k ∉ good.*1 → tuningParameters s' !! k = tuningParameters s !! k) in
  (∃ s', setTuningParameters (VObj callable classes good) s = (s', None) ∧ assigned s')
  ∧ (∀ kx rest, ¬ fits (tuningParameters s) kx →
       ∃ s', setTuningParameters (VObj callable classes (good ++ kx :: rest)) s
             = (s', Some (refusal (tuningParameters s) kx))
             ∧ assigned s' ∧ console s' = console s).
Proof.
  intros HW HM Hobj Hnd Hfit. cbv zeta.
  assert (∀ props, checkParam (VObj callable classes props) (TClass "Object") "Object"
                     (Some false) = inr tt) as Hchk.
  { intros props. unfold checkParam, checkParamRequired. simpl.
    by rewrite bool_decide_eq_true_2. }
  split.
  - destruct (setTuningParameters_loop_fits good good [] s HW HM Hfit)
      as (s1 & E & _ & _ & _ & _ & _ & Hin & Hout & _).
    rewrite app_nil_r in E. simpl in E.
    exists (debugLog (LogTuning (tuningParameters s1)) s1).
    unfold setTuningParameters. rewrite Hchk. simpl. rewrite E.
    destruct (debugLog_fields (LogTuning (tuningParameters s1)) s1) as (-> & _).
    split; [done|]. split; [by apply Hin|done].
  - intros [k x] rest Hbad.
    destruct (setTuningParameters_loop_fits (good ++ (k, x) :: rest) good ((k, x) :: rest)
                s HW HM Hfit) as (s1 & E & HW1 & _ & Hst & _ & Hc & Hin & Hout & _).
    exists s1. unfold setTuningParameters. rewrite Hchk. simpl props_of. rewrite E.
    simpl. rewrite (setTuningParameter_refused _ k x s1 HW1).
    + rewrite (same_types_refusal _ _ _ Hst). split; [done|]. split; [|done].
      split; [by apply Hin|done].
    + by rewrite (same_types_fits _ _ _ Hst).
Qed.

(** X19: an argument that is not an object.  [undefined], [null] and the
    other false values ([false], 0, NaN, the empty string) are accepted and
    change no tuning parameter and no timer; a true primitive, or an object
    that is not an instance of [Object], is refused with a [TypeError] and
    changes nothing at all. *)
Theorem setTuningParameters_not_an_object (val : @JsVal num) (s : @TuningState num) :
  (truthy val = false →
     (setTuningParameters val s).2 = None
     ∧ tuningParameters (setTuningParameters val s).1 = tuningParameters s
     ∧ debugLongCallsTimer (setTuningParameters val s).1 = debugLongCallsTimer s
     ∧ intervals (setTuningParameters val s).1 = intervals s)
  ∧ (truthy val = true → instanceof val "Object" = false →
     setTuningParameters val s
     = (s, Some (mkTypeError "Parameter must be of type Object"))).
Proof.
  split.
  - intros Hf. unfold setTuningParameters, checkParam, checkParamRequired. simpl.
    rewrite Hf. simpl.
    assert (props_of val = []) as -> by (by destruct val).
    destruct (nullish val); simpl;
      destruct (debugLog_fields (LogTuning (tuningParameters s)) s) as (? & ? & ? & _);
      done.
  - intros Ht Hi. unfold setTuningParameters, checkParam, checkParamRequired. simpl.
    rewrite Ht, Hi. simpl. by destruct val.
Qed.

(** X20: what the parameter checks let through.  [checkParam] accepts a
    value that is [null] or [undefined] only when called with [false] as
    its last argument; any other value must have the basic type asked for,
    or, for a constructor, be an instance of it or be false ([false], 0,
    NaN, the empty string).  [checkParamCBRequired] accepts [null] and
    [undefined] when the callback is not required, and otherwise functions
    and the false values. *)
Theorem checkParam_accepts (b : @JsVal num) (t : ParamType) (m : string) (o : option bool) (required : bool) :
  (checkParam b t m o = inr tt ↔
     (nullish b = true ∧ o = Some false)
     ∨ (nullish b = false
        ∧ match t with
          | TBasic t => typeof b = basic_name t
          | TClass t => truthy b = false ∨ instanceof b t = true
          end))
  ∧ (checkParamCBRequired b required = inr tt ↔
       (nullish b = true ∧ required = false)
       ∨ (nullish b = false ∧ (truthy b = false ∨ typeof b = "function"))).
Proof.
  split.
  - assert (checkParam b t m o
            = checkParamRequired b t m (match o with Some o => o | None => true end)) as ->
      by (by destruct o).
    unfold checkParamRequired. destruct (nullish b) eqn:Hn.
    + rewrite !andb_true_r. destruct o as [[]|]; simpl; split; try done.
      * by intros [[_ [=]]|[[=] _]].
      * by left.
      * by intros [[_ [=]]|[[=] _]].
    + rewrite !andb_false_r.
      assert (∀ P Q : Prop, Q ↔ P → Q ↔ (false = true ∧ o = Some false) ∨ (false = false ∧ P))
        as Hiff by (intros P Q HPQ; rewrite HPQ; split; [auto|by intros [[[=] _]|[_ ?]]]).
      apply Hiff. destruct t as [t|t].
      * destruct (String.eqb (typeof b) (basic_name t)) eqn:E; simpl.
        -- apply String.eqb_eq in E. done.
        -- apply String.eqb_neq in E. done.
      * destruct (truthy b), (instanceof b t); simpl; split; try done; auto.
        by intros [[=]|[=]].
  - unfold checkParamCBRequired. destruct (nullish b) eqn:Hn.
    + rewrite andb_true_r. assert (truthy b = false) as -> by (by destruct b).
      destruct required; simpl; split; try done.
      * by intros [[_ [=]]|[[=] _]].
      * by left.
    + rewrite andb_false_r.
      assert (∀ P Q : Prop, Q ↔ P →
                Q ↔ (false = true ∧ required = false) ∨ (false = false ∧ P))
        as Hiff by (intros P Q HPQ; rewrite HPQ; split; [auto|by intros [[[=] _]|[_ ?]]]).
      apply Hiff.
      destruct (truthy b); simpl; [|split; auto].
      destruct (String.eqb (typeof b) "function") eqn:E; simpl.
      * apply String.eqb_eq in E. split; auto.
      * apply String.eqb_neq in E. split; [done|]. by intros [[=]|?].
Qed.

Lemma get_prop_elem_of v k x : NoDup v.*1 → (k, x) ∈ v → get_prop k v = x.
Proof.
  induction v as [|[k' x'] v IH]; simpl; intros Hnd Hin.
  - by apply elem_of_nil in Hin.
  - apply list.NoDup_cons in Hnd as [Hk' Hnd].
    apply elem_of_cons in Hin as [[= -> ->]|Hin].
    + by rewrite String.eqb_refl.
    + destruct (String.eqb k k') eqn:E; [|by apply IH].
      apply String.eqb_eq in E. subst k'. exfalso. apply Hk'.
      apply list_elem_of_fmap. by exists (k, x).
Qed.

Lemma get_prop_not_elem_of v k : k ∉ v.*1 → get_prop k v = VUndefined.
Proof.
  induction v as [|[k' x'] v IH]; simpl; intros Hk; [done|].
  apply not_elem_of_cons in Hk as [Hne Hk].
  destruct (String.eqb k k') eqn:E; [|by apply IH].
  by apply String.eqb_eq in E.
Qed.

(** X21: a call that sets [debugLog] switches the logging at once: after
    it [debugEnabled] is the new value of the flag, or [true] where the
    environment variable [MQIJS_DEBUG] is set, and the line with the tuning
    parameters is printed exactly when it is [true].  A call that does not
    name [debugLog] leaves a computed [debugEnabled] as it is. *)
Theorem setTuningParameters_switches_logging (s : @TuningState num) (callable : bool) (classes : list string) (props : list (string * @JsVal num)) :
  WellTyped (tuningParameters s) → MonitorInv s →
  "Object" ∈ classes → NoDup props.*1 →
  Forall (fits (tuningParameters s)) props →
  let s' := (setTuningParameters (VObj callable classes props) s).1 in
  (∀ b, ("debugLog", VBool b) ∈ props →
     debugEnabled s' = Some (b || envDebug s)
     ∧ console s'
       = if b || envDebug s then console s ++ [LogTuning (tuningParameters s')]
         else console s)
  ∧ ("debugLog" ∉ props.*1 →
     ∀ e, debugEnabled s = Some e →
       debugEnabled s' = Some e
       ∧ console s'
         = if e then console s ++ [LogTuning (tuningParameters s')] else console s).
Proof.
  intros HW HM Hobj Hnd Hfit. cbv zeta.
  destruct (setTuningParameters_loop_fits props props [] s HW HM Hfit)
    as (s1 & E & _ & _ & _ & He & Hc & Hin & Hout & Hd).
  rewrite app_nil_r in E. simpl in E.
  assert (setTuningParameters (VObj callable classes props) s
          = (debugLog (LogTuning (tuningParameters s1)) s1, None)) as ->.
  { unfold setTuningParameters, checkParam, checkParamRequired. simpl.
    rewrite bool_decide_eq_true_2 by done. simpl. by rewrite E. }
  simpl. destruct (debugLog_fields (LogTuning (tuningParameters s1)) s1) as (-> & _).
  split.
  - intros b Hb. rewrite (get_prop_elem_of _ _ _ Hnd Hb) in Hd.
    assert (debugEnabled s1 = None) as Hd' by (destruct props; [by apply elem_of_nil in Hb|done]).
    unfold debugLog, tuningParameter. rewrite Hd', (Hin Hnd _ _ Hb), He. simpl.
    destruct (b || envDebug s); simpl; by rewrite ?Hc.
  - intros Hno e Hen. rewrite (get_prop_not_elem_of _ _ Hno) in Hd. simpl in Hd.
    assert (debugEnabled s1 = Some e) as Hd' by (destruct props; congruence).
    unfold debugLog. rewrite Hd'. simpl. rewrite Hd'.
    destruct e; simpl; by rewrite ?Hc.
Qed.

End TuningFacts.

Lemma MonitorInv_loaded env : Tuning.MonitorInv (Tuning.loaded (num := Z) env).
Proof. split; [done|]. vm_compute. reflexivity. Qed.

Lemma setTuningParameters_applies_until_refused_witness :
  ∃ s', Tuning.setTuningParameters
          (Tuning.VObj false ["Object"%string]
             [("maxConsecutiveGets"%string, Tuning.VNum 20);
              ("debugLongCalls"%string, Tuning.VNum 1);
              ("getLoopDelayTimeMs"%string, Tuning.VNum 5)])
          (Tuning.loaded false)
        = (s', Some (Tuning.mkTypeError "Parameter must be of type boolean"))
        ∧ Tuning.tuningParameters s' !! "maxConsecutiveGets"%string = Some (Tuning.VNum 20)
        ∧ Tuning.tuningParameters s' !! "getLoopDelayTimeMs"%string = Some (Tuning.VNum 250).
Proof.
  assert (Tuning.fits (Tuning.tuningParameters (Tuning.loaded false))
            ("maxConsecutiveGets"%string, Tuning.VNum (num := Z) 20)) as Hfit.
  { exists (Tuning.VNum 100). split; vm_compute; reflexivity. }
  assert (¬ Tuning.fits (Tuning.tuningParameters (Tuning.loaded false))
            ("debugLongCalls"%string, Tuning.VNum (num := Z) 1)) as Hbad.
  { intros (cur & Hk & Ht). vm_compute in Hk. injection Hk as <-. discriminate Ht. }
  destruct (proj2 (setTuningParameters_applies_until_refused
                     (Tuning.loaded false) false ["Object"%string]
                     [("maxConsecutiveGets"%string, Tuning.VNum 20)]
                     WellTyped_default (MonitorInv_loaded false)
                     (list_elem_of_here _ _) (NoDup_singleton _)
                     (Forall_cons_2 _ _ _ Hfit (Forall_nil_2 _)))
                  ("debugLongCalls"%string, Tuning.VNum 1)
                  [("getLoopDelayTimeMs"%string, Tuning.VNum 5)] Hbad)
    as (s' & E & [Hin Hout] & _).
  exists s'. split; [exact E|]. split.
  - apply Hin. apply list_elem_of_here.
  - rewrite Hout; [vm_compute; reflexivity|].
    intros Hin'. apply list_elem_of_singleton in Hin'. discriminate Hin'.
Defined.

Lemma setTuningParameters_switches_logging_witness :
  Tuning.debugEnabled
    (Tuning.setTuningParameters
       (Tuning.VObj false ["Object"%string] [("debugLog"%string, Tuning.VBool true)])
       (Tuning.loaded (num := Z) false)).1 = Some true.
Proof.
  assert (Tuning.fits (Tuning.tuningParameters (Tuning.loaded false))
            ("debugLog"%string, Tuning.VBool (num := Z) true)) as Hfit.
  { exists (Tuning.VBool false). split; vm_compute; reflexivity. }
  exact (proj1 (proj1 (setTuningParameters_switches_logging
                  (Tuning.loaded false) false ["Object"%string]
                  [("debugLog"%string, Tuning.VBool true)]
                  WellTyped_default (MonitorInv_loaded false)
                  (list_elem_of_here _ _) (NoDup_singleton _)
                  (Forall_cons_2 _ _ _ Hfit (Forall_nil_2 _)))
                true (list_elem_of_here _ _))).
Defined.

(** * Inquire and set *)

Global Arguments Attrs.mqcaLen : simpl never.
Global Arguments Attrs.isMQIA : simpl never.
Global Arguments Attrs.isMQCA : simpl never.

Section AttrFacts.
Import Attrs.
Context `{MQCTable} `{JsStrings}.
Implicit Types (a : MQAttr) (sels : list MQAttr) (s : Z).

(** Once the first loop has accepted a selector, the second call of
    [mqcaLen], with a name count, gives the same length. *)
Lemma mqcaLen_agree s n : 0 < mqcaLen s None → mqcaLen s n = mqcaLen s None.
Proof.
  unfold mqcaLen. destruct (switch_on s mqcaLen_cases) as [[rc|]|]; simpl; try done; lia.
Qed.

Lemma switch_on_first s pre labels body post :
  s ∈ labels → (∀ ls b, (ls, b) ∈ pre → s ∉ ls) →
  switch_on s (pre ++ (labels, body) :: post) = Some body.
Proof.
  intros Hin Hpre. induction pre as [|[ls b] pre IH]; simpl.
  - rewrite (proj2 (existsb_exists _ _)); [done|].
    exists s. split; [by apply list_elem_of_In|apply Z.eqb_refl].
  - destruct (existsb (Z.eqb s) ls) eqn:E.
    + apply existsb_exists in E as [x [Hx ->%Z.eqb_eq]].
      exfalso. apply (Hpre ls b); [by left|by apply list_elem_of_In].
    + apply IH. intros ls' b' Hin'. apply (Hpre ls' b'). by right.
Qed.

Lemma elem_of_concat {A} (x : A) (l : list A) (ls : list (list A)) :
  x ∈ l → l ∈ ls → x ∈ concat ls.
Proof.
  intros Hx Hl. induction ls as [|l' ls IH]; simpl; [by apply elem_of_nil in Hl|].
  apply elem_of_app. apply elem_of_cons in Hl as [->|Hl]; [by left|right; by apply IH].
Qed.

Lemma switch_on_names : NoDup mqcaLen_labels → switch_on MQCA_NAMES mqcaLen_cases = Some NamesLen.
Proof.
  intros Hnd.
  change mqcaLen_cases with (take 21 mqcaLen_cases ++ ([MQCA_NAMES], NamesLen) :: drop 22 mqcaLen_cases).
  apply switch_on_first; [by left|].
  intros ls b Hin Hl.
  change mqcaLen_labels
    with (concat (map fst (take 21 mqcaLen_cases)) ++ [MQCA_NAMES]
          ++ concat (map fst (drop 22 mqcaLen_cases))) in Hnd.
  apply list.NoDup_app in Hnd as (_ & Hdis & _).
  apply (Hdis MQCA_NAMES); [|by left].
  apply (elem_of_concat _ ls); [done|].
  apply list_elem_of_fmap. by exists (ls, b).
Qed.

Lemma accepted_char a :
  accepted a = true → isMQIA (selector a) = false →
  isMQCA (selector a) = true ∧ 0 < mqcaLen (selector a) None.
Proof.
  unfold accepted. intros Ha Hi. rewrite Hi in Ha. simpl in Ha.
  apply andb_true_iff in Ha as [Hc Hl]. split; [done|]. by apply Z.gtb_lt in Hl.
Qed.

Lemma not_accepted a :
  accepted a = false →
  isMQIA (selector a) = false
  ∧ (isMQCA (selector a) = false ∨ mqcaLen (selector a) None ≤ 0).
Proof.
  unfold accepted. intros Ha. apply orb_false_iff in Ha as [Hi Hc]. split; [done|].
  apply andb_false_iff in Hc as [Hc|Hl]; [by left|right].
  destruct (Z.gtb_spec (mqcaLen (selector a) None) 0); [done|lia].
Qed.

Lemma char_offset_S sels a i :
  char_offset (a :: sels) (S i) = char_len a + char_offset sels i.
Proof. done. Qed.

Lemma int_index_S sels a i :
  int_index (a :: sels) (S i)
  = ((if isMQIA (selector a) then 1 else 0) + int_index sels i)%nat.
Proof.
  unfold int_index. simpl. rewrite filter_cons.
  destruct (decide (isMQIA (selector a) = true)) as [E|E].
  - by rewrite E.
  - apply not_true_is_false in E. by rewrite E.
Qed.

(** The first loop of [Inq]. *)
Lemma inq_scan_bad sels acc bad :
  (inq_scan sels acc bad).2 = bad || negb (forallb accepted sels).
Proof.
  revert acc bad. induction sels as [|a sels IH]; intros acc bad; simpl.
  - by destruct bad.
  - destruct (accepted a) eqn:Ha; simpl.
    + destruct (isMQIA (selector a)) eqn:Hi; [apply IH|].
      destruct (accepted_char a Ha Hi) as [-> Hl].
      rewrite (proj2 (Z.gtb_lt _ _)) by done. apply IH.
    + destruct (not_accepted a Ha) as [-> Hc].
      assert (∀ acc', (inq_scan sels acc' true).2 = bad || true) as Htrue.
      { intros acc'. rewrite IH. by destruct bad. }
      destruct (isMQCA (selector a)); [|apply Htrue].
      destruct Hc as [Hc|Hc]; [done|].
      destruct (Z.gtb_spec (mqcaLen (selector a) None) 0); [lia|apply Htrue].
Qed.

Lemma inq_scan_len sels acc bad :
  forallb accepted sels = true →
  (inq_scan sels acc bad).1 = acc + char_offset sels (length sels).
Proof.
  revert acc bad. induction sels as [|a sels IH]; intros acc bad Hall; simpl.
  - unfold char_offset. simpl. lia.
  - apply andb_true_iff in Hall as [Ha Hall]. rewrite char_offset_S. unfold char_len.
    destruct (isMQIA (selector a)) eqn:Hi; [rewrite IH by done; lia|].
    destruct (accepted_char a Ha Hi) as [-> Hl].
    rewrite (proj2 (Z.gtb_lt _ _)) by done. rewrite IH by done. lia.
Qed.

(** The second loop of [Inq], from the indices [k] and [off]. *)
Lemma inq_unpack_lookup sels ints chars k off nc i a :
  forallb accepted sels = true → sels !! i = Some a →
  inq_unpack sels ints chars k off nc !! i
  = Some (attr_set_value
            (if isMQIA (selector a)
             then match ints !! (k + int_index sels i)%nat with
                  | Some z => AInt z
                  | None => AUndefined
                  end
             else AStr (getMQIString
                          (slice chars (off + char_offset sels i)
                                 (mqcaLen (selector a) None)))) a).
Proof.
  revert k off nc i. induction sels as [|b sels IH]; intros k off nc i Hall Hi; [done|].
  apply andb_true_iff in Hall as [Hb Hall].
  destruct i as [|i]; simpl in Hi.
  - injection Hi as ->. simpl. unfold int_index, char_offset. simpl.
    rewrite Nat.add_0_r, Z.add_0_r.
    destruct (isMQIA (selector a)) eqn:Hia; [done|].
    destruct (accepted_char a Hb Hia) as [-> Hl].
    rewrite (mqcaLen_agree _ nc Hl). by rewrite (proj2 (Z.gtb_lt _ _)) by done.
  - simpl. rewrite int_index_S, char_offset_S. unfold char_len.
    destruct (isMQIA (selector b)) eqn:Hib.
    + simpl. rewrite (IH _ _ _ _ Hall Hi).
      replace (k + (1 + int_index sels i))%nat with (S k + int_index sels i)%nat by lia.
      by rewrite Z.add_0_l.
    + destruct (accepted_char b Hb Hib) as [-> Hl].
      rewrite (mqcaLen_agree _ nc Hl). rewrite (proj2 (Z.gtb_lt _ _)) by done.
      simpl. rewrite (IH _ _ _ _ Hall Hi).
      by rewrite Z.add_assoc.
Qed.

Lemma inq_unpack_length sels ints chars k off nc :
  length (inq_unpack sels ints chars k off nc) = length sels.
Proof.
  revert k off nc. induction sels as [|b sels IH]; intros k off nc; simpl; [done|].
  repeat case_match; simpl; by rewrite IH.
Qed.

(** ** Strings *)

Lemma append_assoc_s (s1 s2 s3 : string) : (s1 +:+ s2) +:+ s3 = s1 +:+ (s2 +:+ s3).
Proof.
  induction s1 as [|c s1 IH]; rewrite ?append_cons, ?append_nil; simpl; [done|].
  by rewrite IH.
Qed.

Lemma append_empty_r (s1 : string) : s1 +:+ "" = s1.
Proof.
  induction s1 as [|c s1 IH]; rewrite ?append_cons, ?append_nil; simpl; [done|].
  by rewrite IH.
Qed.









(** The loop of [Set]: a value that a cell refuses ends it. *)
Lemma set_scan_refused sels ints chars bad :
  forallb storable sels = false → set_scan sels ints chars bad = None.
Proof.
  revert ints chars bad. induction sels as [|a sels IH]; intros ints chars bad; simpl; [done|].
  unfold storable at 1. destruct (isMQIA (selector a)) eqn:Hi; simpl.
  - destruct (attr_cell a) as [z|] eqn:Hz; [|done].
    rewrite bool_decide_eq_true_2 by by eexists. simpl. apply IH.
  - intros Hall. repeat case_match; by apply IH.
Qed.

Lemma set_scan_stored sels ints chars bad :
  forallb storable sels = true →
  ∃ ints' chars',
    set_scan sels ints chars bad
    = Some (ints', chars', bad || negb (forallb accepted sels))
    ∧ Some <$> ints'
      = (Some <$> ints) ++ (attr_cell <$> filter (fun a => isMQIA (selector a) = true) sels)
    ∧ (forallb accepted sels = true →
       chars' = chars +:+ foldr append ""
                  (map (fun a => padded (value a) (mqcaLen (selector a) None))
                       (filter (fun a => isMQIA (selector a) = false) sels))).
Proof.
  revert ints chars bad. induction sels as [|a sels IH]; intros ints chars bad Hall; simpl.
  - exists ints, chars. rewrite app_nil_r, append_empty_r, orb_false_r. done.
  - simpl in Hall. apply andb_true_iff in Hall as [Ha Hall]. rewrite !filter_cons.
    unfold storable in Ha. destruct (isMQIA (selector a)) eqn:Hi; simpl in Ha.
    + apply bool_decide_eq_true in Ha as [z Hz]. rewrite Hz.
      destruct (IH (ints ++ [z]) chars bad Hall) as (ints' & chars' & E & Ei & Ec).
      exists ints', chars'. rewrite decide_True, decide_False by done.
      assert (accepted a = true) as -> by (unfold accepted; by rewrite Hi).
      split; [done|]. split; [|done].
      rewrite Ei, fmap_app, fmap_cons, <- app_assoc. simpl. by rewrite Hz.
    + rewrite decide_False, decide_True by done.
      destruct (accepted a) eqn:Hacc.
      * destruct (accepted_char a Hacc Hi) as [-> Hl].
        rewrite (proj2 (Z.gtb_lt _ _)) by done.
        destruct (IH ints (chars +:+ slice (attr_string (value a) +:+ padding256) 0
                                        (mqcaLen (selector a) None)) bad Hall)
          as (ints' & chars' & E & Ei & Ec).
        exists ints', chars'. split; [done|]. split; [done|]. intros Hacc'.
        rewrite (Ec Hacc'). simpl. by rewrite append_assoc_s.
      * destruct (not_accepted a Hacc) as [_ Hc].
        assert (∀ i c, ∃ ints' chars',
                  set_scan sels i c true = Some (ints', chars', bad || true)
                  ∧ Some <$> ints'
                    = (Some <$> i)
                      ++ (attr_cell <$> filter (fun a => isMQIA (selector a) = true) sels))
          as Htrue.
        { intros i c. destruct (IH i c true Hall) as (ints' & chars' & E & Ei & _).
          exists ints', chars'. split; [|done]. rewrite E. by destruct bad. }
        assert (∃ ints' chars',
                  (if isMQCA (selector a)
                   then if mqcaLen (selector a) None >? 0
                        then set_scan sels ints
                               (chars +:+ slice (attr_string (value a) +:+ padding256) 0
                                            (mqcaLen (selector a) None)) bad
                        else set_scan sels ints chars true
                   else set_scan sels ints chars true)
                  = Some (ints', chars', bad || true)
                  ∧ Some <$> ints'
                    = (Some <$> ints)
                      ++ (attr_cell <$> filter (fun a => isMQIA (selector a) = true) sels))
          as (ints' & chars' & E & Ei).
        { destruct (isMQCA (selector a)); [|apply Htrue].
          destruct Hc as [Hc|Hc]; [done|].
          destruct (Z.gtb_spec (mqcaLen (selector a) None) 0); [lia|apply Htrue]. }
        exists ints', chars'. simpl. split; [done|]. split; [done|]. done.
Qed.

Lemma ending_failed cb err :
  ending cb MQC.MQCC_FAILED err = if cb then CallbackError err else Throws err.
Proof. by destruct cb. Qed.

(** X22: [Inq] looks at all the selectors before it calls [MQINQ].  When
    one of them is neither an integer attribute nor a character attribute
    whose length [mqcaLen] knows, [MQINQ] is not called, no value is
    changed and the verb ends with [MQCC_FAILED] and [MQRC_BAD_SELECTOR],
    given to the callback or thrown.  Otherwise [MQINQ] is called once,
    with all the selectors, room for as many integers as there are
    selectors, and a character buffer of the summed lengths. *)
Theorem Inq_checks_selectors_first (jsObject : MQObject) (jsSelectors : list MQAttr) (cb : bool) (MQINQ : MQINQCall → MQINQResult) :
  (forallb accepted jsSelectors = false →
     Inq jsObject jsSelectors cb MQINQ
     = {| inq_call := None;
          inq_selectors_after := jsSelectors;
          inq_ending :=
            let err := mkError MQC.MQCC_FAILED MQRC_BAD_SELECTOR "INQ" in
            if cb then CallbackError err else Throws err |})
  ∧ (forallb accepted jsSelectors = true →
     inq_call (Inq jsObject jsSelectors cb MQINQ)
     = Some {| inq_hConn := hConnOf jsObject;
               inq_hObj := _hObj jsObject;
               inq_selectors := map selector jsSelectors;
               inq_intAttrCount := length jsSelectors;
               inq_charAttrLen := char_offset jsSelectors (length jsSelectors) |}).
Proof.
  unfold Inq.
  pose proof (inq_scan_bad jsSelectors 0 false) as Hbad.
  pose proof (inq_scan_len jsSelectors 0 false) as Hlen.
  destruct (inq_scan jsSelectors 0 false) as [charAttrLen badSelector].
  simpl in Hbad, Hlen. split; intros Hall; rewrite Hall in Hbad; simpl in Hbad;
    subst badSelector.
  - simpl. by rewrite ending_failed.
  - simpl. by rewrite (Hlen Hall), Z.add_0_l.
Qed.

(** X23: a namelist can be neither inquired nor set.  Where the labels of
    [mqcaLen] are distinct and [MQCA_NAMES] is not in the integer range,
    [Inq] and [Set] refuse every array that names [MQCA_NAMES], whatever
    else it names (an [MQIA_NAME_COUNT] before it included): their first
    loop calls [mqcaLen] without a name count.  [Set] does not call
    [MQSET] either when the loop is left by the [RangeError] of an integer
    value that a cell refuses. *)
Theorem Inq_and_Set_refuse_names (jsObject : MQObject) (jsSelectors : list MQAttr) (cb : bool) (MQINQ : MQINQCall → MQINQResult) (MQSET : MQSETCall → Z * Z) :
  NoDup mqcaLen_labels → isMQIA MQCA_NAMES = false →
  MQCA_NAMES ∈ map selector jsSelectors →
  inq_call (Inq jsObject jsSelectors cb MQINQ) = None
  ∧ inq_ending (Inq jsObject jsSelectors cb MQINQ)
    = (let err := mkError MQC.MQCC_FAILED MQRC_BAD_SELECTOR "INQ" in
       if cb then CallbackError err else Throws err)
  ∧ set_call (Set_ jsObject jsSelectors cb MQSET) = None
  ∧ set_ending (Set_ jsObject jsSelectors cb MQSET)
    = (if forallb storable jsSelectors
       then let err := mkError MQC.MQCC_FAILED MQRC_SELECTOR_ERROR "SET" in
            if cb then CallbackError err else Throws err
       else ThrowsRangeError).
Proof.
  intros Hnd Hia Hin.
  assert (forallb accepted jsSelectors = false) as Hall.
  { apply not_true_is_false. intros Hall.
    apply list_elem_of_fmap in Hin as [a [Hsel Ha]].
    rewrite forallb_forall in Hall.
    pose proof (Hall a (proj1 (list_elem_of_In _ _) Ha)) as Hacc.
    assert (isMQIA (selector a) = false) as Hia' by (by rewrite <- Hsel).
    destruct (accepted_char a Hacc Hia') as [_ Hl].
    unfold mqcaLen in Hl. rewrite <- Hsel, (switch_on_names Hnd) in Hl. lia. }
  split_and!.
  - unfold Inq. pose proof (inq_scan_bad jsSelectors 0 false) as Hbad.
    destruct (inq_scan jsSelectors 0 false) as [charAttrLen badSelector].
    simpl in Hbad. rewrite Hall in Hbad. by subst.
  - unfold Inq. pose proof (inq_scan_bad jsSelectors 0 false) as Hbad.
    destruct (inq_scan jsSelectors 0 false) as [charAttrLen badSelector].
    simpl in Hbad. rewrite Hall in Hbad. subst. simpl. by rewrite ending_failed.
  - unfold Set_. destruct (forallb storable jsSelectors) eqn:Hst.
    + destruct (set_scan_stored jsSelectors [] "" false Hst) as (ints & chars & -> & _).
      by rewrite Hall.
    + by rewrite (set_scan_refused jsSelectors [] "" false Hst).
  - unfold Set_. destruct (forallb storable jsSelectors) eqn:Hst.
    + destruct (set_scan_stored jsSelectors [] "" false Hst) as (ints & chars & -> & _).
      rewrite Hall. simpl. by rewrite ending_failed.
    + by rewrite (set_scan_refused jsSelectors [] "" false Hst).
Qed.

(** X24: after a call of [MQINQ] that did not fail, [Inq] hands out the
    values in the order of the selectors: the integer attribute at index
    [i] gets the cell of [mqIntAttrs] whose index is the number of integer
    selectors before [i], and the character attribute at index [i] gets the
    string of the bytes that start where the bytes of the character
    attributes before it end and are as many as [mqcaLen] says; the
    selectors themselves are kept.  After a failed call no value is
    changed. *)
Theorem Inq_unpacks_in_order (jsObject : MQObject) (jsSelectors : list MQAttr) (cb : bool) (MQINQ : MQINQCall → MQINQResult) (call : MQINQCall) :
  inq_call (Inq jsObject jsSelectors cb MQINQ) = Some call →
  let r := MQINQ call in
  let after := inq_selectors_after (Inq jsObject jsSelectors cb MQINQ) in
  inq_ending (Inq jsObject jsSelectors cb MQINQ)
  = ending cb (inq_cc r) (mkError (inq_cc r) (inq_rc r) "INQ")
  ∧ (inq_cc r = MQC.MQCC_FAILED → after = jsSelectors)
  ∧ (inq_cc r ≠ MQC.MQCC_FAILED →
     length after = length jsSelectors
     ∧ ∀ i a, jsSelectors !! i = Some a →
         after !! i
         = Some {| selector := selector a;
                   value :=
                     if isMQIA (selector a)
                     then match inq_intAttrs r !! int_index jsSelectors i with
                          | Some z => AInt z
                          | None => AUndefined
                          end
                     else AStr (getMQIString
                                  (slice (inq_charAttrs r) (char_offset jsSelectors i)
                                         (mqcaLen (selector a) None))) |}).
Proof.
  intros Hcall. cbv zeta. revert Hcall. unfold Inq.
  pose proof (inq_scan_bad jsSelectors 0 false) as Hbad.
  destruct (inq_scan jsSelectors 0 false) as [charAttrLen badSelector].
  simpl in Hbad. destruct badSelector; simpl; [done|]. intros [= <-].
  assert (forallb accepted jsSelectors = true) as Hall
    by (by destruct (forallb accepted jsSelectors)).
  split; [done|]. split.
  - intros ->. done.
  - intros Hcc. rewrite (proj2 (Z.eqb_neq _ _) Hcc). simpl.
    split; [apply inq_unpack_length|].
    intros i a Hi. rewrite (inq_unpack_lookup _ _ _ _ _ _ _ _ Hall Hi).
    by rewrite Z.add_0_l.
Qed.


End AttrFacts.

Lemma sampleTable_labels_distinct : NoDup (@Attrs.mqcaLen_labels Attrs.sampleTable).
Proof. apply (bool_decide_unpack _). vm_compute. exact I. Qed.

Lemma Inq_and_Set_refuse_names_witness :
  Attrs.inq_call (@Attrs.Inq Attrs.sampleTable queueA Attrs.namesInquiry true Attrs.answer) = None
  ∧ Attrs.set_call (@Attrs.Set_ Attrs.sampleTable Attrs.sampleStrings queueA Attrs.namesInquiry
                      true (fun _ => (0, 0)))
    = None.
Proof.
  destruct (@Inq_and_Set_refuse_names Attrs.sampleTable Attrs.sampleStrings queueA
              Attrs.namesInquiry true Attrs.answer
              (fun _ => (0, 0)) sampleTable_labels_distinct eq_refl)
    as (H1 & _ & H2 & _).
  - vm_compute. right. left.
  - by split.
Defined.

Lemma Inq_unpacks_in_order_witness :
  Attrs.inq_selectors_after (@Attrs.Inq Attrs.sampleTable queueA Attrs.inquiry true Attrs.answer)
  = [Attrs.mkAttr 3 (Attrs.AInt 5);
     Attrs.mkAttr 2016 (Attrs.AStr ("Q1" +:+ Attrs.spaces 46));
     Attrs.mkAttr 2013 (Attrs.AStr ("first queue" +:+ Attrs.spaces 53))].
Proof.
  pose proof (@Inq_unpacks_in_order Attrs.sampleTable queueA Attrs.inquiry true Attrs.answer _ eq_refl)
    as (_ & _ & Hok).
  destruct (Hok ltac:(discriminate)) as [Hlen Hval].
  apply list_eq. intros [|[|[|i]]].
  - rewrite (Hval 0%nat _ eq_refl). vm_compute. reflexivity.
  - rewrite (Hval 1%nat _ eq_refl). vm_compute. reflexivity.
  - rewrite (Hval 2%nat _ eq_refl). vm_compute. reflexivity.
  - rewrite !lookup_ge_None_2; [done|simpl; lia|rewrite Hlen; simpl; lia].
Defined.


(** * Callbacks and their contexts *)

Lemma own_kept s s' i :
  (nextRef s ≤ nextRef s')%nat →
  (∀ c, (c < nextRef s)%nat →
     cb (store s' c) = cb (store s c) ∧ object (store s' c) = object (store s c)) →
  own s i → own s' i.
Proof.
  intros Hn Hk Ho c Hc. destruct (Ho c Hc) as (Hlt & Hcb & Hob).
  destruct (Hk c Hlt) as [-> ->]. split_and!; [lia|done..].
Qed.

Lemma grows_refl s : grows s s.
Proof. split_and!; [done|done|]. intros i Hi. by left. Qed.

Lemma grows_trans s1 s2 s3 : grows s1 s2 → grows s2 s3 → grows s1 s3.
Proof.
  intros (Hn1 & Hk1 & Ht1) (Hn2 & Hk2 & Ht2). split_and!; [lia| |].
  - intros c Hc. destruct (Hk1 c Hc) as [<- <-]. apply Hk2. lia.
  - intros i Hi. destruct (Ht2 i Hi) as [Hi2|Ho]; [|by right].
    destruct (Ht1 i Hi2) as [Hi1|Ho]; [by left|right].
    by apply (own_kept s2).
Qed.

Lemma Owned_grows s s' : grows s s' → Owned s → Owned s'.
Proof.
  intros (Hn & Hk & Ht) Ho i Hi. destruct (Ht i Hi) as [Hi'|Hown]; [|done].
  apply (own_kept s); [done..|]. by apply Ho.
Qed.

(** A change that leaves the contexts their callbacks and objects and adds
    no invocation. *)
Lemma grows_core s s' :
  nextRef s' = nextRef s →
  (∀ c, ctx_core (store s' c) = ctx_core (store s c)) →
  (∀ i, ObsCall i ∈ trace s' → ObsCall i ∈ trace s) →
  grows s s'.
Proof.
  intros Hn Hc Ht. split_and!; [lia| |by left; apply Ht].
  intros c _. specialize (Hc c). unfold ctx_core in Hc. by injection Hc as -> -> _.
Qed.

Lemma grows_same s s' :
  nextRef s' = nextRef s →
  (∀ c, ctx_core (store s' c) = ctx_core (store s c)) →
  trace s' = trace s →
  grows s s'.
Proof. intros Hn Hc Ht. apply grows_core; [done..|]. by rewrite Ht. Qed.

Lemma grows_upd_ctx c f s :
  (∀ x, cb (f x) = cb x ∧ object (f x) = object x) → grows s (upd_ctx c f s).
Proof.
  intros Hf. split_and!; [done| |by left].
  intros c' _. rewrite store_upd_ctx. case_decide; subst; [apply Hf|done].
Qed.

(** The outermost operation of the state that is reached. *)
Ltac peel :=
  match goal with
  | |- grows ?s ?s => apply grows_refl
  | |- grows _ (upd_ctx ?c ?f ?x) => apply (grows_trans _ x); [|by apply grows_upd_ctx]
  | |- grows _ (deleteUserContext ?o ?x) =>
      apply (grows_trans _ x); [|apply grows_same; unfold deleteUserContext; by case_match]
  | |- grows _ (setTimeout ?j ?d ?x) => apply (grows_trans _ x); [|by apply grows_same]
  | |- grows _ (set_pending ?p ?x) => apply (grows_trans _ x); [|by apply grows_same]
  | |- grows _ (set_messagesRetrievedInHConnPoll ?p ?x) =>
      apply (grows_trans _ x); [|by apply grows_same]
  end.

Lemma pollHObjInternal_trace c md gmo s :
  trace (pollHObjInternal c md gmo s) = trace s
  ∧ nextRef (pollHObjInternal c md gmo s) = nextRef s.
Proof.
  unfold pollHObjInternal, resizeBuffer. unfold_basic. by repeat case_match.
Qed.

Lemma grows_pollHObjInternal c md gmo s : grows s (pollHObjInternal c md gmo s).
Proof.
  destruct (pollHObjInternal_trace c md gmo s) as [Et En].
  apply grows_core; [done|apply pollHObjInternal_core|by rewrite Et].
Qed.

Lemma grows_pollHobjs h s : grows s (pollHobjs h s).
Proof.
  apply grows_core.
  - pose proof (pollHobjs_registry h s) as E. unfold registry in E. congruence.
  - apply pollHobjs_core.
  - unfold pollHobjs, initGet, pollHObj. repeat case_match; try done.
    match goal with |- context [pollHObjInternal ?c ?md ?gmo ?u] =>
      destruct (pollHObjInternal_trace c md gmo u) as [-> _] end.
    st. intros i Hi. apply elem_of_cons in Hi as [?|?]; done.
Qed.

Lemma grows_reset_all l s :
  grows s (foldl (fun s c => upd_ctx c (fun x => ctx_set_retrieved 0 (ctx_set_state running x)) s)
                 s l).
Proof.
  revert s. induction l as [|c l IH]; intros s; simpl; [apply grows_refl|].
  eapply grows_trans; [|apply IH]. by apply grows_upd_ctx.
Qed.

Lemma grows_pollPerHconn h s : grows s (pollPerHconn h s).
Proof.
  unfold pollPerHconn. cbv zeta. case_match.
  - by apply grows_same.
  - eapply grows_trans; [|apply grows_pollHobjs].
    eapply grows_trans; [|apply grows_reset_all]. by apply grows_same.
Qed.

Lemma grows_pollAllHConns s : grows s (pollAllHConns s).
Proof.
  unfold pollAllHConns. cbv zeta.
  assert (∀ l u, grows u (foldl (fun s hConn =>
               if negb (hConn =? -1) then
                 pollPerHconn hConn (set_hConnsInPoll ({[hConn]} ∪ hConnsInPoll s) s)
               else set_hConnsInPoll (hConnsInPoll s ∖ {[hConn]}) s) u l)) as Hl.
  { induction l as [|h l IH]; intros u; simpl; [apply grows_refl|].
    eapply grows_trans; [|apply IH]. case_match; [|by apply grows_same].
    eapply grows_trans; [|apply grows_pollPerHconn]. by apply grows_same. }
  match goal with |- grows s (if ?b then resetGetLoop ?u else _) =>
    assert (grows s u) as Hu; [|destruct b; [|done]] end.
  - case_match; [apply Hl|apply grows_refl].
  - eapply grows_trans; [exact Hu|]. by apply grows_same.
Qed.

Lemma Get_trace o m g f s : trace (Get o m g f s) = trace s.
Proof.
  unfold Get. rewrite setUserContext_eq. cbv zeta beta iota.
  unfold setTimeout. repeat case_match; by st.
Qed.

Lemma grows_apiCall a s : grows s (apiCall a s).
Proof.
  destruct a as [o m g f|o f|x]; unfold apiCall; [| |by apply grows_same].
  - split_and!.
    + rewrite Get_nextRef. lia.
    + intros c Hc. by rewrite (Get_store_below _ _ _ _ _ _ Hc).
    + intros i Hi. left. by rewrite Get_trace in Hi.
  - destruct (GetDone o f s) as [e|s'] eqn:E; [apply grows_refl|].
    destruct (GetDone_nextRef_clock _ _ _ _ E) as [En _].
    pose proof (GetDone_store _ _ _ _ E) as Es.
    split_and!; [lia|by rewrite Es|].
    intros i Hi. revert E Hi. unfold GetDone. unfold_basic.
    repeat case_match; intros; simplify_eq; simpl in *; try (by left);
      (apply elem_of_cons in Hi as [[= ->]|Hi]; [right; by intros c' Hc'|by left]).
Qed.

Lemma grows_calls calls s : grows s (foldl (fun s a => apiCall a s) s calls).
Proof.
  revert s. induction calls as [|a l IH]; intros s; simpl; [apply grows_refl|].
  eapply grows_trans; [apply grows_apiCall|apply IH].
Qed.

Lemma grows_invoke i calls s : own s i → grows s (invoke i calls s).
Proof.
  intros Ho. unfold invoke. eapply grows_trans; [|apply grows_calls].
  split_and!; [done|done|]. intros i' Hi. simpl in Hi.
  apply elem_of_cons in Hi as [[= ->]|Hi]; [by right|by left].
Qed.

Lemma grows_mqgetCallback c r s : (c < nextRef s)%nat → grows s (mqgetCallback c r s).
Proof.
  intros Hc.
  assert (grows s (unlock (hConnOf (object (store s c))) s)) as Hu by by apply grows_same.
  assert (nextRef (unlock (hConnOf (object (store s c))) s) = nextRef s) as Hn by done.
  eapply grows_trans; [exact Hu|]. rewrite <- Hn in Hc. clear Hu Hn.
  destruct (mqgetCallback_cases c r s) as [E|[E|[E|E]]]; rewrite E; clear E;
    revert Hc; generalize (unlock (hConnOf (object (store s c))) s); intros u Hc.
  - unfold onTruncated. cbv zeta. by repeat peel.
  - unfold onNoMessage. case_match; [by repeat peel|apply grows_pollHobjs].
  - unfold onFailure. cbv zeta.
    eapply grows_trans; [|apply grows_pollHobjs]. peel.
    eapply grows_trans; [|apply grows_invoke; intros c' [= <-]; by st].
    by repeat peel.
  - rewrite onMessage_delivered. cbv zeta.
    assert (grows u (delivered c r u)) as Hd.
    { unfold delivered. cbv zeta. do 6 peel.
      eapply grows_trans; [|apply grows_invoke; intros c' [= <-]; by st].
      by repeat peel. }
    eapply grows_trans; [exact Hd|].
    case_match; [by repeat peel|apply grows_pollHobjs].
Qed.

Lemma grows_step e s s' : step e s = Some s' → Inv s → grows s s'.
Proof.
  intros Hst HI. destruct e as [dt|a|hc|i r|]; simpl in Hst.
  - case_match; simplify_eq. by apply grows_same.
  - simplify_eq. apply grows_apiCall.
  - simplify_eq. unfold verbInternal. case_match; by apply grows_same.
  - destruct (pending s !! i) as [[d j]|] eqn:Hi; [|done]. case_match; simplify_eq.
    assert (grows s (set_pending (delete i (pending s)) s)) as Hu by by apply grows_same.
    eapply grows_trans; [exact Hu|].
    destruct j as [|h|c md gmo|c md gmo call|hc|hc]; simpl.
    + apply grows_pollAllHConns.
    + apply grows_pollPerHconn.
    + apply grows_pollHObjInternal.
    + apply grows_mqgetCallback. simpl.
      apply (pre_refs_pending _ _ HI d (JMQGET c md gmo call)); [|done].
      by eapply list_elem_of_lookup_2.
    + unfold verbInternal. case_match; by apply grows_same.
    + by apply grows_same.
  - case_match; simplify_eq. by apply grows_same.
Qed.

Lemma grows_run es s : Inv s → grows s (run es s).
Proof.
  revert s. induction es as [|e es IH]; intros s HI; simpl; [apply grows_refl|].
  destruct (step e s) as [s'|] eqn:Hst; simpl; [|by apply IH].
  eapply grows_trans; [by eapply grows_step|]. apply IH. by eapply Inv_step.
Qed.

Lemma Owned_reachable t s : reachable t s → Owned s.
Proof.
  induction 1 as [now rs|s e s' Hr IH Hs].
  - intros i Hi. by apply elem_of_nil in Hi.
  - eapply Owned_grows; [|done]. eapply grows_step; [done|by eapply Inv_reachable].
Qed.

(** X27: a callback is only ever invoked for its own context.  In every
    reachable state each recorded invocation that names a context was made
    with the callback and the object of that context; the callback and the
    object of a context never change afterwards, whatever happens; and they
    are the ones [Get] was called with. *)
Theorem callbacks_get_their_own_object (t : TuningParameters) (s : State) :
  reachable t s →
  (∀ i c, ObsCall i ∈ trace s → inv_ctx i = Some c →
     (c < nextRef s)%nat
     ∧ inv_cb i = cb (store s c)
     ∧ inv_object i = Some (object (store s c)))
  ∧ (∀ es c, (c < nextRef s)%nat →
     cb (store (run es s) c) = cb (store s c)
     ∧ object (store (run es s) c) = object (store s c))
  ∧ (∀ o md gmo f,
     cb (store (Get o md gmo f s) (nextRef s)) = f
     ∧ object (store (Get o md gmo f s) (nextRef s)) = o).
Proof.
  intros Hr. split_and!.
  - intros i c Hi Hc. by apply (Owned_reachable t s Hr i Hi c).
  - intros es c Hc.
    destruct (grows_run es s (Inv_reachable t s Hr)) as (_ & Hk & _). by apply Hk.
  - intros o md gmo f. destruct (Get_registers o md gmo f s) as [_ ->]. done.
Qed.

Lemma callbacks_get_their_own_object_witness :
  ∃ i, head (trace (run grownThenDelivered loaded)) = Some (ObsCall i)
       ∧ inv_ctx i = Some 0%nat
       ∧ inv_cb i = 7%nat
       ∧ inv_object i = Some queueA.
Proof.
  destruct (callbacks_get_their_own_object tuningDefault (run grownThenDelivered loaded)
              (reachable_loaded grownThenDelivered)) as (Hown & _ & _).
  eexists. split; [vm_compute; reflexivity|]. split; [reflexivity|].
  match goal with |- inv_cb ?i = _ ∧ _ =>
    destruct (Hown i 0%nat) as (_ & Hcb & Hob); [vm_compute; left|reflexivity|] end.
  split; [rewrite Hcb|rewrite Hob]; vm_compute; reflexivity.
Defined.

(** * Message properties *)

Lemma utf8_length_ge_aux (n : nat) (value : Props.JsString) :
  (length value ≤ n)%nat →
  (length value ≤ Props.utf8_length value)%nat
  ∧ (length value = Props.utf8_length value ↔ Forall (fun u => (u < 128)%N) value).
Proof.
  revert value. induction n as [|n IH]; intros [|u rest] Hn; simpl in *; try lia.
  - split; [done|]. split; [by constructor|done].
  - split; [done|]. split; [by constructor|done].
  - destruct (IH rest ltac:(lia)) as [Hle Hiff].
    destruct (N.ltb_spec u 128) as [Hu|Hu].
    + split; [lia|]. rewrite list.Forall_cons. split.
      * intros Heq. split; [done|]. apply Hiff. lia.
      * intros [_ Hall]. apply Hiff in Hall. lia.
    + assert (¬ Forall (fun u => (u < 128)%N) (u :: rest)) as Hnot.
      { rewrite list.Forall_cons. intros [Hu' _]. lia. }
      destruct (u <? 2048)%N; [split; [lia|split; [lia|done]]|].
      destruct ((55296 <=? u)%N && (u <? 56320)%N); [|split; [lia|split; [lia|done]]].
      destruct rest as [|v rest']; simpl in *; [split; [lia|split; [lia|done]]|].
      destruct (IH rest' ltac:(lia)) as [Hle' _].
      destruct ((56320 <=? v)%N && (v <? 57344)%N); split; try lia; split; try lia; done.
Qed.

(** X28: [SetMp] sorts the value by its type: a string is passed as
    [MQTYPE_STRING] with its UTF-8 bytes, a number as [MQTYPE_INT32] and a
    boolean as [MQTYPE_BOOLEAN] in a cell of four bytes, a [Buffer] as
    [MQTYPE_BYTE_STRING], [null] and [undefined] as [MQTYPE_NULL].  A
    number that the cell refuses (above 2147483647 or below -2147483648)
    ends [SetMp] with [RangeError], and any other object with an [MQError];
    both are thrown even when a callback is given, and [MQSETMP] is not
    called.  A number that is stored is passed as its whole part, [NaN] as
    0.  For a string the length passed is the number of UTF-16 code units,
    which is the number of bytes only when every character is ASCII and is
    smaller otherwise. *)
Theorem SetMp_passes_value_by_type `{Props.MQTypes} (jsQueueManager : MQQueueManager) (name : Props.JsString) (value : Props.MpValue) (cb : bool) (MQSETMP : Props.MQSETMPCall → Z * Z) :
  let calls type len ptr :=
    ∃ call, Props.SetMp jsQueueManager name value cb MQSETMP
            = Props.SetMpCalls call
                (Attrs.ending cb (MQSETMP call).1
                   (mkError (MQSETMP call).1 (MQSETMP call).2 "MQSETMP"))
      ∧ call = {| Props.setmp_hConn := _hConn jsQueueManager;
                  Props.setmp_name := name;
                  Props.setmp_type := type;
                  Props.setmp_len := len;
                  Props.setmp_ptr := ptr |} in
  match value with
  | Props.MpString v =>
      calls Props.MQTYPE_STRING (Z.of_nat (length v)) (Props.PBuffer (Props.utf8_length v))
      ∧ (length v ≤ Props.utf8_length v)%nat
      ∧ (length v = Props.utf8_length v ↔ Forall (fun u => (u < 128)%N) v)
  | Props.MpNumber v =>
      match writeInt32 v with
      | Some z => calls Props.MQTYPE_INT32 4 (Props.PLong z)
      | None =>
          Props.SetMp jsQueueManager name value cb MQSETMP
          = Props.SetMpThrows Props.RangeError
      end
      ∧ (∀ z, v = JsNum_of_Z z →
           writeInt32 v = if (2147483647 <? z) || (z <? -2147483648) then None else Some z)
      ∧ (v = JsNaN → writeInt32 v = Some 0)
  | Props.MpBoolean v =>
      calls Props.MQTYPE_BOOLEAN 4 (Props.PLong (if v then 1 else 0))
  | Props.MpBuffer n => calls Props.MQTYPE_BYTE_STRING (Z.of_nat n) (Props.PBuffer n)
  | Props.MpNullish => calls Props.MQTYPE_NULL 0 Props.PNull
  | Props.MpObject =>
      Props.SetMp jsQueueManager name value cb MQSETMP
      = Props.SetMpThrows
          (Props.PropertyTypeError
             (mkError MQC.MQCC_FAILED Props.MQRC_PROPERTY_TYPE_ERROR "MQSETMP"))
  end.
Proof.
  cbv zeta.
  assert (∀ type len ptr, Props.setmp_value value = inr (type, len, ptr) →
    ∃ call, Props.SetMp jsQueueManager name value cb MQSETMP
            = Props.SetMpCalls call
                (Attrs.ending cb (MQSETMP call).1
                   (mkError (MQSETMP call).1 (MQSETMP call).2 "MQSETMP"))
      ∧ call = {| Props.setmp_hConn := _hConn jsQueueManager;
                  Props.setmp_name := name;
                  Props.setmp_type := type;
                  Props.setmp_len := len;
                  Props.setmp_ptr := ptr |}) as Hcalls.
  { intros type len ptr E. unfold Props.SetMp. rewrite E.
    destruct (MQSETMP _) as [jsCc jsRc] eqn:Ec. eexists. split; [|done].
    by rewrite Ec. }
  destruct value as [v|v|v|n| |]; try (by apply Hcalls); [| |done].
  - split; [by apply Hcalls|]. by apply (utf8_length_ge_aux (length v)).
  - split_and!.
    + destruct (writeInt32 v) as [z|] eqn:Ez.
      * apply Hcalls. simpl. by rewrite Ez.
      * unfold Props.SetMp. simpl. by rewrite Ez.
    + intros z ->. unfold writeInt32, JsNum_of_Z. simpl. by rewrite Z.mul_1_r.
    + by intros ->.
Qed.

(** The numbers 2147483648 and 1.5, and 7. *)
Lemma SetMp_passes_value_by_type_witness :
  @Props.SetMp Props.sampleTypes QM1 [] (Props.MpNumber (JsNum_of_Z 2147483648)) true
     (fun _ => (0, 0))
  = Props.SetMpThrows Props.RangeError
  ∧ writeInt32 oneAndAHalf = Some 1
  ∧ writeInt32 (JsNum_of_Z 7) = Some 7.
Proof.
  pose proof (@SetMp_passes_value_by_type Props.sampleTypes QM1 []
                (Props.MpNumber (JsNum_of_Z 2147483648)) true (fun _ => (0, 0))) as Hbig.
  cbv zeta in Hbig. destruct Hbig as (Hbig & _).
  split; [exact Hbig|]. split; reflexivity.
Defined.

(** * Message properties: what [InqMp] reads *)

Lemma signed_range bits u :
  0 < bits → 0 ≤ u < 2 ^ bits →
  - 2 ^ (bits - 1) ≤ Inquire.signed bits u < 2 ^ (bits - 1).
Proof.
  intros Hb Hu. unfold Inquire.signed.
  assert (2 ^ bits = 2 * 2 ^ (bits - 1)) as E.
  { rewrite <- Z.pow_succ_r by lia. f_equal. lia. }
  destruct (Z.ltb_spec u (2 ^ (bits - 1))); lia.
Qed.

Lemma signed_mod bits z :
  0 < bits → - 2 ^ (bits - 1) ≤ z < 2 ^ (bits - 1) →
  Inquire.signed bits (z mod 2 ^ bits) = z.
Proof.
  intros Hb Hz. unfold Inquire.signed.
  assert (2 ^ bits = 2 * 2 ^ (bits - 1)) as E.
  { rewrite <- Z.pow_succ_r by lia. f_equal. lia. }
  assert (0 < 2 ^ (bits - 1)) as Hp by (apply Z.pow_pos_nonneg; lia).
  destruct (Z.ltb_spec 0 (z + 1)) as [Hpos|Hneg].
  - rewrite Z.mod_small by lia. destruct (Z.ltb_spec z (2 ^ (bits - 1))); lia.
  - assert (z mod 2 ^ bits = z + 2 ^ bits) as ->.
    { symmetry. apply (Z.mod_unique_pos _ _ (-1)); lia. }
    destruct (Z.ltb_spec (z + 2 ^ bits) (2 ^ (bits - 1))); lia.
Qed.

Lemma le_bytes_4 z :
  Inquire.le_bytes 4 z
  = [z mod 256; z / 256 mod 256; z / 256 / 256 mod 256; z / 256 / 256 / 256 mod 256].
Proof. reflexivity. Qed.

Lemma le_bytes_value_4 z :
  z mod 256 + (z / 256 mod 256) * 2 ^ 8 + (z / 256 / 256 mod 256) * 2 ^ 16
  + (z / 256 / 256 / 256 mod 256) * 2 ^ 24 = z mod 2 ^ 32.
Proof.
  change (2 ^ 32) with (256 * (256 * (256 * 256))).
  rewrite !Z.rem_mul_r by lia. change (2 ^ 8) with 256. change (2 ^ 16) with (256 * 256).
  change (2 ^ 24) with (256 * 256 * 256). lia.
Qed.

Lemma signed_zero u : 0 ≤ u < 2 ^ 32 → Inquire.signed 32 u = 0 ↔ u = 0.
Proof.
  intros Hu. unfold Inquire.signed. destruct (Z.ltb_spec u (2 ^ (32 - 1))); lia.
Qed.

Lemma types_distinct (t t' : Z) (l1 l2 l3 : list Z) :
  NoDup (l1 ++ t :: l2 ++ t' :: l3) → t ≠ t'.
Proof.
  intros Hnd ->. apply list.NoDup_app in Hnd as (_ & _ & Hnd).
  apply list.NoDup_cons in Hnd as [Hin _]. apply Hin.
  apply elem_of_app. right. by left.
Qed.

(** The [switch] of [InqMp] at each integer type, where the type constants
    are distinct, and what each read makes of the bytes. *)
Section Decode.
Context `{Inquire.MQTypes}.
Variables (le : bool) (jsPropsLen : Z) (rest : Inquire.Buffer).
Hypothesis Hnd :
  NoDup [Inquire.MQTYPE_NULL; Inquire.MQTYPE_INT8; Inquire.MQTYPE_INT16;
         Inquire.MQTYPE_INT32; Inquire.MQTYPE_STRING; Inquire.MQTYPE_BOOLEAN].

Lemma decode_INT32 : Inquire.decode Inquire.MQTYPE_INT32 le jsPropsLen
          = fun v => Inquire.MpNumber
                       <$> (if le then Inquire.readInt32LE v else Inquire.readInt32BE v).
Proof.
  pose proof (types_distinct Inquire.MQTYPE_NULL Inquire.MQTYPE_INT32 [] [_; _] _ Hnd) as H03.
  pose proof (types_distinct Inquire.MQTYPE_INT8 Inquire.MQTYPE_INT32 [_] [_] _ Hnd) as H13.
  pose proof (types_distinct Inquire.MQTYPE_INT16 Inquire.MQTYPE_INT32 [_; _] [] _ Hnd) as H23.
  assert (∀ a b : Z, a ≠ b → (b =? a) = false) as Hne by (intros a b ?; apply Z.eqb_neq; lia).
  unfold Inquire.decode. by rewrite (Hne _ _ H03), (Hne _ _ H13), (Hne _ _ H23), Z.eqb_refl.
Qed.

Lemma decode_BOOLEAN : Inquire.decode Inquire.MQTYPE_BOOLEAN le jsPropsLen
          = fun v => (fun x => Inquire.MpBoolean (negb (x =? 0)))
                       <$> (if le then Inquire.readInt32LE v else Inquire.readInt32BE v).
Proof.
  pose proof (types_distinct Inquire.MQTYPE_NULL Inquire.MQTYPE_BOOLEAN [] [_; _; _; _] _ Hnd)
    as H05.
  pose proof (types_distinct Inquire.MQTYPE_INT8 Inquire.MQTYPE_BOOLEAN [_] [_; _; _] _ Hnd)
    as H15.
  pose proof (types_distinct Inquire.MQTYPE_INT16 Inquire.MQTYPE_BOOLEAN [_; _] [_; _] _ Hnd)
    as H25.
  pose proof (types_distinct Inquire.MQTYPE_INT32 Inquire.MQTYPE_BOOLEAN [_; _; _] [_] _ Hnd)
    as H35.
  pose proof (types_distinct Inquire.MQTYPE_STRING Inquire.MQTYPE_BOOLEAN [_; _; _; _] [] _ Hnd)
    as H45.
  assert (∀ a b : Z, a ≠ b → (b =? a) = false) as Hne by (intros a b ?; apply Z.eqb_neq; lia).
  unfold Inquire.decode.
    by rewrite (Hne _ _ H05), (Hne _ _ H15), (Hne _ _ H25), (Hne _ _ H35), (Hne _ _ H45),
      Z.eqb_refl.
Qed.

Lemma decode_le_bytes_4 : (∀ z, - 2 ^ 31 ≤ z < 2 ^ 31 →
     Inquire.decode Inquire.MQTYPE_INT32 le jsPropsLen
       ((if le then Inquire.le_bytes 4 z else rev (Inquire.le_bytes 4 z)) ++ rest)
     = Some (Inquire.MpNumber z)).
Proof.
  rewrite decode_INT32.
  intros z Hz. rewrite le_bytes_4. destruct le; simpl.
    + rewrite le_bytes_value_4. by rewrite (signed_mod 32 z) by lia.
    + replace (z / 256 / 256 / 256 mod 256 * 2 ^ 24 + z / 256 / 256 mod 256 * 2 ^ 16
               + z / 256 mod 256 * 2 ^ 8 + z mod 256) with (z mod 2 ^ 32)
        by (rewrite <- le_bytes_value_4; lia).
      by rewrite (signed_mod 32 z) by lia.
Qed.

Lemma decode_boolean_bytes : (∀ b0 b1 b2 b3,
     Inquire.is_byte b0 → Inquire.is_byte b1 → Inquire.is_byte b2 → Inquire.is_byte b3 →
     Inquire.decode Inquire.MQTYPE_BOOLEAN le jsPropsLen (b0 :: b1 :: b2 :: b3 :: rest)
     = Some (Inquire.MpBoolean
               (negb ((b0 =? 0) && (b1 =? 0) && (b2 =? 0) && (b3 =? 0))))).
Proof.
  rewrite decode_BOOLEAN.
  intros b0 b1 b2 b3 H0 H1 H2 H3. unfold Inquire.is_byte in *.
    assert (∀ u, 0 ≤ u < 2 ^ 32 → (u = 0 ↔ b0 = 0 ∧ b1 = 0 ∧ b2 = 0 ∧ b3 = 0) →
            negb (Inquire.signed 32 u =? 0)
            = negb ((b0 =? 0) && (b1 =? 0) && (b2 =? 0) && (b3 =? 0))) as Hall.
    { intros u Hu Hiff. f_equal. apply eq_true_iff_eq.
      rewrite !andb_true_iff, !Z.eqb_eq, (signed_zero u Hu). tauto. }
    destruct le; simpl; f_equal; f_equal; apply Hall; lia.
Qed.

Lemma decode_short : (∀ valuePtr, (length valuePtr < 4)%nat →
     Inquire.decode Inquire.MQTYPE_INT32 le jsPropsLen valuePtr = None
     ∧ Inquire.decode Inquire.MQTYPE_BOOLEAN le jsPropsLen valuePtr = None).
Proof.
  rewrite decode_INT32, decode_BOOLEAN.
  intros valuePtr Hlen.
    destruct valuePtr as [|b0 [|b1 [|b2 [|b3 ?]]]]; simpl in Hlen; try lia;
      by destruct le.
Qed.
Lemma decode_INT16 : Inquire.decode Inquire.MQTYPE_INT16 le jsPropsLen
          = fun v => Inquire.MpNumber
                       <$> (if le then Inquire.readInt16LE v else Inquire.readInt16BE v).
Proof.
  pose proof (types_distinct Inquire.MQTYPE_NULL Inquire.MQTYPE_INT16 [] [_] _ Hnd) as H02.
  pose proof (types_distinct Inquire.MQTYPE_INT8 Inquire.MQTYPE_INT16 [_] [] _ Hnd) as H12.
  assert (∀ a b : Z, a ≠ b → (b =? a) = false) as Hne by (intros a b ?; apply Z.eqb_neq; lia).
  unfold Inquire.decode. by rewrite (Hne _ _ H02), (Hne _ _ H12), Z.eqb_refl.
Qed.

Lemma decode_INT8 : Inquire.decode Inquire.MQTYPE_INT8 le jsPropsLen
          = fun v => Inquire.MpNumber <$> Inquire.readInt8 v.
Proof.
  pose proof (types_distinct Inquire.MQTYPE_NULL Inquire.MQTYPE_INT8 [] [] _ Hnd) as H01.
  assert (∀ a b : Z, a ≠ b → (b =? a) = false) as Hne by (intros a b ?; apply Z.eqb_neq; lia).
  unfold Inquire.decode. by rewrite (Hne _ _ H01), Z.eqb_refl.
Qed.

Lemma decode_le_bytes_2 : (∀ z, - 2 ^ 15 ≤ z < 2 ^ 15 →
     Inquire.decode Inquire.MQTYPE_INT16 le jsPropsLen
       ((if le then Inquire.le_bytes 2 z else rev (Inquire.le_bytes 2 z)) ++ rest)
     = Some (Inquire.MpNumber z)).
Proof.
  rewrite decode_INT16.
  intros z Hz.
    assert (z mod 256 + z / 256 mod 256 * 2 ^ 8 = z mod 2 ^ 16) as E.
    { change (2 ^ 16) with (256 * 256). rewrite Z.rem_mul_r by lia. change (2 ^ 8) with 256. lia. }
    destruct le; simpl.
    + rewrite E. by rewrite (signed_mod 16 z) by lia.
    + replace (z / 256 mod 256 * 2 ^ 8 + z mod 256) with (z mod 2 ^ 16) by lia.
      by rewrite (signed_mod 16 z) by lia.
Qed.

Lemma decode_le_bytes_1 : (∀ z, - 2 ^ 7 ≤ z < 2 ^ 7 →
     Inquire.decode Inquire.MQTYPE_INT8 le jsPropsLen (Inquire.le_bytes 1 z ++ rest)
     = Some (Inquire.MpNumber z)).
Proof.
  rewrite decode_INT8.
  intros z Hz. simpl. change 256 with (2 ^ 8). by rewrite (signed_mod 8 z) by lia.
Qed.
End Decode.

(** X29: what [InqMp] makes of the bytes of the value buffer, where the
    type constants are distinct.  An [MQTYPE_INT32], [MQTYPE_INT16] or
    [MQTYPE_INT8] property whose bytes are those of the integer [z] in the
    byte order of [ReturnedEncoding] is handed out as [z]; an
    [MQTYPE_BOOLEAN] property is [true] exactly when one of its four bytes
    is not zero, in either byte order; a value buffer of fewer than four
    bytes makes the read of an [MQTYPE_INT32] or [MQTYPE_BOOLEAN] property
    fail. *)
Theorem InqMp_reads_integers `{Inquire.MQTypes} (le : bool) (jsPropsLen : Z) (rest : Inquire.Buffer) :
  NoDup [Inquire.MQTYPE_NULL; Inquire.MQTYPE_INT8; Inquire.MQTYPE_INT16;
         Inquire.MQTYPE_INT32; Inquire.MQTYPE_STRING; Inquire.MQTYPE_BOOLEAN] →
  (∀ z, - 2 ^ 31 ≤ z < 2 ^ 31 →
     Inquire.decode Inquire.MQTYPE_INT32 le jsPropsLen
       ((if le then Inquire.le_bytes 4 z else rev (Inquire.le_bytes 4 z)) ++ rest)
     = Some (Inquire.MpNumber z))
  ∧ (∀ z, - 2 ^ 15 ≤ z < 2 ^ 15 →
     Inquire.decode Inquire.MQTYPE_INT16 le jsPropsLen
       ((if le then Inquire.le_bytes 2 z else rev (Inquire.le_bytes 2 z)) ++ rest)
     = Some (Inquire.MpNumber z))
  ∧ (∀ z, - 2 ^ 7 ≤ z < 2 ^ 7 →
     Inquire.decode Inquire.MQTYPE_INT8 le jsPropsLen (Inquire.le_bytes 1 z ++ rest)
     = Some (Inquire.MpNumber z))
  ∧ (∀ b0 b1 b2 b3,
     Inquire.is_byte b0 → Inquire.is_byte b1 → Inquire.is_byte b2 → Inquire.is_byte b3 →
     Inquire.decode Inquire.MQTYPE_BOOLEAN le jsPropsLen (b0 :: b1 :: b2 :: b3 :: rest)
     = Some (Inquire.MpBoolean
               (negb ((b0 =? 0) && (b1 =? 0) && (b2 =? 0) && (b3 =? 0)))))
  ∧ (∀ valuePtr, (length valuePtr < 4)%nat →
     Inquire.decode Inquire.MQTYPE_INT32 le jsPropsLen valuePtr = None
     ∧ Inquire.decode Inquire.MQTYPE_BOOLEAN le jsPropsLen valuePtr = None).
Proof.
  intros Hnd. split_and!.
  - by apply decode_le_bytes_4.
  - by apply decode_le_bytes_2.
  - by apply decode_le_bytes_1.
  - by apply decode_boolean_bytes.
  - by apply decode_short.
Qed.

Lemma InqMp_reads_integers_witness :
  @Inquire.decode Inquire.sampleTypes 64 true 4 [254; 255; 255; 255]
  = Some (Inquire.MpNumber (-2))
  ∧ @Inquire.decode Inquire.sampleTypes 64 false 4 [255; 255; 255; 254]
    = Some (Inquire.MpNumber (-2)).
Proof.
  assert (NoDup [2; 16; 32; 64; 1024; 4]) as Hnd
    by (apply (bool_decide_unpack _); vm_compute; exact I).
  split.
  - exact (proj1 (@InqMp_reads_integers Inquire.sampleTypes true 4 [] Hnd) (-2)
             ltac:(lia)).
  - exact (proj1 (@InqMp_reads_integers Inquire.sampleTypes false 4 [] Hnd) (-2)
             ltac:(lia)).
Defined.

(** * A context that is replaced *)

Section Spares.
Variable c : CtxRef.






















End Spares.


(** ** The registry and the replaced context *)




